(** * Frame-transfer and buffer-lifecycle engine

    A shallow embedding of two pieces of the repository:

    - the slot pool, the inference mailbox and the capture loop of
      [ARM/fpga_lpr_display.c] ([release_slot_ticket],
      [acquire_free_slot], [push_latest_to_infer],
      [build_frame_buffer] and the loop body of [main]);
    - the chunked DMA engine of the kernel driver
      ([fpga_dma_perform_transfer]) with the register layout of
      [pcie_fpga_dma.h].

    Parts III to VII go on from these two to what surrounds them:
    the pixels, boxes and overlay of the application, the ioctl layer
    of the driver and its two callers, runs of the mailbox and of the
    capture loop, the options, the labels and the start of [main],
    the test tool [ARM/fpga_dma_test.c], and the detections of the
    inference worker, whose [float] arithmetic is left open.  Part
    VIII reads the chunks of a transfer off the three registers of
    the device and keeps track of who holds [infer_lock].

    The code is effectful, so each function is a state transformer
    that also records what it does to the outside: the user-space
    code as a small monad over [app_ctx] with a trace of events, the
    driver as a function on a world made of the DMA buffer, the
    [jiffies] counter and the log of its own steps.  What the code
    cannot decide (the clock, the other threads, the libraries, the
    device) is an argument of the model.

    Unsigned C integers are [Z] with the wrap-around written out
    ([u64], [u32]); the kernel's [int] arithmetic wraps ([s32]) because
    the kernel is built with wrapping signed overflow.  User-space
    [int64_t] microsecond clocks are plain [Z]: they stay far away from
    the ends of the 64-bit range.

    The definitions come first, then the proofs, then runs of the
    model and the statements at concrete inputs. *)

From Stdlib Require Import Ascii String.
From Stdlib Require Import ZArith Lia List Bool.
From stdpp Require Import base list.
Import ListNotations.
Open Scope Z_scope.

Definition u64 (z : Z) : Z := z mod 2 ^ 64.
Definition u32 (z : Z) : Z := z mod 2 ^ 32.
Definition s32 (z : Z) : Z := (z + 2 ^ 31) mod 2 ^ 32 - 2 ^ 31.
Definition s64 (z : Z) : Z := (z + 2 ^ 63) mod 2 ^ 64 - 2 ^ 63.

(** ** Part I: the slot pool of [fpga_lpr_display.c] *)

(** [struct frame_slot]: the backing buffer, the in-use flag and the
    generation counter ([uint64_t]). *)
Record frame_slot := mk_slot {
  slot_data : list Z;
  slot_in_use : bool;
  slot_generation : Z
}.

(** [struct slot_ticket]: [int idx; uint64_t generation]. *)
Record slot_ticket := mk_ticket {
  ticket_idx : Z;
  ticket_generation : Z
}.

(** The fields of [struct app_ctx] that the pool, the mailbox and the
    capture loop touch. *)
Record app_ctx := mk_ctx {
  opt_timeout_ms : Z;
  opt_fps : Z;
  opt_swap16 : bool;
  frame_size : Z;
  dma_copy : list Z;
  slots : list frame_slot;
  slot_count : Z;
  running : bool;
  captured_frames : Z;
  pushed_frames : Z;
  released_frames : Z;
  next_pts_ns : Z;
  slot_wait_timeout_count : Z;
  infer_overwrite_count : Z;
  infer_latest_raw : list Z;
  infer_has_new : bool;
  infer_frame_seq : Z
}.

(** Field updates, one per field the code assigns. *)
Definition set_dma_copy (v : list Z) (c : app_ctx) : app_ctx :=
  mk_ctx (opt_timeout_ms c) (opt_fps c) (opt_swap16 c) (frame_size c) v
    (slots c) (slot_count c) (running c) (captured_frames c)
    (pushed_frames c) (released_frames c) (next_pts_ns c)
    (slot_wait_timeout_count c) (infer_overwrite_count c)
    (infer_latest_raw c) (infer_has_new c) (infer_frame_seq c).

Definition set_slots (v : list frame_slot) (c : app_ctx) : app_ctx :=
  mk_ctx (opt_timeout_ms c) (opt_fps c) (opt_swap16 c) (frame_size c)
    (dma_copy c) v (slot_count c) (running c) (captured_frames c)
    (pushed_frames c) (released_frames c) (next_pts_ns c)
    (slot_wait_timeout_count c) (infer_overwrite_count c)
    (infer_latest_raw c) (infer_has_new c) (infer_frame_seq c).

Definition set_slot_count (v : Z) (c : app_ctx) : app_ctx :=
  mk_ctx (opt_timeout_ms c) (opt_fps c) (opt_swap16 c) (frame_size c)
    (dma_copy c) (slots c) v (running c) (captured_frames c)
    (pushed_frames c) (released_frames c) (next_pts_ns c)
    (slot_wait_timeout_count c) (infer_overwrite_count c)
    (infer_latest_raw c) (infer_has_new c) (infer_frame_seq c).

Definition set_running (v : bool) (c : app_ctx) : app_ctx :=
  mk_ctx (opt_timeout_ms c) (opt_fps c) (opt_swap16 c) (frame_size c)
    (dma_copy c) (slots c) (slot_count c) v (captured_frames c)
    (pushed_frames c) (released_frames c) (next_pts_ns c)
    (slot_wait_timeout_count c) (infer_overwrite_count c)
    (infer_latest_raw c) (infer_has_new c) (infer_frame_seq c).

Definition set_captured_frames (v : Z) (c : app_ctx) : app_ctx :=
  mk_ctx (opt_timeout_ms c) (opt_fps c) (opt_swap16 c) (frame_size c)
    (dma_copy c) (slots c) (slot_count c) (running c) v (pushed_frames c)
    (released_frames c) (next_pts_ns c) (slot_wait_timeout_count c)
    (infer_overwrite_count c) (infer_latest_raw c) (infer_has_new c)
    (infer_frame_seq c).

Definition set_pushed_frames (v : Z) (c : app_ctx) : app_ctx :=
  mk_ctx (opt_timeout_ms c) (opt_fps c) (opt_swap16 c) (frame_size c)
    (dma_copy c) (slots c) (slot_count c) (running c) (captured_frames c)
    v (released_frames c) (next_pts_ns c) (slot_wait_timeout_count c)
    (infer_overwrite_count c) (infer_latest_raw c) (infer_has_new c)
    (infer_frame_seq c).

Definition set_released_frames (v : Z) (c : app_ctx) : app_ctx :=
  mk_ctx (opt_timeout_ms c) (opt_fps c) (opt_swap16 c) (frame_size c)
    (dma_copy c) (slots c) (slot_count c) (running c) (captured_frames c)
    (pushed_frames c) v (next_pts_ns c) (slot_wait_timeout_count c)
    (infer_overwrite_count c) (infer_latest_raw c) (infer_has_new c)
    (infer_frame_seq c).

Definition set_next_pts_ns (v : Z) (c : app_ctx) : app_ctx :=
  mk_ctx (opt_timeout_ms c) (opt_fps c) (opt_swap16 c) (frame_size c)
    (dma_copy c) (slots c) (slot_count c) (running c) (captured_frames c)
    (pushed_frames c) (released_frames c) v (slot_wait_timeout_count c)
    (infer_overwrite_count c) (infer_latest_raw c) (infer_has_new c)
    (infer_frame_seq c).

Definition set_slot_wait_timeout_count (v : Z) (c : app_ctx) : app_ctx :=
  mk_ctx (opt_timeout_ms c) (opt_fps c) (opt_swap16 c) (frame_size c)
    (dma_copy c) (slots c) (slot_count c) (running c) (captured_frames c)
    (pushed_frames c) (released_frames c) (next_pts_ns c) v
    (infer_overwrite_count c) (infer_latest_raw c) (infer_has_new c)
    (infer_frame_seq c).

Definition set_infer_overwrite_count (v : Z) (c : app_ctx) : app_ctx :=
  mk_ctx (opt_timeout_ms c) (opt_fps c) (opt_swap16 c) (frame_size c)
    (dma_copy c) (slots c) (slot_count c) (running c) (captured_frames c)
    (pushed_frames c) (released_frames c) (next_pts_ns c)
    (slot_wait_timeout_count c) v (infer_latest_raw c) (infer_has_new c)
    (infer_frame_seq c).

Definition set_infer_latest_raw (v : list Z) (c : app_ctx) : app_ctx :=
  mk_ctx (opt_timeout_ms c) (opt_fps c) (opt_swap16 c) (frame_size c)
    (dma_copy c) (slots c) (slot_count c) (running c) (captured_frames c)
    (pushed_frames c) (released_frames c) (next_pts_ns c)
    (slot_wait_timeout_count c) (infer_overwrite_count c) v
    (infer_has_new c) (infer_frame_seq c).

Definition set_infer_has_new (v : bool) (c : app_ctx) : app_ctx :=
  mk_ctx (opt_timeout_ms c) (opt_fps c) (opt_swap16 c) (frame_size c)
    (dma_copy c) (slots c) (slot_count c) (running c) (captured_frames c)
    (pushed_frames c) (released_frames c) (next_pts_ns c)
    (slot_wait_timeout_count c) (infer_overwrite_count c)
    (infer_latest_raw c) v (infer_frame_seq c).

Definition set_infer_frame_seq (v : Z) (c : app_ctx) : app_ctx :=
  mk_ctx (opt_timeout_ms c) (opt_fps c) (opt_swap16 c) (frame_size c)
    (dma_copy c) (slots c) (slot_count c) (running c) (captured_frames c)
    (pushed_frames c) (released_frames c) (next_pts_ns c)
    (slot_wait_timeout_count c) (infer_overwrite_count c)
    (infer_latest_raw c) (infer_has_new c) v.

(** *** Effects

    What a thread does to the shared state is a state transformer over
    [app_ctx]; what it does to the outside (mutexes, condition
    variables, the clock, each access to an entry of the [slots]
    array) is recorded, in program order, in a trace.  Indexing
    [ctx->slots] outside [0, length) is undefined behaviour and ends
    the run with [Undefined]; a wait that the schedule given to the
    model does not resolve ends it with [Starved]. *)

Inductive mutex_id := slots_lock | infer_lock | result_lock.
Inductive cond_id := slots_cond | infer_cond.
Inductive slot_field := f_data | f_in_use | f_generation.

Inductive event :=
| EvLock (m : mutex_id)
| EvUnlock (m : mutex_id)
| EvSignal (cv : cond_id)
| EvWait (cv : cond_id)
| EvWaitUntil (cv : cond_id) (wake_us : Z)
| EvMonoUs (now : Z)
| EvSlotRead (i : Z) (f : slot_field)
| EvSlotWrite (i : Z) (f : slot_field).

Inductive outcome (A : Type) : Type :=
| Done (a : A) (c : app_ctx) (tr : list event)
| Undefined
| Starved.
Arguments Done {A} a c tr.
Arguments Undefined {A}.
Arguments Starved {A}.

Definition prog (A : Type) : Type := app_ctx -> outcome A.

Definition ret {A} (a : A) : prog A := fun c => Done a c [].

Definition bind {A B} (m : prog A) (k : A -> prog B) : prog B :=
  fun c =>
    match m c with
    | Done a c1 tr1 =>
        match k a c1 with
        | Done b c2 tr2 => Done b c2 (tr1 ++ tr2)
        | Undefined => Undefined
        | Starved => Starved
        end
    | Undefined => Undefined
    | Starved => Starved
    end.

Notation "x <- m ;; k" := (bind m (fun x => k))
  (at level 100, m at level 99, k at level 200, right associativity).
Notation "m ;; k" := (bind m (fun _ => k))
  (at level 100, k at level 200, right associativity).

Definition emit (e : event) : prog unit := fun c => Done tt c [e].
Definition gets {A} (f : app_ctx -> A) : prog A := fun c => Done (f c) c [].
Definition modify (f : app_ctx -> app_ctx) : prog unit := fun c => Done tt (f c) [].
Definition when (b : bool) (m : prog unit) : prog unit := if b then m else ret tt.

(** [ctx->slots[i]] as an lvalue: defined only inside the array. *)
Definition slot_at (c : app_ctx) (i : Z) : option frame_slot :=
  if 0 <=? i then slots c !! Z.to_nat i else None.

Definition load_slot {A} (i : Z) (f : slot_field) (get : frame_slot -> A) : prog A :=
  fun c =>
    match slot_at c i with
    | Some s => Done (get s) c [EvSlotRead i f]
    | None => Undefined
    end.

Definition store_slot (i : Z) (f : slot_field) (upd : frame_slot -> frame_slot) : prog unit :=
  fun c =>
    match slot_at c i with
    | Some s => Done tt (set_slots (<[Z.to_nat i := upd s]> (slots c)) c) [EvSlotWrite i f]
    | None => Undefined
    end.

Definition with_in_use (b : bool) (s : frame_slot) : frame_slot :=
  mk_slot (slot_data s) b (slot_generation s).
Definition with_generation (g : Z) (s : frame_slot) : frame_slot :=
  mk_slot (slot_data s) (slot_in_use s) g.
Definition with_data (d : list Z) (s : frame_slot) : frame_slot :=
  mk_slot d (slot_in_use s) (slot_generation s).

(** [init_copy_slots]: [calloc] gives every slot a cleared flag and
    generation zero; each backing buffer has [frame_size] bytes. *)
Definition init_copy_slots (copy_buffers : Z) (c : app_ctx) : app_ctx :=
  set_slot_count copy_buffers
    (set_slots (replicate (Z.to_nat copy_buffers)
                  (mk_slot (replicate (Z.to_nat (frame_size c)) 0) false 0)) c).

(** [release_slot_ticket] *)
Definition release_slot_ticket (ticket : slot_ticket) (count_release : bool) : prog unit :=
  emit (EvLock slots_lock) ;;
  n <- gets slot_count ;;
  (if (0 <=? ticket_idx ticket) && (ticket_idx ticket <? n) then
     used <- load_slot (ticket_idx ticket) f_in_use slot_in_use ;;
     if used : bool then
       g <- load_slot (ticket_idx ticket) f_generation slot_generation ;;
       if g =? ticket_generation ticket then
         store_slot (ticket_idx ticket) f_in_use (with_in_use false) ;;
         when count_release (modify (fun c => set_released_frames (u64 (released_frames c + 1)) c)) ;;
         emit (EvSignal slots_cond)
       else ret tt
     else ret tt
   else ret tt) ;;
  emit (EvUnlock slots_lock).

(** The scan of [acquire_free_slot]: the [for] loop that runs under
    [slots_lock].  [n] counts the entries still to visit; a hit ends
    the critical section and the whole call. *)
Fixpoint scan_from (n : nat) (i : Z) : prog (option slot_ticket) :=
  match n with
  | O => ret None
  | S n' =>
      used <- load_slot i f_in_use slot_in_use ;;
      if negb used then
        store_slot i f_in_use (with_in_use true) ;;
        g <- load_slot i f_generation slot_generation ;;
        store_slot i f_generation (with_generation (u64 (g + 1))) ;;
        g' <- load_slot i f_generation slot_generation ;;
        emit (EvUnlock slots_lock) ;;
        ret (Some (mk_ticket i g'))
      else scan_from n' (i + 1)
  end.

Definition scan_free_slot : prog (option slot_ticket) :=
  emit (EvLock slots_lock) ;;
  n <- gets slot_count ;;
  scan_from (Z.to_nat n) 0.

(** [acquire_free_slot].  The clock and the other threads are the
    environment of the call: the schedule lists, for each time the
    scan finds nothing, what [mono_us] then returns and which
    [release_slot_ticket] calls other threads complete while this one
    is parked in [g_cond_wait_until] (the only place where it gives up
    [slots_lock] with the scan still to be repeated). *)
Record wakeup := mk_wakeup {
  wk_now : Z;
  wk_released : list (slot_ticket * bool)
}.

(** A call made by another thread: its effect on the shared state,
    without its events. *)
Definition quiet {A} (m : prog A) : prog A :=
  fun c =>
    match m c with
    | Done a c' _ => Done a c' []
    | Undefined => Undefined
    | Starved => Starved
    end.

Fixpoint others_release (rs : list (slot_ticket * bool)) : prog unit :=
  match rs with
  | [] => ret tt
  | r :: rs' => quiet (release_slot_ticket (fst r) (snd r)) ;; others_release rs'
  end.

Definition starve {A} : prog A := fun _ => Starved.

Fixpoint acquire_loop (sched : list wakeup) (deadline_us : Z) : prog (Z * slot_ticket) :=
  hit <- scan_free_slot ;;
  match hit with
  | Some t => ret (0, t)
  | None =>
      match sched with
      | [] => starve
      | w :: sched' =>
          emit (EvMonoUs (wk_now w)) ;;
          if wk_now w >=? deadline_us then
            emit (EvUnlock slots_lock) ;;
            modify (fun c => set_slot_wait_timeout_count (u64 (slot_wait_timeout_count c + 1)) c) ;;
            ret (-1, mk_ticket (-1) 0)
          else
            let wake_us :=
              if wk_now w + 20000 >? deadline_us then deadline_us else wk_now w + 20000 in
            emit (EvWaitUntil slots_cond wake_us) ;;
            others_release (wk_released w) ;;
            emit (EvUnlock slots_lock) ;;
            acquire_loop sched' deadline_us
      end
  end.

Definition acquire_free_slot (t0 : Z) (sched : list wakeup) : prog (Z * slot_ticket) :=
  emit (EvMonoUs t0) ;;
  timeout_ms <- gets opt_timeout_ms ;;
  acquire_loop sched (t0 + timeout_ms * 1000).

(** *** The inference mailbox *)

(** [memcpy(dst, src, n)] on byte lists. *)
Definition memcpy (dst src : list Z) (n : Z) : list Z :=
  take (Z.to_nat n) src ++ drop (Z.to_nat n) dst.

(** [push_latest_to_infer] *)
Definition push_latest_to_infer (raw : list Z) : prog unit :=
  emit (EvLock infer_lock) ;;
  has <- gets infer_has_new ;;
  when has (modify (fun c => set_infer_overwrite_count (u64 (infer_overwrite_count c + 1)) c)) ;;
  modify (fun c => set_infer_latest_raw (memcpy (infer_latest_raw c) raw (frame_size c)) c) ;;
  modify (fun c => set_infer_frame_seq (u64 (infer_frame_seq c + 1)) c) ;;
  modify (set_infer_has_new true) ;;
  emit (EvSignal infer_cond) ;;
  emit (EvUnlock infer_lock).

(** The critical section at the head of the loop of
    [infer_thread_main]: the frame and its sequence number are copied
    out under [infer_lock] and the flag is cleared; [None] is the
    [break] taken when [running] is off.  With nothing new the thread
    parks on [infer_cond]. *)
Definition infer_fetch : prog (option (list Z * Z)) :=
  emit (EvLock infer_lock) ;;
  r <- gets running ;;
  has <- gets infer_has_new ;;
  if r && negb has then
    emit (EvWait infer_cond) ;; starve
  else if negb r then
    emit (EvUnlock infer_lock) ;; ret None
  else
    raw <- gets infer_latest_raw ;;
    n <- gets frame_size ;;
    seq <- gets infer_frame_seq ;;
    modify (set_infer_has_new false) ;;
    emit (EvUnlock infer_lock) ;;
    ret (Some (take (Z.to_nat n) raw, seq)).

(** *** The display path and the capture loop *)

(** What the wrapped [GstBuffer] carries: the [frame_cookie] handed to
    [frame_release_notify], the presentation time and the duration. *)
Record gst_buffer := mk_buffer {
  buf_cookie : slot_ticket;
  buf_pts : Z;
  buf_duration : Z
}.

Definition GST_SECOND : Z := 1000000000.
Definition GST_FLOW_OK : Z := 0.

(** [frame_release_notify]: the release callback of a wrapped buffer. *)
Definition frame_release_notify (cookie : slot_ticket) : prog unit :=
  release_slot_ticket cookie true.

(** What the libraries and the other threads answer during one turn of
    the capture loop. *)
Record iter_env := mk_iter_env {
  ie_g_stop : bool;             (* the signal handler has set g_stop *)
  ie_bus_status : Z;            (* handle_bus_messages *)
  ie_dma_status : Z;            (* trigger_frame_dma *)
  ie_frame : list Z;            (* the bytes the ioctl left in dma_copy *)
  ie_t_acquire : Z;             (* mono_us() at the head of acquire_free_slot *)
  ie_sched : list wakeup;
  ie_overlay : list Z -> list Z; (* the boxes drawn by overlay_results_on_slot *)
  ie_cookie_ok : bool;          (* g_new0 returned a cookie *)
  ie_wrapped_ok : bool;         (* gst_buffer_new_wrapped_full returned a buffer *)
  ie_flow : Z;                  (* gst_app_src_push_buffer *)
  ie_notified : list slot_ticket (* release callbacks run by the renderer during the push *)
}.

(** [build_frame_buffer].  The code tests the cookie, so the model has
    the test; [g_new0] itself ends the process when it cannot
    allocate and does not return [NULL]. *)
Definition build_frame_buffer (e : iter_env) (ticket : slot_ticket) : prog (option gst_buffer) :=
  if negb (ie_cookie_ok e) then ret None
  else
    load_slot (ticket_idx ticket) f_data slot_data ;;
    if negb (ie_wrapped_ok e) then
      release_slot_ticket ticket false ;;
      ret None
    else
      pts <- gets next_pts_ns ;;
      fps <- gets opt_fps ;;
      if fps =? 0 then (fun _ => Undefined)
      else
        let duration := u64 (Z.quot GST_SECOND fps) in
        modify (set_next_pts_ns (u64 (pts + duration))) ;;
        ret (Some (mk_buffer ticket pts duration)).

Fixpoint swap16_bytes (src : list Z) : list Z :=
  match src with
  | a :: b :: rest => b :: a :: swap16_bytes rest
  | _ => []
  end.

(** [copy_frame_to_slot565], on the slot of the ticket. *)
Definition copy_frame_to_slot565 (i : Z) (src : list Z) : prog unit :=
  n <- gets frame_size ;;
  dst <- load_slot i f_data slot_data ;;
  swap <- gets opt_swap16 ;;
  if swap : bool then
    let sw := swap16_bytes (take (Z.to_nat n) src) in
    store_slot i f_data (with_data (sw ++ drop (length sw) dst))
  else
    store_slot i f_data (with_data (memcpy dst src n)).

Definition overlay_results_on_slot (e : iter_env) (i : Z) : prog unit :=
  emit (EvLock result_lock) ;;
  emit (EvUnlock result_lock) ;;
  d <- load_slot i f_data slot_data ;;
  store_slot i f_data (with_data (ie_overlay e d)).

Inductive loop_ctl := LoopContinue | LoopBreak.

(** The hand-over of an acquired slot to the display path: the last
    part of the loop body of [main], from [build_frame_buffer] on. *)
Definition dispatch_frame (e : iter_env) (ticket : slot_ticket) : prog loop_ctl :=
  buf <- build_frame_buffer e ticket ;;
  match buf with
  | None => ret LoopBreak
  | Some b =>
      others_release (map (fun t => (t, true)) (ie_notified e)) ;;
      if negb (ie_flow e =? GST_FLOW_OK) then
        release_slot_ticket ticket false ;;
        ret LoopBreak
      else
        modify (fun c => set_pushed_frames (u64 (pushed_frames c + 1)) c) ;;
        ret LoopContinue
  end.

(** One turn of [while (ctx.running)] in [main].  The statistics line
    and the pacing sleep at the end of the body do not touch the state
    modelled here. *)
Definition capture_iteration (e : iter_env) : prog loop_ctl :=
  when (ie_g_stop e) (modify (set_running false)) ;;
  r <- gets running ;;
  if negb r then ret LoopBreak
  else if ie_bus_status e <? 0 then
    modify (set_running false) ;; ret LoopBreak
  else if ie_dma_status e <? 0 then ret LoopBreak
  else
    modify (set_dma_copy (ie_frame e)) ;;
    modify (fun c => set_captured_frames (u64 (captured_frames c + 1)) c) ;;
    raw <- gets dma_copy ;;
    push_latest_to_infer raw ;;
    acq <- acquire_free_slot (ie_t_acquire e) (ie_sched e) ;;
    if fst acq <? 0 then ret LoopBreak
    else
      copy_frame_to_slot565 (ticket_idx (snd acq)) raw ;;
      overlay_results_on_slot e (ticket_idx (snd acq)) ;;
      dispatch_frame e (snd acq).

(** The loop itself: one environment per turn. *)
Fixpoint capture_loop (envs : list iter_env) : prog nat :=
  match envs with
  | [] => starve
  | e :: envs' =>
      ctl <- capture_iteration e ;;
      match ctl with
      | LoopBreak => ret O
      | LoopContinue => n <- capture_loop envs' ;; ret (S n)
      end
  end.

(** *** Interleavings of pool operations

    Under [slots_lock] the pool is touched in two kinds of atomic
    steps: the scan of an acquire and a release.  A system state pairs
    the context with the tickets that are valid: handed out by a scan
    and not yet matched by a release that took effect (such a release
    is the one that signals [slots_cond]). *)

Inductive pool_op :=
| OpAcquire
| OpRelease (t : slot_ticket) (count_release : bool).

Record pool_sys := mk_sys {
  sys_ctx : app_ctx;
  sys_valid : list slot_ticket
}.

Definition ticket_eqb (a b : slot_ticket) : bool :=
  (ticket_idx a =? ticket_idx b) && (ticket_generation a =? ticket_generation b).

Definition is_signal (e : event) : bool :=
  match e with EvSignal slots_cond => true | _ => false end.

Definition is_wait (e : event) : bool :=
  match e with EvWait _ | EvWaitUntil _ _ => true | _ => false end.

Definition pool_step (op : pool_op) (s : pool_sys) : option pool_sys :=
  match op with
  | OpAcquire =>
      match scan_free_slot (sys_ctx s) with
      | Done (Some t) c _ => Some (mk_sys c (t :: sys_valid s))
      | Done None c _ => Some (mk_sys c (sys_valid s))
      | _ => None
      end
  | OpRelease t b =>
      match release_slot_ticket t b (sys_ctx s) with
      | Done _ c tr =>
          Some (mk_sys c (if existsb is_signal tr
                          then List.filter (fun v => negb (ticket_eqb v t)) (sys_valid s)
                          else sys_valid s))
      | _ => None
      end
  end.

Fixpoint pool_run (ops : list pool_op) (s : pool_sys) : option pool_sys :=
  match ops with
  | [] => Some s
  | op :: ops' =>
      match pool_step op s with
      | Some s' => pool_run ops' s'
      | None => None
      end
  end.

(** The pool as [main] has it when the loop starts. *)
Definition blank_ctx (fsize : Z) : app_ctx :=
  mk_ctx 5000 15 false fsize [] [] 0 true 0 0 0 0 0 0 [] false 0.

Definition pool_init (n fsize : Z) : pool_sys :=
  mk_sys (init_copy_slots n (blank_ctx fsize)) [].

Definition generations (c : app_ctx) : list Z := slot_generation <$> slots c.
Definition in_use_flags (c : app_ctx) : list bool := slot_in_use <$> slots c.

(** *** Predicates used in the statements about the pool *)

(** The array length agrees with [slot_count], as after
    [init_copy_slots]. *)
Definition pool_wf (c : app_ctx) : Prop :=
  slot_count c = Z.of_nat (length (slots c)).

(** The ticket names the present hand-out of its slot. *)
Definition ticket_live (c : app_ctx) (t : slot_ticket) : Prop :=
  exists s, slot_at c (ticket_idx t) = Some s /\
            slot_in_use s = true /\
            slot_generation s = ticket_generation t.

(** The state after a release that takes effect. *)
Definition released (t : slot_ticket) (b : bool) (s : frame_slot) (c : app_ctx) : app_ctx :=
  let c1 := set_slots (<[Z.to_nat (ticket_idx t) := with_in_use false s]> (slots c)) c in
  if b then set_released_frames (u64 (released_frames c1 + 1)) c1 else c1.

(** The state after a scan that hands out slot [i]. *)
Definition handed_out (i : Z) (s : frame_slot) (c : app_ctx) : app_ctx :=
  set_slots (<[Z.to_nat i := mk_slot (slot_data s) true (u64 (slot_generation s + 1))]> (slots c)) c.

(** What the scan does at the slot it hands out. *)
Definition scan_hit_trace (i : Z) : list event :=
  [EvSlotRead i f_in_use; EvSlotWrite i f_in_use; EvSlotRead i f_generation;
   EvSlotWrite i f_generation; EvSlotRead i f_generation; EvUnlock slots_lock].

(** The invariant of the pool under interleaved operations: the
    valid tickets are the live ones, one per slot at most. *)
Definition pool_inv (s : pool_sys) : Prop :=
  pool_wf (sys_ctx s) /\
  NoDup (ticket_idx <$> sys_valid s) /\
  forall t, t ∈ sys_valid s <-> ticket_live (sys_ctx s) t.

(** [c'] differs from [c] at most in the slot array and in
    [released_frames]: all that releases can change. *)
Definition only_pool_changed (c c' : app_ctx) : Prop :=
  c' = set_released_frames (released_frames c') (set_slots (slots c') c).

(** No slot is free. *)
Definition all_in_use (c : app_ctx) : Prop :=
  forall j s, slot_at c j = Some s -> slot_in_use s = true.

(** The values [mono_us] returned, in order. *)
Fixpoint mono_reads (tr : list event) : list Z :=
  match tr with
  | [] => []
  | EvMonoUs now :: tr' => now :: mono_reads tr'
  | _ :: tr' => mono_reads tr'
  end.

Definition is_slots_lock (e : event) : bool :=
  match e with EvLock slots_lock => true | _ => false end.

Definition is_slot_read (e : event) : bool :=
  match e with EvSlotRead _ _ => true | _ => false end.

Definition is_slot_write (e : event) : bool :=
  match e with EvSlotWrite _ _ => true | _ => false end.

Definition count_ev (p : event -> bool) (tr : list event) : nat :=
  length (List.filter p tr).

(** The mailbox buffer has the size [main] allocates for it. *)
Definition mailbox_ok (c : app_ctx) : Prop :=
  Z.of_nat (length (infer_latest_raw c)) = frame_size c.

(** The value an outcome carries, if it is a return. *)
Definition outcome_value {A} (o : outcome A) : option A :=
  match o with
  | Done a _ _ => Some a
  | _ => None
  end.

Definition outcome_ctx {A} (o : outcome A) : option app_ctx :=
  match o with
  | Done _ c _ => Some c
  | _ => None
  end.

Definition outcome_trace {A} (o : outcome A) : list event :=
  match o with
  | Done _ _ tr => tr
  | _ => []
  end.

(** *** Sample states, for running the model *)

(** A pool of two slots of 8 bytes, both handed out once, with a
    timeout of 50 ms. *)
Definition busy_slot : frame_slot := mk_slot (replicate 8 0) true 1.

Definition busy_pool : app_ctx :=
  mk_ctx 50 15 false 8 [] [busy_slot; busy_slot] 2 true 0 0 0 0 0 0 (replicate 8 0) false 0.

(** A clock that passes the 50 ms deadline of a call started at
    1000000 us, with nobody releasing. *)
Definition quiet_sched : list wakeup :=
  [mk_wakeup 1020000 []; mk_wakeup 1040000 []; mk_wakeup 1050003 []].

(** The library answers of a turn in which the wrapping fails, and of
    one in which the push is refused. *)
Definition env_no_buffer : iter_env :=
  mk_iter_env false 0 0 (replicate 8 1) 1000000 [] (fun d => d) true false 0 [].

Definition env_push_refused : iter_env :=
  mk_iter_env false 0 0 (replicate 8 1) 1000000 [] (fun d => d) true true (-2) [].

(** A fresh pool of two slots of 8 bytes. *)
Definition fresh_pool : app_ctx :=
  init_copy_slots 2
    (mk_ctx 50 15 false 8 [] [] 0 true 0 0 0 0 0 0 (replicate 8 0) false 0).

(** ** Part II: the DMA engine of the kernel driver *)

(** *** [pcie_fpga_dma.h] *)

Definition BAR1_DMA_CMD_REG : Z := 0x100.
Definition BAR1_DMA_L_ADDR : Z := 0x110.
Definition BAR1_DMA_H_ADDR : Z := 0x120.

Definition DMA_CMD_LEN_MASK : Z := 0x3FF.
Definition DMA_CMD_64BIT_ADDR : Z := Z.shiftl 1 16.
Definition DMA_CMD_WRITE : Z := Z.shiftl 1 24.

Definition DMA_MAX_LEN_DWORDS : Z := 1024.
Definition DMA_MAX_LEN_BYTES : Z := DMA_MAX_LEN_DWORDS * 4.

Definition ETIMEDOUT : Z := 110.

(** The module parameters read by the transfer. *)
Record dma_params := mk_params {
  dma_timeout_ms : Z;
  dma_chunk_delay_us : Z;
  dma_poll_sleep_us : Z;
  dma_poll_sleep_max_us : Z;
  dma_poll_backoff_polls : Z;
  dma_verbose : bool
}.

(** The defaults of the driver. *)
Definition default_params : dma_params := mk_params 5000 0 5 80 8 false.

(** *** The coherent buffer and what the driver does

    [dma_buf] is a byte memory indexed by the offset from its first
    byte; the offsets before the buffer exist too, since nothing in
    the driver keeps a store inside it.  Words are little-endian. *)

Definition mem : Type := Z -> Z.

Definition byte_of (v k : Z) : Z := (v / 2 ^ (8 * k)) mod 256.

Definition store32 (m : mem) (off v : Z) : mem :=
  fun a => if (off <=? a) && (a <? off + 4) then byte_of v (a - off) else m a.

Definition load32 (m : mem) (off : Z) : Z :=
  m off mod 256 + 2 ^ 8 * (m (off + 1) mod 256) +
  2 ^ 16 * (m (off + 2) mod 256) + 2 ^ 24 * (m (off + 3) mod 256).

(** The driver's own steps, as the device and the clock can see
    them.  [ActChunk] is not a step: it marks the point where the loop
    has settled the address and the size in bytes of the chunk it is
    about to issue. *)
Inductive action :=
| ActIoread32 (off : Z)              (* ioread32(dev->bar0 + off) *)
| ActIowrite32 (off val : Z)         (* iowrite32(val, dev->bar1 + off) *)
| ActStore32 (off val : Z)           (* a 32-bit store at dma_buf + off *)
| ActChunk (num addr size : Z)
| ActCpuRelax
| ActUsleepRange (lo hi : Z)
| ActUdelay (us : Z).

(** The memory, the [jiffies] counter and the log of the driver's
    steps, newest first. *)
Record world := mk_world {
  w_mem : mem;
  w_jiffies : Z;
  w_log : list action
}.

Definition log (a : action) (w : world) : world :=
  mk_world (w_mem w) (w_jiffies w) (a :: w_log w).

Definition write_once (off v : Z) (w : world) : world :=
  mk_world (store32 (w_mem w) off v) (w_jiffies w) (ActStore32 off v :: w_log w).

Definition fpga_dma_write_reg (off v : Z) (w : world) : world :=
  log (ActIowrite32 off v) w.

Definition fpga_dma_flush_posted_writes (w : world) : world :=
  log (ActIoread32 0) w.

Definition tail_sentinel0 : Z := 0xDEADBEEF.
Definition tail_sentinel1 : Z := 0xA5A55A5A.

Definition lower_32_bits (a : Z) : Z := u32 a.
Definition upper_32_bits (a : Z) : Z := u32 (Z.shiftr a 32).

(** [ALIGN(x, a)] for a power of two [a], on 64 bits. *)
Definition ALIGN (x a : Z) : Z := Z.land (u64 (x + (a - 1))) (u64 (Z.lnot (a - 1))).

(** [time_after(a, b)]: [(long)(b - a) < 0]. *)
Definition time_after (a b : Z) : bool := s64 (u64 (b - a)) <? 0.

(** The size the loop settles on for the next chunk; [None] is the
    branch that realigns the address and starts the turn again. *)
Definition pick_chunk (remaining current_addr : Z) : option Z :=
  let chunk_size := Z.min remaining DMA_MAX_LEN_BYTES in
  if Z.land current_addr 0xFFF + chunk_size >? 0x1000 then
    let chunk_size := u64 (0x1000 - Z.land current_addr 0xFFF) in
    if chunk_size =? 0 then None else Some chunk_size
  else Some chunk_size.

(** The command word for a chunk of [chunk_size] bytes. *)
Definition dma_cmd_word (chunk_size : Z) : Z :=
  let length_in_dwords := u32 ((chunk_size + 3) / 4) in
  let cmd_length := u32 (length_in_dwords - 1) in
  Z.lor (Z.lor (Z.land cmd_length DMA_CMD_LEN_MASK) DMA_CMD_64BIT_ADDR) DMA_CMD_WRITE.

Inductive poll_result := PollDone | PollTimeout | PollFuel.

(** [XferReturn r] is a return of the function with value [r]; the
    other two say that the model was given too few turns. *)
Inductive xfer_result :=
| XferReturn (r : Z)
| XferPollFuel
| XferLoopFuel.

Section Driver.

(** The device, the clock and the scheduler: what happens to the
    memory and to [jiffies] between two looks of the driver at them,
    given everything the driver has done so far. *)
Variable elapse : world -> mem * Z.
Variable msecs_to_jiffies : Z -> Z.
Variable P : dma_params.
(** [dev->dma_handle], the bus address of [dma_buf]. *)
Variable dma_handle : Z.

Definition tick (w : world) : world :=
  mk_world (fst (elapse w)) (snd (elapse w)) (w_log w).

Definition sentinel_left (tail0 : Z) (tail1 : option Z) (w : world) : bool :=
  (load32 (w_mem w) tail0 =? tail_sentinel0) ||
  match tail1 with
  | Some t1 => load32 (w_mem w) t1 =? tail_sentinel1
  | None => false
  end.

(** The completion poll of one chunk.  Each turn looks at the world
    once: the sentinels, then [jiffies]. *)
Fixpoint poll_loop (fuel : nat) (tail0 : Z) (tail1 : option Z) (deadline : Z)
    (poll_sleep_cur_us poll_count : Z) (w0 : world) : poll_result * world :=
  match fuel with
  | O => (PollFuel, w0)
  | S fuel' =>
      let w := tick w0 in
      if sentinel_left tail0 tail1 w then
        if time_after (w_jiffies w) deadline then (PollTimeout, w)
        else if poll_sleep_cur_us <=? 0 then
          poll_loop fuel' tail0 tail1 deadline poll_sleep_cur_us poll_count (log ActCpuRelax w)
        else
          let max := dma_poll_sleep_max_us P in
          let backoff := dma_poll_backoff_polls P in
          let cur := if (0 <? max) && (max <? poll_sleep_cur_us) then max
                     else poll_sleep_cur_us in
          let w1 := log (ActUsleepRange cur (s32 (cur + 5))) w in
          if (0 <? backoff) && (0 <? max) && (cur <? max) then
            let count := s32 (poll_count + 1) in
            if count >=? backoff then
              let cur2 := s32 (cur * 2) in
              poll_loop fuel' tail0 tail1 deadline (if max <? cur2 then max else cur2) 0 w1
            else poll_loop fuel' tail0 tail1 deadline cur count w1
          else poll_loop fuel' tail0 tail1 deadline cur poll_count w1
      else (PollDone, w)
  end.

Definition verbose_chunk (chunk_num : Z) : bool :=
  dma_verbose P && ((chunk_num <? 3) || (Z.rem chunk_num 100 =? 0)).

(** The four words written at the head of a chunk in verbose mode. *)
Definition prefill (buf_offset : Z) (w : world) : world :=
  write_once (buf_offset + 12) 0xDDDDDDDD
    (write_once (buf_offset + 8) 0xCCCCCCCC
       (write_once (buf_offset + 4) 0xBBBBBBBB
          (write_once buf_offset 0xAAAAAAAA w))).

(** Everything one turn does before it polls: the sentinels and the
    three register writes.  The result also names where the
    sentinels are. *)
Definition issue_chunk (chunk_num current_addr chunk_size : Z) (w : world)
    : Z * option Z * world :=
  let w := log (ActChunk chunk_num current_addr chunk_size) w in
  let buf_offset := u64 (current_addr - dma_handle) in
  let w := if verbose_chunk chunk_num then prefill buf_offset w else w in
  let tail0 := buf_offset + chunk_size - 4 in
  let w := write_once tail0 tail_sentinel0 w in
  let tail1 := if chunk_size >=? 8 then Some (tail0 - 4) else None in
  let w := match tail1 with
           | Some t1 => write_once t1 tail_sentinel1 w
           | None => w
           end in
  let w := fpga_dma_write_reg BAR1_DMA_L_ADDR (lower_32_bits current_addr) w in
  let w := fpga_dma_write_reg BAR1_DMA_H_ADDR (upper_32_bits current_addr) w in
  let w := fpga_dma_write_reg BAR1_DMA_CMD_REG (dma_cmd_word chunk_size) w in
  (tail0, tail1, fpga_dma_flush_posted_writes w).

Definition chunk_pacing (w : world) : world :=
  let d := dma_chunk_delay_us P in
  if d >=? 1000 then log (ActUsleepRange d (s32 (d + 100))) w
  else if d >? 0 then log (ActUdelay d) w
  else w.

(** The loop [while (remaining > 0)]. *)
Fixpoint transfer_loop (fuel poll_fuel : nat) (remaining current_addr chunk_num : Z)
    (w : world) : xfer_result * world :=
  match fuel with
  | O => (XferLoopFuel, w)
  | S fuel' =>
      if remaining >? 0 then
        match pick_chunk remaining current_addr with
        | None =>
            transfer_loop fuel' poll_fuel remaining (ALIGN current_addr 0x1000) chunk_num w
        | Some chunk_size =>
            let '(tail0, tail1, w1) := issue_chunk chunk_num current_addr chunk_size w in
            let deadline := u64 (w_jiffies w1 + msecs_to_jiffies (dma_timeout_ms P)) in
            match poll_loop poll_fuel tail0 tail1 deadline (dma_poll_sleep_us P) 0 w1 with
            | (PollTimeout, w2) => (XferReturn (- ETIMEDOUT), w2)
            | (PollFuel, w2) => (XferPollFuel, w2)
            | (PollDone, w2) =>
                transfer_loop fuel' poll_fuel
                  (u64 (remaining - chunk_size)) (u64 (current_addr + chunk_size))
                  (s32 (chunk_num + 1)) (chunk_pacing w2)
            end
        end
      else (XferReturn 0, w)
  end.

(** [fpga_dma_perform_transfer].  Each commit to a chunk takes at
    least one byte off [remaining], so [size] turns and one more are
    all the loop can use; [poll_fuel] bounds the looks of one poll. *)
Definition fpga_dma_perform_transfer (poll_fuel : nat) (size : Z) (w : world)
    : xfer_result * world :=
  let w := log (ActIoread32 0x04) (log (ActIoread32 0x00) w) in
  transfer_loop (S (Z.to_nat size)) poll_fuel size dma_handle 0 w.

End Driver.

(** The chunks a log records, oldest first, as (address, size). *)
Fixpoint chunks_of_rev (l : list action) : list (Z * Z) :=
  match l with
  | [] => []
  | ActChunk _ addr size :: l' => (addr, size) :: chunks_of_rev l'
  | _ :: l' => chunks_of_rev l'
  end.

Definition emitted_chunks (w : world) : list (Z * Z) := rev (chunks_of_rev (w_log w)).

(** The values written to the command register, oldest first. *)
Fixpoint cmd_writes_rev (l : list action) : list Z :=
  match l with
  | [] => []
  | ActIowrite32 off v :: l' =>
      if off =? BAR1_DMA_CMD_REG then v :: cmd_writes_rev l' else cmd_writes_rev l'
  | _ :: l' => cmd_writes_rev l'
  end.

Definition cmd_writes (w : world) : list Z := rev (cmd_writes_rev (w_log w)).


Definition sum_sizes (cs : list (Z * Z)) : Z := fold_right (fun c acc => snd c + acc) 0 cs.

(** *** Predicates used in the statements about the transfer *)

(** A chunk as the loop may commit to it. *)
Definition sound_chunk (c : Z * Z) : Prop :=
  0 <= fst c < 2 ^ 64 /\ 0 < snd c <= DMA_MAX_LEN_BYTES /\
  fst c mod 4096 + snd c <= 4096.

(** The chunks follow one another from [addr] on. *)
Fixpoint chained (addr : Z) (cs : list (Z * Z)) : Prop :=
  match cs with
  | [] => True
  | c :: rest => fst c = addr /\ chained (u64 (addr + snd c)) rest
  end.

(** The stores into [dma_buf] a log records, oldest first, as
    (offset, value). *)
Fixpoint stores_rev (l : list action) : list (Z * Z) :=
  match l with
  | [] => []
  | ActStore32 off v :: l' => (off, v) :: stores_rev l'
  | _ :: l' => stores_rev l'
  end.

Definition stores (w : world) : list (Z * Z) := rev (stores_rev (w_log w)).

(** The chunk the driver issued last: number, address and size. *)
Fixpoint latest_chunk (l : list action) : option (Z * Z * Z) :=
  match l with
  | [] => None
  | ActChunk n addr size :: _ => Some (n, addr, size)
  | _ :: l' => latest_chunk l'
  end.

(** A clock that moves by one jiffy between two looks of the driver. *)
Definition ticking (elapse : world -> mem * Z) : Prop :=
  forall w, snd (elapse w) = u64 (w_jiffies w + 1).

(** A device that, whatever else it does, leaves alone the bytes
    before the chunk it was last told to write. *)
Definition writes_forward (elapse : world -> mem * Z) (handle : Z) : Prop :=
  forall w a,
    match latest_chunk (w_log w) with
    | Some (_, addr, _) => a < u64 (addr - handle) -> fst (elapse w) a = w_mem w a
    | None => fst (elapse w) a = w_mem w a
    end.

(** *** A simulated device, for running the model

    It serves the chunk the log shows last: on each look it fills the
    commanded dwords with the byte [0x11], unless the chunk number has
    reached [stall_from]; it then leaves the memory alone.  The clock
    advances by one jiffy per look. *)

Definition fill (m : mem) (off len v : Z) : mem :=
  fun a => if (off <=? a) && (a <? off + len) then v else m a.

Definition sim_device (handle stall_from : Z) (w : world) : mem * Z :=
  match latest_chunk (w_log w) with
  | Some (n, addr, size) =>
      if n <? stall_from
      then (fill (w_mem w) (addr - handle) (4 * ((size + 3) / 4)) 0x11, u64 (w_jiffies w + 1))
      else (w_mem w, u64 (w_jiffies w + 1))
  | None => (w_mem w, u64 (w_jiffies w + 1))
  end.

(** One jiffy per millisecond. *)
Definition sim_msecs_to_jiffies (ms : Z) : Z := ms.

Definition blank_world : world := mk_world (fun _ => 0) 1000 [].

(** The driver's defaults with a timeout of 20 ms, to keep runs short. *)
Definition sim_params : dma_params := mk_params 20 0 5 80 8 false.

Definition sim_run (handle stall_from : Z) (poll_fuel : nat) (size : Z) : xfer_result * world :=
  fpga_dma_perform_transfer (sim_device handle stall_from) sim_msecs_to_jiffies
    sim_params handle poll_fuel size blank_world.

(** Three runs on a page-aligned buffer: 4096 bytes with a device that
    answers; 4096 bytes and 4097 bytes with a device that answers
    chunk 0 only. *)
Definition one_page_run : xfer_result * world := sim_run 0x10000000 99 100 4096.
Definition first_chunk_run : xfer_result * world := sim_run 0x10000000 1 100 4096.
Definition stalled_run : xfer_result * world := sim_run 0x10000000 1 100 4097.

(** ** Part III: pixels, boxes and the overlay of [fpga_lpr_display.c] *)

Definition u8 (z : Z) : Z := z mod 2 ^ 8.
Definition u16 (z : Z) : Z := z mod 2 ^ 16.

(** *** Arrays and counted loops

    An access outside the array is undefined behaviour: the run ends
    with [None]. *)

Definition arr_load (a : list Z) (i : Z) : option Z :=
  if 0 <=? i then a !! Z.to_nat i else None.

Definition arr_store (a : list Z) (i v : Z) : option (list Z) :=
  if (0 <=? i) && (i <? Z.of_nat (length a)) then Some (<[Z.to_nat i := v]> a) else None.

Notation "'let?' x := m 'in' k" :=
  (match m with Some x => k | None => None end)
  (at level 10, x name, m at level 100, k at level 200).

(** [n] turns of a loop body from index [i] on. *)
Fixpoint for_loop {St : Type} (n : nat) (i : Z) (body : Z -> St -> option St) (s : St)
    : option St :=
  match n with
  | O => Some s
  | S n' =>
      match body i s with
      | Some s' => for_loop n' (i + 1) body s'
      | None => None
      end
  end.

(** [for (i = lo; i < hi; i++) body] *)
Definition for_range {St : Type} (lo hi : Z) (body : Z -> St -> option St) (s : St)
    : option St :=
  for_loop (Z.to_nat (hi - lo)) lo body s.

(** *** [decode_pixel565] *)

Inductive pixel_order := PIXEL_ORDER_BGR565 | PIXEL_ORDER_RGB565.

Definition decode_pixel565 (swap16 : bool) (order : pixel_order) (lo_in hi_in : Z)
    : Z * Z * Z :=
  let lo := if swap16 then hi_in else lo_in in
  let hi := if swap16 then lo_in else hi_in in
  let pix := u16 (Z.lor lo (Z.shiftl hi 8)) in
  let '(r5, g6, b5) :=
    match order with
    | PIXEL_ORDER_BGR565 =>
        (u8 (Z.land pix 0x1F), u8 (Z.land (Z.shiftr pix 5) 0x3F),
         u8 (Z.land (Z.shiftr pix 11) 0x1F))
    | PIXEL_ORDER_RGB565 =>
        (u8 (Z.land (Z.shiftr pix 11) 0x1F), u8 (Z.land (Z.shiftr pix 5) 0x3F),
         u8 (Z.land pix 0x1F))
    end in
  (u8 (Z.lor (Z.shiftl r5 3) (Z.shiftr r5 2)),
   u8 (Z.lor (Z.shiftl g6 2) (Z.shiftr g6 4)),
   u8 (Z.lor (Z.shiftl b5 3) (Z.shiftr b5 2))).

(** [raw565_to_rgb888_full]: [raw] holds the frame, [rgb] is the
    buffer the three bytes of each pixel are stored in. *)
Definition raw565_to_rgb888_full (swap16 : bool) (order : pixel_order)
    (frame_width frame_height : Z) (raw rgb : list Z) : option (list Z) :=
  let pixels := frame_width * frame_height in
  for_range 0 pixels
    (fun i rgb =>
       let? lo := arr_load raw (i * 2) in
       let? hi := arr_load raw (i * 2 + 1) in
       let '(r, g, b) := decode_pixel565 swap16 order lo hi in
       let? rgb := arr_store rgb (i * 3 + 0) r in
       let? rgb := arr_store rgb (i * 3 + 1) g in
       arr_store rgb (i * 3 + 2) b)
    rgb.

(** [resize_rgb888_nn].  C's [/] on [int] truncates: [Z.quot]. *)
Definition resize_rgb888_nn (src : list Z) (sw sh : Z) (dst : list Z) (dw dh : Z)
    : option (list Z) :=
  for_range 0 dh
    (fun y dst =>
       let sy := Z.quot (y * sh) dh in
       for_range 0 dw
         (fun x dst =>
            let sx := Z.quot (x * sw) dw in
            let p := (sy * sw + sx) * 3 in
            let q := (y * dw + x) * 3 in
            let? v := arr_load src p in
            let? dst := arr_store dst q v in
            let? v := arr_load src (p + 1) in
            let? dst := arr_store dst (q + 1) v in
            let? v := arr_load src (p + 2) in
            arr_store dst (q + 2) v)
         dst)
    dst.

(** *** Detection boxes *)

(** [struct det_box] without its confidence, a [float] that none of
    the functions below reads. *)
Record det_box := mk_box {
  box_x1 : Z;
  box_y1 : Z;
  box_x2 : Z;
  box_y2 : Z;
  box_cls : Z
}.

Definition clamp_box (b : det_box) (w h : Z) : det_box :=
  let x1 := if box_x1 b <? 0 then 0 else box_x1 b in
  let y1 := if box_y1 b <? 0 then 0 else box_y1 b in
  let x2 := if box_x2 b >=? w then w - 1 else box_x2 b in
  let y2 := if box_y2 b >=? h then h - 1 else box_y2 b in
  let x2 := if x2 <? x1 then x1 else x2 in
  let y2 := if y2 <? y1 then y1 else y2 in
  mk_box x1 y1 x2 y2 (box_cls b).

Inductive plate_color := PLATE_COLOR_UNKNOWN | PLATE_COLOR_BLUE | PLATE_COLOR_GREEN.

Record plate_det := mk_plate {
  plate_box : det_box;
  plate_color_of : plate_color;
  plate_parent_car : Z
}.

Definition MAX_DETS : Z := 128.

(** *** Drawing on the 16-bit pixels of a slot *)

Definition COLOR_YELLOW_565 : Z := 0xFFE0.
Definition COLOR_CYAN_565 : Z := 0x07FF.

Definition draw_hline_565 (pix : list Z) (w h x1 x2 y c : Z) : option (list Z) :=
  if (y <? 0) || (y >=? h) then Some pix
  else
    let '(x1, x2) := if x1 >? x2 then (x2, x1) else (x1, x2) in
    let x1 := if x1 <? 0 then 0 else x1 in
    let x2 := if x2 >=? w then w - 1 else x2 in
    for_range x1 (x2 + 1) (fun x pix => arr_store pix (y * w + x) c) pix.

Definition draw_vline_565 (pix : list Z) (w h x y1 y2 c : Z) : option (list Z) :=
  if (x <? 0) || (x >=? w) then Some pix
  else
    let '(y1, y2) := if y1 >? y2 then (y2, y1) else (y1, y2) in
    let y1 := if y1 <? 0 then 0 else y1 in
    let y2 := if y2 >=? h then h - 1 else y2 in
    for_range y1 (y2 + 1) (fun y pix => arr_store pix (y * w + x) c) pix.

Definition draw_rect_565 (pix : list Z) (w h : Z) (b : det_box) (c : Z) : option (list Z) :=
  for_range 0 2
    (fun t pix =>
       let? pix := draw_hline_565 pix w h (box_x1 b) (box_x2 b) (box_y1 b + t) c in
       let? pix := draw_hline_565 pix w h (box_x1 b) (box_x2 b) (box_y2 b - t) c in
       let? pix := draw_vline_565 pix w h (box_x1 b + t) (box_y1 b) (box_y2 b) c in
       draw_vline_565 pix w h (box_x2 b - t) (box_y1 b) (box_y2 b) c)
    pix.

(** The rows of a glyph, top row first; [None] is the [default] of
    the [switch]. *)
Definition glyph_rows (ch : ascii) : option (list Z) :=
  match ch with
  | "B"%char => Some [0x1E; 0x11; 0x1E; 0x11; 0x11; 0x11; 0x1E]
  | "L"%char => Some [0x10; 0x10; 0x10; 0x10; 0x10; 0x10; 0x1F]
  | "U"%char => Some [0x11; 0x11; 0x11; 0x11; 0x11; 0x11; 0x1F]
  | "E"%char => Some [0x1F; 0x10; 0x1E; 0x10; 0x10; 0x10; 0x1F]
  | "G"%char => Some [0x0F; 0x10; 0x10; 0x13; 0x11; 0x11; 0x0F]
  | "R"%char => Some [0x1E; 0x11; 0x11; 0x1E; 0x14; 0x12; 0x11]
  | "N"%char => Some [0x11; 0x19; 0x15; 0x13; 0x11; 0x11; 0x11]
  | "K"%char => Some [0x11; 0x12; 0x14; 0x18; 0x14; 0x12; 0x11]
  | _ => None
  end.

(** [glyph5x7]; the callers pass rows 0 to 6 only. *)
Definition glyph5x7 (ch : ascii) (row : Z) : option Z :=
  match glyph_rows ch with
  | Some g => arr_load g row
  | None => Some 0
  end.

(** The body of the loop of [draw_text_565] for the character at
    index [i]. *)
Definition draw_glyph_565 (pix : list Z) (w h x y i : Z) (ch : ascii) (c : Z)
    : option (list Z) :=
  let ox := x + i * 6 in
  for_range 0 7
    (fun row pix =>
       let? bits := glyph5x7 ch row in
       for_range 0 5
         (fun col pix =>
            if negb (Z.land bits (Z.shiftl 1 (4 - col)) =? 0) then
              let px := ox + col in
              let py := y + row in
              if (px >=? 0) && (px <? w) && (py >=? 0) && (py <? h)
              then arr_store pix (py * w + px) c
              else Some pix
            else Some pix)
         pix)
    pix.

Fixpoint draw_text_from (i : Z) (s : string) (pix : list Z) (w h x y c : Z)
    : option (list Z) :=
  match s with
  | EmptyString => Some pix
  | String ch s' =>
      let? pix := draw_glyph_565 pix w h x y i ch c in
      draw_text_from (i + 1) s' pix w h x y c
  end.

Definition draw_text_565 (pix : list Z) (w h x y : Z) (s : string) (c : Z)
    : option (list Z) :=
  draw_text_from 0 s pix w h x y c.

Definition plate_color_str (c : plate_color) : string :=
  match c with
  | PLATE_COLOR_BLUE => "BLUE"
  | PLATE_COLOR_GREEN => "GREEN"
  | PLATE_COLOR_UNKNOWN => "UNK"
  end.

(** The part of [struct lpr_results] that is drawn: the first
    [car_count] cars and the first [plate_count] plates. *)
Record lpr_results := mk_results {
  res_cars : list det_box;
  res_plates : list plate_det
}.

Fixpoint draw_cars (cars : list det_box) (pix : list Z) (w h : Z) : option (list Z) :=
  match cars with
  | [] => Some pix
  | b :: rest =>
      let? pix := draw_rect_565 pix w h b COLOR_YELLOW_565 in
      draw_cars rest pix w h
  end.

Fixpoint draw_plates (plates : list plate_det) (pix : list Z) (w h : Z) : option (list Z) :=
  match plates with
  | [] => Some pix
  | p :: rest =>
      let txt := plate_color_str (plate_color_of p) in
      let tx := box_x1 (plate_box p) in
      let ty := box_y1 (plate_box p) - 10 in
      let ty := if ty <? 0 then box_y1 (plate_box p) + 2 else ty in
      let? pix := draw_rect_565 pix w h (plate_box p) COLOR_CYAN_565 in
      let? pix := draw_text_565 pix w h tx ty txt COLOR_CYAN_565 in
      draw_plates rest pix w h
  end.

(** The two drawing loops of [overlay_results_on_slot], on the pixels
    of the slot. *)
Definition overlay_pixels (r : lpr_results) (pix : list Z) (w h : Z) : option (list Z) :=
  let? pix := draw_cars (res_cars r) pix w h in
  draw_plates (res_plates r) pix w h.

(** *** The worker's results *)

Section Detection.

(** The single-precision numbers of the worker and the three
    operations on them that [find_parent_car] uses. *)
Variable float : Type.
Variable float_zero : float.          (* 0.0f *)
Variable float_070 : float.           (* 0.70f *)
Variable float_ratio : Z -> Z -> float. (* (float)ia / (float)pa *)
Variable float_gt : float -> float -> bool.
(** [classify_plate_color_rgb] on the frame the worker holds. *)
Variable classify_plate_color_rgb : det_box -> plate_color.

Definition center_inside (cx cy : Z) (c : det_box) : bool :=
  (cx >=? box_x1 c) && (cx <=? box_x2 c) && (cy >=? box_y1 c) && (cy <=? box_y2 c).

(** The [ratio] of the loop body of [find_parent_car]: the part of the
    plate that lies in the car [c]. *)
Definition plate_overlap_ratio (plate c : det_box) : float :=
  let x1 := if box_x1 plate >? box_x1 c then box_x1 plate else box_x1 c in
  let y1 := if box_y1 plate >? box_y1 c then box_y1 plate else box_y1 c in
  let x2 := if box_x2 plate <? box_x2 c then box_x2 plate else box_x2 c in
  let y2 := if box_y2 plate <? box_y2 c then box_y2 plate else box_y2 c in
  if (x2 >=? x1) && (y2 >=? y1) then
    let ia := (x2 - x1 + 1) * (y2 - y1 + 1) in
    let pa := (box_x2 plate - box_x1 plate + 1) * (box_y2 plate - box_y1 plate + 1) in
    if pa >? 0 then float_ratio ia pa else float_zero
  else float_zero.

Fixpoint find_parent_car_from (plate : det_box) (cx cy : Z) (cars : list det_box)
    (i best : Z) (best_ratio : float) : Z :=
  match cars with
  | [] => best
  | c :: rest =>
      let ratio := plate_overlap_ratio plate c in
      if center_inside cx cy c then i
      else if float_gt ratio float_070 && float_gt ratio best_ratio then
        find_parent_car_from plate cx cy rest (i + 1) i ratio
      else find_parent_car_from plate cx cy rest (i + 1) best best_ratio
  end.

Definition find_parent_car (plate : det_box) (cars : list det_box) : Z :=
  let cx := Z.quot (box_x1 plate + box_x2 plate) 2 in
  let cy := Z.quot (box_y1 plate + box_y2 plate) 2 in
  find_parent_car_from plate cx cy cars 0 (-1) float_zero.

(** The first loop after the two detections in [infer_thread_main]:
    the detections of the car class, [MAX_DETS] at most. *)
Fixpoint keep_cars (car_class_id : Z) (cars acc : list det_box) : list det_box :=
  match cars with
  | [] => acc
  | b :: rest =>
      if Z.of_nat (length acc) <? MAX_DETS then
        keep_cars car_class_id rest (if box_cls b =? car_class_id then acc ++ [b] else acc)
      else acc
  end.

(** The second loop: the plates that have a parent car. *)
Fixpoint keep_plates (r_cars : list det_box) (plates : list det_box) (acc : list plate_det)
    : list plate_det :=
  match plates with
  | [] => acc
  | b :: rest =>
      if Z.of_nat (length acc) <? MAX_DETS then
        let parent := find_parent_car b r_cars in
        if parent <? 0 then keep_plates r_cars rest acc
        else keep_plates r_cars rest
               (acc ++ [mk_plate b (classify_plate_color_rgb b) parent])
      else acc
  end.

Definition collect_results (car_class_id : Z) (cars plates : list det_box) : lpr_results :=
  let r_cars := keep_cars car_class_id cars [] in
  mk_results r_cars (keep_plates r_cars plates []).

End Detection.

(** *** Predicates used in the statements about drawing *)

(** [pix] holds an image of [w] by [h] pixels, row after row. *)
Definition image (pix : list Z) (w h : Z) : Prop :=
  0 <= w /\ 0 <= h /\ Z.of_nat (length pix) = w * h.

(** The pixel at column [xx] of row [yy]. *)
Definition pixel_at (pix : list Z) (w xx yy : Z) : option Z := arr_load pix (yy * w + xx).

(** [pix'] is [pix] with the pixels of the image that [inside] selects
    set to [c]. *)
Definition painted (pix pix' : list Z) (w h c : Z) (inside : Z -> Z -> bool) : Prop :=
  length pix' = length pix /\
  forall xx yy, 0 <= xx < w -> 0 <= yy < h ->
    pixel_at pix' w xx yy = if inside xx yy then Some c else pixel_at pix w xx yy.

Definition between (a b v : Z) : bool := (Z.min a b <=? v) && (v <=? Z.max a b).

Definition on_hline (x1 x2 y xx yy : Z) : bool := (yy =? y) && between x1 x2 xx.
Definition on_vline (x y1 y2 xx yy : Z) : bool := (xx =? x) && between y1 y2 yy.

(** The border of a box, two pixels wide. *)
Definition on_rect (b : det_box) (xx yy : Z) : bool :=
  on_hline (box_x1 b) (box_x2 b) (box_y1 b) xx yy ||
  on_hline (box_x1 b) (box_x2 b) (box_y2 b) xx yy ||
  on_vline (box_x1 b) (box_y1 b) (box_y2 b) xx yy ||
  on_vline (box_x2 b) (box_y1 b) (box_y2 b) xx yy ||
  on_hline (box_x1 b) (box_x2 b) (box_y1 b + 1) xx yy ||
  on_hline (box_x1 b) (box_x2 b) (box_y2 b - 1) xx yy ||
  on_vline (box_x1 b + 1) (box_y1 b) (box_y2 b) xx yy ||
  on_vline (box_x2 b - 1) (box_y1 b) (box_y2 b) xx yy.

(** The dot of a glyph at column [col] of row [row] of its 5 by 7
    cell: bit [4 - col] of the row. *)
Definition glyph_dot (ch : ascii) (col row : Z) : bool :=
  (0 <=? col) && (col <? 5) && (0 <=? row) && (row <? 7) &&
  match glyph_rows ch with
  | Some g => Z.testbit (nth (Z.to_nat row) g 0) (4 - col)
  | None => false
  end.

(** The dots of row [row] of a glyph left of column [col]. *)
Definition row_dots (bits ox py col xx yy : Z) : bool :=
  (yy =? py) && (ox <=? xx) && (xx <? ox + col) && Z.testbit bits (4 - (xx - ox)).

(** The dots of the rows of a glyph above row [row]. *)
Definition glyph_dots_above (ch : ascii) (row col' row' : Z) : bool :=
  (row' <? row) && glyph_dot ch col' row'.

(** The dots of a text whose first cell has its corner at [(x, y)],
    one cell every 6 columns. *)
Fixpoint on_text (s : string) (x y xx yy : Z) : bool :=
  match s with
  | EmptyString => false
  | String ch s' => glyph_dot ch (xx - x) (yy - y) || on_text s' (x + 6) y xx yy
  end.

(** Where [overlay_results_on_slot] puts the label of a plate: ten
    rows above the box, or two rows below its top edge when that
    would leave the image at the top. *)
Definition label_y (b : det_box) : Z :=
  if box_y1 b - 10 <? 0 then box_y1 b + 2 else box_y1 b - 10.

(** The pixels a plate covers: its border and its label. *)
Definition on_plate (p : plate_det) (xx yy : Z) : bool :=
  on_rect (plate_box p) xx yy ||
  on_text (plate_color_str (plate_color_of p)) (box_x1 (plate_box p)) (label_y (plate_box p))
    xx yy.

(** *** The two bytes a decoded colour comes from

    The 16-bit pixel is put together again from the top bits of the
    three channels, and split into the two bytes in the order of
    [swap16]. *)
Definition pixel565_bytes (swap16 : bool) (order : pixel_order) (rgb : Z * Z * Z) : Z * Z :=
  let '(r, g, b) := rgb in
  let pix :=
    match order with
    | PIXEL_ORDER_BGR565 => r / 8 + 32 * (g / 4) + 2048 * (b / 8)
    | PIXEL_ORDER_RGB565 => b / 8 + 32 * (g / 4) + 2048 * (r / 8)
    end in
  if swap16 then (pix / 256, pix mod 256) else (pix mod 256, pix / 256).

Definition is_byte (v : Z) : bool := (0 <=? v) && (v <=? 255).

(** The widening of a 5-bit and of a 6-bit channel to 8 bits. *)
Definition widen5 (v : Z) : Z := u8 (Z.lor (Z.shiftl v 3) (Z.shiftr v 2)).
Definition widen6 (v : Z) : Z := u8 (Z.lor (Z.shiftl v 2) (Z.shiftr v 4)).

(** What [copy_frame_to_slot565] leaves in a slot buffer [dst]. *)
Definition copied_frame (c : app_ctx) (src dst : list Z) : list Z :=
  if opt_swap16 c then
    let sw := swap16_bytes (take (Z.to_nat (frame_size c)) src) in
    sw ++ drop (length sw) dst
  else memcpy dst src (frame_size c).

(** *** Predicates used in the statements about the conversions *)

(** The bytes of [a] from [3 * j] on are the three values. *)
Definition rgb_at (a : list Z) (j : Z) (v : Z * Z * Z) : Prop :=
  arr_load a (j * 3) = Some (fst (fst v)) /\
  arr_load a (j * 3 + 1) = Some (snd (fst v)) /\
  arr_load a (j * 3 + 2) = Some (snd v).

(** The source pixel that [resize_rgb888_nn] takes for the pixel at
    index [j] of the destination, counted row after row. *)
Definition nn_source (sw sh dw dh j : Z) : Z :=
  Z.quot (j / dw * sh) dh * sw + Z.quot (j mod dw * sw) dw.

(** ** Part IV: the rest of the driver and the applications' side of it *)

(** *** [pcie_fpga_dma.h], continued *)

Definition FPGA_FRAME_WIDTH : Z := 1280.
Definition FPGA_FRAME_HEIGHT : Z := 720.
Definition FPGA_FRAME_BPP_BGR565 : Z := 2.
Definition FPGA_FRAME_BPP_BGRX8888 : Z := 4.
Definition FPGA_FRAME_SIZE_BGR565 : Z :=
  FPGA_FRAME_WIDTH * FPGA_FRAME_HEIGHT * FPGA_FRAME_BPP_BGR565.
Definition FPGA_FRAME_SIZE_BGRX8888 : Z :=
  FPGA_FRAME_WIDTH * FPGA_FRAME_HEIGHT * FPGA_FRAME_BPP_BGRX8888.
Definition FPGA_FRAME_MAX_SIZE : Z := FPGA_FRAME_SIZE_BGRX8888.
Definition FPGA_FRAME_SIZE : Z := FPGA_FRAME_MAX_SIZE.

Definition FPGA_PIXEL_FORMAT_BGR565 : Z := 0.
Definition FPGA_PIXEL_FORMAT_BGRX8888 : Z := 1.

Definition EINVAL : Z := 22.

(** [struct fpga_info]; every field is a [__u32]. *)
Record fpga_info := mk_info {
  vendor_id : Z;
  device_id : Z;
  bar0_size : Z;
  bar1_size : Z;
  link_width : Z;
  link_speed : Z;
  frame_width : Z;
  frame_height : Z;
  frame_bpp : Z;
  frame_stride : Z;
  pixel_format : Z
}.

(** *** The frame layout *)

Definition fpga_dma_bpp_from_format (pixel_format : Z) : Z :=
  if pixel_format =? FPGA_PIXEL_FORMAT_BGRX8888 then FPGA_FRAME_BPP_BGRX8888
  else FPGA_FRAME_BPP_BGR565.

Definition fpga_dma_normalize_info_layout (info : fpga_info) : fpga_info :=
  let pixel_format :=
    if negb (pixel_format info =? FPGA_PIXEL_FORMAT_BGR565) &&
       negb (pixel_format info =? FPGA_PIXEL_FORMAT_BGRX8888)
    then FPGA_PIXEL_FORMAT_BGR565 else pixel_format info in
  let bpp := fpga_dma_bpp_from_format pixel_format in
  mk_info (vendor_id info) (device_id info) (bar0_size info) (bar1_size info)
    (link_width info) (link_speed info) (frame_width info) (frame_height info)
    bpp (u32 (frame_width info * bpp)) pixel_format.

(** The product is taken in [size_t], 64 bits wide. *)
Definition fpga_dma_default_frame_size (info : fpga_info) : Z :=
  u64 (frame_stride info * frame_height info).

(** The device information [fpga_dma_probe] fills in; the module
    parameter [dma_pixel_format] is an [int]. *)
Definition probe_info (dma_pixel_format bar0 bar1 : Z) : fpga_info :=
  fpga_dma_normalize_info_layout
    (mk_info 0x0755 0x0755 bar0 bar1 2 2 FPGA_FRAME_WIDTH FPGA_FRAME_HEIGHT 0 0
       (if dma_pixel_format =? FPGA_PIXEL_FORMAT_BGR565
        then FPGA_PIXEL_FORMAT_BGR565 else FPGA_PIXEL_FORMAT_BGRX8888)).

(** The driver's default for [dma_pixel_format]. *)
Definition default_dma_pixel_format : Z := FPGA_PIXEL_FORMAT_BGRX8888.

(** *** [fpga_dma_ioctl] *)

(** The part of [struct fpga_dma_dev] the ioctls read and write. *)
Record fpga_dma_dev := mk_dev {
  dev_info : fpga_info;
  dma_buf_size : Z
}.

(** [FPGA_DMA_GET_INFO]: what is copied to the caller. *)
Definition ioctl_get_info (dev : fpga_dma_dev) : fpga_info :=
  fpga_dma_normalize_info_layout (dev_info dev).

(** [IoctlReturn r] is a return of the ioctl with value [r];
    [IoctlFuel] says that the model of the transfer was given too few
    turns. *)
Inductive ioctl_result :=
| IoctlReturn (r : Z)
| IoctlFuel.

(** What a [FPGA_DMA_READ_FRAME] leaves behind: the return value, the
    device, the [result] field of the caller's [struct dma_transfer]
    and the number of bytes of [dma_buf] copied to [user_buf]. *)
Record read_frame_outcome := mk_read_frame {
  rf_ret : ioctl_result;
  rf_dev : fpga_dma_dev;
  rf_result : Z;
  rf_copied : Z;
  rf_world : world
}.

Section Ioctl.

Variable elapse : world -> mem * Z.
Variable msecs_to_jiffies : Z -> Z.
Variable P : dma_params.
Variable dma_handle : Z.

(** [FPGA_DMA_READ_FRAME] with the caller's [size], [result] and
    [user_buf]; the caller's memory is taken to be accessible, so that
    no copy from or to it fails. *)
Definition ioctl_read_frame (poll_fuel : nat) (dev : fpga_dma_dev)
    (transfer_size transfer_result user_buf : Z) (w : world) : read_frame_outcome :=
  let dev := mk_dev (fpga_dma_normalize_info_layout (dev_info dev)) (dma_buf_size dev) in
  let default_size := fpga_dma_default_frame_size (dev_info dev) in
  let size := if transfer_size >? 0 then transfer_size else default_size in
  if size >? dma_buf_size dev then
    mk_read_frame (IoctlReturn (- EINVAL)) dev transfer_result 0 w
  else
    match fpga_dma_perform_transfer elapse msecs_to_jiffies P dma_handle poll_fuel size w with
    | (XferReturn ret, w') =>
        if ret =? 0 then
          mk_read_frame (IoctlReturn 0) dev 0 (if user_buf =? 0 then 0 else size) w'
        else mk_read_frame (IoctlReturn ret) dev transfer_result 0 w'
    | (_, w') => mk_read_frame IoctlFuel dev transfer_result 0 w'
    end.

End Ioctl.

(** *** The applications' side *)

(** The test of [init_fpga_dma] on the answer to [FPGA_DMA_GET_INFO]:
    [Some frame_size] when the geometry is accepted. *)
Definition init_fpga_dma_check (info : fpga_info) : option Z :=
  if negb (frame_width info =? 1280) || negb (frame_height info =? 720) ||
     negb (frame_bpp info =? 2)
  then None
  else Some (u64 (frame_width info * frame_height info * frame_bpp info)).

(** The size [trigger_frame_dma] asks for: [(uint32_t)ctx->frame_size]. *)
Definition trigger_frame_dma_size (frame_size : Z) : Z := u32 frame_size.

(** *** The plan of a transfer

    The addresses and sizes the loop of [fpga_dma_perform_transfer]
    goes through when no poll fails: its arithmetic without the
    device. *)
Fixpoint chunk_plan (fuel : nat) (remaining current_addr : Z) : list (Z * Z) :=
  match fuel with
  | O => []
  | S fuel' =>
      if remaining >? 0 then
        match pick_chunk remaining current_addr with
        | None => chunk_plan fuel' remaining (ALIGN current_addr 0x1000)
        | Some chunk_size =>
            (current_addr, chunk_size) ::
            chunk_plan fuel' (u64 (remaining - chunk_size)) (u64 (current_addr + chunk_size))
        end
      else []
  end.

Definition transfer_plan (size dma_handle : Z) : list (Z * Z) :=
  chunk_plan (S (Z.to_nat size)) size dma_handle.

(** The chunks with their numbers, an [int] that counts up from [n]. *)
Fixpoint numbered (n : Z) (cs : list (Z * Z)) : list (Z * Z * Z) :=
  match cs with
  | [] => []
  | c :: rest => (n, fst c, snd c) :: numbered (s32 (n + 1)) rest
  end.

(** What the driver does for one chunk before it polls, in order. *)
Definition chunk_steps (P : dma_params) (dma_handle : Z) (c : Z * Z * Z) : list action :=
  let '(n, addr, size) := c in
  let buf_offset := u64 (addr - dma_handle) in
  [ActChunk n addr size] ++
  (if verbose_chunk P n then
     [ActStore32 buf_offset 0xAAAAAAAA; ActStore32 (buf_offset + 4) 0xBBBBBBBB;
      ActStore32 (buf_offset + 8) 0xCCCCCCCC; ActStore32 (buf_offset + 12) 0xDDDDDDDD]
   else []) ++
  [ActStore32 (buf_offset + size - 4) tail_sentinel0] ++
  (if size >=? 8 then [ActStore32 (buf_offset + size - 4 - 4) tail_sentinel1] else []) ++
  [ActIowrite32 BAR1_DMA_L_ADDR (lower_32_bits addr);
   ActIowrite32 BAR1_DMA_H_ADDR (upper_32_bits addr);
   ActIowrite32 BAR1_DMA_CMD_REG (dma_cmd_word size);
   ActIoread32 0].

(** The steps of a log without the waiting (the sleeps, the delays and
    [cpu_relax]), newest first. *)
Definition is_step (a : action) : bool :=
  match a with
  | ActCpuRelax | ActUsleepRange _ _ | ActUdelay _ => false
  | _ => true
  end.

Definition steps_rev (l : list action) : list action := List.filter is_step l.

(** The same, oldest first. *)
Definition driver_steps (w : world) : list action := rev (steps_rev (w_log w)).

(** The sleeps of a log, newest first, as (min, max) in microseconds. *)
Fixpoint sleeps_rev (l : list action) : list (Z * Z) :=
  match l with
  | [] => []
  | ActUsleepRange lo hi :: l' => (lo, hi) :: sleeps_rev l'
  | _ :: l' => sleeps_rev l'
  end.

Definition is_cpu_relax (a : action) : bool :=
  match a with ActCpuRelax => true | _ => false end.

(** The chunks of a page-aligned transfer: [k] chunks of a page each,
    the last one cut to what remains. *)
Fixpoint page_chunks (k : nat) (remaining addr : Z) : list (Z * Z) :=
  match k with
  | O => []
  | S k' => (addr, Z.min remaining 4096) :: page_chunks k' (remaining - 4096) (addr + 4096)
  end.

(** A chunk lies in the [size] bytes from [base] on. *)
Definition chunk_inside (base size : Z) (c : Z * Z) : Prop :=
  base <= fst c /\ fst c + snd c <= base + size.

(** A store of the driver into [dma_buf] that stays within the first
    [size] bytes; any other step. *)
Definition store_inside (size : Z) (a : action) : Prop :=
  match a with
  | ActStore32 off _ => 0 <= off /\ off + 4 <= size
  | _ => True
  end.

(** Each number is at least [lo] and at least the one before it. *)
Fixpoint rising_from (lo : Z) (l : list Z) : Prop :=
  match l with
  | [] => True
  | a :: rest => lo <= a /\ rising_from a rest
  end.

(** The size a [FPGA_DMA_READ_FRAME] settles on. *)
Definition read_frame_size (dev : fpga_dma_dev) (transfer_size : Z) : Z :=
  if transfer_size >? 0 then transfer_size
  else fpga_dma_default_frame_size (fpga_dma_normalize_info_layout (dev_info dev)).

(** A poll of a chunk that the simulated device never serves: the
    sentinel at offset 0 stays, and the poll gives up after 20
    jiffies. *)
Definition stalled_poll : poll_result * world :=
  poll_loop (sim_device 0 0) sim_params 40 0 None 1020 (dma_poll_sleep_us sim_params) 0
    (write_once 0 tail_sentinel0 blank_world).

(** ** Part V: runs of the mailbox and of the capture loop *)

(** *** Interleavings of the mailbox

    Under [infer_lock] the mailbox is touched in two kinds of atomic
    steps: a push by the capture loop and the fetch at the head of the
    worker's loop.  A state pairs the context with the frames the
    worker has fetched so far, each with its sequence number.  A fetch
    that would park is not a step: the worker stays where it is. *)

Inductive mbox_op :=
| MboxPush (raw : list Z)
| MboxFetch.

Definition mbox_step (op : mbox_op) (s : app_ctx * list (list Z * Z))
    : option (app_ctx * list (list Z * Z)) :=
  match op with
  | MboxPush raw =>
      match push_latest_to_infer raw (fst s) with
      | Done _ c _ => Some (c, snd s)
      | _ => None
      end
  | MboxFetch =>
      match infer_fetch (fst s) with
      | Done (Some fr) c _ => Some (c, snd s ++ [fr])
      | Done None c _ => Some (c, snd s)
      | _ => None
      end
  end.

Fixpoint mbox_run (ops : list mbox_op) (s : app_ctx * list (list Z * Z))
    : option (app_ctx * list (list Z * Z)) :=
  match ops with
  | [] => Some s
  | op :: ops' =>
      match mbox_step op s with
      | Some s' => mbox_run ops' s'
      | None => None
      end
  end.

(** The frames pushed, in order. *)
Fixpoint pushed (ops : list mbox_op) : list (list Z) :=
  match ops with
  | [] => []
  | MboxPush raw :: ops' => raw :: pushed ops'
  | MboxFetch :: ops' => pushed ops'
  end.

(** Each number is above [lo] and above the one before it. *)
Fixpoint increasing_from (lo : Z) (l : list Z) : Prop :=
  match l with
  | [] => True
  | a :: rest => lo < a /\ increasing_from a rest
  end.

Definition pending (c : app_ctx) : Z := if infer_has_new c then 1 else 0.

(** The state of the mailbox after the pushes [done], seen from the
    counters [seq0] and [ov0] it started with. *)
Definition mbox_inv (seq0 ov0 : Z) (n : nat) (done : list (list Z)) (c : app_ctx)
    (got : list (list Z * Z)) : Prop :=
  running c = true /\ Z.to_nat (frame_size c) = n /\
  0 <= infer_overwrite_count c /\
  infer_frame_seq c = seq0 + Z.of_nat (length done) /\
  infer_overwrite_count c + Z.of_nat (length got) + pending c = ov0 + Z.of_nat (length done) /\
  increasing_from seq0 (snd <$> got) /\
  Forall (fun g => snd g + pending c <= seq0 + Z.of_nat (length done) /\
                   seq0 < snd g /\
                   exists raw, done !! Z.to_nat (snd g - seq0 - 1) = Some raw /\
                               fst g = take n raw) got /\
  (infer_has_new c = true ->
   exists raw, last done = Some raw /\ take n (infer_latest_raw c) = take n raw).


(** *** Counting along a run of the pool *)

Definition total (l : list Z) : Z := fold_right Z.add 0 l.

(** The step is a scan that hands out a slot. *)
Definition hands_out (op : pool_op) (s : pool_sys) : bool :=
  match op with
  | OpAcquire =>
      match scan_free_slot (sys_ctx s) with
      | Done (Some _) _ _ => true
      | _ => false
      end
  | OpRelease _ _ => false
  end.

(** The number of hand-outs of a run. *)
Fixpoint hand_outs (ops : list pool_op) (s : pool_sys) : Z :=
  match ops with
  | [] => 0
  | op :: ops' =>
      (if hands_out op s then 1 else 0) +
      match pool_step op s with
      | Some s' => hand_outs ops' s'
      | None => 0
      end
  end.

Definition counts_release (op : pool_op) : bool :=
  match op with
  | OpAcquire => true
  | OpRelease _ b => b
  end.

(** The books of the pool after [h] hand-outs; [exact] says that
    every release so far asked to be counted. *)
Definition pool_books (exact : bool) (h : Z) (s : pool_sys) : Prop :=
  Forall (fun g => 0 <= g) (generations (sys_ctx s)) /\
  total (generations (sys_ctx s)) = h /\
  0 <= released_frames (sys_ctx s) /\
  released_frames (sys_ctx s) + Z.of_nat (length (sys_valid s)) <= h /\
  (exact = true -> released_frames (sys_ctx s) + Z.of_nat (length (sys_valid s)) = h).

(** *** The waits of a trace *)

(** The wake-up times handed to [g_cond_wait_until], in order. *)
Fixpoint waits (tr : list event) : list Z :=
  match tr with
  | [] => []
  | EvWaitUntil _ wake :: tr' => wake :: waits tr'
  | _ :: tr' => waits tr'
  end.

(** *** The counters of the capture loop *)

(** Frames captured, frames handed to the display, frames offered to
    the worker. *)
Definition counters (c : app_ctx) : Z * Z * Z :=
  (captured_frames c, pushed_frames c, infer_frame_seq c).

(** A program that leaves [f] of the context as it was. *)
Definition keeps {A B : Type} (f : app_ctx -> B) (m : prog A) : Prop :=
  forall c a c' tr, m c = Done a c' tr -> f c' = f c.

(** The library answers of a turn in which the push is accepted. *)
Definition env_pushed : iter_env :=
  mk_iter_env false 0 0 (replicate 8 1) 1000000 [] (fun d => d) true true 0 [].

(** ** Part VI: the start of [main], the labels file and the test tool *)

(** *** [struct options] and [parse_options] *)

Definition DEFAULT_DEVICE : string := "/dev/fpga_dma0".
Definition DEFAULT_DRM_CARD : string := "/dev/dri/card0".
Definition DEFAULT_FPS : Z := 15.
Definition DEFAULT_TIMEOUT_MS : Z := 5000.
Definition DEFAULT_STATS_INTERVAL : Z := 1.
Definition DEFAULT_COPY_BUFFERS : Z := 2.
Definition DEFAULT_QUEUE_DEPTH : Z := 1.
Definition MIN_COPY_BUFFERS : Z := 2.
Definition MAX_COPY_BUFFERS : Z := 6.

Definition MAX_LABELS : Z := 256.
Definition MAX_LABEL_LEN : Z := 64.

(** The outcome of [parse_options]: a return with the options as they
    are at that point, or the [exit] of [--help]. *)
Inductive parse_outcome (options : Type) :=
| ParseReturn (r : Z) (opt : options)
| ParseExit (status : Z).
Arguments ParseReturn {options} r opt.
Arguments ParseExit {options} status.

Definition is_null {A : Type} (p : option A) : bool :=
  match p with
  | None => true
  | Some _ => false
  end.

Section Options.

(** The C library's [atoi] and [atof] (taken to [float]), and the
    constant [0.35f]. *)
Variable atoi : string -> Z.
Variable float : Type.
Variable atof : string -> float.
Variable float_035 : float.

(** A [const char *] that may be [NULL] is an [option]. *)
Record options := mk_options {
  device_path : string;
  drm_card_path : string;
  veh_model_path : option string;
  plate_model_path : option string;
  labels_path : option string;
  connector_id : Z;
  fps : Z;
  pixel_order_opt : pixel_order;
  timeout_ms : Z;
  stats_interval : Z;
  copy_buffers : Z;
  queue_depth : Z;
  min_car_conf : float;
  min_plate_conf : float;
  plate_on_car_only : Z;
  swap16 : bool
}.

Definition set_device_path (v : string) (o : options) : options :=
  let 'mk_options _ b c d e f g h i j k l m n p q := o in
  mk_options v b c d e f g h i j k l m n p q.
Definition set_drm_card_path (v : string) (o : options) : options :=
  let 'mk_options a _ c d e f g h i j k l m n p q := o in
  mk_options a v c d e f g h i j k l m n p q.
Definition set_veh_model_path (v : option string) (o : options) : options :=
  let 'mk_options a b _ d e f g h i j k l m n p q := o in
  mk_options a b v d e f g h i j k l m n p q.
Definition set_plate_model_path (v : option string) (o : options) : options :=
  let 'mk_options a b c _ e f g h i j k l m n p q := o in
  mk_options a b c v e f g h i j k l m n p q.
Definition set_labels_path (v : option string) (o : options) : options :=
  let 'mk_options a b c d _ f g h i j k l m n p q := o in
  mk_options a b c d v f g h i j k l m n p q.
Definition set_connector_id (v : Z) (o : options) : options :=
  let 'mk_options a b c d e _ g h i j k l m n p q := o in
  mk_options a b c d e v g h i j k l m n p q.
Definition set_fps (v : Z) (o : options) : options :=
  let 'mk_options a b c d e f _ h i j k l m n p q := o in
  mk_options a b c d e f v h i j k l m n p q.
Definition set_pixel_order (v : pixel_order) (o : options) : options :=
  let 'mk_options a b c d e f g _ i j k l m n p q := o in
  mk_options a b c d e f g v i j k l m n p q.
Definition set_timeout_ms (v : Z) (o : options) : options :=
  let 'mk_options a b c d e f g h _ j k l m n p q := o in
  mk_options a b c d e f g h v j k l m n p q.
Definition set_stats_interval (v : Z) (o : options) : options :=
  let 'mk_options a b c d e f g h i _ k l m n p q := o in
  mk_options a b c d e f g h i v k l m n p q.
Definition set_copy_buffers (v : Z) (o : options) : options :=
  let 'mk_options a b c d e f g h i j _ l m n p q := o in
  mk_options a b c d e f g h i j v l m n p q.
Definition set_queue_depth (v : Z) (o : options) : options :=
  let 'mk_options a b c d e f g h i j k _ m n p q := o in
  mk_options a b c d e f g h i j k v m n p q.
Definition set_min_car_conf (v : float) (o : options) : options :=
  let 'mk_options a b c d e f g h i j k l _ n p q := o in
  mk_options a b c d e f g h i j k l v n p q.
Definition set_min_plate_conf (v : float) (o : options) : options :=
  let 'mk_options a b c d e f g h i j k l m _ p q := o in
  mk_options a b c d e f g h i j k l m v p q.
Definition set_plate_on_car_only (v : Z) (o : options) : options :=
  let 'mk_options a b c d e f g h i j k l m n _ q := o in
  mk_options a b c d e f g h i j k l m n v q.
Definition set_swap16 (v : bool) (o : options) : options :=
  let 'mk_options a b c d e f g h i j k l m n p _ := o in
  mk_options a b c d e f g h i j k l m n p v.

(** The options after the assignments at the head of [parse_options]. *)
Definition default_options : options :=
  mk_options DEFAULT_DEVICE DEFAULT_DRM_CARD None None None (-1) DEFAULT_FPS
    PIXEL_ORDER_BGR565 DEFAULT_TIMEOUT_MS DEFAULT_STATS_INTERVAL DEFAULT_COPY_BUFFERS
    DEFAULT_QUEUE_DEPTH float_035 float_035 0 true.

(** The [switch] on a value [c] that [getopt_long] returned with
    [optarg]: the options to go on with, or the way out.  104 is ['h'];
    for an option it does not know, or one that lacks its argument,
    [getopt_long] returns ['?'], which falls to [default]. *)
Definition getopt_case (c : Z) (optarg : string) (opt : options)
    : parse_outcome options + options :=
  if c =? 1 then inr (set_device_path optarg opt)
  else if c =? 2 then inr (set_drm_card_path optarg opt)
  else if c =? 3 then inr (set_veh_model_path (Some optarg) opt)
  else if c =? 4 then inr (set_plate_model_path (Some optarg) opt)
  else if c =? 5 then inr (set_labels_path (Some optarg) opt)
  else if c =? 6 then inr (set_connector_id (atoi optarg) opt)
  else if c =? 7 then inr (set_fps (atoi optarg) opt)
  else if c =? 8 then
    if String.eqb optarg "bgr565" then inr (set_pixel_order PIXEL_ORDER_BGR565 opt)
    else if String.eqb optarg "rgb565" then inr (set_pixel_order PIXEL_ORDER_RGB565 opt)
    else inl (ParseReturn (-1) opt)
  else if c =? 9 then inr (set_swap16 (negb (atoi optarg =? 0)) opt)
  else if c =? 10 then inr (set_timeout_ms (atoi optarg) opt)
  else if c =? 11 then inr (set_stats_interval (atoi optarg) opt)
  else if c =? 12 then inr (set_copy_buffers (atoi optarg) opt)
  else if c =? 13 then inr (set_queue_depth (atoi optarg) opt)
  else if c =? 14 then inr (set_min_car_conf (atof optarg) opt)
  else if c =? 15 then inr (set_min_plate_conf (atof optarg) opt)
  else if c =? 16 then inr (set_plate_on_car_only (if atoi optarg =? 0 then 0 else 1) opt)
  else if c =? 104 then inl (ParseExit 0)
  else inl (ParseReturn (-1) opt).

(** The loop over the returns of [getopt_long], which end with -1. *)
Fixpoint getopt_loop (evs : list (Z * string)) (opt : options)
    : parse_outcome options + options :=
  match evs with
  | [] => inr opt
  | (c, optarg) :: evs' =>
      match getopt_case c optarg opt with
      | inl out => inl out
      | inr opt' => getopt_loop evs' opt'
      end
  end.

(** The tests after the loop. *)
Definition check_options (opt : options) : Z :=
  if (fps opt <=? 0) || (timeout_ms opt <=? 0) || (stats_interval opt <=? 0) then -1
  else if (copy_buffers opt <? MIN_COPY_BUFFERS) || (copy_buffers opt >? MAX_COPY_BUFFERS)
  then -1
  else if queue_depth opt <=? 0 then -1
  else if is_null (veh_model_path opt) || is_null (plate_model_path opt) ||
          is_null (labels_path opt)
  then -1
  else 0.

(** [parse_options] on the returns of [getopt_long] for the command
    line. *)
Definition parse_options (evs : list (Z * string)) : parse_outcome options :=
  match getopt_loop evs default_options with
  | inl out => out
  | inr opt => ParseReturn (check_options opt) opt
  end.

End Options.

Arguments device_path {float} o.
Arguments drm_card_path {float} o.
Arguments veh_model_path {float} o.
Arguments plate_model_path {float} o.
Arguments labels_path {float} o.
Arguments connector_id {float} o.
Arguments fps {float} o.
Arguments pixel_order_opt {float} o.
Arguments timeout_ms {float} o.
Arguments stats_interval {float} o.
Arguments copy_buffers {float} o.
Arguments queue_depth {float} o.
Arguments min_car_conf {float} o.
Arguments min_plate_conf {float} o.
Arguments plate_on_car_only {float} o.
Arguments swap16 {float} o.

(** *** [load_labels] *)

Definition NUL : ascii := "000"%char.
Definition LF : ascii := "010"%char.

(** [fgets (line, size, fp)]: at most [size - 1] characters of the
    file, up to and with the first newline; [None] at the end of the
    file.  The second component is what is left of the file. *)
Fixpoint fgets_chars (n : nat) (file : list ascii) : list ascii * list ascii :=
  match n, file with
  | S n', ch :: rest =>
      if Ascii.eqb ch LF then ([ch], rest)
      else let '(l, r) := fgets_chars n' rest in (ch :: l, r)
  | _, _ => ([], file)
  end.

Definition fgets (size : nat) (file : list ascii) : option (list ascii * list ascii) :=
  match file with
  | [] => None
  | _ => Some (fgets_chars (size - 1) file)
  end.

(** The characters of a buffer before the first [stop]: with [NUL],
    the string a buffer holds; with [LF], the string left when the
    newline that [strchr] finds is overwritten with [NUL]. *)
Fixpoint cut (stop : ascii) (buf : list ascii) : list ascii :=
  match buf with
  | [] => []
  | ch :: rest => if Ascii.eqb ch stop then [] else ch :: cut stop rest
  end.

Definition is_empty {A : Type} (l : list A) : bool :=
  match l with
  | [] => true
  | _ => false
  end.

(** The reading loop.  Every [fgets] that returns takes at least one
    character off the file, so [fuel] turns are enough for a file of
    fewer than [fuel] characters.  A label is stored with [snprintf]
    into [MAX_LABEL_LEN] bytes: its first 63 characters. *)
Fixpoint read_labels (fuel : nat) (file : list ascii) (labels : list (list ascii))
    : list (list ascii) :=
  match fuel with
  | O => labels
  | S fuel' =>
      match fgets 256 file with
      | None => labels
      | Some (buf, rest) =>
          if Z.of_nat (length labels) <? MAX_LABELS then
            let line := cut LF (cut NUL buf) in
            if is_empty line then read_labels fuel' rest labels
            else read_labels fuel' rest
                   (labels ++ [take (Z.to_nat (MAX_LABEL_LEN - 1)) line])
          else labels
      end
  end.

Definition str_eqb (a b : list ascii) : bool :=
  if List.list_eq_dec Ascii.ascii_dec a b then true else false.

(** The search for the label [car]: the index of the first one from
    [idx] on, or what [car_class_id] was set to before. *)
Fixpoint find_car (labels : list (list ascii)) (idx car_class_id : Z) : Z :=
  match labels with
  | [] => car_class_id
  | l :: rest =>
      if str_eqb l (list_ascii_of_string "car") then idx
      else find_car rest (idx + 1) car_class_id
  end.

(** What [load_labels] leaves in the context. *)
Record label_table := mk_labels {
  labels : list (list ascii);
  label_count : Z;
  car_class_id : Z
}.

(** [load_labels] on the contents of the file, [None] for a file that
    does not open; the result is [None] for the return of -1. *)
Definition load_labels (file : option (list ascii)) : option label_table :=
  match file with
  | None => None
  | Some f =>
      let ls := read_labels (S (length f)) f [] in
      Some (mk_labels ls (Z.of_nat (length ls)) (find_car ls 0 2))
  end.

(** *** The start of [main] *)

(** What the system answers while [main] sets up: the returns of
    [getopt_long], the descriptors of the two [open]s, the labels
    file, the answer to [FPGA_DMA_GET_INFO] ([None] when the ioctl
    fails), and whether the mapping of the DMA buffer, the allocations
    and the start of the models, the pipeline and the worker thread
    succeed. *)
Record setup_env := mk_setup_env {
  se_getopt : list (Z * string);
  se_drm_fd : Z;
  se_labels_file : option (list ascii);
  se_dev_fd : Z;
  se_get_info : option fpga_info;
  se_map_ok : bool;
  se_alloc_ok : bool;
  se_started_ok : bool
}.

(** [init_fpga_dma]: the frame size, or [None] for -1. *)
Definition init_fpga_dma (e : setup_env) : option Z :=
  if se_dev_fd e <? 0 then None
  else
    match se_get_info e with
    | None => None
    | Some info =>
        match init_fpga_dma_check info with
        | None => None
        | Some size => if se_map_ok e && se_alloc_ok e then Some size else None
        end
    end.

Section Setup.

Variable atoi : string -> Z.
Variable float : Type.
Variable atof : string -> float.
Variable float_035 : float.

(** [main] up to the capture loop: the context the loop starts from
    and the labels, or [None] when [main] leaves before ([goto out],
    or the [exit] of [--help]).  [memset] clears the context;
    buffers that [malloc] returns are given zeros, none of them being
    read before it is written. *)
Definition main_setup (e : setup_env) : option (app_ctx * label_table) :=
  match parse_options atoi float atof float_035 (se_getopt e) with
  | ParseExit _ => None
  | ParseReturn r opt =>
      if r <? 0 then None
      else if se_drm_fd e <? 0 then None
      else
        match load_labels (se_labels_file e) with
        | None => None
        | Some tbl =>
            match init_fpga_dma e with
            | None => None
            | Some size =>
                if negb (se_alloc_ok e) then None
                else if negb (se_started_ok e) then None
                else
                  let zeros := replicate (Z.to_nat size) 0 in
                  let c := mk_ctx (timeout_ms opt) (fps opt) (swap16 opt) size zeros [] 0
                             true 0 0 0 0 0 0 zeros false 0 in
                  Some (init_copy_slots (copy_buffers opt) c, tbl)
            end
        end
  end.

End Setup.

(** *** The two callers of [FPGA_DMA_READ_FRAME] *)


Section Callers.

Variable elapse : world -> mem * Z.
Variable msecs_to_jiffies : Z -> Z.
Variable P : dma_params.
Variable dma_handle : Z.



End Callers.

(** *** The test tool: [verify_frame] and [save_ppm_rgb565] *)

(** [verify_frame]: the count of bytes that are not zero decides. *)
Definition verify_frame (buffer : list Z) (size : Z) : option Z :=
  let? non_zero_count :=
    for_range 0 size
      (fun i n => let? d := arr_load buffer i in Some (if d =? 0 then n else u64 (n + 1))) 0 in
  Some (if non_zero_count =? 0 then -1 else 0).

Inductive ppm_mode :=
| PPM_MODE_RGB565
| PPM_MODE_BGR565
| PPM_MODE_RGB565_SWAP16
| PPM_MODE_BGR565_SWAP16.

Definition ppm_swaps (mode : ppm_mode) : bool :=
  match mode with
  | PPM_MODE_RGB565_SWAP16 | PPM_MODE_BGR565_SWAP16 => true
  | _ => false
  end.

Definition ppm_is_rgb (mode : ppm_mode) : bool :=
  match mode with
  | PPM_MODE_RGB565 | PPM_MODE_RGB565_SWAP16 => true
  | _ => false
  end.

(** The three bytes the loop of [save_ppm_rgb565] writes for a pixel. *)
Definition ppm_pixel (mode : ppm_mode) (lo_in hi_in : Z) : list Z :=
  let lo := if ppm_swaps mode then hi_in else lo_in in
  let hi := if ppm_swaps mode then lo_in else hi_in in
  let pix := u16 (Z.lor lo (Z.shiftl hi 8)) in
  let '(r5, g6, b5) :=
    if ppm_is_rgb mode then
      (u8 (Z.land (Z.shiftr pix 11) 0x1F), u8 (Z.land (Z.shiftr pix 5) 0x3F),
       u8 (Z.land pix 0x1F))
    else
      (u8 (Z.land pix 0x1F), u8 (Z.land (Z.shiftr pix 5) 0x3F),
       u8 (Z.land (Z.shiftr pix 11) 0x1F)) in
  [u8 (Z.lor (Z.shiftl r5 3) (Z.shiftr r5 2));
   u8 (Z.lor (Z.shiftl g6 2) (Z.shiftr g6 4));
   u8 (Z.lor (Z.shiftl b5 3) (Z.shiftr b5 2))].

(** The bytes [save_ppm_rgb565] writes after the header, every
    [fwrite] succeeding; indices are computed in [uint32_t]. *)
Definition save_ppm_rgb565 (src : list Z) (width height : Z) (mode : ppm_mode)
    : option (list Z) :=
  let pixel_count := u32 (width * height) in
  for_range 0 pixel_count
    (fun i out =>
       let? lo := arr_load src (u32 (i * 2)) in
       let? hi := arr_load src (u32 (i * 2 + 1)) in
       Some (out ++ ppm_pixel mode lo hi)) [].


(** *** Predicates and samples for the statements about the start *)

(** The argument that came with the last return [c] of
    [getopt_long], if there was one. *)
Fixpoint last_arg (c : Z) (evs : list (Z * string)) : option string :=
  match evs with
  | [] => None
  | (c', a) :: evs' =>
      match last_arg c evs' with
      | Some x => Some x
      | None => if c' =? c then Some a else None
      end
  end.

(** A stand-in for [atoi] on the arguments of the samples: the value
    of a string of decimal digits. *)
Definition digit_value (ch : ascii) : Z := Z.of_nat (nat_of_ascii ch) - 48.

Fixpoint digits_value (acc : Z) (s : string) : Z :=
  match s with
  | EmptyString => acc
  | String ch rest => digits_value (10 * acc + digit_value ch) rest
  end.

Definition sample_atoi (s : string) : Z := digits_value 0 s.

(** A command line with the three required paths and a pool of three
    buffers. *)
Definition sample_getopt : list (Z * string) :=
  [(3, "veh.rknn"); (12, "2"); (4, "plate.rknn"); (5, "labels.txt"); (12, "3")]%string.

(** A line of a labels file: no [NUL], no newline, and short enough
    for the buffer of [load_labels] to take it with its newline. *)
Definition label_line (l : list ascii) : Prop :=
  ~ In NUL l /\ ~ In LF l /\ (length l < 255)%nat.

(** The file made of the lines [ls], each ended by a newline, and of
    a last line [tail] that is not. *)
Definition lines_file (ls : list (list ascii)) (tail : list ascii) : list ascii :=
  flat_map (fun l => l ++ [LF]) ls ++ tail.

(** A label as [snprintf] stores it, and the labels stored for the
    lines [ls]: empty lines are passed over. *)
Definition stored_label (l : list ascii) : list ascii :=
  take (Z.to_nat (MAX_LABEL_LEN - 1)) l.

Definition stored_labels (ls : list (list ascii)) : list (list ascii) :=
  stored_label <$> List.filter (fun l => negb (is_empty l)) ls.

Definition car_label : list ascii := list_ascii_of_string "car".

(** A labels file of three classes, the last line without its
    newline; and a start of [main] with the answer of a driver loaded
    for BGR565. *)
Definition sample_labels_file : list ascii :=
  lines_file [list_ascii_of_string "person"; car_label] (list_ascii_of_string "bus").

Definition sample_setup_env : setup_env :=
  mk_setup_env sample_getopt 3 (Some sample_labels_file) 4
    (Some (ioctl_get_info (mk_dev (probe_info 0 4096 4096) FPGA_FRAME_MAX_SIZE)))
    true true true.

(** ** Part VII: the detections of the worker *)

(** *** Single-precision arithmetic

    The operations on [float] that the worker uses.  Nothing is
    assumed about them: what is proved below holds for every
    interpretation, rounding and special values included.
    [f_lit n d] is the constant [n / d], as in [0.45f]. *)
Class Float32 (float : Type) := {
  f_lit : Z -> Z -> float;
  f_of_int : Z -> float;
  f_to_int : float -> Z;
  f_neg : float -> float;
  f_add : float -> float -> float;
  f_sub : float -> float -> float;
  f_mul : float -> float -> float;
  f_div : float -> float -> float;
  f_eq : float -> float -> bool;
  f_lt : float -> float -> bool;
  f_le : float -> float -> bool;
  f_gt : float -> float -> bool;
  f_ge : float -> float -> bool;
  expf : float -> float;
  fmaxf : float -> float -> float;
  fminf : float -> float -> float;
  fmodf : float -> float -> float
}.

(** Arrays of any element type; an access outside is undefined
    behaviour, [None]. *)
Definition buf_load {A : Type} (a : list A) (i : Z) : option A :=
  if 0 <=? i then a !! Z.to_nat i else None.

Definition buf_store {A : Type} (a : list A) (i : Z) (v : A) : option (list A) :=
  if (0 <=? i) && (i <? Z.of_nat (length a)) then Some (<[Z.to_nat i := v]> a) else None.

Section Detections.

Context {float : Type} {F : Float32 float}.

(** A [struct det_box] with its [conf]. *)
Definition scored : Type := det_box * float.

Definition sigmoidf_local (x : float) : float :=
  f_div (f_lit 1 1) (f_add (f_lit 1 1) (expf (f_neg x))).

(** *** [box_iou] *)
Definition box_iou (a b : det_box) : float :=
  let x1 := if box_x1 a >? box_x1 b then box_x1 a else box_x1 b in
  let y1 := if box_y1 a >? box_y1 b then box_y1 a else box_y1 b in
  let x2 := if box_x2 a <? box_x2 b then box_x2 a else box_x2 b in
  let y2 := if box_y2 a <? box_y2 b then box_y2 a else box_y2 b in
  let iw := x2 - x1 + 1 in
  let ih := y2 - y1 + 1 in
  if (iw <=? 0) || (ih <=? 0) then f_lit 0 1
  else
    let ia := iw * ih in
    let ua := (box_x2 a - box_x1 a + 1) * (box_y2 a - box_y1 a + 1) +
              (box_x2 b - box_x1 b + 1) * (box_y2 b - box_y1 b + 1) - ia in
    if ua <=? 0 then f_lit 0 1 else f_div (f_of_int ia) (f_of_int ua).

(** *** [nms_inplace] *)

(** The library's [qsort] with [det_conf_cmp]: it rearranges the
    array. *)
Variable qsort_conf : list scored -> list scored.

(** The loop over [j]: the boxes after [i] of the class of [dets[i]]
    that overlap it by more than [iou_thr] are marked. *)
Definition nms_mark (dets : list scored) (i count : Z) (iou_thr : float)
    (removed : list bool) : option (list bool) :=
  for_range (i + 1) count
    (fun j (removed : list bool) =>
       let? rj := buf_load removed j in
       if rj then Some removed
       else
         let? di := buf_load dets i in
         let? dj := buf_load dets j in
         if negb (box_cls (fst di) =? box_cls (fst dj)) then Some removed
         else if f_gt (box_iou (fst di) (fst dj)) iou_thr then buf_store removed j true
         else Some removed)
    removed.

(** [nms_inplace] on the array [dets] with [*count = count]: the
    array and the count it leaves.  [removed] has [MAX_DETS]
    entries. *)
Definition nms_inplace (dets : list scored) (count : Z) (iou_thr : float)
    : option (list scored * Z) :=
  let removed := replicate (Z.to_nat MAX_DETS) false in
  let dets := qsort_conf (take (Z.to_nat count) dets) ++ drop (Z.to_nat count) dets in
  let? st :=
    for_range 0 count
      (fun i (st : list scored * list bool * Z) =>
         let '(dets, removed, out) := st in
         let? ri := buf_load removed i in
         if ri then Some st
         else
           let? di := buf_load dets i in
           let? dets := buf_store dets out di in
           let? removed := nms_mark dets i count iou_thr removed in
           Some (dets, removed, out + 1))
      (dets, removed, 0) in
  Some (fst (fst st), snd st).

(** *** [decode_rows_output] *)

(** The loop over the classes of row [i]: the best score and its
    class. *)
Definition best_class (rows : list float) (base class_count : Z) : option (float * Z) :=
  for_range 0 class_count
    (fun c (st : float * Z) =>
       let? p := buf_load rows (base + 5 + c) in
       Some (if f_gt p (fst st) then (p, c) else st))
    (f_lit 0 1, 0).

(** One turn of the loop over the rows: [out] with the box of row
    [i], if its score reaches [conf_thr]. *)
Definition decode_row (rows : list float) (n_cols class_count : Z) (conf_thr : float)
    (src_w src_h in_w in_h : Z) (i : Z) (out : list scored) : option (list scored) :=
  let base := i * n_cols in
  let? obj := buf_load rows (base + 4) in
  let? cx := buf_load rows (base + 0) in
  let? cy := buf_load rows (base + 1) in
  let? bw := buf_load rows (base + 2) in
  let? bh := buf_load rows (base + 3) in
  let? bc := best_class rows base class_count in
  let '(best, best_id) := bc in
  let obj := if f_le obj (f_lit 1 1) then sigmoidf_local obj else obj in
  let best := if f_le best (f_lit 1 1) then sigmoidf_local best else best in
  if f_lt (f_mul obj best) conf_thr then Some out
  else
    let scale := f_le bw (f_lit 2 1) && f_le bh (f_lit 2 1) in
    let cx := if scale then f_mul cx (f_of_int in_w) else cx in
    let cy := if scale then f_mul cy (f_of_int in_h) else cy in
    let bw := if scale then f_mul bw (f_of_int in_w) else bw in
    let bh := if scale then f_mul bh (f_of_int in_h) else bh in
    let half := f_lit 5 10 in
    let sx := f_div (f_of_int src_w) (f_of_int in_w) in
    let sy := f_div (f_of_int src_h) (f_of_int in_h) in
    let b := mk_box (f_to_int (f_mul (f_sub cx (f_mul bw half)) sx))
                    (f_to_int (f_mul (f_sub cy (f_mul bh half)) sy))
                    (f_to_int (f_mul (f_add cx (f_mul bw half)) sx))
                    (f_to_int (f_mul (f_add cy (f_mul bh half)) sy))
                    best_id in
    Some (out ++ [(clamp_box b src_w src_h, f_mul obj best)]).

(** [for (i = 0; i < n_rows && *out_count < MAX_DETS; i++)], from
    row [i] on with [n] rows to go. *)
Fixpoint decode_rows_from (n : nat) (rows : list float) (n_cols class_count : Z)
    (conf_thr : float) (src_w src_h in_w in_h : Z) (i : Z) (out : list scored)
    : option (list scored) :=
  match n with
  | O => Some out
  | S n' =>
      if Z.of_nat (length out) <? MAX_DETS then
        let? out := decode_row rows n_cols class_count conf_thr src_w src_h in_w in_h i out in
        decode_rows_from n' rows n_cols class_count conf_thr src_w src_h in_w in_h (i + 1) out
      else Some out
  end.

(** [decode_rows_output]: [out] holds the [*out_count] boxes found so
    far. *)
Definition decode_rows_output (rows : list float) (n_rows n_cols class_count : Z)
    (conf_thr : float) (src_w src_h in_w in_h : Z) (out : list scored)
    : option (list scored) :=
  decode_rows_from (Z.to_nat n_rows) rows n_cols class_count conf_thr src_w src_h in_w in_h
    0 out.

(** *** [run_model_detect] *)

(** The fields of [struct yolo_model] that the detection reads, and
    an output tensor as [rknn_outputs_get] hands it over, with the
    attributes the model has for it. *)
Record yolo_model := mk_model {
  in_w : Z;
  in_h : Z;
  class_count : Z
}.

Record output_tensor := mk_tensor {
  n_dims : Z;
  dim1 : Z;
  dim2 : Z;
  tensor_buf : list float
}.

Fixpoint decode_outputs (m : yolo_model) (outs : list output_tensor) (src_w src_h : Z)
    (conf_thr : float) (out : list scored) : option (list scored) :=
  match outs with
  | [] => Some out
  | a :: outs' =>
      let? out :=
        if (n_dims a =? 3) && (dim2 a >=? 6) then
          decode_rows_output (tensor_buf a) (dim1 a) (dim2 a) (class_count m) conf_thr
            src_w src_h (in_w m) (in_h m) out
        else Some out in
      decode_outputs m outs' src_w src_h conf_thr out
  end.

(** [run_model_detect] when the three calls of the library succeed:
    the boxes it leaves in [out], [*out_count] of them. *)
Definition run_model_detect (m : yolo_model) (outs : list output_tensor) (src_w src_h : Z)
    (conf_thr : float) : option (list scored) :=
  let? out := decode_outputs m outs src_w src_h conf_thr [] in
  let out_count := if Z.of_nat (length out) >? MAX_DETS then MAX_DETS
                   else Z.of_nat (length out) in
  let? r := nms_inplace out out_count (f_lit 45 100) in
  Some (take (Z.to_nat (snd r)) (fst r)).

(** *** [classify_plate_color_rgb] *)

(** The hue test on one pixel: whether it counts as blue, as green. *)
Definition pixel_vote (p0 p1 p2 : Z) : bool * bool :=
  let r := f_div (f_of_int p0) (f_lit 255 1) in
  let g := f_div (f_of_int p1) (f_lit 255 1) in
  let bch := f_div (f_of_int p2) (f_lit 255 1) in
  let mx := fmaxf r (fmaxf g bch) in
  let mn := fminf r (fminf g bch) in
  let d := f_sub mx mn in
  let s := if f_eq mx (f_lit 0 1) then f_lit 0 1 else f_div d mx in
  let v := mx in
  let h_deg :=
    if f_gt d (f_lit 1 1000000) then
      if f_eq mx r then f_mul (f_lit 60 1) (fmodf (f_div (f_sub g bch) d) (f_lit 6 1))
      else if f_eq mx g then f_mul (f_lit 60 1) (f_add (f_div (f_sub bch r) d) (f_lit 2 1))
      else f_mul (f_lit 60 1) (f_add (f_div (f_sub r g) d) (f_lit 4 1))
    else f_lit 0 1 in
  let h_deg := if f_lt h_deg (f_lit 0 1) then f_add h_deg (f_lit 360 1) else h_deg in
  if f_ge h_deg (f_lit 90 1) && f_le h_deg (f_lit 130 1) && f_gt s (f_lit 23 100) &&
     f_gt v (f_lit 16 100)
  then (true, false)
  else if f_ge h_deg (f_lit 35 1) && f_le h_deg (f_lit 90 1) && f_gt s (f_lit 20 100) &&
          f_gt v (f_lit 16 100)
  then (false, true)
  else (false, false).

(** The window of the box that is looked at: a sixth is taken off at
    each side, and what is left is cut to the image. *)
Definition plate_window (w h : Z) (b : det_box) : Z * Z * Z * Z :=
  let x1 := box_x1 b + Z.quot (box_x2 b - box_x1 b) 6 in
  let x2 := box_x2 b - Z.quot (box_x2 b - box_x1 b) 6 in
  let y1 := box_y1 b + Z.quot (box_y2 b - box_y1 b) 6 in
  let y2 := box_y2 b - Z.quot (box_y2 b - box_y1 b) 6 in
  let x1 := if x1 <? 0 then 0 else x1 in
  let y1 := if y1 <? 0 then 0 else y1 in
  let x2 := if x2 >=? w then w - 1 else x2 in
  let y2 := if y2 >=? h then h - 1 else y2 in
  (x1, y1, x2, y2).

(** The two loops: the counts [total], [blue_cnt] and [green_cnt]. *)
Definition count_votes (rgb : list Z) (w : Z) (x1 y1 x2 y2 : Z) : option (Z * Z * Z) :=
  for_range y1 (y2 + 1)
    (fun y (st : Z * Z * Z) =>
       for_range x1 (x2 + 1)
         (fun x (st : Z * Z * Z) =>
            let '(total, blue_cnt, green_cnt) := st in
            let p := (y * w + x) * 3 in
            let? p0 := arr_load rgb p in
            let? p1 := arr_load rgb (p + 1) in
            let? p2 := arr_load rgb (p + 2) in
            let '(blue, green) := pixel_vote p0 p1 p2 in
            Some (total + 1,
                  if blue then blue_cnt + 1 else blue_cnt,
                  if blue then green_cnt else if green then green_cnt + 1 else green_cnt))
         st)
    (0, 0, 0).

Definition classify_plate_color_rgb (rgb : list Z) (w h : Z) (b : det_box)
    : option plate_color :=
  let '(x1, y1, x2, y2) := plate_window w h b in
  let? st := count_votes rgb w x1 y1 x2 y2 in
  let '(total, blue_cnt, green_cnt) := st in
  if total =? 0 then Some PLATE_COLOR_UNKNOWN
  else
    let margin := f_to_int (f_mul (f_lit 5 100) (f_of_int total)) in
    if f_ge (f_div (f_of_int blue_cnt) (f_of_int total)) (f_lit 20 100) &&
       (blue_cnt >? green_cnt + margin)
    then Some PLATE_COLOR_BLUE
    else if f_ge (f_div (f_of_int green_cnt) (f_of_int total)) (f_lit 20 100) &&
            (green_cnt >? blue_cnt + margin)
    then Some PLATE_COLOR_GREEN
    else Some PLATE_COLOR_UNKNOWN.

End Detections.

Arguments scored : clear implicits.
Arguments output_tensor : clear implicits.

(** *** Greedy suppression, as a function on lists

    A box is kept unless a box kept before it, of its class, overlaps
    it by more than the threshold. *)
Section Greedy.

Context {float : Type} {F : Float32 float}.

Definition suppresses (iou_thr : float) (d e : scored float) : bool :=
  (box_cls (fst d) =? box_cls (fst e)) && f_gt (box_iou (fst d) (fst e)) iou_thr.

Definition suppressed (iou_thr : float) (kept : list (scored float)) (e : scored float)
    : bool :=
  existsb (fun k => suppresses iou_thr k e) kept.

Fixpoint nms_keep (iou_thr : float) (kept l : list (scored float)) : list (scored float) :=
  match l with
  | [] => []
  | d :: rest =>
      if suppressed iou_thr kept d then nms_keep iou_thr kept rest
      else d :: nms_keep iou_thr (kept ++ [d]) rest
  end.

Definition greedy_nms (iou_thr : float) (l : list (scored float)) : list (scored float) :=
  nms_keep iou_thr [] l.

End Greedy.

(** *** An interpretation for running the model: integers for
    [float], with the integer operations. *)
Definition int_floats : Float32 Z := {|
  f_lit := fun n d => Z.quot n d;
  f_of_int := fun i => i;
  f_to_int := fun x => x;
  f_neg := Z.opp;
  f_add := Z.add;
  f_sub := Z.sub;
  f_mul := Z.mul;
  f_div := Z.quot;
  f_eq := Z.eqb;
  f_lt := Z.ltb;
  f_le := Z.leb;
  f_gt := Z.gtb;
  f_ge := Z.geb;
  expf := fun x => x;
  fmaxf := Z.max;
  fminf := Z.min;
  fmodf := Z.rem
|}.

(** *** Predicates used in the statements about the detections *)

(** What [decode_rows_output] makes of a box: [clamp_box] has ordered
    its corners, and its class is one of the classes looked at (class
    0 when there are none). *)
Definition decoded_box {float : Type} (class_count : Z) (d : scored float) : Prop :=
  0 <= box_x1 (fst d) <= box_x2 (fst d) /\ 0 <= box_y1 (fst d) <= box_y2 (fst d) /\
  0 <= box_cls (fst d) < Z.max 1 class_count.

(** An output tensor that [run_model_detect] decodes has its
    [dim1] rows of [dim2] values, and the classes of the model fit
    the rows. *)
Definition tensor_fits {float : Type} (m : yolo_model) (a : output_tensor float) : Prop :=
  n_dims a = 3 -> 6 <= dim2 a ->
  dim1 a * dim2 a <= Z.of_nat (length (tensor_buf a)) /\ class_count m + 5 <= dim2 a.

(** The number of pixels of a window. *)
Definition window_area (x1 y1 x2 y2 : Z) : Z :=
  Z.max 0 (x2 - x1 + 1) * Z.max 0 (y2 - y1 + 1).

(** ** Part VIII: what the device is told, and who holds [infer_lock] *)

(** *** The chunks the device is told to write

    The device takes a chunk from three registers: the bus address
    from [BAR1_DMA_L_ADDR] and [BAR1_DMA_H_ADDR] as they stand when
    [BAR1_DMA_CMD_REG] is written, and the length from bits [9:0] of
    the command word, which hold the number of DWORDs minus one
    ([pcie_fpga_dma.h]). *)

Definition cmd_length_bytes (cmd : Z) : Z := 4 * (Z.land cmd DMA_CMD_LEN_MASK + 1).

(** The chunks that the steps [steps], oldest first, command, as
    (address, length in bytes); [lo] and [hi] are what the two address
    registers hold before the first step. *)
Fixpoint commanded_from (lo hi : Z) (steps : list action) : list (Z * Z) :=
  match steps with
  | [] => []
  | ActIowrite32 off v :: rest =>
      if off =? BAR1_DMA_L_ADDR then commanded_from v hi rest
      else if off =? BAR1_DMA_H_ADDR then commanded_from lo v rest
      else if off =? BAR1_DMA_CMD_REG then
        (lo + 2 ^ 32 * hi, cmd_length_bytes v) :: commanded_from lo hi rest
      else commanded_from lo hi rest
  | _ :: rest => commanded_from lo hi rest
  end.

(** A chunk of [size] bytes in whole DWORDs. *)
Definition in_dwords (c : Z * Z) : Z * Z := (fst c, 4 * ((snd c + 3) / 4)).



(** *** The backoff of the completion poll

    The [i]-th sleep of a poll, counted from 0, for the start value
    [start], the maximum [max] and a doubling after every [polls]
    sleeps. *)
Definition backoff_sleep (start max polls : Z) (i : nat) : Z :=
  if 0 <? polls then Z.min (start * 2 ^ (Z.of_nat i / polls)) max
  else Z.min start max.

(** *** [infer_lock] between the capture loop and the worker

    A thread holds a mutex from its [pthread_mutex_lock] to its
    [pthread_mutex_unlock]; [pthread_mutex_lock] does not return while
    another thread holds the mutex, and a thread parked in
    [pthread_cond_wait] has given the mutex up. *)

Definition same_mutex (a b : mutex_id) : bool :=
  match a, b with
  | slots_lock, slots_lock | infer_lock, infer_lock | result_lock, result_lock => true
  | _, _ => false
  end.

(** Whether a thread holds [m] after the events [tr], given whether it
    held it before. *)
Fixpoint holds_after (m : mutex_id) (held : bool) (tr : list event) : bool :=
  match tr with
  | [] => held
  | EvLock m' :: tr' => holds_after m (if same_mutex m m' then true else held) tr'
  | EvUnlock m' :: tr' => holds_after m (if same_mutex m m' then false else held) tr'
  | _ :: tr' => holds_after m held tr'
  end.

Inductive party := Capture | Worker.

(** Where the worker stands in the loop of [infer_thread_main]: at
    its head, before [pthread_mutex_lock]; parked in
    [pthread_cond_wait]; past the unlock, busy with the frame it has
    copied to [raw_local] (the conversions, the two detections and
    the publication of the results); or out of the loop. *)
Inductive worker_at :=
| AtLoopHead
| AtCondWait
| AtInference (raw_local : list Z) (seq : Z)
| AtExit.

(** The mailbox, the holder of [infer_lock] and the place of the
    worker. *)
Record lock_sys := mk_lock_sys {
  ls_ctx : app_ctx;
  ls_holder : option party;
  ls_worker : worker_at
}.

(** What the two threads do: the capture loop pushes a frame; the
    worker goes through the head of its loop (from the lock to the
    unlock or to the wait), spends one more stretch of time on the
    inference (the conversions and the two detections, on buffers of
    its own and with no lock), or ends its turn (the results go out
    under [result_lock]). *)
Inductive lock_op :=
| LkPush (raw : list Z)
| LkFetch
| LkInfer
| LkPublish.

Definition holder_after (who : party) (tr : list event) : option party :=
  if holds_after infer_lock false tr then Some who else None.

(** The head of the worker's loop from [pthread_mutex_lock] on, or
    from the wake-up in [pthread_cond_wait], which has taken the
    mutex again. *)
Definition fetch_step (s : lock_sys) : option lock_sys :=
  match infer_fetch (ls_ctx s) with
  | Done (Some (raw, seq)) c tr =>
      Some (mk_lock_sys c (holder_after Worker tr) (AtInference raw seq))
  | Done None c tr => Some (mk_lock_sys c (holder_after Worker tr) AtExit)
  | Starved => Some (mk_lock_sys (ls_ctx s) None AtCondWait)
  | Undefined => None
  end.

(** One step of one of the two threads; [None] when the thread cannot
    take it: it is somewhere else, or it asks for [infer_lock] while
    the lock is held. *)
Definition lock_step (op : lock_op) (s : lock_sys) : option lock_sys :=
  match op with
  | LkPush raw =>
      match ls_holder s with
      | Some _ => None
      | None =>
          match push_latest_to_infer raw (ls_ctx s) with
          | Done _ c tr => Some (mk_lock_sys c (holder_after Capture tr) (ls_worker s))
          | _ => None
          end
      end
  | LkFetch =>
      match ls_holder s, ls_worker s with
      | None, AtLoopHead =>
          if running (ls_ctx s) then fetch_step s
          else Some (mk_lock_sys (ls_ctx s) None AtExit)
      | None, AtCondWait => fetch_step s
      | _, _ => None
      end
  | LkInfer =>
      match ls_worker s with
      | AtInference _ _ => Some s
      | _ => None
      end
  | LkPublish =>
      match ls_worker s with
      | AtInference _ _ => Some (mk_lock_sys (ls_ctx s) (ls_holder s) AtLoopHead)
      | _ => None
      end
  end.

Fixpoint lock_run (ops : list lock_op) (s : lock_sys) : option lock_sys :=
  match ops with
  | [] => Some s
  | op :: ops' =>
      match lock_step op s with
      | Some s' => lock_run ops' s'
      | None => None
      end
  end.

(** The worker is busy with a frame. *)
Definition inferring (s : lock_sys) : bool :=
  match ls_worker s with
  | AtInference _ _ => true
  | _ => false
  end.

(** The start: nobody holds the lock, the worker is at the head of
    its loop. *)
Definition lock_init (c : app_ctx) : lock_sys := mk_lock_sys c None AtLoopHead.

(** A mailbox of 8-byte frames with nothing in it, and a run in which
    two frames are pushed while the worker is busy with the first
    one. *)
Definition empty_mailbox : app_ctx :=
  mk_ctx 1000 30 false 8 [] [] 0 true 0 0 0 0 0 0 (replicate 8 0) false 0.

Definition slow_inference : list lock_op :=
  [LkPush (replicate 8 1); LkFetch; LkInfer; LkPush (replicate 8 2); LkInfer; LkInfer;
   LkPush (replicate 8 3); LkInfer].

(** Where that run leaves the mailbox: the third frame in the buffer,
    the second one overwritten. *)
Definition after_slow_inference : lock_sys :=
  mk_lock_sys
    (mk_ctx 1000 30 false 8 [] [] 0 true 0 0 0 0 0 1 (replicate 8 3) true 3)
    None (AtInference (replicate 8 1) 1).

(** ** Proofs, part I: the slot pool *)

Ltac unfold_prog :=
  unfold bind, emit, gets, modify, ret, when, starve, quiet.

Lemma slot_at_Some c i s :
  slot_at c i = Some s -> 0 <= i < Z.of_nat (length (slots c)).
Proof.
  unfold slot_at. destruct (Z.leb_spec 0 i); [|discriminate].
  intros Hl. apply lookup_lt_Some in Hl. lia.
Qed.

Lemma slot_at_in_range c i :
  0 <= i < Z.of_nat (length (slots c)) -> exists s, slot_at c i = Some s.
Proof.
  intros Hi. unfold slot_at. destruct (Z.leb_spec 0 i); [|lia].
  destruct (lookup_lt_is_Some_2 (slots c) (Z.to_nat i)) as [s Hs]; [lia|].
  eauto.
Qed.

Lemma slot_at_set_same c i s s' :
  slot_at c i = Some s ->
  slot_at (set_slots (<[Z.to_nat i := s']> (slots c)) c) i = Some s'.
Proof.
  intros H. pose proof (slot_at_Some _ _ _ H) as Hr.
  unfold slot_at in *. simpl. destruct (Z.leb_spec 0 i); [|lia].
  apply list_lookup_insert_eq. lia.
Qed.

Lemma slot_at_set_other c i j s' :
  0 <= i -> i <> j ->
  slot_at (set_slots (<[Z.to_nat i := s']> (slots c)) c) j = slot_at c j.
Proof.
  intros Hi Hne. unfold slot_at. simpl. destruct (Z.leb_spec 0 j); [|reflexivity].
  apply list_lookup_insert_ne. lia.
Qed.

(** What [release_slot_ticket] computes, case by case. *)
Lemma release_out_of_range t b c :
  ticket_idx t < 0 \/ slot_count c <= ticket_idx t ->
  release_slot_ticket t b c = Done tt c [EvLock slots_lock; EvUnlock slots_lock].
Proof.
  intros Hr. unfold release_slot_ticket. unfold_prog.
  assert ((0 <=? ticket_idx t) && (ticket_idx t <? slot_count c) = false) as ->.
  { apply andb_false_iff. rewrite Z.leb_gt, Z.ltb_ge. lia. }
  reflexivity.
Qed.

Lemma release_not_in_use t b c s :
  ticket_idx t < slot_count c ->
  slot_at c (ticket_idx t) = Some s ->
  slot_in_use s = false ->
  release_slot_ticket t b c =
    Done tt c [EvLock slots_lock; EvSlotRead (ticket_idx t) f_in_use; EvUnlock slots_lock].
Proof.
  intros Hlt Hs Hu. pose proof (slot_at_Some _ _ _ Hs) as Hr.
  unfold release_slot_ticket, load_slot. unfold_prog.
  assert ((0 <=? ticket_idx t) && (ticket_idx t <? slot_count c) = true) as ->.
  { apply andb_true_iff. rewrite Z.leb_le, Z.ltb_lt. lia. }
  rewrite Hs, Hu. reflexivity.
Qed.

Lemma release_stale_generation t b c s :
  ticket_idx t < slot_count c ->
  slot_at c (ticket_idx t) = Some s ->
  slot_in_use s = true ->
  slot_generation s <> ticket_generation t ->
  release_slot_ticket t b c =
    Done tt c [EvLock slots_lock; EvSlotRead (ticket_idx t) f_in_use;
               EvSlotRead (ticket_idx t) f_generation; EvUnlock slots_lock].
Proof.
  intros Hlt Hs Hu Hg. pose proof (slot_at_Some _ _ _ Hs) as Hr.
  unfold release_slot_ticket, load_slot. unfold_prog.
  assert ((0 <=? ticket_idx t) && (ticket_idx t <? slot_count c) = true) as ->.
  { apply andb_true_iff. rewrite Z.leb_le, Z.ltb_lt. lia. }
  rewrite Hs, Hu. simpl. rewrite Hs.
  destruct (Z.eqb_spec (slot_generation s) (ticket_generation t)); [contradiction|].
  reflexivity.
Qed.

Lemma release_matching t b c s :
  ticket_idx t < slot_count c ->
  slot_at c (ticket_idx t) = Some s ->
  slot_in_use s = true ->
  slot_generation s = ticket_generation t ->
  release_slot_ticket t b c =
    Done tt (released t b s c)
      [EvLock slots_lock; EvSlotRead (ticket_idx t) f_in_use;
       EvSlotRead (ticket_idx t) f_generation; EvSlotWrite (ticket_idx t) f_in_use;
       EvSignal slots_cond; EvUnlock slots_lock].
Proof.
  intros Hlt Hs Hu Hg. pose proof (slot_at_Some _ _ _ Hs) as Hr.
  unfold release_slot_ticket, load_slot, store_slot, released. unfold_prog.
  assert ((0 <=? ticket_idx t) && (ticket_idx t <? slot_count c) = true) as ->.
  { apply andb_true_iff. rewrite Z.leb_le, Z.ltb_lt. lia. }
  rewrite Hs, Hu. simpl. rewrite Hs.
  rewrite Hg, Z.eqb_refl. rewrite Hs.
  destruct b; reflexivity.
Qed.

Lemma scan_from_S n i c s :
  slot_at c i = Some s ->
  scan_from (S n) i c =
    if slot_in_use s then
      match scan_from n (i + 1) c with
      | Done r c' tr => Done r c' (EvSlotRead i f_in_use :: tr)
      | Undefined => Undefined
      | Starved => Starved
      end
    else Done (Some (mk_ticket i (u64 (slot_generation s + 1)))) (handed_out i s c)
              (scan_hit_trace i).
Proof.
  intros Hs. simpl. unfold bind at 1. unfold load_slot at 1. rewrite Hs.
  destruct (slot_in_use s) eqn:Hu; simpl.
  - destruct (scan_from n (i + 1) c); reflexivity.
  - pose proof (slot_at_set_same c i s (with_in_use true s) Hs) as H1.
    pose proof (slot_at_set_same _ i _
                  (with_generation (u64 (slot_generation s + 1)) (with_in_use true s)) H1) as H2.
    unfold bind, store_slot, load_slot, emit, ret. rewrite Hs, H1. simpl.
    rewrite H1. simpl in H2. simpl. rewrite H2. simpl.
    unfold handed_out. rewrite list_insert_insert_eq. reflexivity.
Qed.

Lemma scan_from_spec n : forall i c,
  0 <= i -> Z.of_nat n + i = Z.of_nat (length (slots c)) ->
  (exists tr, scan_from n i c = Done None c tr /\
     Forall (fun e => is_slot_read e = true) tr /\
     forall j s, i <= j -> slot_at c j = Some s -> slot_in_use s = true) \/
  (exists j s tr, scan_from n i c =
       Done (Some (mk_ticket j (u64 (slot_generation s + 1)))) (handed_out j s c)
            (tr ++ scan_hit_trace j) /\
     Forall (fun e => is_slot_read e = true) tr /\
     i <= j /\ slot_at c j = Some s /\ slot_in_use s = false /\
     forall k s', i <= k < j -> slot_at c k = Some s' -> slot_in_use s' = true).
Proof.
  induction n as [|n IH]; intros i c Hi Hlen.
  - left. exists []. split; [reflexivity|]. split; [constructor|].
    intros j s Hj Hs. apply slot_at_Some in Hs. lia.
  - destruct (slot_at_in_range c i) as [s Hs]; [lia|].
    rewrite (scan_from_S n i c s Hs).
    destruct (slot_in_use s) eqn:Hu.
    + destruct (IH (i + 1) c) as [(tr & Heq & Hacc & Hall)|(j & s' & tr & Heq & Hacc & Hj & Hsj & Huj & Hall)];
        [lia|lia| |].
      * left. exists (EvSlotRead i f_in_use :: tr). rewrite Heq.
        split; [reflexivity|]. split; [constructor; auto|].
        intros j s' Hj Hs'. destruct (Z.eq_dec j i) as [->|Hne].
        -- congruence.
        -- apply (Hall j); [lia|assumption].
      * right. exists j, s', (EvSlotRead i f_in_use :: tr). rewrite Heq.
        split; [reflexivity|]. split; [constructor; auto|]. split; [lia|]. split; [assumption|]. split; [assumption|].
        intros k s'' Hk Hs''. destruct (Z.eq_dec k i) as [->|Hne].
        -- congruence.
        -- apply (Hall k); [lia|assumption].
    + right. exists i, s, []. split; [reflexivity|]. split; [constructor|].
      split; [lia|]. split; [assumption|]. split; [assumption|]. intros; lia.
Qed.

(** The two ways a scan can end on a well-formed pool. *)
Lemma scan_free_slot_spec c :
  pool_wf c ->
  (exists tr, scan_free_slot c = Done None c (EvLock slots_lock :: tr) /\
     Forall (fun e => is_slot_read e = true) tr /\
     forall j s, slot_at c j = Some s -> slot_in_use s = true) \/
  (exists j s tr, scan_free_slot c =
       Done (Some (mk_ticket j (u64 (slot_generation s + 1)))) (handed_out j s c)
            (EvLock slots_lock :: tr ++ scan_hit_trace j) /\
     Forall (fun e => is_slot_read e = true) tr /\
     slot_at c j = Some s /\ slot_in_use s = false /\
     forall k s', k < j -> slot_at c k = Some s' -> slot_in_use s' = true).
Proof.
  intros Hwf. unfold scan_free_slot. unfold_prog.
  destruct (scan_from_spec (Z.to_nat (slot_count c)) 0 c)
    as [(tr & Heq & Hacc & Hall)|(j & s & tr & Heq & Hacc & Hj & Hs & Hu & Hall)];
    [lia|unfold pool_wf in Hwf; lia| |].
  - left. exists tr. rewrite Heq. split; [reflexivity|]. split; [assumption|].
    intros j s Hs. apply (Hall j s); [|assumption]. apply slot_at_Some in Hs. lia.
  - right. exists j, s, tr. rewrite Heq. split; [reflexivity|]. split; [assumption|].
    split; [assumption|]. split; [assumption|].
    intros k s' Hk Hs'. apply (Hall k s'); [|assumption].
    apply slot_at_Some in Hs'. lia.
Qed.

Lemma ticket_eta t : mk_ticket (ticket_idx t) (ticket_generation t) = t.
Proof. destruct t; reflexivity. Qed.

Lemma ticket_eqb_eq a b : ticket_eqb a b = true <-> a = b.
Proof.
  unfold ticket_eqb. rewrite andb_true_iff, !Z.eqb_eq. split.
  - intros [H1 H2]. destruct a, b; simpl in *; congruence.
  - intros ->. auto.
Qed.

Lemma handed_out_wf j s c : pool_wf c -> pool_wf (handed_out j s c).
Proof. unfold pool_wf, handed_out. simpl. rewrite length_insert. auto. Qed.

Lemma released_wf t b s c : pool_wf c -> pool_wf (released t b s c).
Proof.
  unfold pool_wf, released. destruct b; simpl; rewrite length_insert; auto.
Qed.

Lemma slot_at_released t b s c j :
  slot_at (released t b s c) j =
  slot_at (set_slots (<[Z.to_nat (ticket_idx t) := with_in_use false s]> (slots c)) c) j.
Proof. unfold released. destruct b; reflexivity. Qed.

Lemma live_after_hand_out j s c t :
  slot_at c j = Some s -> slot_in_use s = false ->
  ticket_live (handed_out j s c) t <->
  t = mk_ticket j (u64 (slot_generation s + 1)) \/ ticket_live c t.
Proof.
  intros Hs Hu. pose proof (slot_at_Some _ _ _ Hs) as Hr.
  unfold ticket_live, handed_out. split.
  - intros (s' & Hs' & Hu' & Hg').
    destruct (Z.eq_dec (ticket_idx t) j) as [He|Hne].
    + left. rewrite He in Hs'. rewrite (slot_at_set_same c j s _ Hs) in Hs'.
      injection Hs' as <-. simpl in Hg'. rewrite <- (ticket_eta t). congruence.
    + right. rewrite slot_at_set_other in Hs' by lia. eauto.
  - intros [->|(s' & Hs' & Hu' & Hg')].
    + simpl. rewrite (slot_at_set_same c j s _ Hs). eexists. split; [reflexivity|]. auto.
    + assert (ticket_idx t <> j) by (intros E; rewrite E in Hs'; congruence).
      exists s'. rewrite slot_at_set_other by lia. auto.
Qed.

Lemma live_after_release t0 b s c t :
  slot_at c (ticket_idx t0) = Some s ->
  ticket_live (released t0 b s c) t <->
  ticket_live c t /\ ticket_idx t <> ticket_idx t0.
Proof.
  intros Hs. pose proof (slot_at_Some _ _ _ Hs) as Hr.
  unfold ticket_live. setoid_rewrite slot_at_released. split.
  - intros (s' & Hs' & Hu' & Hg').
    destruct (Z.eq_dec (ticket_idx t) (ticket_idx t0)) as [He|Hne].
    + rewrite He in Hs'. rewrite (slot_at_set_same c _ s _ Hs) in Hs'.
      injection Hs' as <-. discriminate.
    + rewrite slot_at_set_other in Hs' by lia. eauto.
  - intros [(s' & Hs' & Hu' & Hg') Hne].
    exists s'. rewrite slot_at_set_other by lia. auto.
Qed.

Lemma generations_hand_out j s c :
  generations (handed_out j s c) =
  <[Z.to_nat j := u64 (slot_generation s + 1)]> (generations c).
Proof. unfold generations, handed_out. simpl. rewrite list_fmap_insert. reflexivity. Qed.

Lemma generations_released t b s c :
  slot_at c (ticket_idx t) = Some s ->
  generations (released t b s c) = generations c.
Proof.
  intros Hs. unfold generations, released.
  assert (slots c !! Z.to_nat (ticket_idx t) = Some s) as Hl.
  { unfold slot_at in Hs. destruct (0 <=? ticket_idx t); [assumption|discriminate]. }
  destruct b; simpl; rewrite list_fmap_insert; simpl;
    apply list_insert_id; rewrite list_lookup_fmap, Hl; reflexivity.
Qed.

(** A release on a well-formed pool always returns; it changes the
    state only when the ticket is live. *)
Lemma release_cases t b c :
  pool_wf c ->
  (exists s, ticket_idx t < slot_count c /\ slot_at c (ticket_idx t) = Some s /\
             slot_in_use s = true /\ slot_generation s = ticket_generation t /\
             exists tr, release_slot_ticket t b c = Done tt (released t b s c) tr /\
                        existsb is_signal tr = true /\
                        length (List.filter is_signal tr) = 1%nat) \/
  (~ ticket_live c t /\
   exists tr, release_slot_ticket t b c = Done tt c tr /\ existsb is_signal tr = false).
Proof.
  intros Hwf. unfold pool_wf in Hwf.
  destruct (Z_lt_dec (ticket_idx t) 0) as [Hneg|Hpos].
  { right. split.
    - intros (s & Hs & _). apply slot_at_Some in Hs. lia.
    - eexists. split; [apply release_out_of_range; lia|reflexivity]. }
  destruct (Z_le_dec (slot_count c) (ticket_idx t)) as [Hbig|Hsmall].
  { right. split.
    - intros (s & Hs & _). apply slot_at_Some in Hs. lia.
    - eexists. split; [apply release_out_of_range; lia|reflexivity]. }
  destruct (slot_at_in_range c (ticket_idx t)) as [s Hs]; [lia|].
  destruct (slot_in_use s) eqn:Hu.
  - destruct (Z.eq_dec (slot_generation s) (ticket_generation t)) as [Hg|Hg].
    + left. exists s. repeat (split; [first [assumption|lia]|]).
      eexists. split; [apply release_matching; first [assumption|lia]|].
      split; reflexivity.
    + right. split.
      * intros (s' & Hs' & _ & Hg'). congruence.
      * eexists. split; [apply (release_stale_generation t b c s); first [assumption|lia]|reflexivity].
  - right. split.
    + intros (s' & Hs' & Hu' & _). congruence.
    + eexists. split; [apply (release_not_in_use t b c s); first [assumption|lia]|reflexivity].
Qed.

Lemma pool_init_inv (n : nat) fsize : pool_inv (pool_init (Z.of_nat n) fsize).
Proof.
  unfold pool_inv, pool_init. simpl. split; [|split].
  - unfold pool_wf. simpl. rewrite length_replicate. lia.
  - constructor.
  - intros t. split.
    + intros H. inversion H.
    + intros (s & Hs & Hu & _). exfalso.
      unfold slot_at in Hs. simpl in Hs. destruct (0 <=? ticket_idx t); [|discriminate].
      apply lookup_replicate_1 in Hs. destruct Hs as [-> _]. discriminate.
Qed.

Lemma pool_step_inv op s :
  pool_inv s -> exists s', pool_step op s = Some s' /\ pool_inv s'.
Proof.
  intros (Hwf & Hnd & Hlive). destruct op as [|t b]; simpl.
  - destruct (scan_free_slot_spec (sys_ctx s) Hwf)
      as [(tr & Heq & _ & _)|(j & sl & tr & Heq & _ & Hs & Hu & _)]; rewrite Heq.
    + eexists. split; [reflexivity|]. split; [|split]; assumption.
    + eexists. split; [reflexivity|]. unfold pool_inv. cbn [sys_ctx sys_valid]. split; [|split].
      * apply handed_out_wf; assumption.
      * rewrite fmap_cons. cbn [ticket_idx]. constructor; [|assumption].
        intros Hin. apply list_elem_of_fmap in Hin. destruct Hin as (t & Ht & Hin).
        apply Hlive in Hin. destruct Hin as (s' & Hs' & Hu' & _).
        rewrite <- Ht in Hs'. simpl in Hs'. congruence.
      * intros t. rewrite (live_after_hand_out j sl _ t Hs Hu), elem_of_cons, Hlive.
        reflexivity.
  - destruct (release_cases t b (sys_ctx s) Hwf)
      as [(sl & Hlt & Hs & Hu & Hg & tr & Heq & Hsig & _)|(Hnl & tr & Heq & Hsig)];
      rewrite Heq, Hsig.
    + eexists. split; [reflexivity|]. unfold pool_inv. cbn [sys_ctx sys_valid]. split; [|split].
      * apply released_wf; assumption.
      * apply (NoDup_fmap_2_strong ticket_idx).
        -- intros x y Hx Hy Hxy.
           apply list_elem_of_In, filter_In in Hx. apply list_elem_of_In, filter_In in Hy.
           destruct Hx as [Hx _], Hy as [Hy _].
           apply list_elem_of_In, Hlive in Hx. apply list_elem_of_In, Hlive in Hy.
           destruct Hx as (sx & Hsx & _ & Hgx), Hy as (sy & Hsy & _ & Hgy).
           rewrite <- (ticket_eta x), <- (ticket_eta y). rewrite Hxy in Hsx. congruence.
        -- apply NoDup_ListNoDup, List.NoDup_filter, NoDup_ListNoDup.
           eapply NoDup_fmap_1; eassumption.
      * intros v. rewrite (live_after_release t b sl _ v Hs), <- Hlive.
        rewrite list_elem_of_In, filter_In, <- list_elem_of_In, negb_true_iff.
        split.
        -- intros [Hv Hne]. split; [assumption|]. intros Hidx.
           apply Hlive in Hv. destruct Hv as (sv & Hsv & _ & Hgv).
           rewrite Hidx in Hsv.
           assert (ticket_eqb v t = true); [|congruence].
           apply ticket_eqb_eq. rewrite <- (ticket_eta v), <- (ticket_eta t). congruence.
        -- intros [Hv Hne]. split; [assumption|].
           destruct (ticket_eqb v t) eqn:E; [|reflexivity].
           apply ticket_eqb_eq in E. congruence.
    + eexists. split; [reflexivity|]. simpl. split; [|split]; assumption.
Qed.

Lemma pool_run_inv ops : forall s,
  pool_inv s -> exists s', pool_run ops s = Some s' /\ pool_inv s'.
Proof.
  induction ops as [|op ops IH]; intros s Hinv; simpl.
  - eauto.
  - destruct (pool_step_inv op s Hinv) as (s1 & -> & Hinv1). apply IH, Hinv1.
Qed.

Lemma pool_run_capacity ops : forall s,
  length (slots (sys_ctx s)) = length (slots (sys_ctx s)) ->
  forall s', pool_inv s -> pool_run ops s = Some s' ->
  length (slots (sys_ctx s')) = length (slots (sys_ctx s)).
Proof.
  induction ops as [|op ops IH]; intros s _ s' Hinv Hrun; simpl in Hrun.
  - injection Hrun as <-. reflexivity.
  - destruct (pool_step_inv op s Hinv) as (s1 & Hstep & Hinv1).
    rewrite Hstep in Hrun. rewrite (IH s1 eq_refl s' Hinv1 Hrun).
    destruct Hinv as (Hwf & _ & _). destruct op as [|t b]; simpl in Hstep.
    + destruct (scan_free_slot_spec (sys_ctx s) Hwf)
        as [(tr & Heq & _ & _)|(j & sl & tr & Heq & _ & Hs & Hu & _)];
        rewrite Heq in Hstep; injection Hstep as <-; simpl; [reflexivity|].
      apply length_insert.
    + destruct (release_cases t b (sys_ctx s) Hwf)
        as [(sl & Hlt & Hs & Hu & Hg & tr & Heq & Hsig & _)|(Hnl & tr & Heq & Hsig)];
        rewrite Heq in Hstep; injection Hstep as <-; simpl; [|reflexivity].
      unfold released. destruct b; simpl; apply length_insert.
Qed.

Lemma valid_tickets_bounded s :
  pool_inv s -> (length (sys_valid s) <= length (slots (sys_ctx s)))%nat.
Proof.
  intros (Hwf & Hnd & Hlive).
  rewrite <- (length_fmap ticket_idx).
  transitivity (length (seqZ 0 (Z.of_nat (length (slots (sys_ctx s)))))).
  2: { rewrite length_seqZ. lia. }
  apply submseteq_length, NoDup_submseteq; [assumption|].
  intros i Hi. apply list_elem_of_fmap in Hi. destruct Hi as (t & -> & Ht).
  apply Hlive in Ht. destruct Ht as (sl & Hsl & _). apply slot_at_Some in Hsl.
  apply elem_of_seqZ. lia.
Qed.

(** *** Claims about [release_slot_ticket] and the ticket protocol *)

(** C4. A release whose ticket is not live (the slot is free, or its
    generation differs from the ticket's) returns with the whole
    context unchanged, so every in-use flag, every generation and
    [released_frames] are as before, and it does not signal
    [slots_cond].  A release of a live ticket clears the in-use flag of
    its slot, leaves every generation and every other slot alone,
    counts in [released_frames] only when asked to, and signals
    [slots_cond] exactly once.  Releasing the same ticket again, with
    either counting flag, returns the state of the first release and
    signals nobody. *)
Theorem release_stale_noop_and_idempotent (c : app_ctx) (t : slot_ticket) (b b' : bool) :
  pool_wf c ->
  (~ ticket_live c t ->
     exists tr, release_slot_ticket t b c = Done tt c tr /\
                existsb is_signal tr = false) /\
  (ticket_live c t ->
     exists c' tr s,
       release_slot_ticket t b c = Done tt c' tr /\
       slot_at c (ticket_idx t) = Some s /\
       slot_at c' (ticket_idx t) = Some (with_in_use false s) /\
       (forall j, j <> ticket_idx t -> slot_at c' j = slot_at c j) /\
       generations c' = generations c /\
       released_frames c' =
         (if b then u64 (released_frames c + 1) else released_frames c) /\
       length (List.filter is_signal tr) = 1%nat) /\
  (exists c1 tr1 tr2,
     release_slot_ticket t b c = Done tt c1 tr1 /\
     release_slot_ticket t b' c1 = Done tt c1 tr2 /\
     existsb is_signal tr2 = false).
Proof.
  intros Hwf. split; [|split].
  - intros Hnl.
    destruct (release_cases t b c Hwf)
      as [(s & Hlt & Hs & Hu & Hg & _)|(_ & tr & Heq & Hsig)].
    + exfalso. apply Hnl. exists s. auto.
    + exists tr. auto.
  - intros Hl.
    destruct (release_cases t b c Hwf)
      as [(s & Hlt & Hs & Hu & Hg & tr & Heq & _ & Hone)|(Hnl & _)]; [|contradiction].
    pose proof (slot_at_Some _ _ _ Hs) as Hr.
    exists (released t b s c), tr, s. split; [assumption|]. split; [assumption|].
    split; [|split; [|split; [|split]]].
    + rewrite slot_at_released. apply (slot_at_set_same c _ s _ Hs).
    + intros j Hj. rewrite slot_at_released. apply slot_at_set_other; [lia|congruence].
    + apply generations_released; assumption.
    + unfold released. destruct b; reflexivity.
    + assumption.
  - destruct (release_cases t b c Hwf)
      as [(s & Hlt & Hs & Hu & Hg & tr & Heq & _ & _)|(Hnl & tr & Heq & Hsig)].
    + assert (~ ticket_live (released t b s c) t) as Hnl.
      { rewrite (live_after_release t b s c t Hs). intros [_ Hne]. congruence. }
      destruct (release_cases t b' (released t b s c) (released_wf t b s c Hwf))
        as [(s' & _ & Hs' & Hu' & Hg' & _)|(_ & tr2 & Heq2 & Hsig2)].
      * exfalso. apply Hnl. exists s'. auto.
      * exists (released t b s c), tr, tr2. auto.
    + destruct (release_cases t b' c Hwf)
        as [(s' & _ & Hs' & Hu' & Hg' & _)|(_ & tr2 & Heq2 & Hsig2)].
      * exfalso. apply Hnl. exists s'. auto.
      * exists c, tr, tr2. auto.
Qed.

(** C10. For a ticket whose index is negative or not below
    [slot_count], whatever its generation, the release only takes and
    drops [slots_lock]: the trace has no access to any slot entry and
    no signal, and the context is returned unchanged.  On a
    well-formed pool the release returns for every ticket. *)
Theorem release_out_of_range_is_noop (c : app_ctx) (t : slot_ticket) (b : bool) :
  (ticket_idx t < 0 \/ slot_count c <= ticket_idx t ->
     release_slot_ticket t b c =
       Done tt c [EvLock slots_lock; EvUnlock slots_lock]) /\
  (pool_wf c ->
     forall t' b', exists c' tr, release_slot_ticket t' b' c = Done tt c' tr).
Proof.
  split.
  - apply release_out_of_range.
  - intros Hwf t' b'.
    destruct (release_cases t' b' c Hwf)
      as [(s & _ & _ & _ & _ & tr & Heq & _)|(_ & tr & Heq & _)]; eauto.
Qed.

(** C2. From a freshly initialised pool of any capacity [n], every
    sequence of scans and releases runs to a state in which at most
    [n] tickets are valid and no two valid tickets agree on both slot
    index and generation.  From such a state a release leaves every
    generation as it was; a scan either finds nothing and leaves them
    too, or hands out one ticket and adds one (modulo 2^64) to the
    generation of that ticket's slot only. *)
Theorem pool_tickets_unique_and_bounded (n : nat) (fsize : Z) (ops : list pool_op) :
  exists s,
    pool_run ops (pool_init (Z.of_nat n) fsize) = Some s /\
    (length (sys_valid s) <= n)%nat /\
    (forall i j t1 t2,
       sys_valid s !! i = Some t1 -> sys_valid s !! j = Some t2 ->
       ticket_idx t1 = ticket_idx t2 ->
       ticket_generation t1 = ticket_generation t2 -> i = j) /\
    (forall t b, exists s',
       pool_step (OpRelease t b) s = Some s' /\
       generations (sys_ctx s') = generations (sys_ctx s)) /\
    (exists s',
       pool_step OpAcquire s = Some s' /\
       ((sys_valid s' = sys_valid s /\
         generations (sys_ctx s') = generations (sys_ctx s)) \/
        (exists t g,
           sys_valid s' = t :: sys_valid s /\
           generations (sys_ctx s) !! Z.to_nat (ticket_idx t) = Some g /\
           ticket_generation t = u64 (g + 1) /\
           generations (sys_ctx s') =
             <[Z.to_nat (ticket_idx t) := u64 (g + 1)]> (generations (sys_ctx s))))).
Proof.
  destruct (pool_run_inv ops _ (pool_init_inv n fsize)) as (s & Hrun & Hinv).
  exists s. split; [assumption|].
  pose proof (pool_run_capacity ops _ eq_refl s (pool_init_inv n fsize) Hrun) as Hcap.
  pose proof (valid_tickets_bounded s Hinv) as Hbound.
  destruct Hinv as (Hwf & Hnd & Hlive).
  split; [|split; [|split]].
  - rewrite Hcap in Hbound. simpl in Hbound. rewrite length_replicate in Hbound. lia.
  - intros i j t1 t2 Hi Hj Hidx _.
    eapply NoDup_lookup; [exact Hnd| |]; rewrite list_lookup_fmap.
    + rewrite Hi. reflexivity.
    + rewrite Hj. simpl. congruence.
  - intros t b. simpl.
    destruct (release_cases t b (sys_ctx s) Hwf)
      as [(sl & _ & Hs & _ & _ & tr & Heq & _)|(_ & tr & Heq & _)]; rewrite Heq.
    + eexists. split; [reflexivity|]. simpl. apply generations_released; assumption.
    + eexists. split; [reflexivity|]. reflexivity.
  - simpl.
    destruct (scan_free_slot_spec (sys_ctx s) Hwf)
      as [(tr & Heq & _ & _)|(j & sl & tr & Heq & _ & Hs & Hu & _)]; rewrite Heq.
    + eexists. split; [reflexivity|]. left. split; reflexivity.
    + eexists. split; [reflexivity|]. right.
      exists (mk_ticket j (u64 (slot_generation sl + 1))), (slot_generation sl).
      simpl. split; [reflexivity|]. split; [|split; [reflexivity|]].
      * unfold generations. rewrite list_lookup_fmap.
        unfold slot_at in Hs. destruct (0 <=? j); [|discriminate]. rewrite Hs. reflexivity.
      * apply generations_hand_out.
Qed.

(** *** [acquire_free_slot] *)

Lemma only_pool_changed_refl c : only_pool_changed c c.
Proof. destruct c; reflexivity. Qed.

Lemma only_pool_changed_trans c1 c2 c3 :
  only_pool_changed c1 c2 -> only_pool_changed c2 c3 -> only_pool_changed c1 c3.
Proof.
  unfold only_pool_changed. intros H12 H23. rewrite H23 at 1. rewrite H12 at 1.
  reflexivity.
Qed.

Lemma released_only_pool t b s c : only_pool_changed c (released t b s c).
Proof. unfold only_pool_changed, released. destruct b; reflexivity. Qed.

Lemma release_total t b c :
  pool_wf c ->
  exists c' tr, release_slot_ticket t b c = Done tt c' tr /\
                pool_wf c' /\ only_pool_changed c c'.
Proof.
  intros Hwf.
  destruct (release_cases t b c Hwf)
    as [(s & _ & _ & _ & _ & tr & Heq & _)|(_ & tr & Heq & _)].
  - exists (released t b s c), tr. split; [assumption|].
    split; [apply released_wf; assumption|apply released_only_pool].
  - exists c, tr. split; [assumption|]. split; [assumption|apply only_pool_changed_refl].
Qed.

Lemma others_release_total rs : forall c,
  pool_wf c ->
  exists c', others_release rs c = Done tt c' [] /\
             pool_wf c' /\ only_pool_changed c c'.
Proof.
  induction rs as [|[t b] rs IH]; intros c Hwf; simpl.
  - exists c. split; [reflexivity|]. split; [assumption|apply only_pool_changed_refl].
  - destruct (release_total t b c Hwf) as (c1 & tr & Heq & Hwf1 & Hch1).
    destruct (IH c1 Hwf1) as (c2 & Heq2 & Hwf2 & Hch2).
    exists c2. unfold bind, quiet. rewrite Heq, Heq2.
    split; [reflexivity|]. split; [assumption|].
    eapply only_pool_changed_trans; eassumption.
Qed.

Lemma count_ev_app p tr1 tr2 :
  count_ev p (tr1 ++ tr2) = (count_ev p tr1 + count_ev p tr2)%nat.
Proof. unfold count_ev. rewrite List.filter_app, length_app. reflexivity. Qed.

Lemma count_ev_none p tr :
  Forall (fun e => p e = false) tr -> count_ev p tr = O.
Proof.
  unfold count_ev. induction 1 as [|e tr He _ IH]; simpl; [reflexivity|].
  rewrite He. assumption.
Qed.

Lemma mono_reads_app tr1 tr2 : mono_reads (tr1 ++ tr2) = mono_reads tr1 ++ mono_reads tr2.
Proof.
  induction tr1 as [|e tr1 IH]; simpl; [reflexivity|].
  destruct e; simpl; rewrite ?IH; reflexivity.
Qed.

Lemma mono_reads_none tr :
  Forall (fun e => is_slot_read e = true) tr -> mono_reads tr = [].
Proof.
  induction 1 as [|e tr He _ IH]; simpl; [reflexivity|].
  destruct e; try discriminate; assumption.
Qed.

Lemma slot_read_not (p : event -> bool) tr :
  (forall e, is_slot_read e = true -> p e = false) ->
  Forall (fun e => is_slot_read e = true) tr ->
  Forall (fun e => p e = false) tr.
Proof. intros Hp H. eapply Forall_impl; eauto. Qed.

(** One turn of the loop when the scan finds nothing. *)
Lemma acquire_loop_miss w sched deadline c tr :
  scan_free_slot c = Done None c tr ->
  acquire_loop (w :: sched) deadline c =
    if wk_now w >=? deadline then
      Done (-1, mk_ticket (-1) 0)
           (set_slot_wait_timeout_count (u64 (slot_wait_timeout_count c + 1)) c)
           (tr ++ [EvMonoUs (wk_now w); EvUnlock slots_lock])
    else
      match others_release (wk_released w) c with
      | Done _ c1 tr1 =>
          match acquire_loop sched deadline c1 with
          | Done r c2 tr2 =>
              Done r c2
                (tr ++ [EvMonoUs (wk_now w)] ++
                 [EvWaitUntil slots_cond
                    (if wk_now w + 20000 >? deadline then deadline else wk_now w + 20000)] ++
                 tr1 ++ [EvUnlock slots_lock] ++ tr2)
          | Undefined => Undefined
          | Starved => Starved
          end
      | Undefined => Undefined
      | Starved => Starved
      end.
Proof.
  intros Hscan. simpl. unfold bind at 1. rewrite Hscan.
  destruct (wk_now w >=? deadline).
  - reflexivity.
  - unfold bind, emit. simpl.
    destruct (others_release (wk_released w) c) as [[] c1 tr1| |]; try reflexivity.
    destruct (acquire_loop sched deadline c1) as [r c2 tr2| |]; reflexivity.
Qed.

Lemma acquire_loop_hit sched deadline c t c' tr :
  scan_free_slot c = Done (Some t) c' tr ->
  acquire_loop sched deadline c = Done (0, t) c' (tr ++ []).
Proof.
  intros Hscan. destruct sched; simpl; unfold bind at 1; rewrite Hscan; reflexivity.
Qed.

Lemma slots_lock_not_read e : is_slot_read e = true -> is_slots_lock e = false.
Proof. destruct e; simpl; congruence. Qed.
Lemma wait_not_read e : is_slot_read e = true -> is_wait e = false.
Proof. destruct e; simpl; congruence. Qed.
Lemma write_not_read e : is_slot_read e = true -> is_slot_write e = false.
Proof. destruct e; simpl; congruence. Qed.

Lemma count_reads (p : event -> bool) tr :
  (forall e, is_slot_read e = true -> p e = false) ->
  Forall (fun e => is_slot_read e = true) tr -> count_ev p tr = O.
Proof. intros Hp H. apply count_ev_none. eapply slot_read_not; eauto. Qed.

Lemma all_in_use_pool c c' : slots c' = slots c -> all_in_use c -> all_in_use c'.
Proof.
  intros Hs H j s Hj. apply (H j s). unfold slot_at in *. rewrite <- Hs. assumption.
Qed.

Lemma timeout_count_kept c c' :
  only_pool_changed c c' -> slot_wait_timeout_count c' = slot_wait_timeout_count c.
Proof. intros ->. reflexivity. Qed.

Lemma count_ev_cons p e tr :
  count_ev p (e :: tr) = ((if p e then 1 else 0) + count_ev p tr)%nat.
Proof. unfold count_ev. simpl. destruct (p e); reflexivity. Qed.

Ltac tally Hrd :=
  repeat (rewrite count_ev_cons || rewrite count_ev_app);
  rewrite ?(count_reads is_slots_lock _ slots_lock_not_read Hrd),
          ?(count_reads is_wait _ wait_not_read Hrd),
          ?(count_reads is_slot_write _ write_not_read Hrd);
  simpl.

(** What a returned [acquire_loop] has done. *)
Lemma acquire_loop_sound deadline sched : forall c r c' tr,
  pool_wf c ->
  acquire_loop sched deadline c = Done r c' tr ->
  count_ev is_slots_lock tr = S (count_ev is_wait tr) /\
  ((fst r = 0 /\ ticket_live c' (snd r) /\
    slot_wait_timeout_count c' = slot_wait_timeout_count c) \/
   (fst r = -1 /\ snd r = mk_ticket (-1) 0 /\
    (exists now, last (mono_reads tr) = Some now /\ deadline <= now) /\
    slot_wait_timeout_count c' = u64 (slot_wait_timeout_count c + 1) /\
    all_in_use c' /\ count_ev is_slot_write tr = O)).
Proof.
  induction sched as [|w sched IH]; intros c r c' tr Hwf Hrun.
  - destruct (scan_free_slot_spec c Hwf)
      as [(tr0 & Heq & Hrd & Hall)|(j & s & tr0 & Heq & Hrd & Hs & Hu & _)].
    + simpl in Hrun. unfold bind in Hrun. rewrite Heq in Hrun. discriminate.
    + rewrite (acquire_loop_hit _ _ _ _ _ _ Heq) in Hrun. injection Hrun as <- <- <-.
      split.
      * tally Hrd. reflexivity.
      * left. split; [reflexivity|]. split; [|reflexivity].
        apply (live_after_hand_out j s c _ Hs Hu). left. reflexivity.
  - destruct (scan_free_slot_spec c Hwf)
      as [(tr0 & Heq & Hrd & Hall)|(j & s & tr0 & Heq & Hrd & Hs & Hu & _)].
    + rewrite (acquire_loop_miss _ _ _ _ _ Heq) in Hrun.
      destruct (Z.geb_spec (wk_now w) deadline) as [Hge|Hlt].
      * injection Hrun as <- <- <-. split.
        -- tally Hrd. reflexivity.
        -- right. split; [reflexivity|]. split; [reflexivity|]. split; [|split; [|split]].
           ++ exists (wk_now w). split; [|lia].
              simpl. rewrite !mono_reads_app, (mono_reads_none tr0 Hrd). reflexivity.
           ++ reflexivity.
           ++ apply (all_in_use_pool c); [reflexivity|assumption].
           ++ tally Hrd. reflexivity.
      * destruct (others_release_total (wk_released w) c Hwf) as (c1 & Ho & Hwf1 & Hch1).
        rewrite Ho in Hrun.
        destruct (acquire_loop sched deadline c1) as [r2 c2 tr2| |] eqn:Hrest;
          try discriminate.
        injection Hrun as <- <- <-.
        destruct (IH c1 r2 c2 tr2 Hwf1 Hrest) as (Hcnt & Hres).
        split.
        -- tally Hrd. rewrite Hcnt. lia.
        -- rewrite <- (timeout_count_kept c c1 Hch1).
           destruct Hres as [Hok|(Hrc & Htk & (now & Hlast & Hnow) & Hc & Hall2 & Hw)];
             [left; assumption|].
           right. split; [assumption|]. split; [assumption|].
           split; [|split; [assumption|split; [assumption|]]].
           ++ exists now. split; [|assumption].
              simpl. rewrite !mono_reads_app. simpl.
              rewrite last_app, last_cons. rewrite Hlast. reflexivity.
           ++ tally Hrd. rewrite Hw. reflexivity.
    + rewrite (acquire_loop_hit _ _ _ _ _ _ Heq) in Hrun. injection Hrun as <- <- <-.
      split.
      * tally Hrd. reflexivity.
      * left. split; [reflexivity|]. split; [|reflexivity].
        apply (live_after_hand_out j s c _ Hs Hu). left. reflexivity.
Qed.

(** With every slot taken and nobody releasing, the loop runs until
    the first clock value at or past the deadline and then gives up. *)
Lemma acquire_loop_times_out deadline sched : forall c,
  pool_wf c -> all_in_use c ->
  Forall (fun w => wk_released w = []) sched ->
  Exists (fun w => deadline <= wk_now w) sched ->
  exists tr,
    acquire_loop sched deadline c =
      Done (-1, mk_ticket (-1) 0)
           (set_slot_wait_timeout_count (u64 (slot_wait_timeout_count c + 1)) c) tr.
Proof.
  induction sched as [|w sched IH]; intros c Hwf Hall Hrel Hex.
  - inversion Hex.
  - destruct (scan_free_slot_spec c Hwf)
      as [(tr0 & Heq & Hrd & _)|(j & s & tr0 & Heq & Hrd & Hs & Hu & _)].
    + rewrite (acquire_loop_miss _ _ _ _ _ Heq).
      destruct (Z.geb_spec (wk_now w) deadline) as [Hge|Hlt].
      * eexists. reflexivity.
      * apply Forall_cons in Hrel. destruct Hrel as [Hw Hrel]. rewrite Hw. simpl.
        apply Exists_cons in Hex. destruct Hex as [Hex|Hex]; [lia|].
        destruct (IH c Hwf Hall Hrel Hex) as (tr & ->). eexists. reflexivity.
    + apply Hall in Hs. congruence.
Qed.

Lemma u64_succ n : 0 <= n < 2 ^ 64 - 1 -> u64 (n + 1) = n + 1.
Proof. intros H. unfold u64. apply Z.mod_small. lia. Qed.

Lemma acquire_free_slot_eq t0 sched c :
  acquire_free_slot t0 sched c =
    match acquire_loop sched (t0 + opt_timeout_ms c * 1000) c with
    | Done r c' tr => Done r c' (EvMonoUs t0 :: tr)
    | Undefined => Undefined
    | Starved => Starved
    end.
Proof.
  unfold acquire_free_slot. unfold_prog.
  destruct (acquire_loop sched (t0 + opt_timeout_ms c * 1000) c); reflexivity.
Qed.

Lemma not_all_in_use_hit c :
  pool_wf c -> ~ all_in_use c ->
  exists t c' tr, scan_free_slot c = Done (Some t) c' tr /\ ticket_live c' t.
Proof.
  intros Hwf Hfree.
  destruct (scan_free_slot_spec c Hwf)
    as [(tr0 & Heq & _ & Hall)|(j & s & tr0 & Heq & _ & Hs & Hu & _)].
  - exfalso. apply Hfree. exact Hall.
  - do 3 eexists. split; [exact Heq|].
    apply (live_after_hand_out j s c _ Hs Hu). left. reflexivity.
Qed.

(** C7. Let the call start at clock value [t0] on a well-formed pool.
    (1) If it returns the error, then the last value it read from the
    clock is at least [t0 + timeout_ms * 1000] microseconds, no scan
    of the call found a free slot (it wrote to no slot and every slot
    is in use when it returns), the ticket is the blank one and
    [slot_wait_timeout_count] has grown by one (as a 64-bit counter:
    by exactly one unless it stood at its last value).
    (2) With every slot in use, no release by another thread and a
    clock that reaches the deadline, the call does return the error,
    with nothing changed but the counter; for [timeout_ms = 50] the
    clock value at that return is at least [t0 + 50000].
    (3) Every return is preceded by one more scan than waits: the
    scan is repeated after each wake-up, and if the releases that ran
    during the first wait freed a slot, the call returns a live
    ticket instead of the error.  A successful call leaves the
    counter alone. *)
Theorem acquire_timeout_only_after_deadline (c : app_ctx) (t0 : Z) (sched : list wakeup) :
  pool_wf c ->
  (forall r c' tr,
     acquire_free_slot t0 sched c = Done r c' tr -> fst r < 0 ->
     snd r = mk_ticket (-1) 0 /\
     head (mono_reads tr) = Some t0 /\
     (exists now, last (mono_reads tr) = Some now /\
                  t0 + opt_timeout_ms c * 1000 <= now) /\
     slot_wait_timeout_count c' = u64 (slot_wait_timeout_count c + 1) /\
     (0 <= slot_wait_timeout_count c < 2 ^ 64 - 1 ->
      slot_wait_timeout_count c' = slot_wait_timeout_count c + 1) /\
     all_in_use c' /\ count_ev is_slot_write tr = O) /\
  (all_in_use c ->
   Forall (fun w => wk_released w = []) sched ->
   Exists (fun w => t0 + opt_timeout_ms c * 1000 <= wk_now w) sched ->
   exists tr now,
     acquire_free_slot t0 sched c =
       Done (-1, mk_ticket (-1) 0)
            (set_slot_wait_timeout_count (u64 (slot_wait_timeout_count c + 1)) c) tr /\
     last (mono_reads tr) = Some now /\
     t0 + opt_timeout_ms c * 1000 <= now /\
     (opt_timeout_ms c = 50 -> t0 + 50000 <= now)) /\
  (forall r c' tr,
     acquire_free_slot t0 sched c = Done r c' tr ->
     count_ev is_slots_lock tr = S (count_ev is_wait tr) /\
     (fst r = 0 \/ fst r = -1) /\
     (fst r = 0 -> ticket_live c' (snd r) /\
                   slot_wait_timeout_count c' = slot_wait_timeout_count c)) /\
  (forall w rest c1,
     sched = w :: rest -> all_in_use c ->
     wk_now w < t0 + opt_timeout_ms c * 1000 ->
     others_release (wk_released w) c = Done tt c1 [] ->
     ~ all_in_use c1 ->
     exists t c' tr,
       acquire_free_slot t0 sched c = Done (0, t) c' tr /\ ticket_live c' t).
Proof.
  intros Hwf. split; [|split; [|split]].
  - intros r c' tr Hrun Hneg. rewrite acquire_free_slot_eq in Hrun.
    destruct (acquire_loop sched _ c) as [r1 c1 tr1| |] eqn:Hloop; try discriminate.
    injection Hrun as <- <- <-.
    destruct (acquire_loop_sound _ _ _ _ _ _ Hwf Hloop)
      as (_ & [(Hrc & _)|(_ & Htk & (now & Hlast & Hnow) & Hc & Hall & Hw)]); [lia|].
    split; [assumption|]. split; [reflexivity|].
    split; [|split; [assumption|split; [|split; [assumption|]]]].
    + exists now. split; [|assumption]. simpl. rewrite last_cons, Hlast. reflexivity.
    + intros Hrange. rewrite Hc. apply u64_succ. assumption.
    + rewrite count_ev_cons. simpl. assumption.
  - intros Hall Hrel Hex.
    destruct (acquire_loop_times_out _ sched c Hwf Hall Hrel Hex) as (tr & Hloop).
    destruct (acquire_loop_sound _ _ _ _ _ _ Hwf Hloop)
      as (_ & [(Hrc & _)|(_ & _ & (now & Hlast & Hnow) & _)]); [discriminate|].
    exists (EvMonoUs t0 :: tr), now. rewrite acquire_free_slot_eq, Hloop.
    split; [reflexivity|]. split; [|split; [assumption|]].
    + simpl. rewrite last_cons, Hlast. reflexivity.
    + intros H50. rewrite H50 in Hnow. lia.
  - intros r c' tr Hrun. rewrite acquire_free_slot_eq in Hrun.
    destruct (acquire_loop sched _ c) as [r1 c1 tr1| |] eqn:Hloop; try discriminate.
    injection Hrun as <- <- <-.
    destruct (acquire_loop_sound _ _ _ _ _ _ Hwf Hloop) as (Hcnt & Hres).
    split; [|split].
    + rewrite !count_ev_cons. simpl. assumption.
    + destruct Hres as [(Hrc & _)|(Hrc & _)]; auto.
    + intros Hrc. destruct Hres as [(_ & Hl & Hc)|(Hrc' & _)]; [auto|lia].
  - intros w rest c1 -> Hall Hlt Ho Hfree.
    destruct (scan_free_slot_spec c Hwf)
      as [(tr0 & Heq & _ & _)|(j & s & tr0 & Heq & _ & Hs & Hu & _)].
    2: { apply Hall in Hs. congruence. }
    destruct (others_release_total (wk_released w) c Hwf) as (c1' & Ho' & Hwf1 & _).
    rewrite Ho in Ho'. injection Ho' as <-.
    destruct (not_all_in_use_hit c1 Hwf1 Hfree) as (t & c' & tr & Hscan & Hlive).
    exists t, c'. eexists. rewrite acquire_free_slot_eq.
    rewrite (acquire_loop_miss _ _ _ _ _ Heq).
    destruct (Z.geb_spec (wk_now w) (t0 + opt_timeout_ms c * 1000)); [lia|].
    rewrite Ho. rewrite (acquire_loop_hit _ _ _ _ _ _ Hscan).
    split; [reflexivity|assumption].
Qed.

(** *** Calls and atomic steps

    A whole call of [acquire_free_slot], together with the releases
    that other threads complete while it waits, acts on the pool as a
    sequence of the atomic steps of [pool_step]: its scans and those
    releases.  So what holds after every sequence of steps holds
    after every interleaving of calls. *)

Lemma pool_run_app ops1 : forall ops2 s,
  pool_run (ops1 ++ ops2) s =
    match pool_run ops1 s with
    | Some s1 => pool_run ops2 s1
    | None => None
    end.
Proof.
  induction ops1 as [|op ops1 IH]; intros ops2 s; simpl; [reflexivity|].
  destruct (pool_step op s); [apply IH|reflexivity].
Qed.

Lemma others_release_as_steps rs : forall s c',
  others_release rs (sys_ctx s) = Done tt c' [] ->
  exists s', pool_run (map (fun r => OpRelease (fst r) (snd r)) rs) s = Some s' /\
             sys_ctx s' = c'.
Proof.
  induction rs as [|[t b] rs IH]; intros s c' Hrun; simpl in *.
  - injection Hrun as <-. eauto.
  - unfold bind, quiet in Hrun.
    destruct (release_slot_ticket t b (sys_ctx s)) as [[] c1 tr1| |] eqn:Hrel;
      try discriminate.
    destruct (others_release rs c1) as [[] c2 tr2| |] eqn:Hrest; try discriminate.
    injection Hrun as <- Htr. simpl in Htr. subst tr2.
    set (s1 := mk_sys c1 (if existsb is_signal tr1
                          then List.filter (fun v => negb (ticket_eqb v t)) (sys_valid s)
                          else sys_valid s)).
    destruct (IH s1 c2 Hrest) as (s' & Hrun' & Hctx).
    exists s'. split; [exact Hrun'|exact Hctx].
Qed.

Lemma acquire_loop_as_steps deadline sched : forall s r c' tr,
  pool_wf (sys_ctx s) ->
  acquire_loop sched deadline (sys_ctx s) = Done r c' tr ->
  exists ops s',
    pool_run ops s = Some s' /\
    slots (sys_ctx s') = slots c' /\
    released_frames (sys_ctx s') = released_frames c' /\
    (fst r = 0 -> exists rest, sys_valid s' = snd r :: rest).
Proof.
  induction sched as [|w sched IH]; intros s r c' tr Hwf Hrun.
  - destruct (scan_free_slot_spec (sys_ctx s) Hwf)
      as [(tr0 & Heq & _)|(j & sl & tr0 & Heq & _)].
    + simpl in Hrun. unfold bind in Hrun. rewrite Heq in Hrun. discriminate.
    + rewrite (acquire_loop_hit _ _ _ _ _ _ Heq) in Hrun. injection Hrun as <- <- _.
      exists [OpAcquire]. eexists. simpl. rewrite Heq.
      split; [reflexivity|]. simpl. eauto.
  - destruct (scan_free_slot_spec (sys_ctx s) Hwf)
      as [(tr0 & Heq & _)|(j & sl & tr0 & Heq & _)].
    + rewrite (acquire_loop_miss _ _ _ _ _ Heq) in Hrun.
      destruct (wk_now w >=? deadline).
      * injection Hrun as <- <- _. exists [], s. simpl.
        split; [reflexivity|]. split; [reflexivity|]. split; [reflexivity|].
        discriminate.
      * destruct (others_release_total (wk_released w) (sys_ctx s) Hwf)
          as (c1 & Ho & Hwf1 & _).
        rewrite Ho in Hrun.
        destruct (acquire_loop sched deadline c1) as [r2 c2 tr2| |] eqn:Hrest;
          try discriminate.
        injection Hrun as <- <- _.
        destruct (others_release_as_steps _ s c1 Ho) as (s1 & Hrun1 & Hctx1).
        rewrite <- Hctx1 in Hrest, Hwf1.
        destruct (IH s1 r2 c2 tr2 Hwf1 Hrest) as (ops & s' & Hrun' & Hres).
        exists (map (fun r => OpRelease (fst r) (snd r)) (wk_released w) ++ ops), s'.
        rewrite pool_run_app, Hrun1. split; [exact Hrun'|exact Hres].
    + rewrite (acquire_loop_hit _ _ _ _ _ _ Heq) in Hrun. injection Hrun as <- <- _.
      exists [OpAcquire]. eexists. simpl. rewrite Heq.
      split; [reflexivity|]. simpl. eauto.
Qed.

(** *** The inference mailbox *)

Lemma push_latest_to_infer_eq raw c :
  push_latest_to_infer raw c =
    Done tt
      (set_infer_has_new true
         (set_infer_frame_seq (u64 (infer_frame_seq c + 1))
            (set_infer_latest_raw (memcpy (infer_latest_raw c) raw (frame_size c))
               (if infer_has_new c
                then set_infer_overwrite_count (u64 (infer_overwrite_count c + 1)) c
                else c))))
      [EvLock infer_lock; EvSignal infer_cond; EvUnlock infer_lock].
Proof.
  unfold push_latest_to_infer. unfold_prog. destruct c as [? ? ? ? ? ? ? ? ? ? ? ? ? ? ? [] ?];
    reflexivity.
Qed.

Lemma memcpy_whole dst src n :
  Z.of_nat (length dst) = n -> Z.of_nat (length src) = n -> memcpy dst src n = src.
Proof.
  intros Hd Hs. unfold memcpy.
  rewrite take_ge by lia. rewrite drop_ge by lia. apply app_nil_r.
Qed.

(** A push always returns, and its trace holds no wait: it takes
    [infer_lock], signals [infer_cond] and drops the lock.  When the
    flag is still set, [infer_overwrite_count] grows by one (as a
    64-bit counter: by exactly one unless it stood at its last value).
    Afterwards the one buffer of the mailbox holds the first
    [frame_size] bytes of the new frame, so the frame that was there
    is gone; with buffers of [frame_size] bytes it is the new frame
    itself.  The mailbox holds one frame at most: the worker's next
    fetch takes the new frame with the new sequence number and clears
    the flag, and a fetch after that finds nothing and parks. *)
Lemma push_latest_to_infer_overwrites (c : app_ctx) (raw : list Z) :
  exists c' tr,
    push_latest_to_infer raw c = Done tt c' tr /\
    existsb is_wait tr = false /\
    infer_has_new c' = true /\
    infer_frame_seq c' = u64 (infer_frame_seq c + 1) /\
    infer_latest_raw c' = memcpy (infer_latest_raw c) raw (frame_size c) /\
    (mailbox_ok c -> Z.of_nat (length raw) = frame_size c -> infer_latest_raw c' = raw) /\
    (infer_has_new c = true ->
       infer_overwrite_count c' = u64 (infer_overwrite_count c + 1) /\
       (0 <= infer_overwrite_count c < 2 ^ 64 - 1 ->
        infer_overwrite_count c' = infer_overwrite_count c + 1)) /\
    (infer_has_new c = false -> infer_overwrite_count c' = infer_overwrite_count c) /\
    (running c = true ->
       exists tr1,
         infer_fetch c' =
           Done (Some (take (Z.to_nat (frame_size c)) (infer_latest_raw c'),
                       u64 (infer_frame_seq c + 1)))
                (set_infer_has_new false c') tr1 /\
         existsb is_wait tr1 = false /\
         infer_fetch (set_infer_has_new false c') = Starved).
Proof.
  rewrite push_latest_to_infer_eq.
  destruct c as [tmo fps sw fsz dc sl sc run cap pu rel pts swt ioc raw0 has seq].
  do 2 eexists. split; [reflexivity|].
  split; [reflexivity|]. split; [reflexivity|]. split; [destruct has; reflexivity|].
  split; [destruct has; reflexivity|].
  split; [|split; [|split; [|]]].
  - unfold mailbox_ok. simpl. intros Hm Hr. destruct has; apply memcpy_whole; assumption.
  - simpl. intros ->. split; [reflexivity|]. intros Hr. apply u64_succ, Hr.
  - simpl. intros ->. reflexivity.
  - simpl. intros ->. eexists. unfold infer_fetch. unfold_prog.
    destruct has; simpl; (split; [reflexivity|]); split; reflexivity.
Qed.

(** *** The hand-over to the display path *)

(** A release never takes a slot, never touches a generation or a
    backing buffer, and leaves [released_frames] alone unless it is
    told to count. *)
Lemma release_slot_mono t b c c' tr :
  pool_wf c ->
  release_slot_ticket t b c = Done tt c' tr ->
  (forall j s, slot_at c j = Some s ->
     exists s', slot_at c' j = Some s' /\
                slot_generation s' = slot_generation s /\
                slot_data s' = slot_data s /\
                (slot_in_use s' = true -> slot_in_use s = true)) /\
  (b = false -> released_frames c' = released_frames c).
Proof.
  intros Hwf Hrun.
  destruct (release_cases t b c Hwf)
    as [(s0 & _ & Hs0 & _ & _ & tr0 & Heq & _)|(_ & tr0 & Heq & _)];
    rewrite Heq in Hrun; injection Hrun as <- <-.
  - pose proof (slot_at_Some _ _ _ Hs0) as Hr. split.
    + intros j s Hs. rewrite slot_at_released.
      destruct (Z.eq_dec j (ticket_idx t)) as [->|Hne].
      * rewrite (slot_at_set_same c _ s0 _ Hs0). eexists. split; [reflexivity|].
        assert (s = s0) as -> by congruence. simpl. repeat split. discriminate.
      * rewrite slot_at_set_other by (lia || congruence). eauto.
    + intros ->. reflexivity.
  - split; [|reflexivity]. intros j s Hs. eauto.
Qed.

Lemma others_release_mono rs : forall c c',
  pool_wf c ->
  others_release rs c = Done tt c' [] ->
  forall j s, slot_at c j = Some s ->
    exists s', slot_at c' j = Some s' /\
               slot_generation s' = slot_generation s /\
               slot_data s' = slot_data s /\
               (slot_in_use s' = true -> slot_in_use s = true).
Proof.
  induction rs as [|[t b] rs IH]; intros c c' Hwf Hrun j s Hs.
  - injection Hrun as <-. eauto.
  - simpl in Hrun. unfold bind, quiet in Hrun.
    destruct (release_total t b c Hwf) as (c1 & tr & Heq & Hwf1 & _).
    rewrite Heq in Hrun.
    destruct (others_release rs c1) as [[] c2 tr2| |] eqn:Hrest; try discriminate.
    assert (tr2 = []) as ->.
    { destruct (others_release_total rs c1 Hwf1) as (? & E & _). congruence. }
    injection Hrun as <-.
    destruct (release_slot_mono t b c c1 tr Hwf Heq) as (Hm & _).
    destruct (Hm j s Hs) as (s1 & Hs1 & Hg1 & Hd1 & Hu1).
    destruct (IH c1 c2 Hwf1 Hrest j s1 Hs1) as (s2 & Hs2 & Hg2 & Hd2 & Hu2).
    exists s2. split; [assumption|]. split; [congruence|]. split; [congruence|]. auto.
Qed.

(** The slot of [ticket] after the producer itself releases it. *)
Lemma producer_release ticket c s :
  pool_wf c ->
  slot_at c (ticket_idx ticket) = Some s ->
  slot_generation s = ticket_generation ticket ->
  exists c' tr s',
    release_slot_ticket ticket false c = Done tt c' tr /\
    pool_wf c' /\ only_pool_changed c c' /\
    released_frames c' = released_frames c /\
    slot_at c' (ticket_idx ticket) = Some s' /\
    slot_in_use s' = false /\ slot_generation s' = slot_generation s.
Proof.
  intros Hwf Hs Hg.
  destruct (release_cases ticket false c Hwf)
    as [(s0 & _ & Hs0 & _ & _ & tr0 & Heq & _)|(Hnl & tr0 & Heq & _)].
  - assert (s0 = s) as -> by congruence.
    exists (released ticket false s c), tr0, (with_in_use false s).
    split; [assumption|]. split; [apply released_wf; assumption|].
    split; [apply released_only_pool|]. split; [reflexivity|].
    split; [|split; reflexivity].
    rewrite slot_at_released. apply (slot_at_set_same c _ s _ Hs).
  - exists c, tr0, s. split; [assumption|]. split; [assumption|].
    split; [apply only_pool_changed_refl|]. split; [reflexivity|].
    split; [assumption|]. split; [|reflexivity].
    destruct (slot_in_use s) eqn:Hu; [|reflexivity].
    exfalso. apply Hnl. exists s. auto.
Qed.

Lemma pushed_frames_kept c c' :
  only_pool_changed c c' -> pushed_frames c' = pushed_frames c.
Proof. intros ->. reflexivity. Qed.

Lemma others_release_nil_frames rs c c' :
  rs = [] -> others_release rs c = Done tt c' [] -> c' = c.
Proof. intros -> H. injection H as <-. reflexivity. Qed.

(** Without a cookie [build_frame_buffer] gives up before it touches
    the pool: the turn ends with [LoopBreak] and the context as it
    was.  ([g_new0] ends the process when it cannot allocate, so this
    return is not taken.) *)
Lemma dispatch_without_cookie e ticket c :
  ie_cookie_ok e = false ->
  dispatch_frame e ticket c = Done LoopBreak c [].
Proof.
  intros H. unfold dispatch_frame, build_frame_buffer. rewrite H. reflexivity.
Qed.

(** C9. The producer holds a live ticket and a cookie.  If
    [gst_buffer_new_wrapped_full] gives no buffer, or the push returns
    a flow other than [GST_FLOW_OK], the hand-over returns [LoopBreak]
    and [pushed_frames] is not counted; a turn of the loop that ends
    with [LoopBreak] ends the loop, whatever turns would follow.  On
    the way the producer releases the ticket with the counting flag
    off: afterwards the slot is free with its generation untouched,
    and [released_frames] is what it was before the producer's own
    release: its value at the start when the wrapping failed, and its
    value after the release callbacks that ran during the push when
    the push failed (again the value at the start if none ran). *)
Theorem display_failure_releases_and_breaks
    (c : app_ctx) (e : iter_env) (ticket : slot_ticket) :
  pool_wf c -> ticket_live c ticket ->
  ie_cookie_ok e = true -> opt_fps c <> 0 ->
  (ie_wrapped_ok e = false ->
     exists c' tr s',
       dispatch_frame e ticket c = Done LoopBreak c' tr /\
       slot_at c' (ticket_idx ticket) = Some s' /\
       slot_in_use s' = false /\
       slot_generation s' = ticket_generation ticket /\
       released_frames c' = released_frames c /\
       pushed_frames c' = pushed_frames c) /\
  (ie_wrapped_ok e = true -> ie_flow e <> GST_FLOW_OK ->
     exists c_mid c' tr s',
       others_release (map (fun t => (t, true)) (ie_notified e))
         (set_next_pts_ns
            (u64 (next_pts_ns c + u64 (Z.quot GST_SECOND (opt_fps c)))) c)
         = Done tt c_mid [] /\
       dispatch_frame e ticket c = Done LoopBreak c' tr /\
       slot_at c' (ticket_idx ticket) = Some s' /\
       slot_in_use s' = false /\
       slot_generation s' = ticket_generation ticket /\
       released_frames c' = released_frames c_mid /\
       (ie_notified e = [] -> released_frames c' = released_frames c) /\
       pushed_frames c' = pushed_frames c) /\
  (forall e0 rest c0 c1 tr0,
     capture_iteration e0 c0 = Done LoopBreak c1 tr0 ->
     capture_loop (e0 :: rest) c0 = Done O c1 (tr0 ++ [])).
Proof.
  intros Hwf (s & Hs & Hu & Hg) Hcookie Hfps.
  split; [|split].
  - intros Hwrap.
    destruct (producer_release ticket c s Hwf Hs Hg)
      as (c' & tr & s' & Heq & _ & Hch & Hrel & Hs' & Hu' & Hg').
    exists c'. eexists. exists s'.
    split.
    + unfold dispatch_frame, build_frame_buffer. rewrite Hcookie, Hwrap. simpl.
      unfold bind, load_slot, ret. rewrite Hs, Heq. reflexivity.
    + split; [assumption|]. split; [assumption|]. split; [congruence|].
      split; [assumption|]. apply pushed_frames_kept, Hch.
  - intros Hwrap Hflow.
    set (c1 := set_next_pts_ns
                 (u64 (next_pts_ns c + u64 (Z.quot GST_SECOND (opt_fps c)))) c).
    assert (pool_wf c1) as Hwf1 by exact Hwf.
    assert (slot_at c1 (ticket_idx ticket) = Some s) as Hs1 by exact Hs.
    destruct (others_release_total (map (fun t => (t, true)) (ie_notified e)) c1 Hwf1)
      as (c_mid & Ho & Hwfm & Hchm).
    destruct (others_release_mono _ c1 c_mid Hwf1 Ho _ s Hs1)
      as (sm & Hsm & Hgm & _ & _).
    destruct (producer_release ticket c_mid sm Hwfm Hsm ltac:(congruence))
      as (c' & tr & s' & Heq & _ & Hch & Hrel & Hs' & Hu' & Hg').
    exists c_mid, c'. eexists. exists s'.
    split; [exact Ho|]. split.
    + unfold dispatch_frame, build_frame_buffer. rewrite Hcookie, Hwrap. simpl.
      unfold bind, load_slot, ret, gets, modify. rewrite Hs.
      destruct (Z.eqb_spec (opt_fps c) 0) as [|_]; [contradiction|].
      fold c1. rewrite Ho.
      destruct (Z.eqb_spec (ie_flow e) GST_FLOW_OK) as [|_]; [contradiction|].
      simpl. rewrite Heq. reflexivity.
    + split; [assumption|]. split; [assumption|]. split; [congruence|].
      split; [assumption|]. split.
      * intros Hnil. rewrite Hnil in Ho. injection Ho as <-. rewrite Hrel. reflexivity.
      * rewrite (pushed_frames_kept _ _ Hch), (pushed_frames_kept _ _ Hchm). reflexivity.
  - intros e0 rest c0 c1 tr0 Hit. simpl. unfold bind. rewrite Hit. reflexivity.
Qed.

(** ** Proofs, part II: the DMA engine *)

Lemma land_page a : Z.land a 0xFFF = a mod 4096.
Proof. change 0xFFF with (Z.ones 12). rewrite Z.land_ones by lia. reflexivity. Qed.

Lemma u64_small z : 0 <= z < 2 ^ 64 -> u64 z = z.
Proof. intros H. unfold u64. apply Z.mod_small, H. Qed.

Lemma u64_range z : 0 <= u64 z < 2 ^ 64.
Proof. unfold u64. apply Z.mod_pos_bound. lia. Qed.

(** The size the loop settles on. *)
Lemma pick_chunk_spec remaining addr :
  0 < remaining < 2 ^ 64 -> 0 <= addr < 2 ^ 64 ->
  exists cs,
    pick_chunk remaining addr = Some cs /\
    0 < cs <= DMA_MAX_LEN_BYTES /\ cs <= remaining /\
    addr mod 4096 + cs <= 4096 /\
    (addr mod 4096 = 0 -> cs = Z.min remaining DMA_MAX_LEN_BYTES).
Proof.
  intros Hr Ha. unfold pick_chunk. rewrite land_page.
  pose proof (Z.mod_pos_bound addr 4096 ltac:(lia)) as Hm.
  change DMA_MAX_LEN_BYTES with 4096. change 0x1000 with 4096.
  generalize dependent (addr mod 4096). intros off Hm.
  destruct (Z.gtb_spec (off + Z.min remaining 4096) 4096) as [Hx|Hx].
  - rewrite u64_small by lia.
    destruct (Z.eqb_spec (4096 - off) 0) as [E|E]; [lia|].
    eexists. split; [reflexivity|]. lia.
  - eexists. split; [reflexivity|]. lia.
Qed.


Lemma page_end_in_range addr cs :
  0 <= addr < 2 ^ 64 -> addr mod 4096 + cs <= 4096 -> addr + cs <= 2 ^ 64.
Proof.
  intros Ha Hs.
  pose proof (Z.div_mod addr 4096 ltac:(lia)) as Hd.
  assert (addr / 4096 < 2 ^ 52) as Hq by (apply Z.div_lt_upper_bound; lia).
  change (2 ^ 64) with (4096 * 2 ^ 52) in *.
  generalize dependent (addr mod 4096). generalize dependent (addr / 4096). intros. lia.
Qed.

Section DriverFacts.

Variable elapse : world -> mem * Z.
Variable msecs_to_jiffies : Z -> Z.
Variable P : dma_params.
Variable dma_handle : Z.

Lemma poll_loop_log fuel : forall tail0 tail1 deadline cur count w res w',
  poll_loop elapse P fuel tail0 tail1 deadline cur count w = (res, w') ->
  chunks_of_rev (w_log w') = chunks_of_rev (w_log w) /\
  cmd_writes_rev (w_log w') = cmd_writes_rev (w_log w).
Proof.
  induction fuel as [|fuel IH]; intros tail0 tail1 deadline cur count w res w' Hrun;
    simpl in Hrun.
  - injection Hrun as <- <-. auto.
  - destruct (sentinel_left tail0 tail1 (tick elapse w)).
    2: { injection Hrun as <- <-. auto. }
    destruct (time_after _ deadline).
    { injection Hrun as <- <-. auto. }
    destruct (cur <=? 0).
    { apply IH in Hrun. exact Hrun. }
    repeat match type of Hrun with
           | context [if ?b then _ else _] => destruct b
           end; apply IH in Hrun; exact Hrun.
Qed.

Lemma issue_chunk_log n addr cs w tail0 tail1 w1 :
  issue_chunk P dma_handle n addr cs w = (tail0, tail1, w1) ->
  chunks_of_rev (w_log w1) = (addr, cs) :: chunks_of_rev (w_log w) /\
  cmd_writes_rev (w_log w1) = dma_cmd_word cs :: cmd_writes_rev (w_log w).
Proof.
  unfold issue_chunk. intros H. injection H as <- <- <-.
  destruct (verbose_chunk P n), (cs >=? 8); simpl; auto.
Qed.

Lemma chunk_pacing_log w :
  chunks_of_rev (w_log (chunk_pacing P w)) = chunks_of_rev (w_log w) /\
  cmd_writes_rev (w_log (chunk_pacing P w)) = cmd_writes_rev (w_log w).
Proof.
  unfold chunk_pacing.
  destruct (dma_chunk_delay_us P >=? 1000); [simpl; auto|].
  destruct (dma_chunk_delay_us P >? 0); simpl; auto.
Qed.

Lemma transfer_loop_S fuel pf remaining addr n w :
  transfer_loop elapse msecs_to_jiffies P dma_handle (S fuel) pf remaining addr n w =
    if remaining >? 0 then
      match pick_chunk remaining addr with
      | None =>
          transfer_loop elapse msecs_to_jiffies P dma_handle fuel pf remaining
            (ALIGN addr 0x1000) n w
      | Some chunk_size =>
          let '(tail0, tail1, w1) := issue_chunk P dma_handle n addr chunk_size w in
          match poll_loop elapse P pf tail0 tail1
                  (u64 (w_jiffies w1 + msecs_to_jiffies (dma_timeout_ms P)))
                  (dma_poll_sleep_us P) 0 w1 with
          | (PollTimeout, w2) => (XferReturn (- ETIMEDOUT), w2)
          | (PollFuel, w2) => (XferPollFuel, w2)
          | (PollDone, w2) =>
              transfer_loop elapse msecs_to_jiffies P dma_handle fuel pf
                (u64 (remaining - chunk_size)) (u64 (addr + chunk_size))
                (s32 (n + 1)) (chunk_pacing P w2)
          end
      end
    else (XferReturn 0, w).
Proof. reflexivity. Qed.

(** The chunks of a run of the loop: each is sound, they start at the
    current address and follow one another, and they add up to
    [remaining] when the loop returns 0. *)
Lemma transfer_loop_chunks fuel : forall pf remaining addr n w res w',
  0 <= remaining < 2 ^ 64 -> 0 <= addr < 2 ^ 64 ->
  (Z.to_nat remaining < fuel)%nat ->
  transfer_loop elapse msecs_to_jiffies P dma_handle fuel pf remaining addr n w = (res, w') ->
  exists cs,
    chunks_of_rev (w_log w') = rev cs ++ chunks_of_rev (w_log w) /\
    cmd_writes_rev (w_log w') =
      rev (map (fun c => dma_cmd_word (snd c)) cs) ++ cmd_writes_rev (w_log w) /\
    Forall sound_chunk cs /\
    chained addr cs /\
    sum_sizes cs <= remaining /\
    (res = XferReturn 0 -> sum_sizes cs = remaining) /\
    (res = XferReturn 0 \/ res = XferReturn (- ETIMEDOUT) \/ res = XferPollFuel) /\
    (0 < remaining -> cs <> []).
Proof.
  induction fuel as [|fuel IH]; intros pf remaining addr n w res w' Hr Ha Hf Hrun; [lia|].
  rewrite transfer_loop_S in Hrun.
  destruct (Z.gtb_spec remaining 0) as [Hpos|Hzero].
  2: { injection Hrun as <- <-. exists []. simpl.
       repeat split; auto; try lia. }
  destruct (pick_chunk_spec remaining addr ltac:(lia) Ha)
    as (cs & Hpick & Hcs & Hle & Hpage & _).
  rewrite Hpick in Hrun.
  destruct (issue_chunk P dma_handle n addr cs w) as [[tail0 tail1] w1] eqn:Hissue.
  destruct (issue_chunk_log _ _ _ _ _ _ _ Hissue) as (Hc1 & Hw1).
  destruct (poll_loop elapse P pf tail0 tail1 _ (dma_poll_sleep_us P) 0 w1)
    as [pres w2] eqn:Hpoll.
  destruct (poll_loop_log _ _ _ _ _ _ _ _ _ Hpoll) as (Hc2 & Hw2).
  assert (sound_chunk (addr, cs)) as Hsound by (unfold sound_chunk; simpl; lia).
  destruct pres.
  - destruct (chunk_pacing_log w2) as (Hc3 & Hw3).
    pose proof (page_end_in_range addr cs Ha Hpage) as Hend.
    apply IH in Hrun.
    + destruct Hrun as (rest & Hcr & Hwr & Hall & Hch & Hsum & Hok & Hres & _).
      rewrite u64_small in Hsum, Hok by lia.
      exists ((addr, cs) :: rest). simpl.
      rewrite Hcr, Hc3, Hc2, Hc1, Hwr, Hw3, Hw2, Hw1.
      rewrite <- !app_assoc. simpl.
      split; [reflexivity|]. split; [reflexivity|].
      split; [constructor; assumption|]. split; [split; [reflexivity|assumption]|].
      split; [lia|].
      split; [intros E; specialize (Hok E); lia|]. split; [assumption|discriminate].
    + apply u64_range.
    + apply u64_range.
    + rewrite u64_small by lia. lia.
  - injection Hrun as <- <-. exists [(addr, cs)]. simpl.
    rewrite Hc2, Hc1, Hw2, Hw1.
    split; [reflexivity|]. split; [reflexivity|].
    split; [constructor; [assumption|constructor]|]. split; [split; [reflexivity|exact I]|].
    split; [lia|].
    split; [discriminate|]. split; [auto|discriminate].
  - injection Hrun as <- <-. exists [(addr, cs)]. simpl.
    rewrite Hc2, Hc1, Hw2, Hw1.
    split; [reflexivity|]. split; [reflexivity|].
    split; [constructor; [assumption|constructor]|]. split; [split; [reflexivity|exact I]|].
    split; [lia|].
    split; [discriminate|]. split; [auto|discriminate].
Qed.

End DriverFacts.

(** *** The transfer returns

    With a clock that ticks between the looks, a poll cannot go on
    for more looks than the timeout has jiffies, two more at most, so
    the transfer returns, whatever the device does. *)


Lemma poll_loop_S elapse P fuel tail0 tail1 deadline cur count w0 :
  poll_loop elapse P (S fuel) tail0 tail1 deadline cur count w0 =
    let w := tick elapse w0 in
    if sentinel_left tail0 tail1 w then
      if time_after (w_jiffies w) deadline then (PollTimeout, w)
      else if cur <=? 0 then
        poll_loop elapse P fuel tail0 tail1 deadline cur count (log ActCpuRelax w)
      else
        let max := dma_poll_sleep_max_us P in
        let backoff := dma_poll_backoff_polls P in
        let cur1 := if (0 <? max) && (max <? cur) then max else cur in
        let w1 := log (ActUsleepRange cur1 (s32 (cur1 + 5))) w in
        if (0 <? backoff) && (0 <? max) && (cur1 <? max) then
          let count1 := s32 (count + 1) in
          if count1 >=? backoff then
            let cur2 := s32 (cur1 * 2) in
            poll_loop elapse P fuel tail0 tail1 deadline (if max <? cur2 then max else cur2) 0 w1
          else poll_loop elapse P fuel tail0 tail1 deadline cur1 count1 w1
        else poll_loop elapse P fuel tail0 tail1 deadline cur1 count w1
    else (PollDone, w).
Proof. reflexivity. Qed.






(** *** Claims about the chunking *)

Lemma emitted_chunks_app w w' cs :
  chunks_of_rev (w_log w') = rev cs ++ chunks_of_rev (w_log w) ->
  emitted_chunks w' = emitted_chunks w ++ cs.
Proof. unfold emitted_chunks. intros ->. rewrite rev_app_distr, rev_involutive. reflexivity. Qed.

Lemma cmd_writes_app w w' (vs : list Z) :
  cmd_writes_rev (w_log w') = rev vs ++ cmd_writes_rev (w_log w) ->
  cmd_writes w' = cmd_writes w ++ vs.
Proof. unfold cmd_writes. intros ->. rewrite rev_app_distr, rev_involutive. reflexivity. Qed.

(** The chunks and the command words of a whole transfer. *)
Lemma perform_transfer_chunks elapse m2j P dma_handle pf size w res w' :
  0 <= size < 2 ^ 64 -> 0 <= dma_handle < 2 ^ 64 ->
  fpga_dma_perform_transfer elapse m2j P dma_handle pf size w = (res, w') ->
  exists cs,
    emitted_chunks w' = emitted_chunks w ++ cs /\
    cmd_writes w' = cmd_writes w ++ map (fun c => dma_cmd_word (snd c)) cs /\
    Forall sound_chunk cs /\
    chained dma_handle cs /\
    sum_sizes cs <= size /\
    (res = XferReturn 0 -> sum_sizes cs = size) /\
    (res = XferReturn 0 \/ res = XferReturn (- ETIMEDOUT) \/ res = XferPollFuel).
Proof.
  intros Hs Hh Hrun. unfold fpga_dma_perform_transfer in Hrun.
  apply transfer_loop_chunks in Hrun; [|assumption|assumption|lia].
  destruct Hrun as (cs & Hc & Hw & Hall & Hch & Hsum & Hok & Hres & _).
  exists cs. split; [|split].
  - apply emitted_chunks_app. exact Hc.
  - apply cmd_writes_app. exact Hw.
  - auto.
Qed.


(** C8. With bytes left to move, the loop always settles on a chunk:
    the branch that realigns the address and starts the turn again is
    never taken.  The size is positive and at most what is left; on
    an address that is a multiple of 4096 it is the smaller of what
    is left and [DMA_MAX_LEN_BYTES].  So every chunk that any run of
    the loop commits to has a positive size. *)
Theorem chunk_size_is_never_zero (remaining current_addr : Z) :
  0 < remaining < 2 ^ 64 -> 0 <= current_addr < 2 ^ 64 ->
  pick_chunk remaining current_addr <> None /\
  (exists chunk_size,
     pick_chunk remaining current_addr = Some chunk_size /\
     0 < chunk_size <= remaining /\
     (Z.land current_addr 0xFFF = 0 ->
      chunk_size = Z.min remaining DMA_MAX_LEN_BYTES)) /\
  (forall elapse m2j P dma_handle fuel pf n w res w',
     (Z.to_nat remaining < fuel)%nat ->
     transfer_loop elapse m2j P dma_handle fuel pf remaining current_addr n w = (res, w') ->
     exists cs,
       emitted_chunks w' = emitted_chunks w ++ cs /\
       cs <> [] /\ Forall (fun c => 0 < snd c) cs).
Proof.
  intros Hr Ha.
  destruct (pick_chunk_spec remaining current_addr Hr Ha)
    as (cs & Hpick & Hcs & Hle & Hpage & Hal).
  split; [rewrite Hpick; discriminate|]. split.
  - exists cs. split; [assumption|]. split; [lia|]. rewrite land_page. exact Hal.
  - intros elapse m2j P dma_handle fuel pf n w res w' Hf Hrun.
    apply transfer_loop_chunks in Hrun; [|lia|assumption|assumption].
    destruct Hrun as (l & Hc & _ & Hall & _ & _ & _ & _ & Hne).
    exists l. split; [apply emitted_chunks_app; exact Hc|]. split.
    + apply Hne. lia.
    + eapply Forall_impl; [exact Hall|]. intros c (_ & Hsz & _). lia.
Qed.

(** *** The command word *)

Lemma cmd_word_len_field x :
  0 <= x < 1024 ->
  Z.land (Z.lor (Z.lor (Z.land x DMA_CMD_LEN_MASK) DMA_CMD_64BIT_ADDR) DMA_CMD_WRITE)
         DMA_CMD_LEN_MASK = x.
Proof.
  intros Hx. rewrite !Z.land_lor_distr_l. rewrite <- Z.land_assoc, Z.land_diag.
  change (Z.land DMA_CMD_64BIT_ADDR DMA_CMD_LEN_MASK) with 0.
  change (Z.land DMA_CMD_WRITE DMA_CMD_LEN_MASK) with 0.
  rewrite !Z.lor_0_r. change DMA_CMD_LEN_MASK with (Z.ones 10).
  rewrite Z.land_ones by lia. apply Z.mod_small. change (2 ^ 10) with 1024. lia.
Qed.

Lemma dwords_minus_one chunk_size :
  0 < chunk_size <= DMA_MAX_LEN_BYTES ->
  u32 (u32 ((chunk_size + 3) / 4) - 1) = (chunk_size + 3) / 4 - 1 /\
  0 <= (chunk_size + 3) / 4 - 1 < 1024.
Proof.
  change DMA_MAX_LEN_BYTES with 4096. intros Hc.
  assert (1 <= (chunk_size + 3) / 4) by (apply Z.div_le_lower_bound; lia).
  assert ((chunk_size + 3) / 4 < 1025) by (apply Z.div_lt_upper_bound; lia).
  unfold u32. rewrite (Z.mod_small ((chunk_size + 3) / 4)) by lia.
  rewrite Z.mod_small by lia. lia.
Qed.

(** C1, as the code has it. For every chunk of 1 to 4096 bytes the
    command word carries in bits [9:0] the length in DWORDs (rounded
    up) minus one, with bits 16 and 24 set; for a chunk of exactly
    4096 bytes (1024 DWORDs) the field is therefore 1023 = 0x3FF.
    The field is 0 exactly for the chunks of at most 4 bytes.  The
    words a transfer writes to [BAR1_DMA_CMD_REG] are these words,
    one per chunk and in the order of the chunks. *)
Theorem cmd_length_field_is_dwords_minus_one (chunk_size : Z) :
  0 < chunk_size <= DMA_MAX_LEN_BYTES ->
  Z.land (dma_cmd_word chunk_size) DMA_CMD_LEN_MASK = (chunk_size + 3) / 4 - 1 /\
  (chunk_size = 4096 -> Z.land (dma_cmd_word chunk_size) DMA_CMD_LEN_MASK = 1023) /\
  (Z.land (dma_cmd_word chunk_size) DMA_CMD_LEN_MASK = 0 <-> chunk_size <= 4) /\
  Z.testbit (dma_cmd_word chunk_size) 16 = true /\
  Z.testbit (dma_cmd_word chunk_size) 24 = true /\
  (forall elapse m2j P dma_handle pf size w res w',
     0 <= size < 2 ^ 64 -> 0 <= dma_handle < 2 ^ 64 ->
     fpga_dma_perform_transfer elapse m2j P dma_handle pf size w = (res, w') ->
     exists cs,
       emitted_chunks w' = emitted_chunks w ++ cs /\
       cmd_writes w' = cmd_writes w ++ map (fun c => dma_cmd_word (snd c)) cs).
Proof.
  intros Hc. destruct (dwords_minus_one chunk_size Hc) as (Hu & Hr).
  assert (Z.land (dma_cmd_word chunk_size) DMA_CMD_LEN_MASK = (chunk_size + 3) / 4 - 1) as Hf.
  { unfold dma_cmd_word. rewrite Hu. apply cmd_word_len_field, Hr. }
  split; [exact Hf|]. split; [|split; [|split; [|split]]].
  - intros ->. rewrite Hf. reflexivity.
  - rewrite Hf. change DMA_MAX_LEN_BYTES with 4096 in Hc. split.
    + intros H0. assert ((chunk_size + 3) / 4 < 2) as Hlt by lia.
      destruct (Z_le_gt_dec chunk_size 4) as [|Hgt]; [assumption|].
      assert (2 <= (chunk_size + 3) / 4) by (apply Z.div_le_lower_bound; lia). lia.
    + intros Hle. assert ((chunk_size + 3) / 4 < 2) by (apply Z.div_lt_upper_bound; lia).
      assert (1 <= (chunk_size + 3) / 4) by (apply Z.div_le_lower_bound; lia). lia.
  - unfold dma_cmd_word. rewrite !Z.lor_spec.
    change (Z.testbit DMA_CMD_64BIT_ADDR 16) with true.
    rewrite orb_true_r. reflexivity.
  - unfold dma_cmd_word. rewrite !Z.lor_spec.
    change (Z.testbit DMA_CMD_WRITE 24) with true.
    apply orb_true_r.
  - intros elapse m2j P dma_handle pf size w res w' Hs Hh Hrun.
    destruct (perform_transfer_chunks _ _ _ _ _ _ _ _ _ Hs Hh Hrun)
      as (cs & Hch & Hw & _).
    exists cs. auto.
Qed.

(** C1, as stated, fails: a transfer of 4096 bytes to a page-aligned
    buffer is one chunk of 4096 bytes, and the one word it writes to
    the command register is 0x010103FF, whose bits [9:0] are 1023 and
    not 0. *)
Lemma cmd_length_field_for_4096_bytes_is_not_zero :
  fst one_page_run = XferReturn 0 /\
  emitted_chunks (snd one_page_run) = [(0x10000000, 4096)] /\
  cmd_writes (snd one_page_run) = [0x010103FF] /\
  Z.land 0x010103FF DMA_CMD_LEN_MASK = 1023 /\
  ~ (forall v, In v (cmd_writes (snd one_page_run)) -> Z.land v DMA_CMD_LEN_MASK = 0).
Proof.
  assert (cmd_writes (snd one_page_run) = [0x010103FF]) as Hw
    by (vm_compute; reflexivity).
  rewrite Hw.
  split; [vm_compute; reflexivity|]. split; [vm_compute; reflexivity|].
  split; [reflexivity|]. split; [reflexivity|].
  intros H. specialize (H 0x010103FF (or_introl eq_refl)). vm_compute in H. discriminate.
Qed.

(** *** Timeouts *)

Section PollFacts.

Variable elapse : world -> mem * Z.
Variable P : dma_params.

(** A poll that ends with a timeout ends on a look that still finds a
    sentinel, with [jiffies] past the deadline; a poll that ends well
    ends on a look that finds none. *)
Lemma poll_loop_verdict fuel : forall tail0 tail1 deadline cur count w res w',
  poll_loop elapse P fuel tail0 tail1 deadline cur count w = (res, w') ->
  match res with
  | PollTimeout => sentinel_left tail0 tail1 w' = true /\
                   time_after (w_jiffies w') deadline = true
  | PollDone => sentinel_left tail0 tail1 w' = false
  | PollFuel => True
  end.
Proof.
  induction fuel as [|fuel IH]; intros tail0 tail1 deadline cur count w res w' Hrun;
    simpl in Hrun.
  - injection Hrun as <- <-. exact I.
  - destruct (sentinel_left tail0 tail1 (tick elapse w)) eqn:Hs.
    2: { injection Hrun as <- <-. exact Hs. }
    destruct (time_after _ deadline) eqn:Ht.
    { injection Hrun as <- <-. auto. }
    destruct (cur <=? 0).
    { apply IH in Hrun. exact Hrun. }
    repeat match type of Hrun with
           | context [if ?b then _ else _] => destruct b
           end; apply IH in Hrun; exact Hrun.
Qed.

End PollFacts.

(** A timed-out poll ends the transfer there: the function returns
    [-ETIMEDOUT] with the world of the failing look, and nothing is
    issued again. *)
Lemma timeout_ends_transfer elapse m2j P dma_handle fuel pf remaining addr n w cs t0 t1 w1 w2 :
  0 < remaining ->
  pick_chunk remaining addr = Some cs ->
  issue_chunk P dma_handle n addr cs w = (t0, t1, w1) ->
  poll_loop elapse P pf t0 t1 (u64 (w_jiffies w1 + m2j (dma_timeout_ms P)))
    (dma_poll_sleep_us P) 0 w1 = (PollTimeout, w2) ->
  transfer_loop elapse m2j P dma_handle (S fuel) pf remaining addr n w =
    (XferReturn (- ETIMEDOUT), w2).
Proof.
  intros Hr Hp Hi Hpoll. rewrite transfer_loop_S.
  destruct (Z.gtb_spec remaining 0); [|lia]. rewrite Hp, Hi. cbv zeta. rewrite Hpoll.
  reflexivity.
Qed.

(** And only a timed-out poll makes the transfer return
    [-ETIMEDOUT]: the world it returns is the one of a look that
    found a sentinel of the chunk issued last, past its deadline. *)
Lemma timeout_comes_from_a_poll elapse m2j P dma_handle pf fuel :
  forall remaining addr n w w',
  transfer_loop elapse m2j P dma_handle fuel pf remaining addr n w
    = (XferReturn (- ETIMEDOUT), w') ->
  exists n0 addr0 cs w0 t0 t1 w1,
    issue_chunk P dma_handle n0 addr0 cs w0 = (t0, t1, w1) /\
    poll_loop elapse P pf t0 t1 (u64 (w_jiffies w1 + m2j (dma_timeout_ms P)))
      (dma_poll_sleep_us P) 0 w1 = (PollTimeout, w') /\
    sentinel_left t0 t1 w' = true /\
    time_after (w_jiffies w') (u64 (w_jiffies w1 + m2j (dma_timeout_ms P))) = true.
Proof.
  induction fuel as [|fuel IH]; intros remaining addr n w w' Hrun; [discriminate|].
  rewrite transfer_loop_S in Hrun.
  destruct (remaining >? 0); [|discriminate].
  destruct (pick_chunk remaining addr) as [cs|]; [|apply IH in Hrun; exact Hrun].
  destruct (issue_chunk P dma_handle n addr cs w) as [[t0 t1] w1] eqn:Hi.
  destruct (poll_loop elapse P pf t0 t1 _ (dma_poll_sleep_us P) 0 w1) as [pres w2] eqn:Hp.
  destruct pres.
  - apply IH in Hrun. exact Hrun.
  - injection Hrun as <-.
    pose proof (poll_loop_verdict _ _ _ _ _ _ _ _ _ _ _ Hp) as (Hs & Ht).
    exists n, addr, cs, w, t0, t1, w1. auto.
  - discriminate.
Qed.

(** Where the sentinels of a chunk go: inside the chunk when it has
    at least 4 bytes, before its first byte when it is shorter. *)
Lemma sentinel_placement P dma_handle n addr cs w t0 t1 w1 :
  issue_chunk P dma_handle n addr cs w = (t0, t1, w1) ->
  let buf_offset := u64 (addr - dma_handle) in
  t0 = buf_offset + cs - 4 /\
  (4 <= cs -> buf_offset <= t0) /\
  (0 < cs < 4 -> t0 < buf_offset) /\
  (forall t, t1 = Some t -> 8 <= cs /\ t = buf_offset + cs - 8).
Proof.
  unfold issue_chunk. intros H. injection H as <- <- _. cbv zeta.
  split; [reflexivity|]. split; [lia|]. split; [lia|].
  intros t. destruct (Z.geb_spec cs 8); [|discriminate].
  intros Ht. injection Ht as <-. lia.
Qed.

(** C6: the code at the failing input.  The device serves chunk 0 and
    never answers chunk 1.  A transfer of 4096 bytes alone returns 0
    and leaves the device's byte 0x11 at offsets 4093 to 4095.  The
    transfer of 4097 bytes issues the chunks (4096 bytes, 1 byte),
    one command word each, and returns [-ETIMEDOUT]; by then the
    sentinel 0xDEADBEEF of the one-byte chunk, stored at offset 4093,
    has replaced those three bytes of chunk 0 with EF BE AD. *)
Theorem short_chunk_sentinel_clobbers_earlier_data :
  fst first_chunk_run = XferReturn 0 /\
  map (w_mem (snd first_chunk_run)) [4092; 4093; 4094; 4095] = [0x11; 0x11; 0x11; 0x11] /\
  fst stalled_run = XferReturn (- ETIMEDOUT) /\
  emitted_chunks (snd stalled_run) = [(0x10000000, 4096); (0x10001000, 1)] /\
  cmd_writes (snd stalled_run) = [0x010103FF; 0x01010000] /\
  stores (snd stalled_run) =
    [(4092, tail_sentinel0); (4088, tail_sentinel1); (4093, tail_sentinel0)] /\
  map (w_mem (snd stalled_run)) [4092; 4093; 4094; 4095] = [0x11; 0xEF; 0xBE; 0xAD].
Proof.
  split; [vm_compute; reflexivity|]. split; [vm_compute; reflexivity|].
  split; [vm_compute; reflexivity|]. split; [vm_compute; reflexivity|].
  split; [vm_compute; reflexivity|]. split; vm_compute; reflexivity.
Qed.

(** *** What stays in place

    When the buffer address and the size are multiples of 4, every
    chunk has at least 4 bytes and its sentinels lie inside it.  With
    a device that only writes from the commanded address on, the rest
    of a transfer then leaves every byte before the current address
    as it is, whether the transfer goes on to return 0 or times out:
    the data of the chunks completed so far stays in place. *)

Lemma store32_below m o v a : a < o -> store32 m o v a = m a.
Proof.
  intros H. unfold store32. destruct (Z.leb_spec o a); [lia|]. reflexivity.
Qed.

Lemma pick_chunk_value remaining addr cs :
  pick_chunk remaining addr = Some cs ->
  0 < remaining < 2 ^ 64 ->
  cs = Z.min remaining DMA_MAX_LEN_BYTES \/ cs = 4096 - addr mod 4096.
Proof.
  unfold pick_chunk. rewrite land_page. change DMA_MAX_LEN_BYTES with 4096.
  change 0x1000 with 4096. intros H Hr.
  pose proof (Z.mod_pos_bound addr 4096 ltac:(lia)) as Hm.
  generalize dependent (addr mod 4096). intros off H Hm.
  destruct (off + Z.min remaining 4096 >? 4096).
  - rewrite u64_small in H by lia. destruct (4096 - off =? 0); [discriminate|].
    injection H as <-. right. reflexivity.
  - injection H as <-. left. reflexivity.
Qed.

Lemma dword_chunk remaining addr cs :
  pick_chunk remaining addr = Some cs ->
  0 < remaining < 2 ^ 64 ->
  remaining mod 4 = 0 -> addr mod 4 = 0 ->
  cs mod 4 = 0.
Proof.
  intros Hp Hr Hr4 Ha4.
  destruct (pick_chunk_value _ _ _ Hp Hr) as [->| ->].
  - change DMA_MAX_LEN_BYTES with 4096.
    destruct (Z.min_spec remaining 4096) as [[_ ->]|[_ ->]]; [assumption|reflexivity].
  - assert ((addr mod 4096) mod 4 = 0) as Hoff.
    { rewrite Z.mod_mod_divide; [assumption|]. exists 1024. reflexivity. }
    rewrite Zminus_mod, Hoff. reflexivity.
Qed.

Section Frame.

Variable elapse : world -> mem * Z.
Variable m2j : Z -> Z.
Variable P : dma_params.
Variable dma_handle : Z.
Hypothesis device_forward : writes_forward elapse dma_handle.

Lemma poll_loop_frame fuel : forall tail0 tail1 deadline cur count w res w' n addr cs,
  latest_chunk (w_log w) = Some (n, addr, cs) ->
  poll_loop elapse P fuel tail0 tail1 deadline cur count w = (res, w') ->
  forall a, a < u64 (addr - dma_handle) -> w_mem w' a = w_mem w a.
Proof.
  induction fuel as [|fuel IH];
    intros tail0 tail1 deadline cur count w res w' n addr cs Hl Hrun a Ha.
  - injection Hrun as _ <-. reflexivity.
  - rewrite poll_loop_S in Hrun. cbv zeta in Hrun.
    assert (w_mem (tick elapse w) a = w_mem w a) as Ht.
    { pose proof (device_forward w a) as Hd. rewrite Hl in Hd. exact (Hd Ha). }
    destruct (sentinel_left tail0 tail1 (tick elapse w)).
    2: { injection Hrun as _ <-. exact Ht. }
    destruct (time_after _ deadline).
    { injection Hrun as _ <-. exact Ht. }
    transitivity (w_mem (tick elapse w) a); [|exact Ht].
    destruct (cur <=? 0).
    { refine (IH _ _ _ _ _ _ _ _ n addr cs _ Hrun a Ha). exact Hl. }
    repeat match type of Hrun with
           | context [if ?b then _ else _] => destruct b
           end;
      (refine (IH _ _ _ _ _ _ _ _ n addr cs _ Hrun a Ha); exact Hl).
Qed.

Lemma issue_chunk_frame n addr cs w t0 t1 w1 :
  issue_chunk P dma_handle n addr cs w = (t0, t1, w1) ->
  4 <= cs ->
  latest_chunk (w_log w1) = Some (n, addr, cs) /\
  forall a, a < u64 (addr - dma_handle) -> w_mem w1 a = w_mem w a.
Proof.
  unfold issue_chunk. intros H Hcs. injection H as _ _ <-. split.
  - destruct (verbose_chunk P n), (cs >=? 8); reflexivity.
  - intros a Ha.
    destruct (verbose_chunk P n); destruct (Z.geb_spec cs 8); simpl;
      rewrite ?store32_below by lia; reflexivity.
Qed.

Lemma chunk_pacing_mem w : w_mem (chunk_pacing P w) = w_mem w.
Proof.
  unfold chunk_pacing. destruct (dma_chunk_delay_us P >=? 1000); [reflexivity|].
  destruct (dma_chunk_delay_us P >? 0); reflexivity.
Qed.

(** [A] is the current address before any wrap-around: the transfer
    ends at or before the end of the address space. *)
Lemma transfer_loop_frame fuel : forall pf remaining A n w res w',
  0 <= remaining < 2 ^ 64 -> 0 <= dma_handle <= A -> A + remaining <= 2 ^ 64 ->
  remaining mod 4 = 0 -> A mod 4 = 0 ->
  transfer_loop elapse m2j P dma_handle fuel pf remaining (u64 A) n w = (res, w') ->
  forall a, a < A - dma_handle -> w_mem w' a = w_mem w a.
Proof.
  induction fuel as [|fuel IH]; intros pf remaining A n w res w' Hr Hh Hend Hr4 HA4 Hrun a Ha.
  - injection Hrun as _ <-. reflexivity.
  - rewrite transfer_loop_S in Hrun.
    destruct (Z.gtb_spec remaining 0) as [Hpos|Hzero].
    2: { injection Hrun as _ <-. reflexivity. }
    assert (0 <= A < 2 ^ 64) as HA by (clear - Hpos Hh Hend; lia).
    assert (0 < remaining < 2 ^ 64) as Hrem by (clear - Hpos Hr; lia).
    rewrite (u64_small A HA) in Hrun.
    destruct (pick_chunk_spec remaining A Hrem HA)
      as (cs & Hpick & Hcs & Hle & Hpage & _).
    pose proof (dword_chunk _ _ _ Hpick Hrem Hr4 HA4) as Hcs4.
    assert (4 <= cs) as Hcs_ge.
    { destruct (Z_lt_ge_dec cs 4) as [Hlt|Hge]; [|clear - Hge; lia].
      rewrite Z.mod_small in Hcs4 by (clear - Hcs Hlt; lia). clear - Hcs Hcs4. lia. }
    rewrite Hpick in Hrun.
    destruct (issue_chunk P dma_handle n A cs w) as [[t0 t1] w1] eqn:Hi.
    destruct (issue_chunk_frame _ _ _ _ _ _ _ Hi Hcs_ge) as (Hl1 & Hm1).
    destruct (poll_loop elapse P pf t0 t1 _ (dma_poll_sleep_us P) 0 w1) as [pres w2] eqn:Hp.
    pose proof (poll_loop_frame _ _ _ _ _ _ _ _ _ _ _ _ Hl1 Hp) as Hm2.
    assert (u64 (A - dma_handle) = A - dma_handle) as Hoff
      by (apply u64_small; clear - HA Hh; lia).
    assert (w_mem w2 a = w_mem w a) as Hstep.
    { rewrite Hm2, Hm1; [reflexivity| |]; rewrite Hoff; exact Ha. }
    destruct pres.
    + rewrite <- Hstep, <- (chunk_pacing_mem w2).
      rewrite (u64_small (remaining - cs)) in Hrun by (clear - Hle Hcs Hrem; lia).
      eapply (IH pf (remaining - cs) (A + cs)); [| | | | |exact Hrun|].
      * clear - Hle Hrem Hcs. lia.
      * clear - Hh Hcs. lia.
      * clear - Hend. lia.
      * rewrite Zminus_mod, Hr4, Hcs4. reflexivity.
      * rewrite Zplus_mod, HA4, Hcs4. reflexivity.
      * clear - Ha Hcs. lia.
    + injection Hrun as _ <-. exact Hstep.
    + injection Hrun as _ <-. exact Hstep.
Qed.

(** Once a chunk is complete, its data and all the data before it
    stay as they are for the rest of the transfer, however that
    ends. *)
Lemma completed_chunk_stays_in_place fuel pf remaining A n w cs t0 t1 w1 w2 res w' :
  0 < remaining < 2 ^ 64 -> 0 <= dma_handle <= A -> A + remaining <= 2 ^ 64 ->
  remaining mod 4 = 0 -> A mod 4 = 0 ->
  pick_chunk remaining A = Some cs ->
  issue_chunk P dma_handle n A cs w = (t0, t1, w1) ->
  poll_loop elapse P pf t0 t1 (u64 (w_jiffies w1 + m2j (dma_timeout_ms P)))
    (dma_poll_sleep_us P) 0 w1 = (PollDone, w2) ->
  transfer_loop elapse m2j P dma_handle (S fuel) pf remaining A n w = (res, w') ->
  forall a, a < A + cs - dma_handle -> w_mem w' a = w_mem w2 a.
Proof.
  intros Hr Hh Hend Hr4 HA4 Hpick Hi Hp Hrun a Ha.
  assert (0 <= A < 2 ^ 64) as HA by (clear - Hr Hh Hend; lia).
  destruct (pick_chunk_spec remaining A Hr HA) as (cs' & Hpick' & Hcs & Hle & Hpage & _).
  assert (cs' = cs) as -> by congruence.
  pose proof (dword_chunk _ _ _ Hpick Hr Hr4 HA4) as Hcs4.
  rewrite transfer_loop_S in Hrun.
  destruct (Z.gtb_spec remaining 0) as [_|Hz]; [|clear - Hr Hz; lia].
  rewrite Hpick, Hi in Hrun. cbv zeta in Hrun. rewrite Hp in Hrun.
  rewrite (u64_small (remaining - cs)) in Hrun by (clear - Hle Hcs Hr; lia).
  rewrite <- (chunk_pacing_mem w2).
  eapply (transfer_loop_frame fuel pf (remaining - cs) (A + cs)); [| | | | |exact Hrun|exact Ha].
  - clear - Hle Hcs Hr. lia.
  - clear - Hh Hcs. lia.
  - clear - Hend. lia.
  - rewrite Zminus_mod, Hr4, Hcs4. reflexivity.
  - rewrite Zplus_mod, HA4, Hcs4. reflexivity.
Qed.

End Frame.

(** ** Runs of the model *)

Example first_scan_hands_out_slot_0 :
  outcome_value (scan_free_slot fresh_pool) = Some (Some (mk_ticket 0 1)).
Proof. reflexivity. Qed.

Example scan_of_busy_pool_finds_nothing :
  scan_free_slot busy_pool =
    Done None busy_pool
      [EvLock slots_lock; EvSlotRead 0 f_in_use; EvSlotRead 1 f_in_use].
Proof. reflexivity. Qed.

(** Two hand-outs, the release of the first and a new hand-out of the
    same slot: the old ticket (0, 1) is gone, the new one is (0, 2). *)
Example reacquired_slot_has_next_generation :
  sys_valid <$> pool_run [OpAcquire; OpAcquire; OpRelease (mk_ticket 0 1) true; OpAcquire;
                          OpRelease (mk_ticket 0 1) true]
                         (pool_init 2 8)
  = Some [mk_ticket 0 2; mk_ticket 1 1].
Proof. reflexivity. Qed.

(** The third acquire of a pool of two, with a timeout of 50 ms: two
    waits, the second one cut at the deadline, then the error. *)
Example third_acquire_waits_twice :
  outcome_value (acquire_free_slot 1000000 quiet_sched busy_pool)
    = Some (-1, mk_ticket (-1) 0) /\
  List.filter is_wait (outcome_trace (acquire_free_slot 1000000 quiet_sched busy_pool))
    = [EvWaitUntil slots_cond 1040000; EvWaitUntil slots_cond 1050000] /\
  mono_reads (outcome_trace (acquire_free_slot 1000000 quiet_sched busy_pool))
    = [1000000; 1020000; 1040000; 1050003].
Proof. repeat split; reflexivity. Qed.

(** A release by the renderer during the first wait lets the acquire
    succeed on the next scan. *)
Example acquire_after_release_in_wait :
  outcome_value
    (acquire_free_slot 1000000 [mk_wakeup 1020000 [(mk_ticket 1 1, true)]] busy_pool)
  = Some (0, mk_ticket 1 2).
Proof. reflexivity. Qed.

(** A turn of the capture loop whose push is refused ends the loop:
    the second environment is never used, nothing is counted as
    pushed or released, and slot 0 is free again with generation 1. *)
Example refused_push_ends_the_loop :
  outcome_value (capture_loop [env_push_refused; env_no_buffer] fresh_pool) = Some O /\
  (fun c => (pushed_frames c, released_frames c, captured_frames c, in_use_flags c,
             generations c))
    <$> outcome_ctx (capture_loop [env_push_refused; env_no_buffer] fresh_pool)
  = Some (0, 0, 1, [false; false], [1; 0]).
Proof. split; reflexivity. Qed.

Example aligned_transfer_of_two_pages :
  fst (sim_run 0x10000000 99 100 8192) = XferReturn 0 /\
  emitted_chunks (snd (sim_run 0x10000000 99 100 8192))
    = [(0x10000000, 4096); (0x10001000, 4096)] /\
  cmd_writes (snd (sim_run 0x10000000 99 100 8192)) = [0x010103FF; 0x010103FF].
Proof. split; [|split]; vm_compute; reflexivity. Qed.

Example unaligned_transfer_splits_at_the_boundary :
  emitted_chunks (snd (sim_run 0x10000F00 99 100 5000))
    = [(0x10000F00, 256); (0x10001000, 4096); (0x10002000, 648)].
Proof. vm_compute. reflexivity. Qed.

(** ** The statements at concrete inputs *)

Lemma busy_pool_wf : pool_wf busy_pool.
Proof. reflexivity. Defined.

Lemma busy_pool_all_in_use : all_in_use busy_pool.
Proof.
  intros j s. unfold slot_at. destruct (0 <=? j); [|discriminate].
  simpl. destruct (Z.to_nat j) as [|[|k]]; simpl; intros H; try discriminate;
    injection H as <-; reflexivity.
Defined.

Lemma busy_pool_live : ticket_live busy_pool (mk_ticket 0 1).
Proof. exists busy_slot. split; [reflexivity|]. split; reflexivity. Defined.

Lemma busy_pool_stale : ~ ticket_live busy_pool (mk_ticket 0 7).
Proof.
  intros (s & Hs & _ & Hg). vm_compute in Hs. injection Hs as <-. discriminate.
Defined.

(** C4 on the busy pool: a release with generation 7 for slot 0, whose
    generation is 1, changes nothing and signals nobody; the release
    of the live ticket frees the slot; a second release of it is
    void. *)
Lemma release_stale_noop_and_idempotent_witness :
  (exists tr, release_slot_ticket (mk_ticket 0 7) true busy_pool = Done tt busy_pool tr /\
              existsb is_signal tr = false) /\
  (exists c' tr s,
     release_slot_ticket (mk_ticket 0 1) true busy_pool = Done tt c' tr /\
     slot_at busy_pool 0 = Some s /\
     slot_at c' 0 = Some (with_in_use false s) /\
     (forall j, j <> 0 -> slot_at c' j = slot_at busy_pool j) /\
     generations c' = generations busy_pool /\
     released_frames c' = u64 (released_frames busy_pool + 1) /\
     length (List.filter is_signal tr) = 1%nat) /\
  (exists c1 tr1 tr2,
     release_slot_ticket (mk_ticket 0 1) true busy_pool = Done tt c1 tr1 /\
     release_slot_ticket (mk_ticket 0 1) false c1 = Done tt c1 tr2 /\
     existsb is_signal tr2 = false).
Proof.
  split; [|split].
  - exact (proj1 (release_stale_noop_and_idempotent busy_pool (mk_ticket 0 7) true false
                    busy_pool_wf) busy_pool_stale).
  - exact (proj1 (proj2 (release_stale_noop_and_idempotent busy_pool (mk_ticket 0 1) true false
                           busy_pool_wf)) busy_pool_live).
  - exact (proj2 (proj2 (release_stale_noop_and_idempotent busy_pool (mk_ticket 0 1) true false
                           busy_pool_wf))).
Defined.

(** C10 on the busy pool: index 5 of 2. *)
Lemma release_out_of_range_is_noop_witness :
  release_slot_ticket (mk_ticket 5 1) true busy_pool =
    Done tt busy_pool [EvLock slots_lock; EvUnlock slots_lock] /\
  (forall t' b', exists c' tr, release_slot_ticket t' b' busy_pool = Done tt c' tr).
Proof.
  split.
  - apply (proj1 (release_out_of_range_is_noop busy_pool (mk_ticket 5 1) true)).
    right. simpl. lia.
  - exact (proj2 (release_out_of_range_is_noop busy_pool (mk_ticket 5 1) true) busy_pool_wf).
Defined.

(** C7 on the busy pool: two slots in use, nobody releasing, a
    timeout of 50 ms, the call started at 1000000 us. *)
Lemma acquire_timeout_only_after_deadline_witness :
  exists tr now,
    acquire_free_slot 1000000 quiet_sched busy_pool =
      Done (-1, mk_ticket (-1) 0)
           (set_slot_wait_timeout_count 1 busy_pool) tr /\
    last (mono_reads tr) = Some now /\
    1000000 + 50 * 1000 <= now /\
    1000000 + 50000 <= now.
Proof.
  destruct (proj1 (proj2 (acquire_timeout_only_after_deadline busy_pool 1000000 quiet_sched
                            busy_pool_wf)))
    as (tr & now & Hrun & Hlast & Hnow & H50).
  - exact busy_pool_all_in_use.
  - repeat constructor.
  - right. right. left. simpl. lia.
  - exists tr, now. split; [exact Hrun|]. split; [exact Hlast|]. split; [exact Hnow|].
    apply H50. reflexivity.
Defined.

(** C9 on the busy pool, for the ticket of slot 0: both ways to fail. *)
Lemma display_failure_releases_and_breaks_witness :
  (exists c' tr s',
     dispatch_frame env_no_buffer (mk_ticket 0 1) busy_pool = Done LoopBreak c' tr /\
     slot_at c' 0 = Some s' /\ slot_in_use s' = false /\ slot_generation s' = 1 /\
     released_frames c' = 0 /\ pushed_frames c' = 0) /\
  (exists c_mid c' tr s',
     others_release []
       (set_next_pts_ns (u64 (0 + u64 (Z.quot GST_SECOND 15))) busy_pool) = Done tt c_mid [] /\
     dispatch_frame env_push_refused (mk_ticket 0 1) busy_pool = Done LoopBreak c' tr /\
     slot_at c' 0 = Some s' /\ slot_in_use s' = false /\ slot_generation s' = 1 /\
     released_frames c' = released_frames c_mid /\
     (@nil slot_ticket = [] -> released_frames c' = 0) /\
     pushed_frames c' = 0).
Proof.
  split.
  - apply (proj1 (display_failure_releases_and_breaks busy_pool env_no_buffer (mk_ticket 0 1)
                    busy_pool_wf busy_pool_live eq_refl ltac:(discriminate))).
    reflexivity.
  - apply (proj1 (proj2 (display_failure_releases_and_breaks busy_pool env_push_refused
                           (mk_ticket 0 1) busy_pool_wf busy_pool_live eq_refl
                           ltac:(discriminate)))).
    + reflexivity.
    + discriminate.
Defined.

Lemma sim_device_ticking handle stall_from : ticking (sim_device handle stall_from).
Proof.
  intros w. unfold sim_device. destruct (latest_chunk (w_log w)) as [[[n a] s]|];
    [destruct (n <? stall_from)|]; reflexivity.
Defined.

(** C8 with 5000 bytes left: 256 bytes from an address 256 bytes
    short of a page boundary. *)
Lemma chunk_size_is_never_zero_witness :
  pick_chunk 5000 0x10000F00 <> None /\
  exists chunk_size,
    pick_chunk 5000 0x10000F00 = Some chunk_size /\ 0 < chunk_size <= 5000.
Proof.
  destruct (chunk_size_is_never_zero 5000 0x10000F00) as (Hn & (cs & Hp & Hr & _) & _).
  - lia.
  - lia.
  - split; [exact Hn|]. exists cs. split; [exact Hp|exact Hr].
Defined.

(** C1, as the code has it, at 4096 bytes. *)
Lemma cmd_length_field_is_dwords_minus_one_witness :
  Z.land (dma_cmd_word 4096) DMA_CMD_LEN_MASK = (4096 + 3) / 4 - 1 /\
  Z.land (dma_cmd_word 4096) DMA_CMD_LEN_MASK = 1023.
Proof.
  destruct (cmd_length_field_is_dwords_minus_one 4096) as (Hf & H4096 & _).
  - unfold DMA_MAX_LEN_BYTES, DMA_MAX_LEN_DWORDS. lia.
  - split; [exact Hf|]. apply H4096. reflexivity.
Defined.

(** C2 on a pool of two slots: three scans, a stale release, a release
    of the first ticket and one more scan. *)
Lemma pool_tickets_unique_and_bounded_witness :
  exists s,
    pool_run [OpAcquire; OpAcquire; OpAcquire; OpRelease (mk_ticket 0 9) true;
              OpRelease (mk_ticket 0 1) true; OpAcquire]
             (pool_init 2 8) = Some s /\
    (length (sys_valid s) <= 2)%nat.
Proof.
  destruct (pool_tickets_unique_and_bounded 2 8
              [OpAcquire; OpAcquire; OpAcquire; OpRelease (mk_ticket 0 9) true;
               OpRelease (mk_ticket 0 1) true; OpAcquire])
    as (s & Hrun & Hlen & _).
  exists s. split; [exact Hrun|exact Hlen].
Defined.

(** * Pixels, boxes and the overlay *)

(** ** Counted loops and arrays *)

Lemma for_loop_inv {St : Type} (Inv : Z -> St -> Prop) (body : Z -> St -> option St) n :
  forall i s,
  Inv i s ->
  (forall j t, i <= j < i + Z.of_nat n -> Inv j t ->
               exists t', body j t = Some t' /\ Inv (j + 1) t') ->
  exists s', for_loop n i body s = Some s' /\ Inv (i + Z.of_nat n) s'.
Proof.
  induction n as [|n IH]; intros i s Hi Hstep.
  - exists s. simpl. rewrite Z.add_0_r. auto.
  - destruct (Hstep i s ltac:(lia) Hi) as (t' & Hb & Hi').
    simpl. rewrite Hb.
    destruct (IH (i + 1) t' Hi') as (s' & Hr & Hs').
    { intros j t Hj. apply Hstep. lia. }
    exists s'. split; [exact Hr|].
    replace (i + Z.of_nat (S n)) with (i + 1 + Z.of_nat n) by lia. exact Hs'.
Qed.

Lemma for_range_inv {St : Type} (Inv : Z -> St -> Prop) (body : Z -> St -> option St)
    lo hi s :
  lo <= hi -> Inv lo s ->
  (forall j t, lo <= j < hi -> Inv j t ->
               exists t', body j t = Some t' /\ Inv (j + 1) t') ->
  exists s', for_range lo hi body s = Some s' /\ Inv hi s'.
Proof.
  intros Hle Hi Hstep. unfold for_range.
  destruct (for_loop_inv Inv body (Z.to_nat (hi - lo)) lo s Hi) as (s' & Hr & Hs').
  { intros j t Hj. apply Hstep. lia. }
  exists s'. split; [exact Hr|].
  replace hi with (lo + Z.of_nat (Z.to_nat (hi - lo))) by lia. exact Hs'.
Qed.

Lemma for_range_empty {St : Type} (body : Z -> St -> option St) lo hi s :
  hi <= lo -> for_range lo hi body s = Some s.
Proof.
  intros H. unfold for_range. replace (Z.to_nat (hi - lo)) with O by lia. reflexivity.
Qed.

Lemma arr_store_Some a i v :
  0 <= i < Z.of_nat (length a) -> arr_store a i v = Some (<[Z.to_nat i := v]> a).
Proof.
  intros H. unfold arr_store.
  destruct (Z.leb_spec 0 i); [|lia]. destruct (Z.ltb_spec i (Z.of_nat (length a))); [|lia].
  reflexivity.
Qed.

Lemma arr_store_inv a i v a' :
  arr_store a i v = Some a' ->
  0 <= i < Z.of_nat (length a) /\ a' = <[Z.to_nat i := v]> a.
Proof.
  unfold arr_store.
  destruct (Z.leb_spec 0 i); simpl; [|discriminate].
  destruct (Z.ltb_spec i (Z.of_nat (length a))); [|discriminate].
  intros E. injection E as <-. auto.
Qed.

Lemma arr_store_length a i v a' : arr_store a i v = Some a' -> length a' = length a.
Proof.
  intros H. apply arr_store_inv in H as (_ & ->). apply length_insert.
Qed.

Lemma arr_load_store a i v a' j :
  arr_store a i v = Some a' ->
  arr_load a' j = if j =? i then Some v else arr_load a j.
Proof.
  intros H. apply arr_store_inv in H as (Hi & ->). unfold arr_load.
  destruct (Z.eqb_spec j i) as [->|Hne].
  - destruct (Z.leb_spec 0 i); [|lia]. apply list_lookup_insert_eq. lia.
  - destruct (Z.leb_spec 0 j); [|reflexivity].
    apply list_lookup_insert_ne. lia.
Qed.

Lemma arr_load_Some a i :
  0 <= i < Z.of_nat (length a) -> exists v, arr_load a i = Some v.
Proof.
  intros H. unfold arr_load. destruct (Z.leb_spec 0 i); [|lia].
  destruct (lookup_lt_is_Some_2 a (Z.to_nat i)) as (v & Hv); [lia|]. eauto.
Qed.

(** Two pixels of an image of width [w] are at the same index only if
    they are the same pixel. *)
Lemma coord_inj w x y xx yy :
  0 <= x < w -> 0 <= xx < w -> (yy * w + xx =? y * w + x) = (yy =? y) && (xx =? x).
Proof.
  intros Hx Hxx.
  destruct (Z.eqb_spec yy y) as [->|Hy]; simpl.
  - destruct (Z.eqb_spec xx x) as [->|Hne].
    + apply Z.eqb_refl.
    + apply Z.eqb_neq. lia.
  - apply Z.eqb_neq. intros E.
    assert ((yy - y) * w = x - xx) as E' by lia.
    assert (yy - y <> 0) as Hd by lia.
    destruct (Z_lt_ge_dec (yy - y) 0).
    + assert ((yy - y) * w <= - w) by nia. lia.
    + assert (w <= (yy - y) * w) by nia. lia.
Qed.

Lemma coord_in_image w h x y : 0 <= x < w -> 0 <= y < h -> 0 <= y * w + x < w * h.
Proof. intros Hx Hy. nia. Qed.

(** ** Lines, boxes and text *)

Ltac zbool :=
  repeat match goal with
         | |- context [?a <=? ?b] => destruct (Z.leb_spec a b)
         | |- context [?a <? ?b] => destruct (Z.ltb_spec a b)
         | |- context [?a >=? ?b] => rewrite (Z.geb_leb a b)
         | |- context [?a >? ?b] => rewrite (Z.gtb_ltb a b)
         | |- context [?a =? ?b] => destruct (Z.eqb_spec a b)
         end;
  simpl; try reflexivity; try lia.

Lemma painted_refl pix w h c inside :
  (forall xx yy, 0 <= xx < w -> 0 <= yy < h -> inside xx yy = false) ->
  painted pix pix w h c inside.
Proof.
  intros H. split; [reflexivity|]. intros xx yy Hx Hy. rewrite H by assumption. reflexivity.
Qed.

Lemma painted_ext pix pix' w h c inside inside' :
  (forall xx yy, 0 <= xx < w -> 0 <= yy < h -> inside xx yy = inside' xx yy) ->
  painted pix pix' w h c inside -> painted pix pix' w h c inside'.
Proof.
  intros H (Hl & Hp). split; [exact Hl|]. intros xx yy Hx Hy.
  rewrite <- H by assumption. apply Hp; assumption.
Qed.

Lemma painted_trans pix p1 p2 w h c in1 in2 :
  painted pix p1 w h c in1 -> painted p1 p2 w h c in2 ->
  painted pix p2 w h c (fun xx yy => in1 xx yy || in2 xx yy).
Proof.
  intros (Hl1 & Hp1) (Hl2 & Hp2). split; [congruence|]. intros xx yy Hx Hy.
  rewrite Hp2, Hp1 by assumption.
  destruct (in1 xx yy), (in2 xx yy); reflexivity.
Qed.

Lemma image_length pix pix' w h : length pix' = length pix -> image pix w h -> image pix' w h.
Proof. unfold image. intros ->. auto. Qed.

(** One store of a drawing loop: the pixel is in the image, and the
    other pixels keep their value. *)
Lemma store_pixel pix w h x y c :
  image pix w h -> 0 <= x < w -> 0 <= y < h ->
  exists pix', arr_store pix (y * w + x) c = Some pix' /\
               painted pix pix' w h c (fun xx yy => (yy =? y) && (xx =? x)).
Proof.
  intros (Hw & Hh & Hlen) Hx Hy.
  pose proof (coord_in_image w h x y Hx Hy) as Hin.
  eexists. split; [apply arr_store_Some; lia|].
  split; [apply length_insert|].
  intros xx yy Hxx Hyy. unfold pixel_at.
  erewrite arr_load_store by (apply arr_store_Some; lia).
  rewrite coord_inj by assumption. reflexivity.
Qed.

Lemma draw_hline_565_painted pix w h x1 x2 y c :
  image pix w h ->
  exists pix', draw_hline_565 pix w h x1 x2 y c = Some pix' /\
               painted pix pix' w h c (on_hline x1 x2 y).
Proof.
  intros Himg. unfold draw_hline_565.
  destruct ((y <? 0) || (y >=? h)) eqn:Hout.
  { exists pix. split; [reflexivity|]. apply painted_refl.
    intros xx yy Hx Hy. unfold on_hline.
    destruct (Z.eqb_spec yy y) as [->|]; [|reflexivity].
    rewrite Z.geb_leb in Hout.
    destruct (Z.ltb_spec y 0), (Z.leb_spec h y); simpl in Hout; try discriminate; lia. }
  apply orb_false_iff in Hout as (Hy0 & Hy1).
  rewrite Z.geb_leb in Hy1. apply Z.ltb_ge in Hy0. apply Z.leb_gt in Hy1.
  set (a := Z.min x1 x2). set (b := Z.max x1 x2).
  assert ((if x1 >? x2 then (x2, x1) else (x1, x2)) = (a, b)) as ->.
  { subst a b. rewrite Z.gtb_ltb. destruct (Z.ltb_spec x2 x1); f_equal; lia. }
  set (X1 := if a <? 0 then 0 else a). set (X2 := if b >=? w then w - 1 else b).
  assert (X1 = Z.max 0 a) as HX1.
  { subst X1. destruct (Z.ltb_spec a 0); lia. }
  assert (X2 = Z.min (w - 1) b) as HX2.
  { subst X2. rewrite Z.geb_leb. destruct (Z.leb_spec w b); lia. }
  clearbody X1 X2.
  assert (forall xx, 0 <= xx < w -> between x1 x2 xx = (X1 <=? xx) && (xx <? X2 + 1)) as Hbt.
  { intros xx Hxx. unfold between. fold a b. clearbody a b. zbool. }
  clearbody a b.
  destruct (Z_le_gt_dec (X2 + 1) X1) as [Hempty|Hne].
  { rewrite for_range_empty by assumption. exists pix. split; [reflexivity|].
    apply painted_refl. intros xx yy Hx Hy. unfold on_hline. rewrite Hbt by assumption.
    zbool. }
  destruct (for_range_inv
              (fun x p => painted pix p w h c
                            (fun xx yy => (yy =? y) && ((X1 <=? xx) && (xx <? x))))
              (fun x pix => arr_store pix (y * w + x) c) X1 (X2 + 1) pix)
    as (pix' & Hrun & Hinv).
  - lia.
  - apply painted_refl. intros xx yy _ _. zbool.
  - intros j p Hj Hp.
    destruct (store_pixel p w h j y c) as (p' & Hs & Hp'); [|lia|lia|].
    { eapply image_length; [exact (proj1 Hp)|exact Himg]. }
    exists p'. split; [exact Hs|].
    eapply painted_ext; [|exact (painted_trans _ _ _ _ _ _ _ _ Hp Hp')].
    intros xx yy Hx Hy. cbv beta. zbool.
  - exists pix'. split; [exact Hrun|].
    eapply painted_ext; [|exact Hinv].
    intros xx yy Hx Hy. cbv beta. unfold on_hline. rewrite Hbt by assumption. reflexivity.
Qed.

Lemma draw_vline_565_painted pix w h x y1 y2 c :
  image pix w h ->
  exists pix', draw_vline_565 pix w h x y1 y2 c = Some pix' /\
               painted pix pix' w h c (on_vline x y1 y2).
Proof.
  intros Himg. unfold draw_vline_565.
  destruct ((x <? 0) || (x >=? w)) eqn:Hout.
  { exists pix. split; [reflexivity|]. apply painted_refl.
    intros xx yy Hx Hy. unfold on_vline.
    destruct (Z.eqb_spec xx x) as [->|]; [|reflexivity].
    rewrite Z.geb_leb in Hout.
    destruct (Z.ltb_spec x 0), (Z.leb_spec w x); simpl in Hout; try discriminate; lia. }
  apply orb_false_iff in Hout as (Hx0 & Hx1).
  rewrite Z.geb_leb in Hx1. apply Z.ltb_ge in Hx0. apply Z.leb_gt in Hx1.
  set (a := Z.min y1 y2). set (b := Z.max y1 y2).
  assert ((if y1 >? y2 then (y2, y1) else (y1, y2)) = (a, b)) as ->.
  { subst a b. rewrite Z.gtb_ltb. destruct (Z.ltb_spec y2 y1); f_equal; lia. }
  set (Y1 := if a <? 0 then 0 else a). set (Y2 := if b >=? h then h - 1 else b).
  assert (Y1 = Z.max 0 a) as HY1.
  { subst Y1. destruct (Z.ltb_spec a 0); lia. }
  assert (Y2 = Z.min (h - 1) b) as HY2.
  { subst Y2. rewrite Z.geb_leb. destruct (Z.leb_spec h b); lia. }
  clearbody Y1 Y2.
  assert (forall yy, 0 <= yy < h -> between y1 y2 yy = (Y1 <=? yy) && (yy <? Y2 + 1)) as Hbt.
  { intros yy Hyy. unfold between. fold a b. clearbody a b. zbool. }
  clearbody a b.
  destruct (Z_le_gt_dec (Y2 + 1) Y1) as [Hempty|Hne].
  { rewrite for_range_empty by assumption. exists pix. split; [reflexivity|].
    apply painted_refl. intros xx yy Hx Hy. unfold on_vline. rewrite Hbt by assumption.
    zbool. }
  destruct (for_range_inv
              (fun y p => painted pix p w h c
                            (fun xx yy => (xx =? x) && ((Y1 <=? yy) && (yy <? y))))
              (fun y pix => arr_store pix (y * w + x) c) Y1 (Y2 + 1) pix)
    as (pix' & Hrun & Hinv).
  - lia.
  - apply painted_refl. intros xx yy _ _. zbool.
  - intros j p Hj Hp.
    destruct (store_pixel p w h x j c) as (p' & Hs & Hp'); [|lia|lia|].
    { eapply image_length; [exact (proj1 Hp)|exact Himg]. }
    exists p'. split; [exact Hs|].
    eapply painted_ext; [|exact (painted_trans _ _ _ _ _ _ _ _ Hp Hp')].
    intros xx yy Hx Hy. cbv beta. zbool.
  - exists pix'. split; [exact Hrun|].
    eapply painted_ext; [|exact Hinv].
    intros xx yy Hx Hy. cbv beta. unfold on_vline. rewrite Hbt by assumption. reflexivity.
Qed.

Lemma painted_image pix pix' w h c inside :
  painted pix pix' w h c inside -> image pix w h -> image pix' w h.
Proof. intros (Hl & _). apply image_length. exact Hl. Qed.

Lemma draw_rect_565_painted pix w h b c :
  image pix w h ->
  exists pix', draw_rect_565 pix w h b c = Some pix' /\
               painted pix pix' w h c (on_rect b).
Proof.
  intros I0. unfold draw_rect_565, for_range. simpl.
  rewrite !Z.add_0_r, !Z.sub_0_r.
  destruct (draw_hline_565_painted pix w h (box_x1 b) (box_x2 b) (box_y1 b) c I0)
    as (p1 & -> & P1).
  pose proof (painted_image _ _ _ _ _ _ P1 I0) as I1.
  destruct (draw_hline_565_painted p1 w h (box_x1 b) (box_x2 b) (box_y2 b) c I1)
    as (p2 & -> & P2).
  pose proof (painted_image _ _ _ _ _ _ P2 I1) as I2.
  destruct (draw_vline_565_painted p2 w h (box_x1 b) (box_y1 b) (box_y2 b) c I2)
    as (p3 & -> & P3).
  pose proof (painted_image _ _ _ _ _ _ P3 I2) as I3.
  destruct (draw_vline_565_painted p3 w h (box_x2 b) (box_y1 b) (box_y2 b) c I3)
    as (p4 & -> & P4).
  pose proof (painted_image _ _ _ _ _ _ P4 I3) as I4.
  change (0 + 1) with 1.
  destruct (draw_hline_565_painted p4 w h (box_x1 b) (box_x2 b) (box_y1 b + 1) c I4)
    as (p5 & -> & P5).
  pose proof (painted_image _ _ _ _ _ _ P5 I4) as I5.
  destruct (draw_hline_565_painted p5 w h (box_x1 b) (box_x2 b) (box_y2 b - 1) c I5)
    as (p6 & -> & P6).
  pose proof (painted_image _ _ _ _ _ _ P6 I5) as I6.
  destruct (draw_vline_565_painted p6 w h (box_x1 b + 1) (box_y1 b) (box_y2 b) c I6)
    as (p7 & -> & P7).
  pose proof (painted_image _ _ _ _ _ _ P7 I6) as I7.
  destruct (draw_vline_565_painted p7 w h (box_x2 b - 1) (box_y1 b) (box_y2 b) c I7)
    as (p8 & -> & P8).
  exists p8. split; [reflexivity|].
  pose proof (painted_trans _ _ _ _ _ _ _ _ P1 P2) as Q2.
  pose proof (painted_trans _ _ _ _ _ _ _ _ Q2 P3) as Q3.
  pose proof (painted_trans _ _ _ _ _ _ _ _ Q3 P4) as Q4.
  pose proof (painted_trans _ _ _ _ _ _ _ _ Q4 P5) as Q5.
  pose proof (painted_trans _ _ _ _ _ _ _ _ Q5 P6) as Q6.
  pose proof (painted_trans _ _ _ _ _ _ _ _ Q6 P7) as Q7.
  pose proof (painted_trans _ _ _ _ _ _ _ _ Q7 P8) as Q8.
  eapply painted_ext; [|exact Q8].
  intros xx yy _ _. reflexivity.
Qed.

Lemma land_bit a k : 0 <= k -> (Z.land a (Z.shiftl 1 k) =? 0) = negb (Z.testbit a k).
Proof.
  intros Hk. destruct (Z.testbit a k) eqn:E; simpl.
  - apply Z.eqb_neq. intros H0.
    assert (Z.testbit (Z.land a (Z.shiftl 1 k)) k = true) as H1.
    { rewrite Z.land_spec, E, Z.shiftl_spec by lia. rewrite Z.sub_diag. reflexivity. }
    rewrite H0, Z.bits_0 in H1. discriminate.
  - apply Z.eqb_eq. apply Z.bits_inj'. intros n Hn.
    rewrite Z.land_spec, Z.bits_0.
    destruct (Z.eq_dec n k) as [->|Hne]; [rewrite E; reflexivity|].
    rewrite Z.shiftl_spec by lia.
    destruct (Z_lt_ge_dec n k).
    + rewrite (Z.testbit_neg_r 1 (n - k)) by lia. apply andb_false_r.
    + rewrite (Z.bits_above_log2 1 (n - k)) by (simpl; lia). apply andb_false_r.
Qed.

Lemma glyph_rows_length ch g : glyph_rows ch = Some g -> length g = 7%nat.
Proof.
  destruct ch as [[] [] [] [] [] [] [] []]; simpl; intros E;
    first [discriminate | injection E as <-; reflexivity].
Qed.

Lemma glyph5x7_row ch row :
  0 <= row < 7 ->
  glyph5x7 ch row =
    Some match glyph_rows ch with
         | Some g => nth (Z.to_nat row) g 0
         | None => 0
         end.
Proof.
  intros Hr. unfold glyph5x7.
  destruct (glyph_rows ch) as [g|] eqn:E; [|reflexivity].
  apply glyph_rows_length in E. unfold arr_load.
  destruct (Z.leb_spec 0 row); [|lia].
  destruct (lookup_lt_is_Some_2 g (Z.to_nat row)) as (v & Hv); [lia|].
  rewrite Hv. f_equal. symmetry. eapply nth_lookup_Some. exact Hv.
Qed.

(** The guarded store of [draw_text_565]. *)
Lemma store_pixel_guarded pix w h px py c :
  image pix w h ->
  exists pix',
    (if (px >=? 0) && (px <? w) && (py >=? 0) && (py <? h)
     then arr_store pix (py * w + px) c else Some pix) = Some pix' /\
    painted pix pix' w h c (fun xx yy => (yy =? py) && (xx =? px)).
Proof.
  intros Himg. rewrite !Z.geb_leb.
  destruct (Z.leb_spec 0 px), (Z.ltb_spec px w), (Z.leb_spec 0 py), (Z.ltb_spec py h);
    simpl;
    first [ apply store_pixel; [assumption|lia|lia]
          | exists pix; split; [reflexivity|];
            apply painted_refl; intros xx yy Hx Hy; zbool ].
Qed.

Lemma draw_glyph_row pix w h ox py bits c :
  image pix w h ->
  exists pix',
    for_range 0 5
      (fun col pix =>
         if negb (Z.land bits (Z.shiftl 1 (4 - col)) =? 0) then
           let px := ox + col in
           if (px >=? 0) && (px <? w) && (py >=? 0) && (py <? h)
           then arr_store pix (py * w + px) c
           else Some pix
         else Some pix)
      pix = Some pix' /\
    painted pix pix' w h c (row_dots bits ox py 5).
Proof.
  intros Himg.
  apply (for_range_inv (fun col p => painted pix p w h c (row_dots bits ox py col))).
  - lia.
  - apply painted_refl. intros xx yy _ _. unfold row_dots. zbool.
  - intros j p Hj Hp. rewrite land_bit by lia. rewrite negb_involutive.
    destruct (Z.testbit bits (4 - j)) eqn:Hbit.
    + cbv zeta.
      destruct (store_pixel_guarded p w h (ox + j) py c) as (p' & Hs & Hp').
      { eapply painted_image; eassumption. }
      exists p'. split; [exact Hs|].
      eapply painted_ext; [|exact (painted_trans _ _ _ _ _ _ _ _ Hp Hp')].
      intros xx yy Hx Hy. cbv beta. unfold row_dots.
      destruct (Z.eqb_spec xx (ox + j)) as [->|Hne].
      * replace (4 - (ox + j - ox)) with (4 - j) by lia. rewrite Hbit. zbool.
      * rewrite andb_false_r, orb_false_r.
        destruct (Z.testbit bits (4 - (xx - ox))); [|rewrite !andb_false_r; reflexivity].
        rewrite !andb_true_r. zbool.
    + exists p. split; [reflexivity|].
      eapply painted_ext; [|exact Hp].
      intros xx yy Hx Hy. unfold row_dots.
      destruct (Z.eqb_spec xx (ox + j)) as [->|Hne].
      * replace (4 - (ox + j - ox)) with (4 - j) by lia. rewrite Hbit.
        rewrite !andb_false_r. reflexivity.
      * destruct (Z.testbit bits (4 - (xx - ox))); [|rewrite !andb_false_r; reflexivity].
        rewrite !andb_true_r. zbool.
Qed.

Lemma draw_glyph_565_painted pix w h x y i ch c :
  image pix w h ->
  exists pix', draw_glyph_565 pix w h x y i ch c = Some pix' /\
               painted pix pix' w h c
                 (fun xx yy => glyph_dot ch (xx - (x + i * 6)) (yy - y)).
Proof.
  intros Himg. unfold draw_glyph_565. cbv zeta.
  set (ox := x + i * 6).
  destruct (for_range_inv
              (fun row p => painted pix p w h c
                              (fun xx yy => glyph_dots_above ch row (xx - ox) (yy - y)))
              (fun row pix =>
                 let? bits := glyph5x7 ch row in
                 for_range 0 5
                   (fun col pix =>
                      if negb (Z.land bits (Z.shiftl 1 (4 - col)) =? 0) then
                        if (ox + col >=? 0) && (ox + col <? w) && (y + row >=? 0) &&
                           (y + row <? h)
                        then arr_store pix ((y + row) * w + (ox + col)) c
                        else Some pix
                      else Some pix)
                   pix)
              0 7 pix) as (pix' & Hrun & Hinv).
  - lia.
  - apply painted_refl. intros xx yy _ _. unfold glyph_dots_above, glyph_dot. zbool.
  - intros j p Hj Hp. rewrite glyph5x7_row by lia.
    set (bits := match glyph_rows ch with
                 | Some g => nth (Z.to_nat j) g 0
                 | None => 0
                 end).
    destruct (draw_glyph_row p w h ox (y + j) bits c) as (p' & Hs & Hp').
    { eapply painted_image; eassumption. }
    exists p'. split; [exact Hs|].
    eapply painted_ext; [|exact (painted_trans _ _ _ _ _ _ _ _ Hp Hp')].
    intros xx yy Hx Hy. cbv beta. unfold glyph_dots_above, glyph_dot, row_dots.
    destruct (Z.eqb_spec yy (y + j)) as [->|Hne].
    + replace (y + j - y) with j by lia. subst bits.
      destruct (glyph_rows ch) as [g|]; [|rewrite Z.bits_0; zbool].
      destruct (Z.testbit (nth (Z.to_nat j) g 0) (4 - (xx - ox))); zbool.
    + simpl.
      destruct (Z.ltb_spec (yy - y) (j + 1)), (Z.ltb_spec (yy - y) j);
        try lia; simpl; try reflexivity.
      rewrite orb_false_r. reflexivity.
  - exists pix'. split; [exact Hrun|].
    eapply painted_ext; [|exact Hinv].
    intros xx yy Hx Hy. cbv beta. unfold glyph_dots_above, glyph_dot.
    destruct (Z.ltb_spec (yy - y) 7); simpl; [reflexivity|].
    rewrite andb_false_r. reflexivity.
Qed.

Lemma draw_text_from_painted s : forall i pix w h x y c,
  image pix w h ->
  exists pix', draw_text_from i s pix w h x y c = Some pix' /\
               painted pix pix' w h c (on_text s (x + i * 6) y).
Proof.
  induction s as [|ch s IH]; intros i pix w h x y c Himg; simpl.
  - exists pix. split; [reflexivity|]. apply painted_refl. reflexivity.
  - destruct (draw_glyph_565_painted pix w h x y i ch c Himg) as (p1 & -> & P1).
    destruct (IH (i + 1) p1 w h x y c (painted_image _ _ _ _ _ _ P1 Himg))
      as (p2 & -> & P2).
    exists p2. split; [reflexivity|].
    eapply painted_ext; [|exact (painted_trans _ _ _ _ _ _ _ _ P1 P2)].
    intros xx yy _ _. cbv beta.
    replace (x + (i + 1) * 6) with (x + i * 6 + 6) by lia. reflexivity.
Qed.

Lemma draw_cars_painted cars : forall pix w h,
  image pix w h ->
  exists pix', draw_cars cars pix w h = Some pix' /\
               painted pix pix' w h COLOR_YELLOW_565
                 (fun xx yy => existsb (fun b => on_rect b xx yy) cars).
Proof.
  induction cars as [|b cars IH]; intros pix w h Himg; simpl.
  - exists pix. split; [reflexivity|]. apply painted_refl. reflexivity.
  - destruct (draw_rect_565_painted pix w h b COLOR_YELLOW_565 Himg) as (p1 & -> & P1).
    destruct (IH p1 w h (painted_image _ _ _ _ _ _ P1 Himg)) as (p2 & -> & P2).
    exists p2. split; [reflexivity|].
    exact (painted_trans _ _ _ _ _ _ _ _ P1 P2).
Qed.

Lemma draw_plates_painted plates : forall pix w h,
  image pix w h ->
  exists pix', draw_plates plates pix w h = Some pix' /\
               painted pix pix' w h COLOR_CYAN_565
                 (fun xx yy => existsb (fun p => on_plate p xx yy) plates).
Proof.
  induction plates as [|p plates IH]; intros pix w h Himg; simpl.
  - exists pix. split; [reflexivity|]. apply painted_refl. reflexivity.
  - destruct (draw_rect_565_painted pix w h (plate_box p) COLOR_CYAN_565 Himg)
      as (p1 & -> & P1).
    pose proof (painted_image _ _ _ _ _ _ P1 Himg) as I1.
    unfold draw_text_565. fold (label_y (plate_box p)).
    destruct (draw_text_from_painted (plate_color_str (plate_color_of p)) 0 p1 w h
                (box_x1 (plate_box p)) (label_y (plate_box p)) COLOR_CYAN_565 I1)
      as (p2 & -> & P2).
    pose proof (painted_image _ _ _ _ _ _ P2 I1) as I2.
    destruct (IH p2 w h I2) as (p3 & -> & P3).
    exists p3. split; [reflexivity|].
    eapply painted_ext;
      [|exact (painted_trans _ _ _ _ _ _ _ _ (painted_trans _ _ _ _ _ _ _ _ P1 P2) P3)].
    intros xx yy _ _. cbv beta. unfold on_plate.
    rewrite Z.mul_0_l, Z.add_0_r. reflexivity.
Qed.

(** An image in which no pixel was painted is the image itself. *)
Lemma painted_nothing pix pix' w h c inside :
  image pix w h -> painted pix pix' w h c inside ->
  (forall xx yy, 0 <= xx < w -> 0 <= yy < h -> inside xx yy = false) -> pix' = pix.
Proof.
  intros (Hw & Hh & Hlen) (Hl & Hp) Hnone.
  apply list_eq. intros k.
  destruct (Nat.lt_ge_cases k (length pix)) as [Hk|Hk].
  2: { rewrite !lookup_ge_None_2 by lia. reflexivity. }
  assert (0 < w) as Hw' by nia.
  pose proof (Z.div_mod (Z.of_nat k) w ltac:(lia)) as Hdm.
  pose proof (Z.mod_pos_bound (Z.of_nat k) w Hw') as Hm.
  assert (0 <= Z.of_nat k / w < h) as Hd.
  { split; [apply Z.div_pos; lia|]. apply Z.div_lt_upper_bound; nia. }
  specialize (Hp _ _ Hm Hd). rewrite (Hnone _ _ Hm Hd) in Hp.
  unfold pixel_at, arr_load in Hp.
  replace (Z.of_nat k / w * w + Z.of_nat k mod w) with (Z.of_nat k) in Hp by lia.
  destruct (Z.leb_spec 0 (Z.of_nat k)); [|lia].
  rewrite Nat2Z.id in Hp. exact Hp.
Qed.

Lemma on_text_no_glyph s : forall x y xx yy,
  (forall ch, In ch (list_ascii_of_string s) -> glyph_rows ch = None) ->
  on_text s x y xx yy = false.
Proof.
  induction s as [|ch s IH]; intros x y xx yy H; simpl; [reflexivity|].
  rewrite IH by (intros ch' Hin; apply H; simpl; auto).
  unfold glyph_dot. rewrite (H ch) by (simpl; auto).
  rewrite !andb_false_r. reflexivity.
Qed.

(** [draw_hline_565] and [draw_vline_565] never store outside the
    image, whatever the coordinates: on an image of [w] by [h] pixels
    they return, having set to [c] exactly the pixels of the segment
    that lie in the image; the order of the two end points does not
    matter. *)
Theorem lines_are_clipped_to_the_image (pix : list Z) (w h a b1 b2 c : Z) :
  image pix w h ->
  (exists pix', draw_hline_565 pix w h b1 b2 a c = Some pix' /\
                painted pix pix' w h c (on_hline b1 b2 a)) /\
  (exists pix', draw_vline_565 pix w h a b1 b2 c = Some pix' /\
                painted pix pix' w h c (on_vline a b1 b2)) /\
  draw_hline_565 pix w h b2 b1 a c = draw_hline_565 pix w h b1 b2 a c /\
  draw_vline_565 pix w h a b2 b1 c = draw_vline_565 pix w h a b1 b2 c.
Proof.
  intros Himg. split; [|split; [|split]].
  - apply draw_hline_565_painted. exact Himg.
  - apply draw_vline_565_painted. exact Himg.
  - unfold draw_hline_565. rewrite !Z.gtb_ltb.
    destruct (Z.ltb_spec b1 b2), (Z.ltb_spec b2 b1); try reflexivity; try lia.
    replace b2 with b1 by lia. reflexivity.
  - unfold draw_vline_565. rewrite !Z.gtb_ltb.
    destruct (Z.ltb_spec b1 b2), (Z.ltb_spec b2 b1); try reflexivity; try lia.
    replace b2 with b1 by lia. reflexivity.
Qed.

Lemma lines_are_clipped_to_the_image_witness :
  (exists pix', draw_hline_565 (replicate 12 0) 4 3 7 (-2) 1 9 = Some pix' /\
                painted (replicate 12 0) pix' 4 3 9 (on_hline 7 (-2) 1)) /\
  (exists pix', draw_vline_565 (replicate 12 0) 4 3 1 7 (-2) 9 = Some pix' /\
                painted (replicate 12 0) pix' 4 3 9 (on_vline 1 7 (-2))) /\
  draw_hline_565 (replicate 12 0) 4 3 (-2) 7 1 9 = draw_hline_565 (replicate 12 0) 4 3 7 (-2) 1 9 /\
  draw_vline_565 (replicate 12 0) 4 3 1 (-2) 7 9 = draw_vline_565 (replicate 12 0) 4 3 1 7 (-2) 9.
Proof.
  apply (lines_are_clipped_to_the_image (replicate 12 0) 4 3 1 7 (-2) 9).
  unfold image. simpl. lia.
Defined.

(** X3. [draw_rect_565] never stores outside the image, whatever the
    box (inverted, degenerate or off the image): it returns, having
    set to [c] exactly the pixels of the image on the border of the
    box, which is two pixels wide. *)
Theorem rect_paints_the_clipped_border (pix : list Z) (w h : Z) (b : det_box) (c : Z) :
  image pix w h ->
  exists pix', draw_rect_565 pix w h b c = Some pix' /\
               painted pix pix' w h c (on_rect b).
Proof. apply draw_rect_565_painted. Qed.

Lemma rect_paints_the_clipped_border_witness :
  exists pix', draw_rect_565 (replicate 12 0) 4 3 (mk_box 2 (-5) 9 1 0) 7 = Some pix' /\
               painted (replicate 12 0) pix' 4 3 7 (on_rect (mk_box 2 (-5) 9 1 0)).
Proof.
  apply (rect_paints_the_clipped_border (replicate 12 0) 4 3 (mk_box 2 (-5) 9 1 0) 7).
  unfold image. simpl. lia.
Defined.

(** X4. [draw_text_565] never stores outside the image, wherever the
    text is put: it returns, having set to [c] exactly the pixels of
    the image under a dot of a glyph, the glyphs standing 6 columns
    apart; a text made of characters without a glyph leaves the image
    as it was. *)
Theorem text_paints_the_clipped_glyphs (pix : list Z) (w h x y : Z) (s : string) (c : Z) :
  image pix w h ->
  exists pix', draw_text_565 pix w h x y s c = Some pix' /\
               painted pix pix' w h c (on_text s x y) /\
               ((forall ch, In ch (list_ascii_of_string s) -> glyph_rows ch = None) ->
                pix' = pix).
Proof.
  intros Himg. unfold draw_text_565.
  destruct (draw_text_from_painted s 0 pix w h x y c Himg) as (pix' & Hrun & Hp).
  rewrite Z.mul_0_l, Z.add_0_r in Hp.
  exists pix'. split; [exact Hrun|]. split; [exact Hp|].
  intros Hnone. eapply painted_nothing; [exact Himg|exact Hp|].
  intros xx yy _ _. apply on_text_no_glyph. exact Hnone.
Qed.

Lemma text_paints_the_clipped_glyphs_witness :
  exists pix', draw_text_565 (replicate 12 0) 4 3 (-2) (-3) "UNK" 7 = Some pix' /\
               painted (replicate 12 0) pix' 4 3 7 (on_text "UNK" (-2) (-3)) /\
               ((forall ch, In ch (list_ascii_of_string "UNK") -> glyph_rows ch = None) ->
                pix' = replicate 12 0).
Proof.
  apply (text_paints_the_clipped_glyphs (replicate 12 0) 4 3 (-2) (-3) "UNK" 7).
  unfold image. simpl. lia.
Defined.

(** X5. The drawing loops of [overlay_results_on_slot] never store
    outside the image, whatever boxes the results hold.  Afterwards a
    pixel is cyan if it lies on the border or the label of a plate,
    else yellow if it lies on the border of a car, else what it was:
    plates are drawn over cars.  The label of a plate starts at the
    left edge of its box, ten rows above it, or two rows below its
    top edge when that would be above the image. *)
Theorem overlay_draws_plates_over_cars (r : lpr_results) (pix : list Z) (w h : Z) :
  image pix w h ->
  exists pix',
    overlay_pixels r pix w h = Some pix' /\
    length pix' = length pix /\
    forall xx yy, 0 <= xx < w -> 0 <= yy < h ->
      pixel_at pix' w xx yy =
        if existsb (fun p => on_plate p xx yy) (res_plates r) then Some COLOR_CYAN_565
        else if existsb (fun b => on_rect b xx yy) (res_cars r) then Some COLOR_YELLOW_565
        else pixel_at pix w xx yy.
Proof.
  intros Himg. unfold overlay_pixels.
  destruct (draw_cars_painted (res_cars r) pix w h Himg) as (p1 & -> & P1).
  destruct (draw_plates_painted (res_plates r) p1 w h (painted_image _ _ _ _ _ _ P1 Himg))
    as (p2 & -> & P2).
  exists p2. split; [reflexivity|].
  destruct P1 as (L1 & Q1), P2 as (L2 & Q2).
  split; [congruence|].
  intros xx yy Hx Hy. rewrite Q2, Q1 by assumption. reflexivity.
Qed.

Lemma overlay_draws_plates_over_cars_witness :
  exists pix',
    overlay_pixels
      (mk_results [mk_box 0 0 3 2 2]
         [mk_plate (mk_box 1 1 2 1 0) PLATE_COLOR_BLUE 0])
      (replicate 12 0) 4 3 = Some pix' /\
    length pix' = length (replicate 12 0) /\
    forall xx yy, 0 <= xx < 4 -> 0 <= yy < 3 ->
      pixel_at pix' 4 xx yy =
        if existsb (fun p => on_plate p xx yy)
             (res_plates (mk_results [mk_box 0 0 3 2 2]
                            [mk_plate (mk_box 1 1 2 1 0) PLATE_COLOR_BLUE 0]))
        then Some COLOR_CYAN_565
        else if existsb (fun b => on_rect b xx yy)
                  (res_cars (mk_results [mk_box 0 0 3 2 2]
                               [mk_plate (mk_box 1 1 2 1 0) PLATE_COLOR_BLUE 0]))
        then Some COLOR_YELLOW_565
        else pixel_at (replicate 12 0) 4 xx yy.
Proof.
  apply (overlay_draws_plates_over_cars
           (mk_results [mk_box 0 0 3 2 2]
              [mk_plate (mk_box 1 1 2 1 0) PLATE_COLOR_BLUE 0])
           (replicate 12 0) 4 3).
  unfold image. simpl. lia.
Defined.

(** ** Pixel decoding *)

Lemma forallb_seqZ (f : Z -> bool) m n x :
  forallb f (seqZ m n) = true -> m <= x < m + n -> f x = true.
Proof.
  intros H Hx. rewrite forallb_forall in H. apply H.
  apply list_elem_of_In. apply elem_of_seqZ. exact Hx.
Qed.

Lemma widen5_back v : 0 <= v < 32 -> 0 <= widen5 v <= 255 /\ widen5 v / 8 = v.
Proof.
  intros Hv.
  assert (forallb (fun v => is_byte (widen5 v) && (widen5 v / 8 =? v)) (seqZ 0 32) = true)
    as H by (vm_compute; reflexivity).
  apply (forallb_seqZ _ 0 32 v) in H; [|lia].
  apply andb_prop in H as (Hb & He). apply Z.eqb_eq in He.
  unfold is_byte in Hb. apply andb_prop in Hb as (H0 & H1). lia.
Qed.

Lemma widen6_back v : 0 <= v < 64 -> 0 <= widen6 v <= 255 /\ widen6 v / 4 = v.
Proof.
  intros Hv.
  assert (forallb (fun v => is_byte (widen6 v) && (widen6 v / 4 =? v)) (seqZ 0 64) = true)
    as H by (vm_compute; reflexivity).
  apply (forallb_seqZ _ 0 64 v) in H; [|lia].
  apply andb_prop in H as (Hb & He). apply Z.eqb_eq in He.
  unfold is_byte in Hb. apply andb_prop in Hb as (H0 & H1). lia.
Qed.

(** The 16-bit pixel made of two bytes. *)
Lemma pixel_of_bytes lo hi :
  0 <= lo < 256 -> 0 <= hi < 256 -> u16 (Z.lor lo (Z.shiftl hi 8)) = lo + 256 * hi.
Proof.
  intros Hlo Hhi.
  assert (Z.land lo (Z.shiftl hi 8) = 0) as Hdis.
  { apply Z.bits_inj'. intros n Hn. rewrite Z.land_spec, Z.bits_0.
    destruct (Z_lt_ge_dec n 8).
    - rewrite Z.shiftl_spec by lia. rewrite (Z.testbit_neg_r hi) by lia.
      apply andb_false_r.
    - destruct (Z.eq_dec lo 0) as [->|Hnz]; [rewrite Z.bits_0; reflexivity|].
      rewrite (Z.bits_above_log2 lo n); [reflexivity|lia|].
      assert (Z.log2 lo < 8); [|lia]. apply Z.log2_lt_pow2; lia. }
  pose proof (Z.add_lor_land lo (Z.shiftl hi 8)) as H. rewrite Hdis in H.
  rewrite Z.shiftl_mul_pow2 in H by lia.
  unfold u16. rewrite Z.shiftl_mul_pow2 by lia.
  replace (Z.lor lo (hi * 2 ^ 8)) with (lo + 256 * hi) by lia.
  apply Z.mod_small. lia.
Qed.

Lemma pixel_fields pix :
  0 <= pix < 65536 ->
  u8 (Z.land pix 0x1F) = pix mod 32 /\
  u8 (Z.land (Z.shiftr pix 5) 0x3F) = (pix / 32) mod 64 /\
  u8 (Z.land (Z.shiftr pix 11) 0x1F) = pix / 2048.
Proof.
  intros Hp. unfold u8.
  change 0x1F with (Z.ones 5). change 0x3F with (Z.ones 6).
  rewrite !Z.land_ones, !Z.shiftr_div_pow2 by lia.
  change (2 ^ 5) with 32. change (2 ^ 6) with 64. change (2 ^ 11) with 2048.
  change (2 ^ 8) with 256.
  assert (0 <= pix / 2048 < 32) by (split; [apply Z.div_pos|apply Z.div_lt_upper_bound]; lia).
  pose proof (Z.mod_pos_bound pix 32 ltac:(lia)).
  pose proof (Z.mod_pos_bound (pix / 32) 64 ltac:(lia)).
  rewrite (Z.mod_small (pix / 2048) 32) by lia.
  rewrite !(Z.mod_small _ 256) by lia. auto.
Qed.

Lemma pixel_fields_sum pix :
  0 <= pix < 65536 -> pix mod 32 + 32 * ((pix / 32) mod 64) + 2048 * (pix / 2048) = pix.
Proof.
  intros Hp.
  pose proof (Z.div_mod pix 32 ltac:(lia)).
  pose proof (Z.div_mod (pix / 32) 64 ltac:(lia)).
  assert (pix / 32 / 64 = pix / 2048) as E by (rewrite Z.div_div by lia; reflexivity).
  lia.
Qed.

Lemma decode_pixel565_eq (s : bool) (o : pixel_order) lo hi :
  0 <= lo < 256 -> 0 <= hi < 256 ->
  let pix := if s then hi + 256 * lo else lo + 256 * hi in
  decode_pixel565 s o lo hi =
    match o with
    | PIXEL_ORDER_BGR565 =>
        (widen5 (pix mod 32), widen6 ((pix / 32) mod 64), widen5 (pix / 2048))
    | PIXEL_ORDER_RGB565 =>
        (widen5 (pix / 2048), widen6 ((pix / 32) mod 64), widen5 (pix mod 32))
    end.
Proof.
  intros Hlo Hhi pix. unfold decode_pixel565.
  assert (u16 (Z.lor (if s then hi else lo) (Z.shiftl (if s then lo else hi) 8)) = pix) as ->.
  { subst pix. destruct s; apply pixel_of_bytes; assumption. }
  assert (0 <= pix < 65536) as Hp by (subst pix; destruct s; lia).
  destruct (pixel_fields pix Hp) as (E1 & E2 & E3).
  destruct o; rewrite E1, E2, E3; reflexivity.
Qed.

Lemma decode_pixel565_bytes_back s o lo hi :
  0 <= lo < 256 -> 0 <= hi < 256 ->
  pixel565_bytes s o (decode_pixel565 s o lo hi) = (lo, hi).
Proof.
  intros Hlo Hhi. rewrite decode_pixel565_eq by assumption. cbv zeta.
  set (pix := if s then hi + 256 * lo else lo + 256 * hi).
  assert (0 <= pix < 65536) as Hp by (subst pix; destruct s; lia).
  assert (0 <= pix / 2048 < 32) as H3
    by (split; [apply Z.div_pos|apply Z.div_lt_upper_bound]; lia).
  pose proof (Z.mod_pos_bound pix 32 ltac:(lia)) as H1.
  pose proof (Z.mod_pos_bound (pix / 32) 64 ltac:(lia)) as H2.
  destruct (widen5_back _ H1) as (_ & B1), (widen6_back _ H2) as (_ & B2),
    (widen5_back _ H3) as (_ & B3).
  pose proof (pixel_fields_sum pix Hp) as Hsum.
  assert (pix mod 256 = (if s then hi else lo) /\ pix / 256 = (if s then lo else hi))
    as (Em & Ed).
  { subst pix. destruct s.
    - split; [symmetry; apply Z.mod_unique_pos with (q := lo); lia|].
      symmetry. apply Z.div_unique_pos with (r := hi); lia.
    - split; [symmetry; apply Z.mod_unique_pos with (q := hi); lia|].
      symmetry. apply Z.div_unique_pos with (r := lo); lia. }
  unfold pixel565_bytes.
  destruct o; rewrite B1, B2, B3.
  - rewrite Hsum, Em, Ed. destruct s; reflexivity.
  - rewrite Hsum, Em, Ed. destruct s; reflexivity.
Qed.

(** X1. [decode_pixel565] loses nothing: on bytes, each channel it
    returns is a byte, two byte pairs that decode to the same colour
    are the same pair, and the all-zeros and all-ones pixels decode to
    black and to white. *)
Theorem decode_pixel565_is_lossless (s : bool) (o : pixel_order) (lo hi lo' hi' : Z) :
  0 <= lo < 256 -> 0 <= hi < 256 -> 0 <= lo' < 256 -> 0 <= hi' < 256 ->
  (let '(r, g, b) := decode_pixel565 s o lo hi in
   0 <= r <= 255 /\ 0 <= g <= 255 /\ 0 <= b <= 255) /\
  (decode_pixel565 s o lo hi = decode_pixel565 s o lo' hi' -> lo = lo' /\ hi = hi') /\
  decode_pixel565 s o 0 0 = (0, 0, 0) /\
  decode_pixel565 s o 255 255 = (255, 255, 255).
Proof.
  intros Hlo Hhi Hlo' Hhi'. split; [|split; [|split]].
  - rewrite decode_pixel565_eq by assumption. cbv zeta.
    set (pix := if s then hi + 256 * lo else lo + 256 * hi).
    assert (0 <= pix < 65536) as Hp by (subst pix; destruct s; lia).
    assert (0 <= pix / 2048 < 32) as H3
      by (split; [apply Z.div_pos|apply Z.div_lt_upper_bound]; lia).
    pose proof (Z.mod_pos_bound pix 32 ltac:(lia)) as H1.
    pose proof (Z.mod_pos_bound (pix / 32) 64 ltac:(lia)) as H2.
    destruct (widen5_back _ H1) as (B1 & _), (widen6_back _ H2) as (B2 & _),
      (widen5_back _ H3) as (B3 & _).
    destruct o; auto.
  - intros E.
    pose proof (decode_pixel565_bytes_back s o lo hi Hlo Hhi) as B.
    pose proof (decode_pixel565_bytes_back s o lo' hi' Hlo' Hhi') as B'.
    rewrite E, B' in B. injection B as -> ->. auto.
  - destruct s, o; reflexivity.
  - destruct s, o; reflexivity.
Qed.

Lemma decode_pixel565_is_lossless_witness :
  (let '(r, g, b) := decode_pixel565 true PIXEL_ORDER_BGR565 0x12 0x34 in
   0 <= r <= 255 /\ 0 <= g <= 255 /\ 0 <= b <= 255) /\
  (decode_pixel565 true PIXEL_ORDER_BGR565 0x12 0x34 =
   decode_pixel565 true PIXEL_ORDER_BGR565 0x12 0x35 -> 0x12 = 0x12 /\ 0x34 = 0x35) /\
  decode_pixel565 true PIXEL_ORDER_BGR565 0 0 = (0, 0, 0) /\
  decode_pixel565 true PIXEL_ORDER_BGR565 255 255 = (255, 255, 255).
Proof.
  apply (decode_pixel565_is_lossless true PIXEL_ORDER_BGR565 0x12 0x34 0x12 0x35); lia.
Defined.

(** ** The copy into a slot *)

Lemma list_pair_ind (P : list Z -> Prop) :
  P [] -> (forall a, P [a]) -> (forall a b l, P l -> P (a :: b :: l)) -> forall l, P l.
Proof.
  intros H0 H1 H2 l.
  assert (P l /\ forall a, P (a :: l)) as (H & _); [|exact H].
  induction l as [|b l (IH & IH')]; split; auto.
Qed.

Lemma swap16_bytes_length l : length (swap16_bytes l) = (2 * (length l / 2))%nat.
Proof.
  induction l as [|a|a b l IH] using list_pair_ind; [reflexivity|reflexivity|].
  cbn [swap16_bytes length]. rewrite IH.
  change (S (S (length l))) with (2 + length l)%nat.
  replace (2 + length l)%nat with (length l + 1 * 2)%nat by lia.
  rewrite Nat.div_add by lia. lia.
Qed.

Lemma swap16_bytes_lookup l : forall k,
  (2 * k + 1 < length l)%nat ->
  swap16_bytes l !! (2 * k)%nat = l !! (2 * k + 1)%nat /\
  swap16_bytes l !! (2 * k + 1)%nat = l !! (2 * k)%nat.
Proof.
  induction l as [|a|a b l IH] using list_pair_ind; intros k Hk; simpl in Hk; [lia|lia|].
  destruct k as [|k].
  - simpl. auto.
  - replace (2 * S k)%nat with (S (S (2 * k))) by lia.
    replace (S (S (2 * k)) + 1)%nat with (S (S (2 * k + 1))) by lia.
    cbn [swap16_bytes]. simpl lookup. apply IH. lia.
Qed.

Lemma copy_frame_to_slot565_eq i src c s :
  slot_at c i = Some s ->
  copy_frame_to_slot565 i src c =
    Done tt
      (set_slots (<[Z.to_nat i := with_data (copied_frame c src (slot_data s)) s]> (slots c)) c)
      [EvSlotRead i f_data; EvSlotWrite i f_data].
Proof.
  intros H. unfold copy_frame_to_slot565, copied_frame, bind, gets, load_slot, store_slot.
  rewrite H. destruct (opt_swap16 c); rewrite H; reflexivity.
Qed.

Lemma copied_frame_length c src dst :
  Z.of_nat (length dst) = frame_size c -> frame_size c <= Z.of_nat (length src) ->
  length (copied_frame c src dst) = length dst.
Proof.
  intros Hd Hs. unfold copied_frame, memcpy.
  destruct (opt_swap16 c); cbv zeta; rewrite length_app, length_drop.
  - rewrite swap16_bytes_length, length_take.
    match goal with
    | |- context [(?m / 2)%nat] =>
        pose proof (Nat.div_mod_eq m 2); assert (m = length dst) by lia
    end.
    lia.
  - rewrite length_take. lia.
Qed.

Lemma copied_frame_pixel c src dst (k : nat) :
  Z.of_nat (length dst) = frame_size c -> frame_size c <= Z.of_nat (length src) ->
  (2 * k + 1 < length dst)%nat ->
  exists lo hi,
    src !! (2 * k)%nat = Some lo /\ src !! (2 * k + 1)%nat = Some hi /\
    copied_frame c src dst !! (2 * k)%nat = Some (if opt_swap16 c then hi else lo) /\
    copied_frame c src dst !! (2 * k + 1)%nat = Some (if opt_swap16 c then lo else hi).
Proof.
  intros Hd Hs Hk.
  destruct (lookup_lt_is_Some_2 src (2 * k)) as (lo & Hlo); [lia|].
  destruct (lookup_lt_is_Some_2 src (2 * k + 1)) as (hi & Hhi); [lia|].
  exists lo, hi. split; [exact Hlo|]. split; [exact Hhi|].
  assert (Z.to_nat (frame_size c) = length dst) as Hn by lia.
  unfold copied_frame, memcpy. rewrite Hn.
  assert (length (take (length dst) src) = length dst) as Ht by (rewrite length_take; lia).
  destruct (opt_swap16 c); cbv zeta.
  - assert (2 * k + 1 < length (swap16_bytes (take (length dst) src)))%nat as Hsw.
    { rewrite swap16_bytes_length, Ht.
      pose proof (Nat.div_mod_eq (length dst) 2).
      pose proof (Nat.mod_upper_bound (length dst) 2). lia. }
    rewrite !lookup_app_l by lia.
    destruct (swap16_bytes_lookup (take (length dst) src) k ltac:(lia)) as (E0 & E1).
    rewrite E0, E1, !lookup_take_lt by lia. auto.
  - rewrite !lookup_app_l by lia. rewrite !lookup_take_lt by lia. auto.
Qed.

(** X2. The display and the worker read the same pixels.  After
    [copy_frame_to_slot565], pixel [k] of the slot, taken as the two
    bytes in memory order (what the sink is handed), decodes to the
    colour that [decode_pixel565] gives the worker for the raw frame
    under the [swap16] option, whichever way the option is set; the
    slot keeps its size. *)
Theorem display_and_worker_read_the_same_pixel
    (c : app_ctx) (i : Z) (src : list Z) (o : pixel_order) (s : frame_slot) (k : Z) :
  slot_at c i = Some s ->
  Z.of_nat (length (slot_data s)) = frame_size c ->
  frame_size c <= Z.of_nat (length src) ->
  0 <= k -> 2 * k + 1 < frame_size c ->
  exists c' s' lo hi lo' hi',
    outcome_ctx (copy_frame_to_slot565 i src c) = Some c' /\
    slot_at c' i = Some s' /\
    length (slot_data s') = length (slot_data s) /\
    arr_load src (2 * k) = Some lo /\ arr_load src (2 * k + 1) = Some hi /\
    arr_load (slot_data s') (2 * k) = Some lo' /\
    arr_load (slot_data s') (2 * k + 1) = Some hi' /\
    decode_pixel565 false o lo' hi' = decode_pixel565 (opt_swap16 c) o lo hi.
Proof.
  intros Hs Hd Hsrc Hk0 Hk.
  rewrite (copy_frame_to_slot565_eq i src c s Hs).
  destruct (copied_frame_pixel c src (slot_data s) (Z.to_nat k) Hd Hsrc ltac:(lia))
    as (lo & hi & Hlo & Hhi & H0 & H1).
  eexists _, _, lo, hi, _, _.
  split; [reflexivity|].
  split; [apply (slot_at_set_same c i s _ Hs)|].
  split; [apply copied_frame_length; assumption|].
  unfold arr_load.
  destruct (Z.leb_spec 0 (2 * k)); [|lia]. destruct (Z.leb_spec 0 (2 * k + 1)); [|lia].
  replace (Z.to_nat (2 * k)) with (2 * Z.to_nat k)%nat by lia.
  replace (Z.to_nat (2 * k + 1)) with (2 * Z.to_nat k + 1)%nat by lia.
  cbn [slot_data with_data].
  split; [exact Hlo|]. split; [exact Hhi|]. split; [exact H0|]. split; [exact H1|].
  unfold decode_pixel565. destruct (opt_swap16 c); reflexivity.
Qed.

Lemma display_and_worker_read_the_same_pixel_witness :
  exists c' s' lo hi lo' hi',
    outcome_ctx (copy_frame_to_slot565 0 [1; 2; 3; 4; 5; 6; 7; 8]
                   (set_slots [mk_slot (replicate 8 0) true 1] busy_pool)) = Some c' /\
    slot_at c' 0 = Some s' /\
    length (slot_data s') = length (slot_data (mk_slot (replicate 8 0) true 1)) /\
    arr_load [1; 2; 3; 4; 5; 6; 7; 8] (2 * 1) = Some lo /\
    arr_load [1; 2; 3; 4; 5; 6; 7; 8] (2 * 1 + 1) = Some hi /\
    arr_load (slot_data s') (2 * 1) = Some lo' /\
    arr_load (slot_data s') (2 * 1 + 1) = Some hi' /\
    decode_pixel565 false PIXEL_ORDER_BGR565 lo' hi' =
      decode_pixel565 (opt_swap16 (set_slots [mk_slot (replicate 8 0) true 1] busy_pool))
        PIXEL_ORDER_BGR565 lo hi.
Proof.
  apply (display_and_worker_read_the_same_pixel
           (set_slots [mk_slot (replicate 8 0) true 1] busy_pool) 0
           [1; 2; 3; 4; 5; 6; 7; 8] PIXEL_ORDER_BGR565
           (mk_slot (replicate 8 0) true 1) 1);
    first [reflexivity | simpl; lia].
Defined.

(** ** The conversions of the worker *)

Lemma store3 a q v0 v1 v2 :
  0 <= q -> q + 2 < Z.of_nat (length a) ->
  exists a',
    (let? a1 := arr_store a q v0 in
     let? a2 := arr_store a1 (q + 1) v1 in
     arr_store a2 (q + 2) v2) = Some a' /\
    length a' = length a /\
    forall k, arr_load a' k =
              if k =? q then Some v0
              else if k =? q + 1 then Some v1
              else if k =? q + 2 then Some v2
              else arr_load a k.
Proof.
  intros Hq Hlen.
  destruct (arr_store a q v0) as [a1|] eqn:E1.
  2: { rewrite arr_store_Some in E1 by lia. discriminate. }
  pose proof (arr_store_length _ _ _ _ E1) as L1.
  destruct (arr_store a1 (q + 1) v1) as [a2|] eqn:E2.
  2: { rewrite arr_store_Some in E2 by lia. discriminate. }
  pose proof (arr_store_length _ _ _ _ E2) as L2.
  destruct (arr_store a2 (q + 2) v2) as [a3|] eqn:E3.
  2: { rewrite arr_store_Some in E3 by lia. discriminate. }
  pose proof (arr_store_length _ _ _ _ E3) as L3.
  exists a3. split; [reflexivity|]. split; [congruence|].
  intros k.
  rewrite (arr_load_store _ _ _ _ k E3), (arr_load_store _ _ _ _ k E2),
    (arr_load_store _ _ _ _ k E1).
  destruct (Z.eqb_spec k q), (Z.eqb_spec k (q + 1)), (Z.eqb_spec k (q + 2));
    try reflexivity; lia.
Qed.

Lemma rgb_at_store3 a a' j v0 v1 v2 :
  (forall k, arr_load a' k =
             if k =? j * 3 then Some v0
             else if k =? j * 3 + 1 then Some v1
             else if k =? j * 3 + 2 then Some v2
             else arr_load a k) ->
  rgb_at a' j (v0, v1, v2) /\
  (forall i v, i <> j -> rgb_at a i v -> rgb_at a' i v) /\
  (forall k, (j + 1) * 3 <= k -> arr_load a' k = arr_load a k).
Proof.
  intros H. split; [|split].
  - unfold rgb_at. rewrite !H. simpl.
    rewrite Z.eqb_refl.
    destruct (Z.eqb_spec (j * 3 + 1) (j * 3)); [lia|]. rewrite Z.eqb_refl.
    destruct (Z.eqb_spec (j * 3 + 2) (j * 3)); [lia|].
    destruct (Z.eqb_spec (j * 3 + 2) (j * 3 + 1)); [lia|]. rewrite Z.eqb_refl. auto.
  - intros i v Hne (A0 & A1 & A2). unfold rgb_at. rewrite !H.
    repeat match goal with
           | |- context [?a =? ?b] => destruct (Z.eqb_spec a b); [lia|]
           end.
    auto.
  - intros k Hk. rewrite H.
    repeat match goal with
           | |- context [?a =? ?b] => destruct (Z.eqb_spec a b); [lia|]
           end.
    reflexivity.
Qed.

(** X6. [raw565_to_rgb888_full] reads and stores inside its buffers
    when the raw frame has two bytes and the destination three bytes
    for each of the [frame_width * frame_height] pixels: it returns,
    pixel [i] of the destination holds what [decode_pixel565] makes of
    bytes [2 i] and [2 i + 1] of the frame, and the bytes after the
    last pixel are left alone. *)
Theorem raw565_conversion_decodes_every_pixel
    (s : bool) (o : pixel_order) (fw fh : Z) (raw rgb : list Z) :
  0 <= fw -> 0 <= fh ->
  2 * (fw * fh) <= Z.of_nat (length raw) ->
  3 * (fw * fh) <= Z.of_nat (length rgb) ->
  exists rgb',
    raw565_to_rgb888_full s o fw fh raw rgb = Some rgb' /\
    length rgb' = length rgb /\
    (forall i, 0 <= i < fw * fh ->
       exists lo hi, arr_load raw (i * 2) = Some lo /\ arr_load raw (i * 2 + 1) = Some hi /\
                     rgb_at rgb' i (decode_pixel565 s o lo hi)) /\
    (forall k, 3 * (fw * fh) <= k -> arr_load rgb' k = arr_load rgb k).
Proof.
  intros Hw Hh Hraw Hrgb. unfold raw565_to_rgb888_full. cbv zeta.
  assert (0 <= fw * fh) as Hn by nia.
  destruct (for_range_inv
              (fun n p =>
                 length p = length rgb /\
                 (forall i, 0 <= i < n ->
                    exists lo hi, arr_load raw (i * 2) = Some lo /\
                                  arr_load raw (i * 2 + 1) = Some hi /\
                                  rgb_at p i (decode_pixel565 s o lo hi)) /\
                 (forall k, 3 * n <= k -> arr_load p k = arr_load rgb k))
              (fun i rgb =>
                 let? lo := arr_load raw (i * 2) in
                 let? hi := arr_load raw (i * 2 + 1) in
                 let '(r, g, b) := decode_pixel565 s o lo hi in
                 let? rgb := arr_store rgb (i * 3 + 0) r in
                 let? rgb := arr_store rgb (i * 3 + 1) g in
                 arr_store rgb (i * 3 + 2) b)
              0 (fw * fh) rgb) as (rgb' & Hrun & Hl & Hpix & Hrest).
  - exact Hn.
  - split; [reflexivity|]. split; [intros i Hi; lia|reflexivity].
  - intros j p Hj (Hl & Hpix & Hrest).
    destruct (arr_load_Some raw (j * 2) ltac:(lia)) as (lo & Hlo).
    destruct (arr_load_Some raw (j * 2 + 1) ltac:(lia)) as (hi & Hhi).
    rewrite Hlo, Hhi.
    destruct (decode_pixel565 s o lo hi) as [[r g] b] eqn:Hdec.
    rewrite Z.add_0_r.
    destruct (store3 p (j * 3) r g b ltac:(lia) ltac:(lia)) as (p' & Hs & Hl' & Hp').
    exists p'. split; [exact Hs|].
    destruct (rgb_at_store3 p p' j r g b Hp') as (Hnew & Hold & Hafter).
    split; [congruence|]. split.
    + intros i Hi. destruct (Z.eq_dec i j) as [->|Hne].
      * exists lo, hi. rewrite Hdec. auto.
      * destruct (Hpix i ltac:(lia)) as (lo' & hi' & A & B & C).
        exists lo', hi'. auto.
    + intros k Hk. rewrite Hafter by lia. apply Hrest. lia.
  - exists rgb'. auto.
Qed.

Lemma raw565_conversion_decodes_every_pixel_witness :
  exists rgb',
    raw565_to_rgb888_full true PIXEL_ORDER_BGR565 2 1 [0x12; 0x34; 0x56; 0x78]
      (replicate 7 0) = Some rgb' /\
    length rgb' = length (replicate 7 0) /\
    (forall i, 0 <= i < 2 * 1 ->
       exists lo hi, arr_load [0x12; 0x34; 0x56; 0x78] (i * 2) = Some lo /\
                     arr_load [0x12; 0x34; 0x56; 0x78] (i * 2 + 1) = Some hi /\
                     rgb_at rgb' i (decode_pixel565 true PIXEL_ORDER_BGR565 lo hi)) /\
    (forall k, 3 * (2 * 1) <= k -> arr_load rgb' k = arr_load (replicate 7 0) k).
Proof.
  apply (raw565_conversion_decodes_every_pixel true PIXEL_ORDER_BGR565 2 1
           [0x12; 0x34; 0x56; 0x78] (replicate 7 0)); simpl; lia.
Defined.

Lemma rgb_at_Some a j :
  0 <= j -> j * 3 + 2 < Z.of_nat (length a) -> exists v, rgb_at a j v.
Proof.
  intros Hj Hlen.
  destruct (arr_load_Some a (j * 3) ltac:(lia)) as (v0 & H0).
  destruct (arr_load_Some a (j * 3 + 1) ltac:(lia)) as (v1 & H1).
  destruct (arr_load_Some a (j * 3 + 2) ltac:(lia)) as (v2 & H2).
  exists (v0, v1, v2). unfold rgb_at. auto.
Qed.

Lemma nn_coordinate a s d : 0 <= a < d -> 0 < s -> 0 <= a * s / d < s.
Proof.
  intros Ha Hs. split.
  - apply Z.div_pos; nia.
  - apply Z.div_lt_upper_bound; nia.
Qed.

Lemma nn_source_at sw sh dw dh x y :
  0 <= x < dw -> 0 <= y -> 0 < sw -> 0 < sh -> 0 < dh ->
  nn_source sw sh dw dh (y * dw + x) = y * sh / dh * sw + x * sw / dw.
Proof.
  intros Hx Hy Hsw Hsh Hdh. unfold nn_source.
  assert ((y * dw + x) / dw = y) as ->.
  { symmetry. apply Z.div_unique_pos with (r := x); lia. }
  assert ((y * dw + x) mod dw = x) as ->.
  { symmetry. apply Z.mod_unique_pos with (q := y); lia. }
  rewrite !Z.quot_div_nonneg by nia. reflexivity.
Qed.

(** The state of the destination when [n] pixels have been stored. *)
Lemma resize_rgb888_nn_pixels src sw sh dst dw dh :
  0 < sw -> 0 < sh -> 0 <= dw -> 0 <= dh ->
  sw * sh * 3 <= Z.of_nat (length src) ->
  dw * dh * 3 <= Z.of_nat (length dst) ->
  exists dst',
    resize_rgb888_nn src sw sh dst dw dh = Some dst' /\
    length dst' = length dst /\
    (forall j, 0 <= j < dh * dw ->
       exists v, rgb_at src (nn_source sw sh dw dh j) v /\ rgb_at dst' j v) /\
    (forall k, dh * dw * 3 <= k -> arr_load dst' k = arr_load dst k).
Proof.
  intros Hsw Hsh Hdw Hdh Hsrc Hdst. unfold resize_rgb888_nn.
  set (Inv := fun (n : Z) (p : list Z) =>
                length p = length dst /\
                (forall j, 0 <= j < n ->
                   exists v, rgb_at src (nn_source sw sh dw dh j) v /\ rgb_at p j v) /\
                (forall k, n * 3 <= k -> arr_load p k = arr_load dst k)).
  destruct (for_range_inv (fun y p => Inv (y * dw) p)
              (fun y dst =>
                 let sy := Z.quot (y * sh) dh in
                 for_range 0 dw
                   (fun x dst =>
                      let sx := Z.quot (x * sw) dw in
                      let p := (sy * sw + sx) * 3 in
                      let q := (y * dw + x) * 3 in
                      let? v := arr_load src p in
                      let? dst := arr_store dst q v in
                      let? v := arr_load src (p + 1) in
                      let? dst := arr_store dst (q + 1) v in
                      let? v := arr_load src (p + 2) in
                      arr_store dst (q + 2) v)
                   dst)
              0 dh dst) as (dst' & Hrun & Hinv).
  - exact Hdh.
  - split; [reflexivity|]. split; [intros j Hj; lia|reflexivity].
  - intros y p Hy Hp. cbv zeta.
    replace ((y + 1) * dw) with (y * dw + dw) by lia.
    apply (for_range_inv (fun x p => Inv (y * dw + x) p)).
    + exact Hdw.
    + rewrite Z.add_0_r. exact Hp.
    + intros x p' Hx (Hl & Hpix & Hrest).
      assert (0 < dh) as Hdh' by lia.
      pose proof (nn_source_at sw sh dw dh x y Hx ltac:(lia) Hsw Hsh Hdh') as Hsrc_at.
      pose proof (nn_coordinate x sw dw Hx Hsw) as Hsx.
      pose proof (nn_coordinate y sh dh Hy Hsh) as Hsy.
      rewrite !Z.quot_div_nonneg by nia.
      set (sp := y * sh / dh * sw + x * sw / dw) in *.
      assert (0 <= sp /\ sp * 3 + 2 < Z.of_nat (length src)) as (Hsp0 & Hsp1).
      { subst sp. split; [nia|].
        assert (y * sh / dh * sw + x * sw / dw + 1 <= sh * sw); [|lia].
        assert (y * sh / dh + 1 <= sh) by lia. nia. }
      destruct (rgb_at_Some src sp Hsp0 Hsp1) as ([[v0 v1] v2] & Hv).
      pose proof Hv as (A0 & A1 & A2). simpl in A0, A1, A2.
      rewrite A0, A1, A2. cbv beta iota.
      assert (0 <= y * dw + x /\ (y * dw + x) * 3 + 2 < Z.of_nat (length p')) as (Hq0 & Hq1).
      { split; [nia|]. rewrite Hl.
        assert (y * dw + x + 1 <= dw * dh); [|lia].
        assert (y + 1 <= dh) by lia. nia. }
      destruct (store3 p' ((y * dw + x) * 3) v0 v1 v2 ltac:(lia) Hq1)
        as (p'' & Hs & Hl' & Hp'').
      exists p''. split; [exact Hs|].
      destruct (rgb_at_store3 p' p'' (y * dw + x) v0 v1 v2 Hp'') as (Hnew & Hold & Hafter).
      split; [congruence|]. split.
      * intros j Hj. destruct (Z.eq_dec j (y * dw + x)) as [->|Hne].
        -- exists (v0, v1, v2). rewrite Hsrc_at. auto.
        -- destruct (Hpix j ltac:(lia)) as (v & B & C). exists v. auto.
      * intros k Hk. rewrite Hafter by lia. apply Hrest. lia.
  - exists dst'. destruct Hinv as (Hl & Hpix & Hrest). auto.
Qed.

(** X7. [resize_rgb888_nn] reads inside the source and stores inside
    the destination when the source has [sw * sh] pixels, with [sw]
    and [sh] positive, and the destination has room for [dw * dh]: it
    returns, the destination pixel at column [x] of row [y] is the
    source pixel at column [x * sw / dw] of row [y * sh / dh], which
    is a pixel of the source, and the bytes after the last pixel are
    left alone.  With [dw] or [dh] zero nothing is stored and nothing
    is divided. *)
Theorem resize_takes_the_nearest_source_pixel
    (src : list Z) (sw sh : Z) (dst : list Z) (dw dh : Z) :
  0 < sw -> 0 < sh -> 0 <= dw -> 0 <= dh ->
  sw * sh * 3 <= Z.of_nat (length src) ->
  dw * dh * 3 <= Z.of_nat (length dst) ->
  exists dst',
    resize_rgb888_nn src sw sh dst dw dh = Some dst' /\
    length dst' = length dst /\
    (forall x y, 0 <= x < dw -> 0 <= y < dh ->
       0 <= x * sw / dw < sw /\ 0 <= y * sh / dh < sh /\
       exists v, rgb_at src (y * sh / dh * sw + x * sw / dw) v /\
                 rgb_at dst' (y * dw + x) v) /\
    (forall k, dw * dh * 3 <= k -> arr_load dst' k = arr_load dst k).
Proof.
  intros Hsw Hsh Hdw Hdh Hsrc Hdst.
  destruct (resize_rgb888_nn_pixels src sw sh dst dw dh Hsw Hsh Hdw Hdh Hsrc Hdst)
    as (dst' & Hrun & Hl & Hpix & Hrest).
  exists dst'. split; [exact Hrun|]. split; [exact Hl|]. split.
  - intros x y Hx Hy.
    split; [apply nn_coordinate; assumption|].
    split; [apply nn_coordinate; assumption|].
    destruct (Hpix (y * dw + x)) as (v & A & B).
    { split; [nia|]. assert (y + 1 <= dh) by lia. nia. }
    rewrite nn_source_at in A by lia.
    exists v. auto.
  - intros k Hk. apply Hrest. lia.
Qed.

Lemma resize_takes_the_nearest_source_pixel_witness :
  exists dst',
    resize_rgb888_nn [1; 2; 3; 4; 5; 6] 2 1 (replicate 10 0) 3 1 = Some dst' /\
    length dst' = length (replicate 10 0) /\
    (forall x y, 0 <= x < 3 -> 0 <= y < 1 ->
       0 <= x * 2 / 3 < 2 /\ 0 <= y * 1 / 1 < 1 /\
       exists v, rgb_at [1; 2; 3; 4; 5; 6] (y * 1 / 1 * 2 + x * 2 / 3) v /\
                 rgb_at dst' (y * 3 + x) v) /\
    (forall k, 3 * 1 * 3 <= k -> arr_load dst' k = arr_load (replicate 10 0) k).
Proof.
  apply (resize_takes_the_nearest_source_pixel [1; 2; 3; 4; 5; 6] 2 1 (replicate 10 0) 3 1);
    simpl; lia.
Defined.

Lemma rgb_at_eq a b j v :
  rgb_at a j v -> rgb_at b j v -> forall k, 0 <= k < 3 -> arr_load a (j * 3 + k) = arr_load b (j * 3 + k).
Proof.
  intros (A0 & A1 & A2) (B0 & B1 & B2) k Hk.
  assert (k = 0 \/ k = 1 \/ k = 2) as [-> | [-> | ->]] by lia.
  - rewrite Z.add_0_r. congruence.
  - congruence.
  - congruence.
Qed.

(** Resizing to the size of the source is a copy: with [dw = sw],
    [dh = sh] and buffers of exactly [sw * sh] pixels,
    [resize_rgb888_nn] leaves the source in the destination. *)
Theorem resize_to_the_same_size_is_a_copy (src : list Z) (sw sh : Z) (dst : list Z) :
  0 < sw -> 0 < sh ->
  Z.of_nat (length src) = sw * sh * 3 ->
  Z.of_nat (length dst) = sw * sh * 3 ->
  resize_rgb888_nn src sw sh dst sw sh = Some src.
Proof.
  intros Hsw Hsh Hsrc Hdst.
  destruct (resize_rgb888_nn_pixels src sw sh dst sw sh Hsw Hsh ltac:(lia) ltac:(lia)
              ltac:(lia) ltac:(lia)) as (dst' & Hrun & Hl & Hpix & _).
  rewrite Hrun. f_equal. apply list_eq. intros k.
  destruct (Nat.lt_ge_cases k (length src)) as [Hk|Hk].
  2: { rewrite !lookup_ge_None_2 by lia. reflexivity. }
  pose proof (Z.div_mod (Z.of_nat k) 3 ltac:(lia)) as Hdm.
  pose proof (Z.mod_pos_bound (Z.of_nat k) 3 ltac:(lia)) as Hm.
  set (j := Z.of_nat k / 3) in *.
  assert (0 <= j < sh * sw) as Hj.
  { subst j. split; [apply Z.div_pos; lia|]. apply Z.div_lt_upper_bound; lia. }
  destruct (Hpix j Hj) as (v & A & B).
  assert (nn_source sw sh sw sh j = j) as E.
  { unfold nn_source.
    pose proof (Z.div_mod j sw ltac:(lia)) as Hdj.
    pose proof (Z.mod_pos_bound j sw Hsw) as Hmj.
    assert (0 <= j / sw) by (apply Z.div_pos; lia).
    rewrite !Z.quot_div_nonneg by nia.
    rewrite !Z.div_mul by lia. lia. }
  rewrite E in A.
  pose proof (rgb_at_eq dst' src j v B A (Z.of_nat k mod 3) Hm) as Heq.
  replace (j * 3 + Z.of_nat k mod 3) with (Z.of_nat k) in Heq by lia.
  unfold arr_load in Heq. destruct (Z.leb_spec 0 (Z.of_nat k)); [|lia].
  rewrite Nat2Z.id in Heq. exact Heq.
Qed.

Lemma resize_to_the_same_size_is_a_copy_witness :
  resize_rgb888_nn [1; 2; 3; 4; 5; 6] 2 1 (replicate 6 0) 2 1 = Some [1; 2; 3; 4; 5; 6].
Proof.
  apply (resize_to_the_same_size_is_a_copy [1; 2; 3; 4; 5; 6] 2 1 (replicate 6 0));
    simpl; lia.
Defined.

(** ** Boxes and the results of the worker *)

Lemma clamp_box_eq b w h :
  clamp_box b w h =
    mk_box (Z.max 0 (box_x1 b)) (Z.max 0 (box_y1 b))
      (Z.max (Z.min (box_x2 b) (w - 1)) (Z.max 0 (box_x1 b)))
      (Z.max (Z.min (box_y2 b) (h - 1)) (Z.max 0 (box_y1 b)))
      (box_cls b).
Proof.
  unfold clamp_box. rewrite !Z.geb_leb.
  assert ((if box_x1 b <? 0 then 0 else box_x1 b) = Z.max 0 (box_x1 b)) as ->
    by (destruct (Z.ltb_spec (box_x1 b) 0); lia).
  assert ((if box_y1 b <? 0 then 0 else box_y1 b) = Z.max 0 (box_y1 b)) as ->
    by (destruct (Z.ltb_spec (box_y1 b) 0); lia).
  assert ((if w <=? box_x2 b then w - 1 else box_x2 b) = Z.min (box_x2 b) (w - 1)) as ->
    by (destruct (Z.leb_spec w (box_x2 b)); lia).
  assert ((if h <=? box_y2 b then h - 1 else box_y2 b) = Z.min (box_y2 b) (h - 1)) as ->
    by (destruct (Z.leb_spec h (box_y2 b)); lia).
  cbv zeta. f_equal.
  - destruct (Z.ltb_spec (Z.min (box_x2 b) (w - 1)) (Z.max 0 (box_x1 b))); lia.
  - destruct (Z.ltb_spec (Z.min (box_y2 b) (h - 1)) (Z.max 0 (box_y1 b))); lia.
Qed.

(** X8. [clamp_box] orders the corners and keeps them at or after
    the origin, but it brings the box into the image only when its
    first corner is in it: a box that starts right of (or below) the
    image comes back as one pixel that is still outside.  Clamping
    twice is clamping once, and a box inside the image is unchanged. *)
Theorem clamp_box_orders_but_may_leave_the_image (b : det_box) (w h : Z) :
  let b' := clamp_box b w h in
  0 <= box_x1 b' <= box_x2 b' /\ 0 <= box_y1 b' <= box_y2 b' /\
  (box_x2 b' < w <-> box_x1 b < w /\ 0 < w) /\
  (box_y2 b' < h <-> box_y1 b < h /\ 0 < h) /\
  (w <= box_x1 b -> 0 <= box_x1 b -> box_x1 b' = box_x1 b /\ box_x2 b' = box_x1 b) /\
  clamp_box b' w h = b' /\
  (0 <= box_x1 b <= box_x2 b -> box_x2 b < w ->
   0 <= box_y1 b <= box_y2 b -> box_y2 b < h -> b' = b).
Proof.
  cbv zeta. rewrite (clamp_box_eq (clamp_box b w h)), !(clamp_box_eq b).
  destruct b as [x1 y1 x2 y2 cls]. cbn [box_x1 box_y1 box_x2 box_y2 box_cls].
  split; [lia|]. split; [lia|]. split; [lia|]. split; [lia|]. split; [lia|].
  split; [f_equal; lia|].
  intros Hx Hxw Hy Hyh. f_equal; lia.
Qed.

Section DetectionFacts.

Variable float : Type.
Variable float_zero float_070 : float.
Variable float_ratio : Z -> Z -> float.
Variable float_gt : float -> float -> bool.
Variable classify_plate_color_rgb : det_box -> plate_color.

Let from := find_parent_car_from float float_zero float_070 float_ratio float_gt.
Let ratio := plate_overlap_ratio float float_zero float_ratio.

(** The car a search returns is one of the cars it went through, or
    the best one so far. *)
Lemma find_parent_car_from_range plate cx cy cars : forall i best best_ratio,
  from plate cx cy cars i best best_ratio = best \/
  i <= from plate cx cy cars i best best_ratio < i + Z.of_nat (length cars).
Proof.
  subst from.
  induction cars as [|c cars IH]; intros i best best_ratio; simpl; [auto|].
  destruct (center_inside cx cy c); [right; lia|].
  destruct (float_gt (plate_overlap_ratio float float_zero float_ratio plate c) float_070 &&
            float_gt (plate_overlap_ratio float float_zero float_ratio plate c) best_ratio).
  - destruct (IH (i + 1) i (plate_overlap_ratio float float_zero float_ratio plate c))
      as [E|E]; right; lia.
  - destruct (IH (i + 1) best best_ratio) as [E|E]; [auto|right; lia].
Qed.

(** What a returned car has to do with the plate. *)
Lemma find_parent_car_from_related plate cx cy cars : forall i best best_ratio r,
  0 <= i ->
  from plate cx cy cars i best best_ratio = r ->
  r = best \/
  exists c, cars !! Z.to_nat (r - i) = Some c /\ i <= r /\
            (center_inside cx cy c = true \/ float_gt (ratio plate c) float_070 = true).
Proof.
  subst from ratio.
  induction cars as [|c cars IH]; intros i best best_ratio r Hi; simpl; [auto|].
  destruct (center_inside cx cy c) eqn:Hin.
  { intros <-. right. exists c. rewrite Z.sub_diag. simpl. auto with zarith. }
  assert (0 <= i + 1) as Hi' by lia.
  assert (forall c', cars !! Z.to_nat (r - (i + 1)) = Some c' -> i + 1 <= r ->
                     (c :: cars) !! Z.to_nat (r - i) = Some c') as Hshift.
  { intros c' Hc' Hle.
    replace (Z.to_nat (r - i)) with (S (Z.to_nat (r - (i + 1)))) by lia. exact Hc'. }
  destruct (float_gt (plate_overlap_ratio float float_zero float_ratio plate c) float_070)
    eqn:Hgt; simpl.
  - destruct (float_gt (plate_overlap_ratio float float_zero float_ratio plate c) best_ratio).
    + intros Hr. apply (IH _ _ _ _ Hi') in Hr as [->|(c' & Hc' & Hle & Hrel)].
      * right. exists c. rewrite Z.sub_diag. simpl. auto with zarith.
      * right. exists c'. split; [auto|]. split; [lia|exact Hrel].
    + intros Hr. apply (IH _ _ _ _ Hi') in Hr as [->|(c' & Hc' & Hle & Hrel)]; [auto|].
      right. exists c'. split; [auto|]. split; [lia|exact Hrel].
  - intros Hr. apply (IH _ _ _ _ Hi') in Hr as [->|(c' & Hc' & Hle & Hrel)]; [auto|].
    right. exists c'. split; [auto|]. split; [lia|exact Hrel].
Qed.

(** The first car that contains the centre ends the search. *)
Lemma find_parent_car_from_first plate cx cy cars : forall i best best_ratio (k : nat) c,
  cars !! k = Some c -> center_inside cx cy c = true ->
  (forall (k' : nat) c', (k' < k)%nat -> cars !! k' = Some c' -> center_inside cx cy c' = false) ->
  from plate cx cy cars i best best_ratio = i + Z.of_nat k.
Proof.
  subst from.
  induction cars as [|c0 cars IH]; intros i best best_ratio k c Hk Hin Hfirst; [discriminate|].
  destruct k as [|k]; simpl in Hk.
  - injection Hk as ->. simpl. rewrite Hin. lia.
  - simpl. rewrite (Hfirst O c0 ltac:(lia) eq_refl).
    assert (forall (k' : nat) c', (k' < k)%nat -> cars !! k' = Some c' ->
                                 center_inside cx cy c' = false) as Hfirst'.
    { intros k' c' Hlt Hc'. apply (Hfirst (S k') c'); [lia|exact Hc']. }
    destruct (float_gt _ float_070 && float_gt _ best_ratio);
      erewrite IH by eassumption; lia.
Qed.

Let find := find_parent_car float float_zero float_070 float_ratio float_gt.

Lemma find_parent_car_range plate cars :
  find plate cars = -1 \/ 0 <= find plate cars < Z.of_nat (length cars).
Proof.
  subst find. unfold find_parent_car.
  destruct (find_parent_car_from_range plate
              (Z.quot (box_x1 plate + box_x2 plate) 2)
              (Z.quot (box_y1 plate + box_y2 plate) 2) cars 0 (-1) float_zero) as [E|E].
  - left. exact E.
  - right. subst from. lia.
Qed.

Lemma keep_cars_spec id cars : forall acc,
  Z.of_nat (length acc) <= MAX_DETS ->
  Forall (fun b => box_cls b = id /\ In b (acc ++ cars)) acc ->
  Z.of_nat (length (keep_cars id cars acc)) <= MAX_DETS /\
  Forall (fun b => box_cls b = id /\ In b (acc ++ cars)) (keep_cars id cars acc).
Proof.
  induction cars as [|b cars IH]; intros acc Hlen Hall; simpl; [auto|].
  destruct (Z.ltb_spec (Z.of_nat (length acc)) MAX_DETS) as [Hlt|Hge]; [|auto].
  destruct (Z.eqb_spec (box_cls b) id) as [Hcls|Hcls].
  - destruct (IH (acc ++ [b])) as (L & F).
    + rewrite length_app. simpl. lia.
    + apply Forall_app. split.
      * eapply Forall_impl; [exact Hall|]. intros x (Hx & Hin). split; [exact Hx|].
        rewrite <- app_assoc. simpl. exact Hin.
      * constructor; [|constructor]. split; [exact Hcls|].
        apply in_or_app. left. apply in_or_app. right. simpl. auto.
    + split; [exact L|]. eapply Forall_impl; [exact F|]. intros x (Hx & Hin).
      split; [exact Hx|]. rewrite <- app_assoc in Hin. exact Hin.
  - destruct (IH acc Hlen) as (L & F).
    + eapply Forall_impl; [exact Hall|]. intros x (Hx & Hin). split; [exact Hx|].
      apply in_app_or in Hin as [Hin|Hin]; apply in_or_app; [left; exact Hin|].
      destruct Hin as [Hin|Hin]; [|right; exact Hin].
      subst x. exfalso. auto.
    + split; [exact L|]. eapply Forall_impl; [exact F|]. intros x (Hx & Hin).
      split; [exact Hx|].
      apply in_app_or in Hin as [Hin|Hin]; apply in_or_app; [left; exact Hin|].
      right. simpl. auto.
Qed.

Lemma keep_plates_spec r_cars plates : forall acc,
  let P := fun p => 0 <= plate_parent_car p < Z.of_nat (length r_cars) in
  Z.of_nat (length acc) <= MAX_DETS -> Forall P acc ->
  Z.of_nat (length (keep_plates float float_zero float_070 float_ratio float_gt
                      classify_plate_color_rgb r_cars plates acc)) <= MAX_DETS /\
  Forall P (keep_plates float float_zero float_070 float_ratio float_gt
              classify_plate_color_rgb r_cars plates acc).
Proof.
  induction plates as [|b plates IH]; intros acc P Hlen Hall; simpl; [auto|].
  destruct (Z.ltb_spec (Z.of_nat (length acc)) MAX_DETS) as [Hlt|Hge]; [|auto].
  destruct (Z.ltb_spec (find_parent_car float float_zero float_070 float_ratio float_gt
                          b r_cars) 0) as [Hneg|Hpos].
  - apply IH; assumption.
  - apply IH.
    + rewrite length_app. simpl. lia.
    + apply Forall_app. split; [exact Hall|]. constructor; [|constructor].
      subst P. cbn [plate_parent_car].
      destruct (find_parent_car_range b r_cars) as [E|E]; subst find; lia.
Qed.

End DetectionFacts.

(** X9. [find_parent_car] returns -1 or the index of one of the
    cars.  A car it returns contains the centre of the plate or holds
    more than 0.70 of it; and when some car contains the centre, the
    first such car is returned, whatever the overlaps of the cars
    before it.  (The single-precision operations are left open: the
    statement holds for every reading of them.) *)
Theorem find_parent_car_prefers_the_car_under_the_centre
    (float : Type) (float_zero float_070 : float) (float_ratio : Z -> Z -> float)
    (float_gt : float -> float -> bool) (plate : det_box) (cars : list det_box) :
  let r := find_parent_car float float_zero float_070 float_ratio float_gt plate cars in
  let cx := Z.quot (box_x1 plate + box_x2 plate) 2 in
  let cy := Z.quot (box_y1 plate + box_y2 plate) 2 in
  (r = -1 \/ 0 <= r < Z.of_nat (length cars)) /\
  (0 <= r ->
   exists c, cars !! Z.to_nat r = Some c /\
             (center_inside cx cy c = true \/
              float_gt (plate_overlap_ratio float float_zero float_ratio plate c) float_070
                = true)) /\
  (forall (k : nat) c,
     cars !! k = Some c -> center_inside cx cy c = true ->
     (forall (k' : nat) c', (k' < k)%nat -> cars !! k' = Some c' ->
                            center_inside cx cy c' = false) ->
     r = Z.of_nat k).
Proof.
  cbv zeta. split; [|split].
  - apply find_parent_car_range.
  - intros Hr. unfold find_parent_car in *.
    set (cx := Z.quot (box_x1 plate + box_x2 plate) 2) in *.
    set (cy := Z.quot (box_y1 plate + box_y2 plate) 2) in *.
    destruct (find_parent_car_from_related float float_zero float_070 float_ratio float_gt
                plate cx cy cars 0 (-1) float_zero _ ltac:(lia) eq_refl)
      as [E|(c & Hc & _ & Hrel)]; [lia|].
    rewrite Z.sub_0_r in Hc. exists c. auto.
  - intros k c Hk Hin Hfirst. unfold find_parent_car.
    set (cx := Z.quot (box_x1 plate + box_x2 plate) 2) in *.
    set (cy := Z.quot (box_y1 plate + box_y2 plate) 2) in *.
    rewrite (find_parent_car_from_first float float_zero float_070 float_ratio float_gt
               plate cx cy cars 0 (-1) float_zero k c Hk Hin Hfirst).
    lia.
Qed.

(** X10. The results the worker publishes are well formed, whatever
    the detections: at most [MAX_DETS] cars and [MAX_DETS] plates,
    every car is a detection of the car class, and the parent of
    every plate is the index of one of the published cars. *)
Theorem collected_results_are_well_formed
    (float : Type) (float_zero float_070 : float) (float_ratio : Z -> Z -> float)
    (float_gt : float -> float -> bool) (classify_plate_color_rgb : det_box -> plate_color)
    (car_class_id : Z) (cars plates : list det_box) :
  let r := collect_results float float_zero float_070 float_ratio float_gt
             classify_plate_color_rgb car_class_id cars plates in
  Z.of_nat (length (res_cars r)) <= MAX_DETS /\
  Z.of_nat (length (res_plates r)) <= MAX_DETS /\
  Forall (fun b => box_cls b = car_class_id /\ In b cars) (res_cars r) /\
  Forall (fun p => 0 <= plate_parent_car p < Z.of_nat (length (res_cars r))) (res_plates r).
Proof.
  cbv zeta. unfold collect_results. cbn [res_cars res_plates].
  destruct (keep_cars_spec car_class_id cars []) as (L & F);
    [unfold MAX_DETS; simpl; lia|constructor|].
  destruct (keep_plates_spec float float_zero float_070 float_ratio float_gt
              classify_plate_color_rgb (keep_cars car_class_id cars []) plates [])
    as (L' & F'); [unfold MAX_DETS; simpl; lia|constructor|].
  auto.
Qed.

(** * Runs of the mailbox, the pool and the capture loop *)

(** ** The mailbox *)

Lemma push_fields raw c c' tr :
  push_latest_to_infer raw c = Done tt c' tr ->
  running c' = running c /\ frame_size c' = frame_size c /\
  infer_frame_seq c' = u64 (infer_frame_seq c + 1) /\
  infer_has_new c' = true /\
  infer_overwrite_count c' =
    (if infer_has_new c then u64 (infer_overwrite_count c + 1) else infer_overwrite_count c) /\
  infer_latest_raw c' = memcpy (infer_latest_raw c) raw (frame_size c).
Proof.
  rewrite push_latest_to_infer_eq. intros E. injection E as <- _.
  destruct c as [? ? ? ? ? ? ? ? ? ? ? ? ? ? ? [] ?]; simpl; auto 10.
Qed.

Lemma infer_fetch_new c :
  running c = true -> infer_has_new c = true ->
  infer_fetch c =
    Done (Some (take (Z.to_nat (frame_size c)) (infer_latest_raw c), infer_frame_seq c))
      (set_infer_has_new false c) [EvLock infer_lock; EvUnlock infer_lock].
Proof.
  intros Hr Hn. unfold infer_fetch. unfold_prog. rewrite Hr, Hn. reflexivity.
Qed.

Lemma infer_fetch_parks c :
  running c = true -> infer_has_new c = false -> infer_fetch c = Starved.
Proof.
  intros Hr Hn. unfold infer_fetch. unfold_prog. rewrite Hr, Hn. reflexivity.
Qed.

Lemma increasing_from_snoc l : forall lo b x,
  increasing_from lo l -> Forall (fun a => a <= b) l -> lo <= b -> b < x ->
  increasing_from lo (l ++ [x]).
Proof.
  induction l as [|a l IH]; intros lo b x Hinc Hall Hlo Hx; simpl.
  - split; [lia|exact I].
  - destruct Hinc as (Ha & Hinc). inversion Hall as [|? ? Hab Hall']; subst.
    split; [exact Ha|]. apply (IH a b x); auto.
Qed.

Lemma mbox_run_inv seq0 ov0 n ops : forall done c got c' got',
  0 <= seq0 -> 0 <= ov0 ->
  mbox_inv seq0 ov0 n done c got ->
  seq0 + Z.of_nat (length done) + Z.of_nat (length (pushed ops)) < 2 ^ 64 ->
  ov0 + Z.of_nat (length done) + Z.of_nat (length (pushed ops)) < 2 ^ 64 ->
  Forall (fun raw => (n <= length raw)%nat) (pushed ops) ->
  mbox_run ops (c, got) = Some (c', got') ->
  mbox_inv seq0 ov0 n (done ++ pushed ops) c' got'.
Proof.
  induction ops as [|op ops IH];
    intros done c got c' got' Hs0 Ho0 Hinv Hseq Hov Hlen Hrun; simpl in Hrun.
  - injection Hrun as <- <-. simpl. rewrite app_nil_r. exact Hinv.
  - destruct Hinv as (Hr & Hn & Hov0 & Hsq & Hacc & Hinc & Hgot & Hlatest).
    destruct op as [raw|]; simpl in Hrun, Hseq, Hov, Hlen.
    + destruct (push_latest_to_infer raw c) as [[] c1 tr| |] eqn:Hpush;
        [|rewrite push_latest_to_infer_eq in Hpush; discriminate
         |rewrite push_latest_to_infer_eq in Hpush; discriminate].
      simpl in Hrun.
      apply push_fields in Hpush as (F1 & F2 & F3 & F4 & F5 & F6).
      apply Forall_cons in Hlen as (Hraw & Hlen').
      change (pushed (MboxPush raw :: ops)) with (raw :: pushed ops).
      replace (done ++ raw :: pushed ops) with ((done ++ [raw]) ++ pushed ops)
        by (rewrite <- app_assoc; reflexivity).
      apply (IH (done ++ [raw]) c1 got c' got'); auto.
      2, 3: rewrite length_app; simpl; lia.
      unfold mbox_inv, pending. rewrite F1, F2, F3, F4, F5, F6, length_app. simpl.
      rewrite Hsq. rewrite (u64_small (seq0 + Z.of_nat (length done) + 1)) by lia.
      split; [exact Hr|]. split; [exact Hn|]. split.
      { destruct (infer_has_new c); [apply u64_range|exact Hov0]. }
      split; [lia|]. split.
      { unfold pending in Hacc. destruct (infer_has_new c).
        - rewrite u64_small by lia. lia.
        - lia. }
      split; [exact Hinc|]. split.
      { eapply Forall_impl; [exact Hgot|]. intros g (G1 & G2 & raw' & G3 & G4).
        split; [unfold pending in G1; destruct (infer_has_new c); lia|].
        split; [exact G2|]. exists raw'. split; [|exact G4].
        apply lookup_app_l_Some. exact G3. }
      intros _. exists raw. split; [apply last_snoc|].
      unfold memcpy. rewrite take_app_le by (rewrite length_take; lia).
      rewrite take_take. f_equal. lia.
    + destruct (infer_has_new c) eqn:Hnew.
      2: { rewrite infer_fetch_parks in Hrun by assumption. discriminate. }
      rewrite infer_fetch_new in Hrun by assumption. simpl in Hrun.
      change (pushed (MboxFetch :: ops)) with (pushed ops).
      apply (IH done _ _ c' got' Hs0 Ho0) in Hrun; auto.
      destruct (Hlatest eq_refl) as (raw & Hlast & Htake).
      assert (pending c = 1) as Hp1 by (unfold pending; rewrite Hnew; reflexivity).
      assert (pending (set_infer_has_new false c) = 0) as Hp0 by reflexivity.
      unfold mbox_inv. rewrite Hp0.
      replace (running (set_infer_has_new false c)) with (running c) by reflexivity.
      replace (frame_size (set_infer_has_new false c)) with (frame_size c) by reflexivity.
      replace (infer_frame_seq (set_infer_has_new false c)) with (infer_frame_seq c)
        by reflexivity.
      replace (infer_overwrite_count (set_infer_has_new false c))
        with (infer_overwrite_count c) by reflexivity.
      split; [exact Hr|]. split; [exact Hn|]. split; [exact Hov0|]. split; [exact Hsq|]. split.
      { rewrite length_app. simpl. lia. }
      assert (done <> []) as Hne by (intros ->; discriminate).
      assert (0 < length done)%nat as Hdl by (destruct done; [congruence|simpl; lia]).
      split.
      { rewrite fmap_app. simpl.
        apply (increasing_from_snoc _ _ (seq0 + Z.of_nat (length done) - 1)); auto; [|lia|lia].
        apply Forall_fmap. eapply Forall_impl; [exact Hgot|].
        intros g (G1 & _). simpl. lia. }
      split.
      { apply Forall_app. split.
        - eapply Forall_impl; [exact Hgot|]. intros g (G1 & G2 & G3).
          split; [lia|]. split; [exact G2|exact G3].
        - constructor; [|constructor]. simpl.
          split; [lia|]. split; [lia|]. exists raw. split.
          + rewrite last_lookup in Hlast.
            replace (Z.to_nat (infer_frame_seq c - seq0 - 1)) with (Init.Nat.pred (length done))
              by lia.
            exact Hlast.
          + rewrite Hn. exact Htake. }
      intros Hc. discriminate.
Qed.

(** X11. No frame of the mailbox goes uncounted.  From an empty
    mailbox, after any interleaving of pushes and fetches, the number
    of pushes is the number of frames fetched, plus the growth of
    [infer_overwrite_count], plus one if a frame is still waiting.
    [infer_frame_seq] has grown by the number of pushes, the sequence
    numbers the worker sees increase strictly, and the frame fetched
    under sequence number [s] is the frame of push number [s]
    (counted from the start value), cut to [frame_size]: a fetch
    never sees a frame twice, nor an older frame after a newer one. *)
Theorem mailbox_accounts_for_every_push
    (c c' : app_ctx) (ops : list mbox_op) (got : list (list Z * Z)) :
  running c = true -> infer_has_new c = false ->
  0 <= infer_frame_seq c -> 0 <= infer_overwrite_count c ->
  infer_frame_seq c + Z.of_nat (length (pushed ops)) < 2 ^ 64 ->
  infer_overwrite_count c + Z.of_nat (length (pushed ops)) < 2 ^ 64 ->
  Forall (fun raw => frame_size c <= Z.of_nat (length raw)) (pushed ops) ->
  mbox_run ops (c, []) = Some (c', got) ->
  infer_frame_seq c' = infer_frame_seq c + Z.of_nat (length (pushed ops)) /\
  Z.of_nat (length (pushed ops)) =
    Z.of_nat (length got) + (infer_overwrite_count c' - infer_overwrite_count c) + pending c' /\
  increasing_from (infer_frame_seq c) (snd <$> got) /\
  Forall (fun g => exists raw,
            pushed ops !! Z.to_nat (snd g - infer_frame_seq c - 1) = Some raw /\
            fst g = take (Z.to_nat (frame_size c)) raw) got.
Proof.
  intros Hr Hn Hs0 Ho0 Hseq Hov Hlen Hrun.
  assert (mbox_inv (infer_frame_seq c) (infer_overwrite_count c)
            (Z.to_nat (frame_size c)) [] c []) as Hinv.
  { unfold mbox_inv, pending. rewrite Hn. simpl.
    repeat split; auto; try lia; try (intros Hc; discriminate). }
  assert (Forall (fun raw => (Z.to_nat (frame_size c) <= length raw)%nat) (pushed ops))
    as Hlen'.
  { eapply Forall_impl; [exact Hlen|]. intros raw Hraw. cbv beta in Hraw. lia. }
  pose proof (mbox_run_inv (infer_frame_seq c) (infer_overwrite_count c)
                (Z.to_nat (frame_size c)) ops [] c [] c' got Hs0 Ho0 Hinv
                ltac:(simpl; lia) ltac:(simpl; lia) Hlen' Hrun)
    as (_ & _ & _ & Hsq & Hacc & Hinc & Hgot & _).
  simpl in Hsq, Hacc, Hgot. split; [exact Hsq|]. split; [lia|]. split; [exact Hinc|].
  eapply Forall_impl; [exact Hgot|]. intros g (_ & _ & raw & G1 & G2). eauto.
Qed.

Lemma mailbox_accounts_for_every_push_witness :
  exists c' got,
    mbox_run [MboxPush [1; 1]; MboxPush [2; 2]; MboxFetch; MboxPush [3; 3]]
      (set_infer_latest_raw [0; 0] (blank_ctx 2), []) = Some (c', got) /\
    infer_frame_seq c' = 0 + 3 /\
    3 = Z.of_nat (length got) + (infer_overwrite_count c' - 0) + pending c' /\
    increasing_from 0 (snd <$> got) /\
    Forall (fun g => exists raw,
              [[1; 1]; [2; 2]; [3; 3]] !! Z.to_nat (snd g - 0 - 1) = Some raw /\
              fst g = take 2 raw) got.
Proof.
  eexists _, _. split; [vm_compute; reflexivity|].
  apply (mailbox_accounts_for_every_push (set_infer_latest_raw [0; 0] (blank_ctx 2)) _
           [MboxPush [1; 1]; MboxPush [2; 2]; MboxFetch; MboxPush [3; 3]] _);
    first [reflexivity | simpl; lia | vm_compute; reflexivity
          | repeat constructor; simpl; lia ].
Defined.

(** ** The books of the pool *)

Lemma total_insert l : forall (j : nat) g g',
  l !! j = Some g -> total (<[j := g']> l) = total l - g + g'.
Proof.
  induction l as [|a l IH]; intros j g g' Hj; [discriminate|].
  destruct j as [|j]; simpl in *.
  - injection Hj as ->. lia.
  - rewrite (IH j g g' Hj). lia.
Qed.

Lemma total_bound l (j : nat) g :
  Forall (fun g => 0 <= g) l -> l !! j = Some g -> g <= total l.
Proof.
  intros Hall. revert j. induction Hall as [|a l Ha Hall IH]; intros j Hj; [discriminate|].
  destruct j as [|j]; simpl in *.
  - injection Hj as ->.
    assert (0 <= total l); [|lia].
    clear -Hall. induction Hall; simpl; [lia|]. unfold total in *. simpl. lia.
  - specialize (IH j Hj).
    lia.
Qed.

Lemma filter_out_one (t : slot_ticket) l :
  NoDup (ticket_idx <$> l) -> t ∈ l ->
  S (length (List.filter (fun v => negb (ticket_eqb v t)) l)) = length l.
Proof.
  induction l as [|a l IH]; intros Hnd Hin; [inversion Hin|].
  rewrite fmap_cons in Hnd. apply NoDup_cons in Hnd as (Ha & Hnd).
  simpl. destruct (ticket_eqb a t) eqn:E; simpl.
  - apply ticket_eqb_eq in E. subst a. f_equal.
    assert (List.filter (fun v => negb (ticket_eqb v t)) l = l) as ->; [|reflexivity].
    apply forallb_filter_id. apply forallb_forall. intros v Hv.
    destruct (ticket_eqb v t) eqn:E'; [|reflexivity].
    apply ticket_eqb_eq in E'. subst v. exfalso. apply Ha.
    apply list_elem_of_fmap. exists t. split; [reflexivity|]. apply list_elem_of_In. exact Hv.
  - f_equal. apply IH; [exact Hnd|].
    apply elem_of_cons in Hin as [->|Hin]; [|exact Hin].
    assert (ticket_eqb a a = true) by (apply ticket_eqb_eq; reflexivity). congruence.
Qed.

Lemma generations_lookup c j s :
  slot_at c j = Some s -> generations c !! Z.to_nat j = Some (slot_generation s).
Proof.
  intros Hs. unfold slot_at in Hs. destruct (0 <=? j); [|discriminate].
  unfold generations. rewrite list_lookup_fmap, Hs. reflexivity.
Qed.

Lemma pool_step_books exact h op s s' :
  pool_inv s -> pool_books exact h s -> 0 <= h < 2 ^ 64 - 1 ->
  (exact = true -> counts_release op = true) ->
  pool_step op s = Some s' ->
  pool_books exact (h + if hands_out op s then 1 else 0) s'.
Proof.
  intros (Hwf & Hnd & Hlive) (Hpos & Htot & Hrel0 & Hle & Heq) Hh Hcnt Hstep.
  destruct op as [|t b]; simpl in Hstep; unfold hands_out.
  - destruct (scan_free_slot_spec (sys_ctx s) Hwf)
      as [(tr & E & _ & _)|(j & sl & tr & E & _ & Hs & Hu & _)];
      rewrite E in Hstep |- *; injection Hstep as <-.
    + rewrite Z.add_0_r. unfold pool_books. simpl. auto.
    + pose proof (generations_lookup _ _ _ Hs) as Hg.
      pose proof (total_bound _ _ _ Hpos Hg) as Hgb.
      assert (0 <= slot_generation sl) as Hg0.
      { rewrite Forall_lookup in Hpos. apply (Hpos _ _ Hg). }
      unfold pool_books. cbn [sys_ctx sys_valid].
      rewrite generations_hand_out, u64_small by lia.
      split; [apply Forall_insert; [exact Hpos|lia]|].
      split; [rewrite (total_insert _ _ _ _ Hg); lia|].
      replace (released_frames (handed_out j sl (sys_ctx s)))
        with (released_frames (sys_ctx s)) by reflexivity.
      split; [exact Hrel0|]. simpl length.
      split; [lia|]. intros He. specialize (Heq He). lia.
  - destruct (release_cases t b (sys_ctx s) Hwf)
      as [(sl & Hlt & Hs & Hu & Hg & tr & E & Hsig & _)|(Hnl & tr & E & Hsig)];
      rewrite E, Hsig in Hstep; injection Hstep as <-; rewrite Z.add_0_r.
    + assert (t ∈ sys_valid s) as Hin by (apply Hlive; exists sl; auto).
      pose proof (filter_out_one t (sys_valid s) Hnd Hin) as Hflt.
      unfold pool_books. cbn [sys_ctx sys_valid].
      rewrite (generations_released t b sl _ Hs).
      split; [exact Hpos|]. split; [exact Htot|].
      assert (released_frames (released t b sl (sys_ctx s)) =
              if b then u64 (released_frames (sys_ctx s) + 1)
              else released_frames (sys_ctx s)) as ->
        by (unfold released; destruct b; reflexivity).
      assert (0 < length (sys_valid s))%nat as Hlen by lia.
      destruct b.
      * rewrite u64_small by lia. split; [lia|]. split; [lia|].
        intros He. specialize (Heq He). lia.
      * split; [exact Hrel0|]. split; [lia|].
        intros He. specialize (Hcnt He). discriminate.
    + unfold pool_books. simpl. auto.
Qed.

Lemma hands_out_le op s : 0 <= (if hands_out op s then 1 else 0) <= 1.
Proof. destruct (hands_out op s); lia. Qed.

Lemma hand_outs_le ops : forall s, 0 <= hand_outs ops s <= Z.of_nat (length ops).
Proof.
  induction ops as [|op ops IH]; intros s; simpl; [lia|].
  pose proof (hands_out_le op s).
  destruct (pool_step op s) as [s'|]; [specialize (IH s')|]; lia.
Qed.

Lemma pool_run_books exact ops : forall h s s',
  pool_inv s -> pool_books exact h s ->
  0 <= h -> h + Z.of_nat (length ops) < 2 ^ 64 ->
  (exact = true -> forallb counts_release ops = true) ->
  pool_run ops s = Some s' ->
  pool_books exact (h + hand_outs ops s) s'.
Proof.
  induction ops as [|op ops IH]; intros h s s' Hinv Hb Hh Hlen Hcnt Hrun; simpl in *.
  - injection Hrun as <-. rewrite Z.add_0_r. exact Hb.
  - destruct (pool_step_inv op s Hinv) as (s1 & Hstep & Hinv1).
    rewrite Hstep in Hrun |- *.
    pose proof (hands_out_le op s) as Hho.
    assert (pool_books exact (h + if hands_out op s then 1 else 0) s1) as Hb1.
    { apply (pool_step_books exact h op s s1); auto; [lia|].
      intros He. specialize (Hcnt He). apply andb_prop in Hcnt as (Hc & _). exact Hc. }
    rewrite Z.add_assoc. apply (IH _ s1 s'); auto; [lia|lia|].
    intros He. specialize (Hcnt He). apply andb_prop in Hcnt as (_ & Hc). exact Hc.
Qed.

(** X12. [released_frames] never counts a hand-out twice.  Along any
    interleaving of acquires and releases on a fresh pool, with any
    tickets (stale, forged or repeated), the sum of the generation
    counters is the number of hand-outs, and [released_frames] plus
    the number of tickets still out is at most that number; it is
    that number when every release asked to be counted. *)
Theorem released_frames_counts_each_hand_out_once
    (n : nat) (fsize : Z) (ops : list pool_op) (s : pool_sys) :
  Z.of_nat (length ops) < 2 ^ 64 ->
  pool_run ops (pool_init (Z.of_nat n) fsize) = Some s ->
  let h := hand_outs ops (pool_init (Z.of_nat n) fsize) in
  total (generations (sys_ctx s)) = h /\
  0 <= released_frames (sys_ctx s) /\
  released_frames (sys_ctx s) + Z.of_nat (length (sys_valid s)) <= h /\
  (forallb counts_release ops = true ->
   released_frames (sys_ctx s) + Z.of_nat (length (sys_valid s)) = h).
Proof.
  intros Hlen Hrun. cbv zeta.
  assert (forall exact, pool_books exact 0 (pool_init (Z.of_nat n) fsize)) as Hb0.
  { intros exact. unfold pool_books, pool_init, generations. simpl.
    rewrite fmap_replicate. simpl.
    assert (total (replicate (Z.to_nat (Z.of_nat n)) 0) = 0) as ->.
    { induction (Z.to_nat (Z.of_nat n)); simpl; [reflexivity|]. unfold total in *. simpl. lia. }
    split; [apply Forall_replicate; lia|]. repeat split; lia. }
  pose proof (pool_run_books false ops 0 _ s (pool_init_inv n fsize) (Hb0 false)
                ltac:(lia) ltac:(lia) ltac:(discriminate) Hrun) as (_ & Ht & Hr & Hle & _).
  split; [exact Ht|]. split; [exact Hr|]. split; [exact Hle|].
  intros Hall.
  pose proof (pool_run_books true ops 0 _ s (pool_init_inv n fsize) (Hb0 true)
                ltac:(lia) ltac:(lia) (fun _ => Hall) Hrun) as (_ & _ & _ & _ & He).
  apply He. reflexivity.
Qed.

Lemma released_frames_counts_each_hand_out_once_witness :
  exists s,
    pool_run [OpAcquire; OpAcquire; OpRelease (mk_ticket 0 1) true;
              OpRelease (mk_ticket 0 1) true; OpAcquire]
      (pool_init (Z.of_nat 2) 8) = Some s /\
    let h := hand_outs [OpAcquire; OpAcquire; OpRelease (mk_ticket 0 1) true;
                        OpRelease (mk_ticket 0 1) true; OpAcquire]
               (pool_init (Z.of_nat 2) 8) in
    total (generations (sys_ctx s)) = h /\
    0 <= released_frames (sys_ctx s) /\
    released_frames (sys_ctx s) + Z.of_nat (length (sys_valid s)) <= h /\
    (forallb counts_release
       [OpAcquire; OpAcquire; OpRelease (mk_ticket 0 1) true;
        OpRelease (mk_ticket 0 1) true; OpAcquire] = true ->
     released_frames (sys_ctx s) + Z.of_nat (length (sys_valid s)) = h).
Proof.
  eexists. split; [vm_compute; reflexivity|].
  apply (released_frames_counts_each_hand_out_once 2 8
           [OpAcquire; OpAcquire; OpRelease (mk_ticket 0 1) true;
            OpRelease (mk_ticket 0 1) true; OpAcquire] _);
    [simpl; lia|vm_compute; reflexivity].
Defined.

(** ** The waits of [acquire_free_slot] *)

Lemma waits_app tr1 tr2 : waits (tr1 ++ tr2) = waits tr1 ++ waits tr2.
Proof.
  induction tr1 as [|e tr1 IH]; simpl; [reflexivity|].
  destruct e; simpl; rewrite ?IH; reflexivity.
Qed.

Lemma waits_none tr : Forall (fun e => is_slot_read e = true) tr -> waits tr = [].
Proof.
  induction 1 as [|e tr He _ IH]; simpl; [reflexivity|].
  destruct e; try discriminate; assumption.
Qed.

Lemma acquire_loop_slices deadline sched : forall c r c' tr,
  pool_wf c ->
  acquire_loop sched deadline c = Done r c' tr ->
  forall (i : nat) wake,
    waits tr !! i = Some wake ->
    exists now, mono_reads tr !! i = Some now /\ now < deadline /\
                wake = Z.min (now + 20000) deadline.
Proof.
  induction sched as [|w sched IH]; intros c r c' tr Hwf Hrun i wake Hi.
  - destruct (scan_free_slot_spec c Hwf)
      as [(tr0 & Heq & Hrd & Hall)|(j & s & tr0 & Heq & Hrd & Hs & Hu & _)].
    + simpl in Hrun. unfold bind in Hrun. rewrite Heq in Hrun. discriminate.
    + rewrite (acquire_loop_hit _ _ _ _ _ _ Heq) in Hrun. injection Hrun as <- <- <-.
      simpl in Hi. rewrite !waits_app, (waits_none tr0 Hrd) in Hi. discriminate.
  - destruct (scan_free_slot_spec c Hwf)
      as [(tr0 & Heq & Hrd & Hall)|(j & s & tr0 & Heq & Hrd & Hs & Hu & _)].
    + rewrite (acquire_loop_miss _ _ _ _ _ Heq) in Hrun.
      destruct (Z.geb_spec (wk_now w) deadline) as [Hge|Hlt].
      * injection Hrun as <- <- <-.
        simpl in Hi. rewrite !waits_app, (waits_none tr0 Hrd) in Hi. discriminate.
      * destruct (others_release_total (wk_released w) c Hwf) as (c1 & Ho & Hwf1 & Hch1).
        rewrite Ho in Hrun.
        destruct (acquire_loop sched deadline c1) as [r2 c2 tr2| |] eqn:Hrest;
          try discriminate.
        injection Hrun as <- <- <-.
        simpl in Hi |- *.
        rewrite !waits_app, (waits_none tr0 Hrd) in Hi. simpl in Hi.
        rewrite !mono_reads_app, (mono_reads_none tr0 Hrd). simpl.
        destruct i as [|i]; simpl in Hi |- *.
        -- injection Hi as <-. exists (wk_now w). split; [reflexivity|]. split; [lia|].
           rewrite Z.gtb_ltb. destruct (Z.ltb_spec deadline (wk_now w + 20000)); lia.
        -- apply (IH c1 r2 c2 tr2 Hwf1 Hrest i wake Hi).
    + rewrite (acquire_loop_hit _ _ _ _ _ _ Heq) in Hrun. injection Hrun as <- <- <-.
      simpl in Hi. rewrite !waits_app, (waits_none tr0 Hrd) in Hi. discriminate.
Qed.

(** X13. [acquire_free_slot] sleeps in slices.  Each call of
    [g_cond_wait_until] comes right after a clock reading [now] that
    is before the deadline, and its wake-up time is [now + 20000] or
    the deadline, whichever comes first: no wait is longer than 20 ms,
    none ends after the deadline, and none is empty. *)
Theorem acquire_waits_in_slices_of_20_ms
    (c : app_ctx) (t0 : Z) (sched : list wakeup) (r : Z * slot_ticket) (c' : app_ctx)
    (tr : list event) :
  pool_wf c ->
  acquire_free_slot t0 sched c = Done r c' tr ->
  forall (i : nat) wake,
    waits tr !! i = Some wake ->
    exists now,
      mono_reads tr !! S i = Some now /\
      now < wake /\ wake <= now + 20000 /\ wake <= t0 + opt_timeout_ms c * 1000 /\
      (wake = now + 20000 \/ wake = t0 + opt_timeout_ms c * 1000).
Proof.
  intros Hwf Hrun i wake Hi. rewrite acquire_free_slot_eq in Hrun.
  destruct (acquire_loop sched (t0 + opt_timeout_ms c * 1000) c) as [r1 c1 tr1| |] eqn:Hloop;
    try discriminate.
  injection Hrun as <- <- <-. simpl in Hi |- *.
  destruct (acquire_loop_slices _ _ _ _ _ _ Hwf Hloop i wake Hi) as (now & Hn & Hlt & Hw).
  exists now. split; [exact Hn|]. lia.
Qed.

Lemma acquire_waits_in_slices_of_20_ms_witness :
  exists r c' tr,
    acquire_free_slot 1000000 quiet_sched busy_pool = Done r c' tr /\
    forall (i : nat) wake,
      waits tr !! i = Some wake ->
      exists now,
        mono_reads tr !! S i = Some now /\
        now < wake /\ wake <= now + 20000 /\
        wake <= 1000000 + opt_timeout_ms busy_pool * 1000 /\
        (wake = now + 20000 \/ wake = 1000000 + opt_timeout_ms busy_pool * 1000).
Proof.
  eexists _, _, _. split; [vm_compute; reflexivity|].
  eapply (acquire_waits_in_slices_of_20_ms busy_pool 1000000 quiet_sched);
    [unfold pool_wf; reflexivity|vm_compute; reflexivity].
Defined.

(** ** Who holds [infer_lock] *)

(** The head of the worker's loop gives [infer_lock] back before it
    returns, and it returns with the lock in two steps: the lock and
    the unlock.  The copy of the frame lies between the two; the
    inference does not. *)
Lemma infer_fetch_releases c r c' tr :
  infer_fetch c = Done r c' tr ->
  tr = [EvLock infer_lock; EvUnlock infer_lock] /\
  holds_after infer_lock false tr = false.
Proof.
  unfold infer_fetch. unfold_prog.
  destruct (running c), (infer_has_new c); simpl; intros E;
    try discriminate; injection E as _ _ <-; split; reflexivity.
Qed.

Lemma push_releases raw c c' tr :
  push_latest_to_infer raw c = Done tt c' tr ->
  holds_after infer_lock false tr = false.
Proof. rewrite push_latest_to_infer_eq. intros E. injection E as _ <-. reflexivity. Qed.

Lemma fetch_step_free s s' :
  fetch_step s = Some s' -> ls_holder s' = None.
Proof.
  unfold fetch_step.
  destruct (infer_fetch (ls_ctx s)) as [[[raw seq]|] c tr| |] eqn:Ef; intros E;
    try discriminate; injection E as <-; try reflexivity;
    apply infer_fetch_releases in Ef as (_ & Hf);
    cbn [ls_holder]; unfold holder_after; rewrite Hf; reflexivity.
Qed.

(** Between two steps nobody holds [infer_lock]. *)
Lemma lock_step_free op s s' :
  ls_holder s = None -> lock_step op s = Some s' -> ls_holder s' = None.
Proof.
  intros Hfree. destruct op as [raw| | |]; cbn [lock_step]; rewrite ?Hfree.
  - destruct (push_latest_to_infer raw (ls_ctx s)) as [[] c tr| |] eqn:Ep;
      intros E; try discriminate. injection E as <-.
    cbn [ls_holder]. unfold holder_after. rewrite (push_releases _ _ _ _ Ep). reflexivity.
  - destruct (ls_worker s); try discriminate.
    + destruct (running (ls_ctx s)); [apply fetch_step_free|].
      intros E. injection E as <-. reflexivity.
    + apply fetch_step_free.
  - destruct (ls_worker s); intros E; try discriminate. injection E as <-. exact Hfree.
  - destruct (ls_worker s); intros E; try discriminate. injection E as <-. reflexivity.
Qed.

Lemma lock_run_free ops : forall s s',
  ls_holder s = None -> lock_run ops s = Some s' -> ls_holder s' = None.
Proof.
  induction ops as [|op ops IH]; intros s s' Hfree Hrun; simpl in Hrun.
  - injection Hrun as <-. exact Hfree.
  - destruct (lock_step op s) as [s1|] eqn:Es; [|discriminate].
    apply (IH s1 s'); [|exact Hrun]. apply (lock_step_free op s s1 Hfree Es).
Qed.

Lemma lock_run_infer (k : nat) s rest :
  inferring s = true -> lock_run (replicate k LkInfer ++ rest) s = lock_run rest s.
Proof.
  intros Hi. induction k as [|k IH]; [reflexivity|].
  cbn [replicate app lock_run lock_step]. unfold inferring in Hi.
  destruct (ls_worker s); try discriminate. exact IH.
Qed.

(** C5. The capture loop never waits for the inference.  Take any
    run of the two threads from a start with [infer_lock] free and
    the worker at the head of its loop: pushes, passes of the worker
    through the head of its loop (lines 1018 to 1028, from the lock
    to the unlock or to the wait), stretches of inference as many as
    the latency takes, ends of turns.  Afterwards nobody holds
    [infer_lock]: the worker gives it back before it starts on the
    frame, in every return of the head of its loop, and it has given
    it up when it is parked.  So the next push gets the lock, also
    after any number of further stretches of inference, and returns;
    its trace holds no wait: it takes [infer_lock], signals
    [infer_cond] and drops the lock.  When the flag is still set,
    [infer_overwrite_count] grows by one (as a 64-bit counter: by
    exactly one unless it stood at its last value).  Afterwards the
    one buffer of the mailbox holds the first [frame_size] bytes of
    the new frame, so the frame that was there is gone; with buffers
    of [frame_size] bytes it is the new frame itself.  The mailbox
    holds one frame at most: the worker's next fetch takes the new
    frame with the new sequence number and clears the flag, and a
    fetch after that finds nothing and parks. *)
Theorem push_overwrites_and_never_waits
    (c0 : app_ctx) (ops : list lock_op) (s : lock_sys) (raw : list Z) :
  lock_run ops (lock_init c0) = Some s ->
  ls_holder s = None /\
  (forall c1 r c2 tr1,
     infer_fetch c1 = Done r c2 tr1 ->
     tr1 = [EvLock infer_lock; EvUnlock infer_lock] /\
     holds_after infer_lock false tr1 = false) /\
  exists c' tr,
    push_latest_to_infer raw (ls_ctx s) = Done tt c' tr /\
    lock_step (LkPush raw) s = Some (mk_lock_sys c' None (ls_worker s)) /\
    (inferring s = true ->
     forall k : nat,
       lock_run (replicate k LkInfer ++ [LkPush raw]) s =
         Some (mk_lock_sys c' None (ls_worker s))) /\
    existsb is_wait tr = false /\
    holds_after infer_lock false tr = false /\
    infer_has_new c' = true /\
    infer_frame_seq c' = u64 (infer_frame_seq (ls_ctx s) + 1) /\
    infer_latest_raw c' = memcpy (infer_latest_raw (ls_ctx s)) raw (frame_size (ls_ctx s)) /\
    (mailbox_ok (ls_ctx s) -> Z.of_nat (length raw) = frame_size (ls_ctx s) ->
     infer_latest_raw c' = raw) /\
    (infer_has_new (ls_ctx s) = true ->
       infer_overwrite_count c' = u64 (infer_overwrite_count (ls_ctx s) + 1) /\
       (0 <= infer_overwrite_count (ls_ctx s) < 2 ^ 64 - 1 ->
        infer_overwrite_count c' = infer_overwrite_count (ls_ctx s) + 1)) /\
    (infer_has_new (ls_ctx s) = false ->
     infer_overwrite_count c' = infer_overwrite_count (ls_ctx s)) /\
    (running (ls_ctx s) = true ->
       exists tr1,
         infer_fetch c' =
           Done (Some (take (Z.to_nat (frame_size (ls_ctx s))) (infer_latest_raw c'),
                       u64 (infer_frame_seq (ls_ctx s) + 1)))
                (set_infer_has_new false c') tr1 /\
         existsb is_wait tr1 = false /\
         infer_fetch (set_infer_has_new false c') = Starved).
Proof.
  intros Hrun.
  assert (ls_holder s = None) as Hfree.
  { apply (lock_run_free ops (lock_init c0) s); [reflexivity|exact Hrun]. }
  split; [exact Hfree|]. split; [apply infer_fetch_releases|].
  destruct (push_latest_to_infer_overwrites (ls_ctx s) raw)
    as (c' & tr & Hpush & Hwait & Hrest).
  assert (lock_step (LkPush raw) s = Some (mk_lock_sys c' None (ls_worker s))) as Hstep.
  { cbn [lock_step]. rewrite Hfree, Hpush. unfold holder_after.
    rewrite (push_releases _ _ _ _ Hpush). reflexivity. }
  exists c', tr. split; [exact Hpush|]. split; [exact Hstep|]. split.
  { intros Hi k. rewrite lock_run_infer by exact Hi.
    cbn [lock_run]. rewrite Hstep. reflexivity. }
  split; [exact Hwait|]. split; [exact (push_releases _ _ _ _ Hpush)|]. exact Hrest.
Qed.

(** C5 on a slow inference: two frames are pushed while the worker is
    busy with the first one, and a fourth push overwrites the third
    frame without waiting for the worker. *)
Lemma push_overwrites_and_never_waits_witness :
  lock_run slow_inference (lock_init empty_mailbox) = Some after_slow_inference /\
  inferring after_slow_inference = true /\
  ls_holder after_slow_inference = None /\
  exists c' tr,
    push_latest_to_infer (replicate 8 4) (ls_ctx after_slow_inference) = Done tt c' tr /\
    (forall k : nat,
       lock_run (replicate k LkInfer ++ [LkPush (replicate 8 4)]) after_slow_inference =
         Some (mk_lock_sys c' None (ls_worker after_slow_inference))) /\
    existsb is_wait tr = false /\
    infer_latest_raw c' = replicate 8 4 /\
    infer_overwrite_count c' = 2.
Proof.
  assert (lock_run slow_inference (lock_init empty_mailbox) = Some after_slow_inference)
    as Hrun by reflexivity.
  split; [exact Hrun|]. split; [reflexivity|].
  destruct (push_overwrites_and_never_waits empty_mailbox slow_inference
              after_slow_inference (replicate 8 4) Hrun)
    as (Hfree & _ & c' & tr & Hpush & _ & Hinfer & Hw & _ & _ & _ & _ & Hraw & Hcnt & _).
  split; [exact Hfree|]. exists c', tr.
  split; [exact Hpush|]. split; [apply Hinfer; reflexivity|]. split; [exact Hw|]. split.
  - apply Hraw; reflexivity.
  - apply (proj2 (Hcnt eq_refl)). simpl. lia.
Defined.

(** ** The counters of the capture loop *)

Lemma bind_Done {A B} (m : prog A) (k : A -> prog B) c b c2 tr :
  bind m k c = Done b c2 tr ->
  exists a c1 tr1 tr2, m c = Done a c1 tr1 /\ k a c1 = Done b c2 tr2 /\ tr = tr1 ++ tr2.
Proof.
  unfold bind. destruct (m c) as [a c1 tr1| |]; try discriminate.
  destruct (k a c1) as [b' c2' tr2| |] eqn:Hk; try discriminate.
  intros E. injection E as <- <- <-. eauto 10.
Qed.

Section Keeps.

Context {B : Type} (f : app_ctx -> B).

Lemma keeps_ret {A} (a : A) : keeps f (ret a).
Proof. intros c a' c' tr E. injection E as _ <- _. reflexivity. Qed.

Lemma keeps_emit e : keeps f (emit e).
Proof. intros c a' c' tr E. injection E as _ <- _. reflexivity. Qed.

Lemma keeps_gets {A} (g : app_ctx -> A) : keeps f (gets g).
Proof. intros c a' c' tr E. injection E as _ <- _. reflexivity. Qed.

Lemma keeps_starve {A} : keeps f (@starve A).
Proof. intros c a' c' tr E. discriminate. Qed.

Lemma keeps_undefined {A} : keeps f (fun _ => @Undefined A).
Proof. intros c a' c' tr E. discriminate. Qed.

Lemma keeps_modify (g : app_ctx -> app_ctx) :
  (forall c, f (g c) = f c) -> keeps f (modify g).
Proof. intros H c a' c' tr E. injection E as _ <- _. apply H. Qed.

Lemma keeps_bind {A C} (m : prog A) (k : A -> prog C) :
  keeps f m -> (forall a, keeps f (k a)) -> keeps f (bind m k).
Proof.
  intros Hm Hk c b c2 tr E.
  apply bind_Done in E as (a & c1 & tr1 & tr2 & E1 & E2 & _).
  rewrite (Hk a _ _ _ _ E2). apply (Hm _ _ _ _ E1).
Qed.

Lemma keeps_when b m : keeps f m -> keeps f (when b m).
Proof. intros H. destruct b; [exact H|apply keeps_ret]. Qed.

Lemma keeps_quiet {A} (m : prog A) : keeps f m -> keeps f (quiet m).
Proof.
  intros H c a c' tr E. unfold quiet in E.
  destruct (m c) as [a1 c1 tr1| |] eqn:Em; try discriminate.
  injection E as _ <- _. apply (H _ _ _ _ Em).
Qed.

Hypothesis f_slots : forall v c, f (set_slots v c) = f c.

Lemma keeps_load_slot {A} i fld (get : frame_slot -> A) : keeps f (load_slot i fld get).
Proof.
  intros c a c' tr E. unfold load_slot in E.
  destruct (slot_at c i); [|discriminate]. injection E as _ <- _. reflexivity.
Qed.

Lemma keeps_store_slot i fld upd : keeps f (store_slot i fld upd).
Proof.
  intros c a c' tr E. unfold store_slot in E.
  destruct (slot_at c i); [|discriminate]. injection E as _ <- _. apply f_slots.
Qed.

End Keeps.

Ltac keeps_step :=
  first
    [ apply keeps_ret | apply keeps_emit | apply keeps_gets | apply keeps_starve
    | apply keeps_undefined
    | apply keeps_load_slot | apply keeps_store_slot; intros; reflexivity
    | apply keeps_modify; intros; reflexivity
    | apply keeps_when
    | apply keeps_quiet
    | apply keeps_bind; [|intros ?]
    | match goal with
      | |- keeps _ (if ?b then _ else _) => destruct b
      | |- keeps _ (match ?b with _ => _ end) => destruct b
      end ].

Lemma release_keeps_counters t b : keeps counters (release_slot_ticket t b).
Proof. unfold release_slot_ticket. repeat keeps_step. Qed.

Lemma others_release_keeps_counters rs : keeps counters (others_release rs).
Proof.
  induction rs as [|r rs IH]; simpl; [apply keeps_ret|].
  apply keeps_bind; [apply keeps_quiet, release_keeps_counters|intros _; exact IH].
Qed.

Lemma scan_from_keeps_counters n : forall i, keeps counters (scan_from n i).
Proof.
  induction n as [|n IH]; intros i; simpl; [apply keeps_ret|].
  apply keeps_bind; [apply keeps_load_slot|]. intros used.
  destruct (negb used); [repeat keeps_step|apply IH].
Qed.

Lemma scan_keeps_counters : keeps counters scan_free_slot.
Proof.
  unfold scan_free_slot. apply keeps_bind; [apply keeps_emit|]. intros _.
  apply keeps_bind; [apply keeps_gets|]. intros n. apply scan_from_keeps_counters.
Qed.

Lemma acquire_loop_keeps_counters deadline sched : keeps counters (acquire_loop sched deadline).
Proof.
  induction sched as [|w sched IH]; simpl.
  - apply keeps_bind; [apply scan_keeps_counters|]. intros [t|]; repeat keeps_step.
  - apply keeps_bind; [apply scan_keeps_counters|]. intros [t|]; [apply keeps_ret|].
    apply keeps_bind; [apply keeps_emit|]. intros _.
    destruct (wk_now w >=? deadline); [repeat keeps_step|].
    apply keeps_bind; [apply keeps_emit|]. intros _.
    apply keeps_bind; [apply others_release_keeps_counters|]. intros _.
    apply keeps_bind; [apply keeps_emit|]. intros _. exact IH.
Qed.

Lemma acquire_keeps_counters t0 sched : keeps counters (acquire_free_slot t0 sched).
Proof.
  unfold acquire_free_slot. apply keeps_bind; [apply keeps_emit|]. intros _.
  apply keeps_bind; [apply keeps_gets|]. intros n. apply acquire_loop_keeps_counters.
Qed.

Lemma copy_keeps_counters i src : keeps counters (copy_frame_to_slot565 i src).
Proof. unfold copy_frame_to_slot565. repeat keeps_step. Qed.

Lemma overlay_keeps_counters e i : keeps counters (overlay_results_on_slot e i).
Proof. unfold overlay_results_on_slot. repeat keeps_step. Qed.

Lemma build_keeps_counters e t : keeps counters (build_frame_buffer e t).
Proof.
  unfold build_frame_buffer.
  destruct (negb (ie_cookie_ok e)); [apply keeps_ret|].
  apply keeps_bind; [apply keeps_load_slot|]. intros _.
  destruct (negb (ie_wrapped_ok e)).
  - apply keeps_bind; [apply release_keeps_counters|]. intros _. apply keeps_ret.
  - repeat keeps_step.
Qed.

Lemma u64_add_l a b : u64 (u64 a + b) = u64 (a + b).
Proof. unfold u64. apply Z.add_mod_idemp_l. lia. Qed.

Lemma dispatch_frame_counters e t c ctl c' tr :
  dispatch_frame e t c = Done ctl c' tr ->
  captured_frames c' = captured_frames c /\ infer_frame_seq c' = infer_frame_seq c /\
  pushed_frames c' =
    match ctl with
    | LoopContinue => u64 (pushed_frames c + 1)
    | LoopBreak => pushed_frames c
    end.
Proof.
  unfold dispatch_frame. intros E.
  apply bind_Done in E as (buf & c1 & tr1 & tr2 & E1 & E2 & _).
  pose proof (build_keeps_counters e t _ _ _ _ E1) as K1.
  destruct buf as [b|].
  2: { injection E2 as <- <- _. unfold counters in K1. injection K1 as -> -> ->. auto. }
  apply bind_Done in E2 as ([] & c2 & tr3 & tr4 & E2 & E3 & _).
  pose proof (others_release_keeps_counters _ _ _ _ _ E2) as K2.
  destruct (negb (ie_flow e =? GST_FLOW_OK)).
  - apply bind_Done in E3 as ([] & c3 & tr5 & tr6 & E3 & E4 & _).
    pose proof (release_keeps_counters _ _ _ _ _ _ E3) as K3.
    injection E4 as <- <- _.
    unfold counters in *. injection K1 as A1 A2 A3. injection K2 as B1 B2 B3.
    injection K3 as C1 C2 C3. repeat split; congruence.
  - apply bind_Done in E3 as ([] & c3 & tr5 & tr6 & E3 & E4 & _).
    injection E3 as <- _. injection E4 as <- <- _.
    unfold counters in *. injection K1 as A1 A2 A3. injection K2 as B1 B2 B3.
    simpl. repeat split; congruence.
Qed.

(** One turn of the loop: a turn that goes on has captured, offered
    and displayed one frame; a turn that ends the loop has displayed
    none, and has captured one exactly if it has offered one. *)
Lemma capture_iteration_counters e c ctl c' tr :
  capture_iteration e c = Done ctl c' tr ->
  match ctl with
  | LoopContinue =>
      captured_frames c' = u64 (captured_frames c + 1) /\
      infer_frame_seq c' = u64 (infer_frame_seq c + 1) /\
      pushed_frames c' = u64 (pushed_frames c + 1)
  | LoopBreak =>
      pushed_frames c' = pushed_frames c /\
      ((captured_frames c' = captured_frames c /\ infer_frame_seq c' = infer_frame_seq c) \/
       (captured_frames c' = u64 (captured_frames c + 1) /\
        infer_frame_seq c' = u64 (infer_frame_seq c + 1)))
  end.
Proof.
  unfold capture_iteration. intros E.
  apply bind_Done in E as ([] & c1 & tr1 & tr2 & E1 & E & _).
  assert (counters c1 = counters c) as K1.
  { revert E1. apply keeps_when. apply keeps_modify. reflexivity. }
  apply bind_Done in E as (r & c2 & tr3 & tr4 & E2 & E & _).
  injection E2 as <- <- _.
  unfold counters in K1. injection K1 as A1 A2 A3.
  destruct (negb (running c1)).
  { injection E as <- <- _. rewrite A1, A2, A3. auto. }
  destruct (ie_bus_status e <? 0).
  { apply bind_Done in E as ([] & c3 & tr5 & tr6 & E3 & E & _).
    injection E3 as <- _. injection E as <- <- _. simpl. rewrite A1, A2, A3. auto. }
  destruct (ie_dma_status e <? 0).
  { injection E as <- <- _. rewrite A1, A2, A3. auto. }
  apply bind_Done in E as ([] & c3 & tr5 & tr6 & E3 & E & _). injection E3 as <- _.
  apply bind_Done in E as ([] & c4 & tr7 & tr8 & E4 & E & _). injection E4 as <- _.
  apply bind_Done in E as (raw & c5 & tr9 & tr10 & E5 & E & _). injection E5 as _ <- _.
  apply bind_Done in E as ([] & c6 & tr11 & tr12 & E6 & E & _).
  pose proof E6 as E6'. apply push_fields in E6' as (_ & _ & F3 & _ & _ & _).
  rewrite push_latest_to_infer_eq in E6. injection E6 as Hc6 _.
  assert (captured_frames c6 = u64 (captured_frames c + 1) /\
          pushed_frames c6 = pushed_frames c /\
          infer_frame_seq c6 = u64 (infer_frame_seq c + 1)) as (G1 & G2 & G3).
  { rewrite F3. subst c6. rewrite <- A1, <- A2, <- A3.
    destruct c1 as [? ? ? ? ? ? ? ? ? ? ? ? ? ? ? [] ?]; simpl; auto. }
  clear Hc6 F3.
  apply bind_Done in E as (acq & c7 & tr13 & tr14 & E7 & E & _).
  pose proof (acquire_keeps_counters _ _ _ _ _ _ E7) as K7.
  unfold counters in K7. injection K7 as H1 H2 H3.
  destruct (fst acq <? 0).
  { injection E as <- <- _. rewrite H1, H2, H3, G1, G2, G3. auto. }
  apply bind_Done in E as ([] & c8 & tr15 & tr16 & E8 & E & _).
  pose proof (copy_keeps_counters _ _ _ _ _ _ E8) as K8.
  unfold counters in K8. injection K8 as I1 I2 I3.
  apply bind_Done in E as ([] & c9 & tr17 & tr18 & E9 & E & _).
  pose proof (overlay_keeps_counters _ _ _ _ _ _ E9) as K9.
  unfold counters in K9. injection K9 as J1 J2 J3.
  apply dispatch_frame_counters in E as (L1 & L2 & L3).
  rewrite L1, L2, L3, J1, J2, J3, I1, I2, I3, H1, H2, H3, G1, G2, G3.
  destruct ctl; auto.
Qed.

(** X14. The counters of the capture loop stay together.  When the
    loop ends after [n] full turns, [pushed_frames] has grown by [n]
    (as a 64-bit counter); [captured_frames] and [infer_frame_seq]
    have both grown by [n], or both by [n + 1]: every captured frame
    is offered to the worker, and at most one captured frame, the one
    of the turn that ended the loop, is not handed to the display. *)
Theorem capture_loop_counters_stay_together
    (envs : list iter_env) (c : app_ctx) (n : nat) (c' : app_ctx) (tr : list event) :
  0 <= pushed_frames c < 2 ^ 64 -> 0 <= captured_frames c < 2 ^ 64 ->
  0 <= infer_frame_seq c < 2 ^ 64 ->
  capture_loop envs c = Done n c' tr ->
  pushed_frames c' = u64 (pushed_frames c + Z.of_nat n) /\
  ((captured_frames c' = u64 (captured_frames c + Z.of_nat n) /\
    infer_frame_seq c' = u64 (infer_frame_seq c + Z.of_nat n)) \/
   (captured_frames c' = u64 (captured_frames c + (Z.of_nat n + 1)) /\
    infer_frame_seq c' = u64 (infer_frame_seq c + (Z.of_nat n + 1)))).
Proof.
  revert c n c' tr. induction envs as [|e envs IH]; intros c n c' tr Hp Hc Hs E; simpl in E.
  - discriminate.
  - apply bind_Done in E as (ctl & c1 & tr1 & tr2 & E1 & E & _).
    apply capture_iteration_counters in E1.
    destruct ctl.
    + apply bind_Done in E as (m & c2 & tr3 & tr4 & E2 & E & _).
      injection E as <- <- _.
      destruct E1 as (A1 & A2 & A3).
      destruct (IH c1 m c2 tr3) as (P & CS); auto.
      1-3: rewrite ?A1, ?A2, ?A3; apply u64_range.
      rewrite A1, A2, A3, !u64_add_l in *.
      replace (Z.of_nat (S m)) with (1 + Z.of_nat m) by lia.
      rewrite !Z.add_assoc.
      split; [exact P|].
      destruct CS as [(C1 & C2)|(C1 & C2)]; [left|right]; rewrite C1, C2;
        split; f_equal; lia.
    + injection E as <- <- _. destruct E1 as (B1 & B2).
      simpl. rewrite !Z.add_0_r, !u64_small by assumption.
      split; [exact B1|]. exact B2.
Qed.

Lemma capture_loop_counters_stay_together_witness :
  exists n c' tr,
    capture_loop [env_pushed; env_push_refused] fresh_pool = Done n c' tr /\
    pushed_frames c' = u64 (pushed_frames fresh_pool + Z.of_nat n) /\
    ((captured_frames c' = u64 (captured_frames fresh_pool + Z.of_nat n) /\
      infer_frame_seq c' = u64 (infer_frame_seq fresh_pool + Z.of_nat n)) \/
     (captured_frames c' = u64 (captured_frames fresh_pool + (Z.of_nat n + 1)) /\
      infer_frame_seq c' = u64 (infer_frame_seq fresh_pool + (Z.of_nat n + 1)))).
Proof.
  eexists _, _, _. split; [vm_compute; reflexivity|].
  eapply (capture_loop_counters_stay_together [env_pushed; env_push_refused] fresh_pool);
    first [vm_compute; reflexivity | simpl; lia].
Defined.

(** * The driver: plan, steps and ioctls *)

(** ** The steps of a transfer *)

Lemma steps_rev_app l1 l2 : steps_rev (l1 ++ l2) = steps_rev l1 ++ steps_rev l2.
Proof. apply List.filter_app. Qed.

Section StepFacts.

Variable elapse : world -> mem * Z.
Variable msecs_to_jiffies : Z -> Z.
Variable P : dma_params.
Variable dma_handle : Z.

Lemma poll_loop_steps fuel : forall tail0 tail1 deadline cur count w res w',
  poll_loop elapse P fuel tail0 tail1 deadline cur count w = (res, w') ->
  steps_rev (w_log w') = steps_rev (w_log w).
Proof.
  induction fuel as [|fuel IH]; intros tail0 tail1 deadline cur count w res w' Hrun;
    simpl in Hrun.
  - injection Hrun as _ <-. reflexivity.
  - destruct (sentinel_left tail0 tail1 (tick elapse w)).
    2: { injection Hrun as _ <-. reflexivity. }
    destruct (time_after _ deadline).
    { injection Hrun as _ <-. reflexivity. }
    destruct (cur <=? 0).
    { apply IH in Hrun. exact Hrun. }
    repeat match type of Hrun with
           | context [if ?b then _ else _] => destruct b
           end; apply IH in Hrun; exact Hrun.
Qed.

Lemma issue_chunk_steps n addr cs w tail0 tail1 w1 :
  issue_chunk P dma_handle n addr cs w = (tail0, tail1, w1) ->
  steps_rev (w_log w1) = rev (chunk_steps P dma_handle (n, addr, cs)) ++ steps_rev (w_log w).
Proof.
  unfold issue_chunk, chunk_steps. intros H. injection H as _ _ <-.
  destruct (verbose_chunk P n), (cs >=? 8); reflexivity.
Qed.

Lemma chunk_pacing_steps w : steps_rev (w_log (chunk_pacing P w)) = steps_rev (w_log w).
Proof.
  unfold chunk_pacing.
  destruct (dma_chunk_delay_us P >=? 1000); [reflexivity|].
  destruct (dma_chunk_delay_us P >? 0); reflexivity.
Qed.

(** The loop goes through its plan, chunk by chunk, until a poll
    fails. *)
Lemma transfer_loop_plan fuel : forall pf remaining addr n w res w',
  transfer_loop elapse msecs_to_jiffies P dma_handle fuel pf remaining addr n w = (res, w') ->
  exists cs,
    cs `prefix_of` chunk_plan fuel remaining addr /\
    (res = XferReturn 0 -> cs = chunk_plan fuel remaining addr) /\
    steps_rev (w_log w') =
      rev (flat_map (chunk_steps P dma_handle) (numbered n cs)) ++ steps_rev (w_log w) /\
    chunks_of_rev (w_log w') = rev cs ++ chunks_of_rev (w_log w).
Proof.
  induction fuel as [|fuel IH]; intros pf remaining addr n w res w' Hrun.
  - injection Hrun as <- <-. exists []. simpl.
    split; [apply prefix_nil|]. split; [discriminate|]. auto.
  - rewrite transfer_loop_S in Hrun. simpl chunk_plan.
    destruct (remaining >? 0).
    2: { injection Hrun as <- <-. exists []. simpl.
         split; [apply prefix_nil|]. auto. }
    destruct (pick_chunk remaining addr) as [cs|]; [|apply IH in Hrun; exact Hrun].
    destruct (issue_chunk P dma_handle n addr cs w) as [[tail0 tail1] w1] eqn:Hissue.
    pose proof (issue_chunk_steps _ _ _ _ _ _ _ Hissue) as Hs1.
    destruct (issue_chunk_log P dma_handle n addr cs w tail0 tail1 w1 Hissue) as (Hc1 & _).
    destruct (poll_loop elapse P pf tail0 tail1 _ (dma_poll_sleep_us P) 0 w1)
      as [pres w2] eqn:Hpoll.
    pose proof (poll_loop_steps _ _ _ _ _ _ _ _ _ Hpoll) as Hs2.
    destruct (poll_loop_log elapse P _ _ _ _ _ _ _ _ _ Hpoll) as (Hc2 & _).
    destruct pres.
    + apply IH in Hrun as (rest & Hpre & Hall & Hsteps & Hchunks).
      destruct (chunk_pacing_log P w2) as (Hc3 & _).
      exists ((addr, cs) :: rest).
      split; [apply prefix_cons; exact Hpre|].
      split; [intros E; rewrite (Hall E); reflexivity|].
      rewrite Hsteps, Hchunks, chunk_pacing_steps, Hc3, Hs2, Hc2, Hs1, Hc1.
      cbn [numbered flat_map fst snd rev]. rewrite rev_app_distr, <- !app_assoc.
      split; reflexivity.
    + injection Hrun as <- <-. exists [(addr, cs)].
      split; [apply prefix_cons, prefix_nil|]. split; [discriminate|].
      rewrite Hs2, Hc2, Hs1, Hc1. cbn [numbered flat_map fst snd rev].
      rewrite app_nil_r. split; reflexivity.
    + injection Hrun as <- <-. exists [(addr, cs)].
      split; [apply prefix_cons, prefix_nil|]. split; [discriminate|].
      rewrite Hs2, Hc2, Hs1, Hc1. cbn [numbered flat_map fst snd rev].
      rewrite app_nil_r. split; reflexivity.
Qed.

End StepFacts.

(** ** The plan *)

Lemma chunk_plan_zero fuel addr : chunk_plan fuel 0 addr = [].
Proof. destruct fuel; reflexivity. Qed.

Lemma chunk_plan_step fuel remaining addr cs :
  0 < remaining -> pick_chunk remaining addr = Some cs ->
  chunk_plan (S fuel) remaining addr =
    (addr, cs) :: chunk_plan fuel (u64 (remaining - cs)) (u64 (addr + cs)).
Proof.
  intros Hr Hp. simpl. destruct (Z.gtb_spec remaining 0); [|lia]. rewrite Hp. reflexivity.
Qed.

(** The chunks of a plan lie in the requested bytes, each within a
    page. *)
Lemma chunk_plan_inside fuel : forall remaining addr,
  0 <= remaining < 2 ^ 64 -> 0 <= addr -> addr + remaining <= 2 ^ 64 ->
  Forall (fun c => chunk_inside addr remaining c /\ sound_chunk c)
    (chunk_plan fuel remaining addr).
Proof.
  induction fuel as [|fuel IH]; intros remaining addr Hr Ha Hend; [constructor|].
  destruct (Z_le_gt_dec remaining 0) as [Hz|Hpos].
  { simpl. destruct (Z.gtb_spec remaining 0); [lia|constructor]. }
  destruct (pick_chunk_spec remaining addr ltac:(lia) ltac:(lia))
    as (cs & Hpick & Hcs & Hle & Hpage & _).
  rewrite (chunk_plan_step _ _ _ _ (Z.gt_lt _ _ Hpos) Hpick).
  constructor.
  - unfold chunk_inside, sound_chunk. simpl. lia.
  - rewrite (u64_small (remaining - cs)) by lia.
    destruct (Z.eq_dec remaining cs) as [->|Hne].
    + rewrite Z.sub_diag, chunk_plan_zero. constructor.
    + rewrite u64_small by lia.
      eapply Forall_impl; [apply IH; lia|].
      intros c ((H1 & H2) & H3). split; [|exact H3]. unfold chunk_inside. lia.
Qed.

(** With enough turns the plan covers the request. *)
Lemma chunk_plan_sum fuel : forall remaining addr,
  0 <= remaining < 2 ^ 64 -> 0 <= addr < 2 ^ 64 ->
  (Z.to_nat remaining < fuel)%nat ->
  sum_sizes (chunk_plan fuel remaining addr) = remaining /\
  chained addr (chunk_plan fuel remaining addr).
Proof.
  induction fuel as [|fuel IH]; intros remaining addr Hr Ha Hf; [lia|].
  destruct (Z_le_gt_dec remaining 0) as [Hz|Hpos].
  { simpl. destruct (Z.gtb_spec remaining 0); [lia|]. simpl. split; [lia|exact I]. }
  destruct (pick_chunk_spec remaining addr ltac:(lia) Ha)
    as (cs & Hpick & Hcs & Hle & Hpage & _).
  rewrite (chunk_plan_step _ _ _ _ (Z.gt_lt _ _ Hpos) Hpick).
  destruct (IH (u64 (remaining - cs)) (u64 (addr + cs))) as (Hsum & Hch).
  - apply u64_range.
  - apply u64_range.
  - rewrite u64_small by lia. lia.
  - simpl. rewrite Hsum. rewrite (u64_small (remaining - cs)) by lia.
    split; [lia|]. split; [reflexivity|].
    rewrite (u64_small (remaining - cs)) in Hch by lia. exact Hch.
Qed.

Lemma chunk_plan_pages fuel : forall remaining addr,
  0 <= remaining < 2 ^ 64 -> 0 <= addr -> addr + remaining <= 2 ^ 64 -> addr mod 4096 = 0 ->
  (Z.to_nat remaining < fuel)%nat ->
  chunk_plan fuel remaining addr =
    page_chunks (Z.to_nat ((remaining + 4095) / 4096)) remaining addr.
Proof.
  induction fuel as [|fuel IH]; intros remaining addr Hr Ha Hend Hal Hf; [lia|].
  destruct (Z_le_gt_dec remaining 0) as [Hz|Hpos].
  { assert (remaining = 0) as -> by lia. reflexivity. }
  destruct (pick_chunk_spec remaining addr ltac:(lia) ltac:(lia))
    as (cs & Hpick & Hcs & Hle & Hpage & Hmin).
  specialize (Hmin Hal). change DMA_MAX_LEN_BYTES with 4096 in Hmin.
  rewrite (chunk_plan_step _ _ _ _ (Z.gt_lt _ _ Hpos) Hpick).
  assert ((remaining + 4095) / 4096 = (remaining - 4096 + 4095) / 4096 + 1) as Hdiv.
  { replace (remaining + 4095) with (remaining - 4096 + 4095 + 1 * 4096) by lia.
    rewrite Z.div_add by lia. reflexivity. }
  destruct (Z_le_gt_dec remaining 4096) as [Hlast|Hmore].
  - assert (cs = remaining) as -> by lia.
    rewrite Z.sub_diag, (u64_small 0), chunk_plan_zero by lia.
    assert ((remaining + 4095) / 4096 = 1) as ->.
    { symmetry. apply Z.div_unique with (remaining - 1); lia. }
    simpl. rewrite Z.min_l by lia. reflexivity.
  - assert (cs = 4096) as -> by lia.
    assert (0 <= (remaining - 4096 + 4095) / 4096) as Hq by (apply Z.div_pos; lia).
    rewrite Hdiv.
    replace (Z.to_nat ((remaining - 4096 + 4095) / 4096 + 1))
      with (S (Z.to_nat ((remaining - 4096 + 4095) / 4096))) by lia.
    cbn [page_chunks]. rewrite Z.min_r by lia. f_equal.
    rewrite !u64_small by lia.
    apply IH; try lia.
    replace (addr + 4096) with (addr + 1 * 4096) by lia.
    rewrite Z.mod_add by lia. exact Hal.
Qed.

Lemma page_chunks_lookup k : forall remaining addr (i : nat) c,
  page_chunks k remaining addr !! i = Some c ->
  c = (addr + 4096 * Z.of_nat i, Z.min (remaining - 4096 * Z.of_nat i) 4096).
Proof.
  induction k as [|k IH]; intros remaining addr i c Hi; [discriminate|].
  destruct i as [|i]; simpl in Hi.
  - injection Hi as <-. f_equal; [lia|]. f_equal. lia.
  - apply IH in Hi. subst c. f_equal; [lia|]. f_equal. lia.
Qed.

Lemma page_chunks_length k remaining addr : length (page_chunks k remaining addr) = k.
Proof. revert remaining addr. induction k as [|k IH]; intros; simpl; [|rewrite IH]; reflexivity. Qed.

Lemma chunk_plan_dwords fuel : forall remaining addr,
  0 <= remaining < 2 ^ 64 -> 0 <= addr -> addr + remaining <= 2 ^ 64 ->
  remaining mod 4 = 0 -> addr mod 4 = 0 ->
  Forall (fun c => 4 <= snd c) (chunk_plan fuel remaining addr).
Proof.
  induction fuel as [|fuel IH]; intros remaining addr Hr Ha Hend Hr4 Ha4; [constructor|].
  destruct (Z_le_gt_dec remaining 0) as [Hz|Hpos].
  { simpl. destruct (Z.gtb_spec remaining 0); [lia|constructor]. }
  destruct (pick_chunk_spec remaining addr ltac:(lia) ltac:(lia))
    as (cs & Hpick & Hcs & Hle & Hpage & _).
  pose proof (dword_chunk _ _ _ Hpick ltac:(lia) Hr4 Ha4) as Hcs4.
  rewrite (chunk_plan_step _ _ _ _ (Z.gt_lt _ _ Hpos) Hpick).
  assert (4 <= cs) as Hge.
  { destruct (Z_lt_ge_dec cs 4) as [Hlt|Hge]; [|lia].
    rewrite Z.mod_small in Hcs4 by lia. lia. }
  constructor; [exact Hge|].
  rewrite (u64_small (remaining - cs)) by lia.
  destruct (Z.eq_dec remaining cs) as [->|Hne].
  - rewrite Z.sub_diag, chunk_plan_zero. constructor.
  - rewrite u64_small by lia. apply IH; try lia.
    + rewrite Zminus_mod, Hr4, Hcs4. reflexivity.
    + rewrite Zplus_mod, Ha4, Hcs4. reflexivity.
Qed.

Lemma address_halves a :
  0 <= a < 2 ^ 64 -> lower_32_bits a + 2 ^ 32 * upper_32_bits a = a.
Proof.
  intros Ha. unfold lower_32_bits, upper_32_bits, u32.
  rewrite Z.shiftr_div_pow2 by lia.
  assert (0 <= a / 2 ^ 32 < 2 ^ 32) as Hq.
  { split; [apply Z.div_pos; lia|]. apply Z.div_lt_upper_bound; lia. }
  rewrite (Z.mod_small (a / 2 ^ 32)) by exact Hq.
  pose proof (Z.div_mod a (2 ^ 32) ltac:(lia)). lia.
Qed.

Lemma prefix_Forall {A} (Q : A -> Prop) (l1 l2 : list A) :
  l1 `prefix_of` l2 -> Forall Q l2 -> Forall Q l1.
Proof. intros (k & ->) H. apply Forall_app in H as (H & _). exact H. Qed.

(** X15. A transfer goes through its plan chunk by chunk.  The chunks
    it issues are the first chunks of the plan, all of them when it
    returns 0, and each lies in the [size] bytes of the buffer and has
    an address that the two address registers give back.  Apart from
    the waiting, the driver does this and nothing else: the two test
    reads of BAR0; then for each chunk, with its number, the
    sentinels (after the four marker words in verbose mode), the low
    and the high address register, the command register last, and one
    read of BAR0 that flushes the three writes. *)
Theorem transfer_goes_through_its_plan
    (elapse : world -> mem * Z) (m2j : Z -> Z) (P : dma_params) (dma_handle : Z)
    (pf : nat) (size : Z) (w : world) (res : xfer_result) (w' : world) :
  0 <= size < 2 ^ 64 -> 0 <= dma_handle -> dma_handle + size <= 2 ^ 64 ->
  fpga_dma_perform_transfer elapse m2j P dma_handle pf size w = (res, w') ->
  exists cs,
    cs `prefix_of` transfer_plan size dma_handle /\
    (res = XferReturn 0 -> cs = transfer_plan size dma_handle) /\
    emitted_chunks w' = emitted_chunks w ++ cs /\
    driver_steps w' =
      driver_steps w ++ [ActIoread32 0x00; ActIoread32 0x04] ++
      flat_map (chunk_steps P dma_handle) (numbered 0 cs) /\
    Forall (fun c => chunk_inside dma_handle size c /\
                     lower_32_bits (fst c) + 2 ^ 32 * upper_32_bits (fst c) = fst c) cs.
Proof.
  intros Hs Hh Hend Hrun. unfold fpga_dma_perform_transfer in Hrun.
  apply transfer_loop_plan in Hrun as (cs & Hpre & Hall & Hsteps & Hchunks).
  exists cs. fold (transfer_plan size dma_handle) in Hpre, Hall.
  split; [exact Hpre|]. split; [exact Hall|]. split; [|split].
  - apply emitted_chunks_app. exact Hchunks.
  - unfold driver_steps. rewrite Hsteps. simpl.
    rewrite rev_app_distr, rev_involutive. simpl.
    rewrite <- !app_assoc. reflexivity.
  - apply (prefix_Forall _ _ _ Hpre).
    eapply Forall_impl; [apply chunk_plan_inside; lia|].
    intros c ((H1 & H2) & (H3 & H4 & H5)). split; [split; assumption|].
    apply address_halves. exact H3.
Qed.

Lemma transfer_goes_through_its_plan_witness :
  exists cs,
    cs `prefix_of` transfer_plan 4097 0x10000000 /\
    (fst stalled_run = XferReturn 0 -> cs = transfer_plan 4097 0x10000000) /\
    emitted_chunks (snd stalled_run) = emitted_chunks blank_world ++ cs /\
    driver_steps (snd stalled_run) =
      driver_steps blank_world ++ [ActIoread32 0x00; ActIoread32 0x04] ++
      flat_map (chunk_steps sim_params 0x10000000) (numbered 0 cs) /\
    Forall (fun c => chunk_inside 0x10000000 4097 c /\
                     lower_32_bits (fst c) + 2 ^ 32 * upper_32_bits (fst c) = fst c) cs.
Proof.
  apply (transfer_goes_through_its_plan (sim_device 0x10000000 1) sim_msecs_to_jiffies
           sim_params 0x10000000 100 4097 blank_world (fst stalled_run) (snd stalled_run));
    [lia|lia|lia|exact (surjective_pairing stalled_run)].
Defined.

(** X16. On a page-aligned buffer the plan is one chunk per page:
    [(size + 4095) / 4096] chunks, chunk [i] at [dma_handle + 4096 i]
    with 4096 bytes, or with what is left of [size] for the last
    one. *)
Theorem page_aligned_plan_is_one_chunk_per_page (size dma_handle : Z) :
  0 <= size < 2 ^ 64 -> 0 <= dma_handle -> dma_handle + size <= 2 ^ 64 ->
  dma_handle mod 4096 = 0 ->
  Z.of_nat (length (transfer_plan size dma_handle)) = (size + 4095) / 4096 /\
  forall (i : nat) c,
    transfer_plan size dma_handle !! i = Some c ->
    c = (dma_handle + 4096 * Z.of_nat i, Z.min (size - 4096 * Z.of_nat i) 4096).
Proof.
  intros Hs Hh Hend Hal. unfold transfer_plan.
  rewrite chunk_plan_pages by (try assumption; lia).
  split.
  - rewrite page_chunks_length. apply Z2Nat.id. apply Z.div_pos; lia.
  - intros i c Hi. apply page_chunks_lookup in Hi. exact Hi.
Qed.

Lemma page_aligned_plan_is_one_chunk_per_page_witness :
  Z.of_nat (length (transfer_plan FPGA_FRAME_SIZE_BGR565 0x10000000)) =
    (FPGA_FRAME_SIZE_BGR565 + 4095) / 4096 /\
  forall (i : nat) c,
    transfer_plan FPGA_FRAME_SIZE_BGR565 0x10000000 !! i = Some c ->
    c = (0x10000000 + 4096 * Z.of_nat i,
         Z.min (FPGA_FRAME_SIZE_BGR565 - 4096 * Z.of_nat i) 4096).
Proof.
  apply (page_aligned_plan_is_one_chunk_per_page FPGA_FRAME_SIZE_BGR565 0x10000000);
    [vm_compute; split; [discriminate|reflexivity]|lia|vm_compute; discriminate|reflexivity].
Defined.

Lemma chunk_steps_inside P dma_handle size n c :
  dma_verbose P = false ->
  chunk_inside dma_handle size c -> 0 <= dma_handle -> fst c < 2 ^ 64 -> 4 <= snd c ->
  Forall (store_inside size) (chunk_steps P dma_handle (n, fst c, snd c)).
Proof.
  intros Hv (H1 & H2) Hh Hlt Hge. unfold chunk_steps, verbose_chunk. rewrite Hv. simpl.
  rewrite u64_small by lia.
  destruct (Z.geb_spec (snd c) 8); simpl; repeat constructor; simpl; lia.
Qed.

Lemma numbered_steps_inside P dma_handle size cs : forall n,
  dma_verbose P = false -> 0 <= dma_handle ->
  Forall (fun c => chunk_inside dma_handle size c /\ fst c < 2 ^ 64 /\ 4 <= snd c) cs ->
  Forall (store_inside size) (flat_map (chunk_steps P dma_handle) (numbered n cs)).
Proof.
  induction cs as [|c cs IH]; intros n Hv Hh Hall; [constructor|].
  apply Forall_cons in Hall as ((H1 & H2 & H3) & Hall).
  cbn [numbered flat_map]. apply Forall_app. split.
  - apply chunk_steps_inside; assumption.
  - apply IH; assumption.
Qed.

(** X17. With a size and a bus address that are multiples of 4 and
    verbose mode off, every store of the driver into [dma_buf] during
    a transfer (its sentinels) lies within the [size] bytes asked
    for: the driver itself writes neither before the buffer nor after
    the requested bytes. *)
Theorem sentinels_stay_inside_for_dword_sizes
    (elapse : world -> mem * Z) (m2j : Z -> Z) (P : dma_params) (dma_handle : Z)
    (pf : nat) (size : Z) (w : world) (res : xfer_result) (w' : world) :
  dma_verbose P = false ->
  0 <= size < 2 ^ 64 -> 0 <= dma_handle -> dma_handle + size <= 2 ^ 64 ->
  size mod 4 = 0 -> dma_handle mod 4 = 0 ->
  fpga_dma_perform_transfer elapse m2j P dma_handle pf size w = (res, w') ->
  exists steps,
    driver_steps w' = driver_steps w ++ steps /\ Forall (store_inside size) steps.
Proof.
  intros Hv Hs Hh Hend Hs4 Hh4 Hrun. unfold fpga_dma_perform_transfer in Hrun.
  apply transfer_loop_plan in Hrun as (cs & Hpre & _ & Hsteps & _).
  exists ([ActIoread32 0x00; ActIoread32 0x04] ++
          flat_map (chunk_steps P dma_handle) (numbered 0 cs)).
  split.
  - unfold driver_steps. rewrite Hsteps. simpl.
    rewrite rev_app_distr, rev_involutive. simpl.
    rewrite <- !app_assoc. reflexivity.
  - apply Forall_app. split; [repeat constructor|].
    apply numbered_steps_inside; [exact Hv|exact Hh|].
    apply (prefix_Forall _ _ _ Hpre).
    pose proof (chunk_plan_inside (S (Z.to_nat size)) size dma_handle Hs Hh Hend) as Hin.
    pose proof (chunk_plan_dwords (S (Z.to_nat size)) size dma_handle Hs Hh Hend Hs4 Hh4)
      as Hdw.
    rewrite Forall_forall in Hin, Hdw. apply Forall_forall. intros c Hc.
    destruct (Hin c Hc) as (Hi & (H3 & _)). split; [exact Hi|]. split; [lia|].
    apply (Hdw c Hc).
Qed.

Lemma sentinels_stay_inside_for_dword_sizes_witness :
  exists steps,
    driver_steps (snd one_page_run) = driver_steps blank_world ++ steps /\
    Forall (store_inside 4096) steps.
Proof.
  apply (sentinels_stay_inside_for_dword_sizes (sim_device 0x10000000 99)
           sim_msecs_to_jiffies sim_params 0x10000000 100 4096 blank_world
           (fst one_page_run) (snd one_page_run));
    [reflexivity|lia|lia|lia|reflexivity|reflexivity|exact (surjective_pairing one_page_run)].
Defined.

(** ** What the device is told *)

Lemma commanded_from_app l1 : forall lo hi,
  exists lo' hi', forall l2,
    commanded_from lo hi (l1 ++ l2) = commanded_from lo hi l1 ++ commanded_from lo' hi' l2.
Proof.
  induction l1 as [|a l1 IH]; intros lo hi.
  - exists lo, hi. reflexivity.
  - destruct a as [off|off v|off v|n addr size| |a b|us]; cbn [app commanded_from];
      try apply IH.
    destruct (off =? BAR1_DMA_L_ADDR); [apply IH|].
    destruct (off =? BAR1_DMA_H_ADDR); [apply IH|].
    destruct (off =? BAR1_DMA_CMD_REG); [|apply IH].
    destruct (IH lo hi) as (lo' & hi' & H). exists lo', hi'. intros l2.
    rewrite H. reflexivity.
Qed.

(** A chunk is commanded with the address the two registers were
    given just before. *)
Lemma commanded_chunk_steps P dma_handle n addr size lo hi rest :
  commanded_from lo hi (chunk_steps P dma_handle (n, addr, size) ++ rest) =
    (lower_32_bits addr + 2 ^ 32 * upper_32_bits addr,
     cmd_length_bytes (dma_cmd_word size)) ::
    commanded_from (lower_32_bits addr) (upper_32_bits addr) rest.
Proof. unfold chunk_steps. destruct (verbose_chunk P n), (size >=? 8); reflexivity. Qed.

Lemma commanded_numbered P dma_handle cs : forall n lo hi,
  commanded_from lo hi (flat_map (chunk_steps P dma_handle) (numbered n cs)) =
    map (fun c => (lower_32_bits (fst c) + 2 ^ 32 * upper_32_bits (fst c),
                   cmd_length_bytes (dma_cmd_word (snd c)))) cs.
Proof.
  induction cs as [|c cs IH]; intros n lo hi; [reflexivity|].
  cbn [numbered flat_map map]. rewrite commanded_chunk_steps. f_equal. apply IH.
Qed.

(** The length field of the command word stands for the chunk in
    whole DWORDs. *)
Lemma cmd_length_bytes_word size :
  0 < size <= DMA_MAX_LEN_BYTES ->
  cmd_length_bytes (dma_cmd_word size) = 4 * ((size + 3) / 4).
Proof.
  intros Hs. destruct (dwords_minus_one size Hs) as (Hu & Hr).
  unfold cmd_length_bytes, dma_cmd_word. rewrite Hu, cmd_word_len_field by exact Hr. lia.
Qed.

Lemma commanded_sound cs :
  Forall sound_chunk cs ->
  map (fun c => (lower_32_bits (fst c) + 2 ^ 32 * upper_32_bits (fst c),
                 cmd_length_bytes (dma_cmd_word (snd c)))) cs = map in_dwords cs.
Proof.
  induction 1 as [|c cs (Ha & Hs & _) _ IH]; [reflexivity|].
  cbn [map]. rewrite IH. f_equal. unfold in_dwords.
  rewrite address_halves by exact Ha. rewrite cmd_length_bytes_word by exact Hs. reflexivity.
Qed.

Lemma in_dwords_whole c : snd c mod 4 = 0 -> in_dwords c = c.
Proof.
  intros H4. destruct c as [a s]. unfold in_dwords. simpl in *. f_equal.
  pose proof (Z.div_mod s 4 ltac:(lia)) as Hd.
  assert ((s + 3) / 4 = s / 4) as ->; [|lia].
  symmetry. apply Z.div_unique with 3; lia.
Qed.




(** The chunks of a transfer, as the loop settles them and as the
    registers command them: the same addresses, the lengths in whole
    DWORDs. *)
Lemma perform_transfer_commands elapse m2j P dma_handle pf size w res w' :
  0 <= size < 2 ^ 64 -> 0 <= dma_handle < 2 ^ 64 ->
  fpga_dma_perform_transfer elapse m2j P dma_handle pf size w = (res, w') ->
  exists cs,
    cs `prefix_of` transfer_plan size dma_handle /\
    (res = XferReturn 0 -> cs = transfer_plan size dma_handle) /\
    emitted_chunks w' = emitted_chunks w ++ cs /\
    (forall lo hi,
       commanded_from lo hi (driver_steps w') =
         commanded_from lo hi (driver_steps w) ++ map in_dwords cs) /\
    Forall sound_chunk cs /\
    chained dma_handle cs /\
    sum_sizes cs <= size /\
    (res = XferReturn 0 -> sum_sizes cs = size).
Proof.
  intros Hs Hh Hrun. unfold fpga_dma_perform_transfer in Hrun.
  pose proof (transfer_loop_plan _ _ _ _ _ _ _ _ _ _ _ _ Hrun)
    as (cs & Hpre & Hall & Hsteps & Hchunks).
  apply transfer_loop_chunks in Hrun; [|assumption|assumption|lia].
  destruct Hrun as (cs' & Hc' & _ & Hsound & Hch & Hsum & Hok & _).
  assert (cs' = cs) as ->.
  { rewrite Hchunks in Hc'. apply app_inv_tail in Hc'. apply rev_inj in Hc'.
    symmetry. exact Hc'. }
  exists cs. fold (transfer_plan size dma_handle) in Hpre, Hall.
  split; [exact Hpre|]. split; [exact Hall|].
  split; [apply emitted_chunks_app; exact Hchunks|].
  split; [|auto].
  intros lo hi.
  assert (driver_steps w' =
            driver_steps w ++ [ActIoread32 0x00; ActIoread32 0x04] ++
            flat_map (chunk_steps P dma_handle) (numbered 0 cs)) as ->.
  { unfold driver_steps. rewrite Hsteps. simpl.
    rewrite rev_app_distr, rev_involutive. simpl.
    rewrite <- !app_assoc. reflexivity. }
  destruct (commanded_from_app (driver_steps w) lo hi) as (lo' & hi' & ->).
  f_equal. cbn [app commanded_from].
  rewrite commanded_numbered. apply commanded_sound, Hsound.
Qed.




(** ** The ioctls *)

Lemma dwords_less remaining cs :
  cs mod 4 = 0 -> 4 * ((remaining - cs + 3) / 4) = 4 * ((remaining + 3) / 4) - cs.
Proof.
  intros H4. pose proof (Z.div_mod cs 4 ltac:(lia)) as Hd.
  replace (remaining - cs + 3) with (remaining + 3 + (- (cs / 4)) * 4) by lia.
  rewrite Z.div_add by lia. lia.
Qed.

(** From a DWORD-aligned address every chunk of the plan but the last
    is a whole number of DWORDs, so the chunks in whole DWORDs stay
    within the request in whole DWORDs and add up to it. *)
Lemma chunk_plan_in_dwords fuel : forall remaining addr,
  0 <= remaining < 2 ^ 64 -> 0 <= addr -> addr + remaining <= 2 ^ 64 -> addr mod 4 = 0 ->
  Forall (fun c => chunk_inside addr (4 * ((remaining + 3) / 4)) (in_dwords c))
    (chunk_plan fuel remaining addr) /\
  ((Z.to_nat remaining < fuel)%nat ->
   sum_sizes (map in_dwords (chunk_plan fuel remaining addr)) = 4 * ((remaining + 3) / 4)).
Proof.
  induction fuel as [|fuel IH]; intros remaining addr Hr Ha Hend Ha4.
  { split; [constructor|lia]. }
  destruct (Z_le_gt_dec remaining 0) as [Hz|Hpos].
  { assert (remaining = 0) as -> by lia. simpl. split; [constructor|reflexivity]. }
  destruct (pick_chunk_spec remaining addr ltac:(lia) ltac:(lia))
    as (cs & Hpick & Hcs & Hle & Hpage & _).
  rewrite (chunk_plan_step _ _ _ _ (Z.gt_lt _ _ Hpos) Hpick).
  rewrite (u64_small (remaining - cs)) by lia.
  destruct (Z.eq_dec remaining cs) as [->|Hne].
  - rewrite Z.sub_diag, chunk_plan_zero. split.
    + constructor; [|constructor]. unfold chunk_inside, in_dwords. simpl. lia.
    + intros _. simpl. lia.
  - assert (cs mod 4 = 0) as Hcs4.
    { destruct (pick_chunk_value _ _ _ Hpick ltac:(lia)) as [->| ->].
      - change DMA_MAX_LEN_BYTES with 4096 in *.
        rewrite Z.min_r by lia. reflexivity.
      - assert ((addr mod 4096) mod 4 = 0) as Hoff.
        { rewrite Z.mod_mod_divide; [assumption|]. exists 1024. reflexivity. }
        rewrite Zminus_mod, Hoff. reflexivity. }
    rewrite u64_small by lia.
    destruct (IH (remaining - cs) (addr + cs)) as (Hin & Hsum); [lia|lia|lia| |].
    { rewrite Zplus_mod, Ha4, Hcs4. reflexivity. }
    rewrite dwords_less in Hin, Hsum by exact Hcs4.
    pose proof (in_dwords_whole (addr, cs) Hcs4) as Hwhole.
    split.
    + constructor.
      * rewrite Hwhole. unfold chunk_inside. simpl.
        assert (remaining <= 4 * ((remaining + 3) / 4)); [|lia].
        pose proof (Z.div_mod (remaining + 3) 4 ltac:(lia)).
        pose proof (Z.mod_pos_bound (remaining + 3) 4 ltac:(lia)). lia.
      * eapply Forall_impl; [exact Hin|]. intros c (H1 & H2). unfold chunk_inside in *. lia.
    + intros Hf. cbn [map]. rewrite Hwhole. cbn [sum_sizes fold_right snd].
      fold (sum_sizes (map in_dwords (chunk_plan fuel (remaining - cs) (addr + cs)))).
      rewrite Hsum by lia. lia.
Qed.

(** X18. [FPGA_DMA_READ_FRAME] keeps the device inside the DMA
    buffer, for a buffer whose bus address and size are multiples of
    4.  A size of 0 stands for the default frame size.  A size above
    [dma_buf_size] is refused with [-EINVAL] before anything is done:
    no register is touched, nothing is copied and the caller's
    [result] is left as it was.  Otherwise every chunk the device is
    told to write (the address from the two address registers, the
    length from bits [9:0] of the command word) lies in the buffer;
    and when the ioctl returns 0 these chunks add up to the size in
    whole DWORDs, [result] is 0 and the size is the number of bytes
    copied to [user_buf] (if there is one). *)
Theorem read_frame_stays_inside_the_dma_buffer
    (elapse : world -> mem * Z) (m2j : Z -> Z) (P : dma_params) (dma_handle : Z)
    (pf : nat) (dev : fpga_dma_dev) (transfer_size transfer_result user_buf : Z)
    (w : world) :
  0 <= transfer_size < 2 ^ 32 ->
  0 <= dma_handle < 2 ^ 64 -> dma_handle + dma_buf_size dev <= 2 ^ 64 ->
  dma_handle mod 4 = 0 -> dma_buf_size dev mod 4 = 0 ->
  let out := ioctl_read_frame elapse m2j P dma_handle pf dev transfer_size
               transfer_result user_buf w in
  let size := read_frame_size dev transfer_size in
  rf_dev out = mk_dev (fpga_dma_normalize_info_layout (dev_info dev)) (dma_buf_size dev) /\
  (dma_buf_size dev < size ->
   rf_ret out = IoctlReturn (- EINVAL) /\ rf_world out = w /\
   rf_copied out = 0 /\ rf_result out = transfer_result) /\
  (size <= dma_buf_size dev ->
   exists cmds,
     (forall lo hi,
        commanded_from lo hi (driver_steps (rf_world out)) =
          commanded_from lo hi (driver_steps w) ++ cmds) /\
     Forall (chunk_inside dma_handle (dma_buf_size dev)) cmds /\
     (rf_ret out = IoctlReturn 0 ->
      sum_sizes cmds = 4 * ((size + 3) / 4) /\
      (size mod 4 = 0 -> sum_sizes cmds = size) /\
      rf_result out = 0 /\
      rf_copied out = if user_buf =? 0 then 0 else size)).
Proof.
  intros Ht Hh Hend Hh4 Hb4. cbv zeta. unfold ioctl_read_frame, read_frame_size.
  cbn [dev_info dma_buf_size].
  set (info := fpga_dma_normalize_info_layout (dev_info dev)).
  set (size := if transfer_size >? 0 then transfer_size
               else fpga_dma_default_frame_size info).
  assert (0 <= size < 2 ^ 64) as Hsize.
  { subst size. destruct (Z.gtb_spec transfer_size 0); [lia|].
    unfold fpga_dma_default_frame_size. apply u64_range. }
  clearbody size.
  destruct (Z.gtb_spec size (dma_buf_size dev)) as [Hbig|Hfit].
  { split; [reflexivity|]. split; [auto|]. intros Hle. lia. }
  destruct (fpga_dma_perform_transfer elapse m2j P dma_handle pf size w) as [res w'] eqn:Hrun.
  assert (4 * ((size + 3) / 4) <= dma_buf_size dev) as Hround.
  { pose proof (Z.div_mod (dma_buf_size dev) 4 ltac:(lia)) as Hd.
    assert ((size + 3) / 4 < dma_buf_size dev / 4 + 1); [|lia].
    apply Z.div_lt_upper_bound; lia. }
  assert (size mod 4 = 0 -> 4 * ((size + 3) / 4) = size) as Hexact.
  { intros H4. pose proof (in_dwords_whole (0, size) H4) as E.
    unfold in_dwords in E. simpl in E. injection E as E. exact E. }
  assert (exists cmds,
            (forall lo hi,
               commanded_from lo hi (driver_steps w') =
                 commanded_from lo hi (driver_steps w) ++ cmds) /\
            Forall (chunk_inside dma_handle (dma_buf_size dev)) cmds /\
            (res = XferReturn 0 -> sum_sizes cmds = 4 * ((size + 3) / 4)))
    as (cmds & Hcmds & Hin & Hsum).
  { destruct (perform_transfer_commands _ _ _ _ _ _ _ _ _ Hsize Hh Hrun)
      as (cs & Hpre & Hall & _ & Hcmd & _).
    destruct (chunk_plan_in_dwords (S (Z.to_nat size)) size dma_handle)
      as (Hplan & Hplansum); [lia|lia|lia|exact Hh4|].
    exists (map in_dwords cs). split; [exact Hcmd|]. split.
    - apply Forall_map. apply (prefix_Forall _ _ _ Hpre).
      eapply Forall_impl; [exact Hplan|].
      intros c (H1 & H2). unfold chunk_inside in *. lia.
    - intros E. rewrite (Hall E). apply Hplansum. lia. }
  split.
  { destruct res as [ret| |]; [destruct (ret =? 0)|..]; reflexivity. }
  split; [intros Hlt; lia|]. intros _. exists cmds.
  destruct res as [ret| |]; [destruct (Z.eqb_spec ret 0) as [->|Hne]|..];
    cbn [rf_world rf_ret rf_result rf_copied].
  - split; [exact Hcmds|]. split; [exact Hin|]. intros _.
    split; [auto|]. split; [|auto]. intros H4. rewrite Hsum by reflexivity. auto.
  - split; [exact Hcmds|]. split; [exact Hin|]. intros E. injection E as E. lia.
  - split; [exact Hcmds|]. split; [exact Hin|]. discriminate.
  - split; [exact Hcmds|]. split; [exact Hin|]. discriminate.
Qed.

(** X18 for 8192 bytes into the 3686400 bytes of the driver's buffer. *)
Lemma read_frame_stays_inside_the_dma_buffer_witness :
  let dev := mk_dev (probe_info 0 65536 4096) 3686400 in
  let out := ioctl_read_frame (sim_device 0x10000000 99) sim_msecs_to_jiffies sim_params
               0x10000000 100 dev 8192 1 0 blank_world in
  let size := read_frame_size dev 8192 in
  rf_dev out = mk_dev (fpga_dma_normalize_info_layout (dev_info dev)) (dma_buf_size dev) /\
  (dma_buf_size dev < size ->
   rf_ret out = IoctlReturn (- EINVAL) /\ rf_world out = blank_world /\
   rf_copied out = 0 /\ rf_result out = 1) /\
  (size <= dma_buf_size dev ->
   exists cmds,
     (forall lo hi,
        commanded_from lo hi (driver_steps (rf_world out)) =
          commanded_from lo hi (driver_steps blank_world) ++ cmds) /\
     Forall (chunk_inside 0x10000000 (dma_buf_size dev)) cmds /\
     (rf_ret out = IoctlReturn 0 ->
      sum_sizes cmds = 4 * ((size + 3) / 4) /\
      (size mod 4 = 0 -> sum_sizes cmds = size) /\
      rf_result out = 0 /\
      rf_copied out = if 0 =? 0 then 0 else size)).
Proof.
  apply (read_frame_stays_inside_the_dma_buffer (sim_device 0x10000000 99)
           sim_msecs_to_jiffies sim_params 0x10000000 100
           (mk_dev (probe_info 0 65536 4096) 3686400) 8192 1 0 blank_world);
    [lia|lia|simpl; lia|reflexivity|reflexivity].
Defined.

(** [fpga_dma_normalize_info_layout] settles the layout: the
    format becomes BGR565 unless it is BGRX8888, the bytes per pixel
    are 2 or 4 accordingly, the stride is the width times the bytes
    per pixel (in 32 bits), and the other fields are kept.
    Normalising twice is normalising once, so the ioctls, which
    normalise on every call, keep answering the same. *)
Theorem normalized_layout_is_settled (info : fpga_info) :
  let n := fpga_dma_normalize_info_layout info in
  fpga_dma_normalize_info_layout n = n /\
  ((pixel_format n = FPGA_PIXEL_FORMAT_BGR565 /\ frame_bpp n = FPGA_FRAME_BPP_BGR565) \/
   (pixel_format n = FPGA_PIXEL_FORMAT_BGRX8888 /\ frame_bpp n = FPGA_FRAME_BPP_BGRX8888)) /\
  (pixel_format n = FPGA_PIXEL_FORMAT_BGRX8888 <->
   pixel_format info = FPGA_PIXEL_FORMAT_BGRX8888) /\
  frame_stride n = u32 (frame_width info * frame_bpp n) /\
  frame_width n = frame_width info /\ frame_height n = frame_height info /\
  fpga_dma_default_frame_size n = u64 (frame_stride n * frame_height info).
Proof.
  destruct info as [v d b0 b1 lw ls fw fh bpp st pf].
  unfold fpga_dma_normalize_info_layout, fpga_dma_bpp_from_format,
    fpga_dma_default_frame_size.
  cbn [pixel_format frame_bpp frame_stride frame_width frame_height vendor_id device_id
       bar0_size bar1_size link_width link_speed].
  unfold FPGA_PIXEL_FORMAT_BGR565, FPGA_PIXEL_FORMAT_BGRX8888, FPGA_FRAME_BPP_BGR565,
    FPGA_FRAME_BPP_BGRX8888.
  destruct (Z.eqb_spec pf 0) as [->|H0]; [|destruct (Z.eqb_spec pf 1) as [->|H1]];
    simpl; repeat split; auto; try lia; try discriminate.
Qed.

(** X19. The display application and the driver agree on the frame
    only when the driver was loaded with [dma_pixel_format=0].  Then
    [init_fpga_dma] accepts what [FPGA_DMA_GET_INFO] reports, with a
    frame of 1843200 bytes, which is also the size
    [trigger_frame_dma] asks for and the driver's default for a
    request of size 0.  With any other value of the parameter, the
    driver's own default among them, the driver reports 4 bytes per
    pixel and [init_fpga_dma] fails.  In both cases the default frame
    fits the DMA buffer of [FPGA_FRAME_MAX_SIZE] bytes. *)
Theorem display_app_needs_the_bgr565_driver (dma_pixel_format bar0 bar1 buf_size : Z) :
  let info := ioctl_get_info (mk_dev (probe_info dma_pixel_format bar0 bar1) buf_size) in
  (dma_pixel_format = 0 ->
   init_fpga_dma_check info = Some FPGA_FRAME_SIZE_BGR565 /\
   trigger_frame_dma_size FPGA_FRAME_SIZE_BGR565 = 1843200 /\
   fpga_dma_default_frame_size info = 1843200) /\
  (dma_pixel_format <> 0 ->
   init_fpga_dma_check info = None /\ frame_bpp info = 4 /\
   fpga_dma_default_frame_size info = 3686400) /\
  init_fpga_dma_check
    (ioctl_get_info (mk_dev (probe_info default_dma_pixel_format bar0 bar1) buf_size)) = None /\
  fpga_dma_default_frame_size info <= FPGA_FRAME_MAX_SIZE.
Proof.
  cbv zeta. unfold ioctl_get_info, probe_info. cbn [dev_info].
  unfold FPGA_PIXEL_FORMAT_BGR565.
  destruct (Z.eqb_spec dma_pixel_format 0) as [->|Hne].
  - split; [intros _; vm_compute; auto|]. split; [intros H; congruence|].
    split; vm_compute; [reflexivity|discriminate].
  - split; [intros H; congruence|]. split; [intros _; vm_compute; auto|].
    split; vm_compute; [reflexivity|discriminate].
Qed.

(** ** The completion poll *)

Lemma rising_from_weaken l : forall lo lo', rising_from lo l -> lo' <= lo -> rising_from lo' l.
Proof. destruct l as [|a l]; simpl; intros lo lo' H Hle; [exact I|]. split; [lia|tauto]. Qed.

Lemma s32_small z : - 2 ^ 31 <= z < 2 ^ 31 -> s32 z = z.
Proof. intros H. unfold s32. rewrite Z.mod_small by lia. lia. Qed.

Section PollSleeps.

Variable elapse : world -> mem * Z.
Variable P : dma_params.

Lemma poll_loop_sleeps fuel : forall tail0 tail1 deadline cur count w res w',
  0 < dma_poll_sleep_max_us P < 2 ^ 30 -> 0 < cur ->
  poll_loop elapse P fuel tail0 tail1 deadline cur count w = (res, w') ->
  exists news,
    sleeps_rev (w_log w') = rev news ++ sleeps_rev (w_log w) /\
    rising_from (Z.min cur (dma_poll_sleep_max_us P)) (fst <$> news) /\
    Forall (fun s => fst s <= dma_poll_sleep_max_us P /\ snd s = fst s + 5) news /\
    (forall s, head news = Some s -> fst s = Z.min cur (dma_poll_sleep_max_us P)).
Proof.
  induction fuel as [|fuel IH]; intros tail0 tail1 deadline cur count w res w' Hmax Hcur Hrun.
  { simpl in Hrun. injection Hrun as _ <-. exists []. simpl.
    repeat split; auto. discriminate. }
  rewrite poll_loop_S in Hrun. cbv zeta in Hrun.
  assert (sleeps_rev (w_log (tick elapse w)) = sleeps_rev (w_log w)) as Htick by reflexivity.
  destruct (sentinel_left tail0 tail1 (tick elapse w)).
  2: { injection Hrun as _ <-. exists []. simpl. repeat split; auto. discriminate. }
  destruct (time_after _ deadline).
  { injection Hrun as _ <-. exists []. simpl. repeat split; auto. discriminate. }
  destruct (Z.leb_spec cur 0) as [Hle|_]; [lia|].
  cbv zeta in Hrun.
  set (max := dma_poll_sleep_max_us P) in *.
  set (c := if (0 <? max) && (max <? cur) then max else cur) in *.
  assert (c = Z.min cur max) as Hc.
  { subst c. destruct (Z.ltb_spec 0 max), (Z.ltb_spec max cur); simpl; lia. }
  clearbody c.
  rewrite (s32_small (c + 5)) in Hrun by lia.
  assert (forall cur' count',
            c <= Z.min cur' max -> 0 < cur' ->
            poll_loop elapse P fuel tail0 tail1 deadline cur' count'
              (log (ActUsleepRange c (c + 5)) (tick elapse w)) = (res, w') ->
            exists news,
              sleeps_rev (w_log w') = rev news ++ sleeps_rev (w_log w) /\
              rising_from (Z.min cur max) (fst <$> news) /\
              Forall (fun s => fst s <= max /\ snd s = fst s + 5) news /\
              (forall s, head news = Some s -> fst s = Z.min cur max)) as Hnext.
  { intros cur' count' Hge Hpos Hrest.
    apply IH in Hrest as (news & Hs & Hr & Hall & _); [|assumption|assumption].
    exists ((c, c + 5) :: news). split; [|split; [|split]].
    - rewrite Hs. simpl. rewrite <- app_assoc. reflexivity.
    - simpl. split; [lia|]. apply (rising_from_weaken _ _ _ Hr). exact Hge.
    - constructor; [simpl; lia|exact Hall].
    - intros s E. injection E as <-. exact Hc. }
  destruct ((0 <? dma_poll_backoff_polls P) && (0 <? max) && (c <? max)) eqn:Hback.
  - apply andb_prop in Hback as (_ & Hlt). apply Z.ltb_lt in Hlt.
    destruct (s32 (count + 1) >=? dma_poll_backoff_polls P).
    + rewrite (s32_small (c * 2)) in Hrun by lia.
      apply Hnext in Hrun; [exact Hrun| |].
      * destruct (Z.ltb_spec max (c * 2)); lia.
      * destruct (Z.ltb_spec max (c * 2)); lia.
    + apply Hnext in Hrun; [exact Hrun|lia|lia].
  - apply Hnext in Hrun; [exact Hrun|lia|lia].
Qed.

Lemma poll_loop_busy fuel : forall tail0 tail1 deadline cur count w res w',
  cur <= 0 ->
  poll_loop elapse P fuel tail0 tail1 deadline cur count w = (res, w') ->
  exists k : nat, w_log w' = replicate k ActCpuRelax ++ w_log w.
Proof.
  induction fuel as [|fuel IH]; intros tail0 tail1 deadline cur count w res w' Hcur Hrun.
  { simpl in Hrun. injection Hrun as _ <-. exists O. reflexivity. }
  rewrite poll_loop_S in Hrun. cbv zeta in Hrun.
  destruct (sentinel_left tail0 tail1 (tick elapse w)).
  2: { injection Hrun as _ <-. exists O. reflexivity. }
  destruct (time_after _ deadline).
  { injection Hrun as _ <-. exists O. reflexivity. }
  destruct (Z.leb_spec cur 0) as [_|Hgt]; [|lia].
  apply IH in Hrun as (k & Hk); [|exact Hcur].
  exists (S k). rewrite Hk. simpl.
  change (ActCpuRelax :: w_log w) with ([ActCpuRelax] ++ w_log w).
  rewrite app_assoc. f_equal.
  clear. induction k as [|k IHk]; simpl; [reflexivity|]. rewrite IHk. reflexivity.
Qed.

(** The sleeps follow the schedule: from the state ([cur], [count])
    the [i]-th sleep comes after [count + i] polls at [cur] or more,
    each [dma_poll_backoff_polls] of which have doubled it. *)
Lemma poll_loop_schedule fuel : forall tail0 tail1 deadline cur count w res w',
  0 < dma_poll_sleep_max_us P < 2 ^ 30 -> dma_poll_backoff_polls P < 2 ^ 31 ->
  0 < cur -> 0 <= count ->
  (0 < dma_poll_backoff_polls P -> count < dma_poll_backoff_polls P) ->
  poll_loop elapse P fuel tail0 tail1 deadline cur count w = (res, w') ->
  exists news,
    sleeps_rev (w_log w') = rev news ++ sleeps_rev (w_log w) /\
    forall (i : nat) s, news !! i = Some s ->
      fst s = (if 0 <? dma_poll_backoff_polls P
               then Z.min (cur * 2 ^ ((count + Z.of_nat i) / dma_poll_backoff_polls P))
                      (dma_poll_sleep_max_us P)
               else Z.min cur (dma_poll_sleep_max_us P)) /\
      snd s = fst s + 5.
Proof.
  induction fuel as [|fuel IH];
    intros tail0 tail1 deadline cur count w res w' Hmax Hpolls Hcur Hcount Hlt Hrun.
  { simpl in Hrun. injection Hrun as _ <-. exists []. split; [reflexivity|].
    intros i s Hi. discriminate. }
  rewrite poll_loop_S in Hrun. cbv zeta in Hrun.
  assert (sleeps_rev (w_log (tick elapse w)) = sleeps_rev (w_log w)) as Htick by reflexivity.
  destruct (sentinel_left tail0 tail1 (tick elapse w)).
  2: { injection Hrun as _ <-. exists []. split; [reflexivity|]. intros i s Hi. discriminate. }
  destruct (time_after _ deadline).
  { injection Hrun as _ <-. exists []. split; [reflexivity|]. intros i s Hi. discriminate. }
  destruct (Z.leb_spec cur 0) as [Hle|_]; [lia|].
  cbv zeta in Hrun.
  set (max := dma_poll_sleep_max_us P) in *.
  set (polls := dma_poll_backoff_polls P) in *.
  set (c := if (0 <? max) && (max <? cur) then max else cur) in *.
  assert (c = Z.min cur max) as Hc.
  { subst c. destruct (Z.ltb_spec 0 max), (Z.ltb_spec max cur); simpl; lia. }
  clearbody c.
  rewrite (s32_small (c + 5)) in Hrun by lia.
  set (f := fun (cur count : Z) (i : nat) =>
              if 0 <? polls then Z.min (cur * 2 ^ ((count + Z.of_nat i) / polls)) max
              else Z.min cur max).
  change (exists news,
            sleeps_rev (w_log w') = rev news ++ sleeps_rev (w_log w) /\
            forall (i : nat) s, news !! i = Some s ->
              fst s = f cur count i /\ snd s = fst s + 5).
  assert (f cur count O = c) as Hfirst.
  { subst f. cbv beta. destruct (Z.ltb_spec 0 polls) as [Hp|Hp]; [|lia].
    rewrite Z.add_0_r, Z.div_small by lia. rewrite Z.pow_0_r. lia. }
  assert (forall cur' count',
            0 < cur' -> 0 <= count' -> (0 < polls -> count' < polls) ->
            (forall i : nat, f cur' count' i = f cur count (S i)) ->
            poll_loop elapse P fuel tail0 tail1 deadline cur' count'
              (log (ActUsleepRange c (c + 5)) (tick elapse w)) = (res, w') ->
            exists news,
              sleeps_rev (w_log w') = rev news ++ sleeps_rev (w_log w) /\
              forall (i : nat) s, news !! i = Some s ->
                fst s = f cur count i /\ snd s = fst s + 5) as Hnext.
  { intros cur' count' Hpos Hc0 Hc1 Hshift Hrest.
    apply IH in Hrest as (news & Hs & Hsched); try assumption.
    exists ((c, c + 5) :: news). split.
    - rewrite Hs. simpl. rewrite <- app_assoc. reflexivity.
    - intros [|i] s Hi; simpl in Hi.
      + injection Hi as <-. simpl. rewrite Hfirst. auto.
      + rewrite <- Hshift. apply Hsched. exact Hi. }
  assert (forall k, 0 <= k -> 1 <= 2 ^ k) as Hpow.
  { intros k Hk. pose proof (Z.pow_pos_nonneg 2 k ltac:(lia) Hk). lia. }
  destruct ((0 <? polls) && (0 <? max) && (c <? max)) eqn:Hback.
  - apply andb_prop in Hback as (Hback & Hcm). apply andb_prop in Hback as (Hp & _).
    apply Z.ltb_lt in Hcm. apply Z.ltb_lt in Hp.
    assert (c = cur) as -> by lia.
    rewrite (s32_small (count + 1)) in Hrun by lia.
    destruct (Z.geb_spec (count + 1) polls) as [Hfull|Hmore].
    + rewrite (s32_small (cur * 2)) in Hrun by lia.
      apply Hnext in Hrun; [exact Hrun| |lia|lia|].
      * destruct (Z.ltb_spec max (cur * 2)); lia.
      * intros i. subst f. cbv beta. destruct (Z.ltb_spec 0 polls) as [_|]; [|lia].
        assert (count = polls - 1) as -> by lia.
        replace (polls - 1 + Z.of_nat (S i)) with (1 * polls + Z.of_nat i) by lia.
        rewrite Z.div_add_l by lia. rewrite Z.add_0_l.
        assert (0 <= Z.of_nat i / polls) as Hq by (apply Z.div_pos; lia).
        rewrite Z.pow_add_r by lia. change (2 ^ 1) with 2.
        specialize (Hpow _ Hq). generalize dependent (2 ^ (Z.of_nat i / polls)).
        intros p Hp1. destruct (Z.ltb_spec max (cur * 2)); nia.
    + apply Hnext in Hrun; [exact Hrun|lia|lia|lia|].
      intros i. subst f. cbv beta.
      replace (count + 1 + Z.of_nat i) with (count + Z.of_nat (S i)) by lia. reflexivity.
  - assert (polls <= 0 \/ max <= cur) as Hwhy.
    { apply andb_false_iff in Hback as [Hback|Hback].
      - apply andb_false_iff in Hback as [Hback|Hback]; apply Z.ltb_ge in Hback; lia.
      - apply Z.ltb_ge in Hback. lia. }
    apply Hnext in Hrun; [exact Hrun|lia|lia|exact Hlt|].
    intros i. subst f. cbv beta. destruct (Z.ltb_spec 0 polls) as [Hp|Hp]; [|lia].
    assert (max <= cur) as Hge by lia.
    assert (c = max) as -> by lia.
    assert (0 <= (count + Z.of_nat i) / polls) as Hq1 by (apply Z.div_pos; lia).
    assert (0 <= (count + Z.of_nat (S i)) / polls) as Hq2 by (apply Z.div_pos; lia).
    pose proof (Hpow _ Hq1). pose proof (Hpow _ Hq2).
    rewrite !Z.min_r by nia. reflexivity.
Qed.

End PollSleeps.

(** X20. The completion poll backs off on schedule.  With
    [dma_poll_sleep_us] at 0 or below it never sleeps: it only calls
    [cpu_relax] between two looks.  With a positive start value and a
    maximum between 1 and 2^30 - 1, every sleep is a
    [usleep_range (t, t + 5)] with [t] at most the maximum; the first
    [t] is the start value, or the maximum if that is smaller; [t]
    never goes down from one sleep to the next; and [t] doubles after
    every [dma_poll_backoff_polls] sleeps until it has reached the
    maximum: the [i]-th sleep, counted from 0, has
    [t = min (start * 2 ^ (i / dma_poll_backoff_polls), max)] when
    [dma_poll_backoff_polls] is positive, and [t = min (start, max)]
    when it is not. *)
Theorem poll_backoff_stays_within_bounds
    (elapse : world -> mem * Z) (P : dma_params) (fuel : nat) (tail0 : Z) (tail1 : option Z)
    (deadline : Z) (w : world) (res : poll_result) (w' : world) :
  poll_loop elapse P fuel tail0 tail1 deadline (dma_poll_sleep_us P) 0 w = (res, w') ->
  (dma_poll_sleep_us P <= 0 ->
   exists k : nat, w_log w' = replicate k ActCpuRelax ++ w_log w) /\
  (0 < dma_poll_sleep_us P -> 0 < dma_poll_sleep_max_us P < 2 ^ 30 ->
   exists news,
     sleeps_rev (w_log w') = rev news ++ sleeps_rev (w_log w) /\
     (forall s, head news = Some s ->
        fst s = Z.min (dma_poll_sleep_us P) (dma_poll_sleep_max_us P)) /\
     rising_from (Z.min (dma_poll_sleep_us P) (dma_poll_sleep_max_us P)) (fst <$> news) /\
     Forall (fun s => fst s <= dma_poll_sleep_max_us P /\ snd s = fst s + 5) news /\
     (dma_poll_backoff_polls P < 2 ^ 31 ->
      forall (i : nat) s, news !! i = Some s ->
        fst s = backoff_sleep (dma_poll_sleep_us P) (dma_poll_sleep_max_us P)
                  (dma_poll_backoff_polls P) i)).
Proof.
  intros Hrun. split.
  - intros Hle. eapply poll_loop_busy; eassumption.
  - intros Hpos Hmax.
    destruct (poll_loop_sleeps _ _ _ _ _ _ _ _ _ _ _ Hmax Hpos Hrun)
      as (news & Hs & Hrise & Hall & Hhead).
    exists news. split; [exact Hs|]. split; [exact Hhead|].
    split; [exact Hrise|]. split; [exact Hall|].
    intros Hp i s Hi.
    destruct (poll_loop_schedule elapse P fuel tail0 tail1 deadline (dma_poll_sleep_us P) 0
                w res w' Hmax Hp Hpos ltac:(lia) ltac:(lia) Hrun) as (news' & Hs' & Hsched).
    assert (news' = news) as ->.
    { rewrite Hs in Hs'. apply app_inv_tail in Hs'. apply rev_inj in Hs'.
      symmetry. exact Hs'. }
    destruct (Hsched i s Hi) as (H1 & _). rewrite Z.add_0_l in H1. exact H1.
Qed.

(** X20 on the stalled poll: 8 sleeps from 5 us, 8 from 10 us and 4
    from 20 us before the timeout. *)
Lemma poll_backoff_stays_within_bounds_witness :
  exists news,
    sleeps_rev (w_log (snd stalled_poll)) =
      rev news ++ sleeps_rev (w_log (write_once 0 tail_sentinel0 blank_world)) /\
    (forall s, head news = Some s -> fst s = 5) /\
    rising_from 5 (fst <$> news) /\
    Forall (fun s => fst s <= 80 /\ snd s = fst s + 5) news /\
    (forall (i : nat) s, news !! i = Some s -> fst s = backoff_sleep 5 80 8 i).
Proof.
  destruct (poll_backoff_stays_within_bounds (sim_device 0 0) sim_params 40 0 None 1020
              (write_once 0 tail_sentinel0 blank_world) (fst stalled_poll) (snd stalled_poll))
    as (_ & H).
  - exact (surjective_pairing stalled_poll).
  - destruct H as (news & Hs & Hhead & Hrise & Hall & Hsched).
    + simpl. lia.
    + simpl. lia.
    + exists news. split; [exact Hs|]. split; [exact Hhead|]. split; [exact Hrise|].
      split; [exact Hall|]. apply Hsched. simpl. lia.
Defined.

Example stalled_poll_sleeps :
  fst stalled_poll = PollTimeout /\
  rev (sleeps_rev (w_log (snd stalled_poll))) =
    replicate 8 (5, 10) ++ replicate 8 (10, 15) ++ replicate 4 (20, 25).
Proof. vm_compute. split; reflexivity. Qed.

(** * The start of [main], the labels file and the test tool *)

(** ** [parse_options] *)

Section OptionFacts.

Variable atoi : string -> Z.
Variable float : Type.
Variable atof : string -> float.
Variable float_035 : float.

(** A return of [getopt_long] that lets the loop go on is one of the
    sixteen options with an argument, and changes its own field
    only. *)
Lemma getopt_case_inr c a (opt opt' : options float) :
  getopt_case atoi float atof c a opt = inr opt' ->
  1 <= c <= 16 /\
  fps opt' = (if c =? 7 then atoi a else fps opt) /\
  timeout_ms opt' = (if c =? 10 then atoi a else timeout_ms opt) /\
  stats_interval opt' = (if c =? 11 then atoi a else stats_interval opt) /\
  copy_buffers opt' = (if c =? 12 then atoi a else copy_buffers opt) /\
  queue_depth opt' = (if c =? 13 then atoi a else queue_depth opt) /\
  veh_model_path opt' = (if c =? 3 then Some a else veh_model_path opt) /\
  plate_model_path opt' = (if c =? 4 then Some a else plate_model_path opt) /\
  labels_path opt' = (if c =? 5 then Some a else labels_path opt) /\
  swap16 opt' = (if c =? 9 then negb (atoi a =? 0) else swap16 opt).
Proof.
  unfold getopt_case. destruct opt.
  repeat match goal with
         | |- context [?x =? ?k] =>
             is_var x; destruct (Z.eqb_spec x k) as [->|?]; [simpl|]
         end;
    simpl;
    repeat match goal with
           | |- context [String.eqb ?x ?y] => destruct (String.eqb x y)
           end;
    intros H; try discriminate H; injection H as <-; simpl;
    repeat split; try lia; reflexivity.
Qed.

Lemma getopt_loop_inr evs : forall (opt opt' : options float),
  getopt_loop atoi float atof evs opt = inr opt' ->
  Forall (fun ev => 1 <= fst ev <= 16) evs /\
  fps opt' = default (fps opt) (atoi <$> last_arg 7 evs) /\
  timeout_ms opt' = default (timeout_ms opt) (atoi <$> last_arg 10 evs) /\
  stats_interval opt' = default (stats_interval opt) (atoi <$> last_arg 11 evs) /\
  copy_buffers opt' = default (copy_buffers opt) (atoi <$> last_arg 12 evs) /\
  queue_depth opt' = default (queue_depth opt) (atoi <$> last_arg 13 evs) /\
  veh_model_path opt' = from_option Some (veh_model_path opt) (last_arg 3 evs) /\
  plate_model_path opt' = from_option Some (plate_model_path opt) (last_arg 4 evs) /\
  labels_path opt' = from_option Some (labels_path opt) (last_arg 5 evs) /\
  swap16 opt' = default (swap16 opt) ((fun a => negb (atoi a =? 0)) <$> last_arg 9 evs).
Proof.
  induction evs as [|[c a] evs IH]; intros opt opt' H.
  - simpl in H. injection H as <-. simpl. repeat split; auto.
  - simpl in H.
    destruct (getopt_case atoi float atof c a opt) as [out|opt1] eqn:Ec; [discriminate|].
    apply getopt_case_inr in Ec as (Hc & E1 & E2 & E3 & E4 & E5 & E6 & E7 & E8 & E9).
    apply IH in H as (Hall & F1 & F2 & F3 & F4 & F5 & F6 & F7 & F8 & F9).
    split; [constructor; [exact Hc|exact Hall]|].
    simpl last_arg.
    rewrite F1, F2, F3, F4, F5, F6, F7, F8, F9, E1, E2, E3, E4, E5, E6, E7, E8, E9.
    repeat split;
      match goal with
      | |- context [last_arg ?k evs] => destruct (last_arg k evs); simpl; [reflexivity|]
      end;
      match goal with
      | |- context [if ?x =? ?k then _ else _] => destruct (x =? k); reflexivity
      end.
Qed.

Lemma check_options_0 (opt : options float) :
  check_options float opt = 0 ->
  0 < fps opt /\ 0 < timeout_ms opt /\ 0 < stats_interval opt /\
  MIN_COPY_BUFFERS <= copy_buffers opt <= MAX_COPY_BUFFERS /\ 0 < queue_depth opt /\
  is_null (veh_model_path opt) = false /\ is_null (plate_model_path opt) = false /\
  is_null (labels_path opt) = false.
Proof.
  unfold check_options.
  destruct (Z.leb_spec (fps opt) 0); simpl; [discriminate|].
  destruct (Z.leb_spec (timeout_ms opt) 0); simpl; [discriminate|].
  destruct (Z.leb_spec (stats_interval opt) 0); simpl; [discriminate|].
  destruct (Z.ltb_spec (copy_buffers opt) MIN_COPY_BUFFERS); simpl; [discriminate|].
  rewrite Z.gtb_ltb.
  destruct (Z.ltb_spec MAX_COPY_BUFFERS (copy_buffers opt)); simpl; [discriminate|].
  destruct (Z.leb_spec (queue_depth opt) 0); simpl; [discriminate|].
  destruct (is_null (veh_model_path opt)); simpl; [discriminate|].
  destruct (is_null (plate_model_path opt)); simpl; [discriminate|].
  destruct (is_null (labels_path opt)); simpl; [discriminate|].
  intros _. repeat split; auto; lia.
Qed.

Lemma getopt_loop_inl evs : forall (opt : options float) out,
  getopt_loop atoi float atof evs opt = inl out -> out = ParseExit 0 \/ exists o, out = ParseReturn (-1) o.
Proof.
  induction evs as [|[c a] evs IH]; intros opt out H; simpl in H; [discriminate|].
  destruct (getopt_case atoi float atof c a opt) as [out1|o1] eqn:Ec; [|eauto].
  injection H as ->. revert Ec. unfold getopt_case.
  repeat match goal with
         | |- context [if ?x then _ else _] => destruct x
         end; intros Ec; try discriminate Ec; injection Ec as <-; eauto.
Qed.

Lemma check_options_values (opt : options float) :
  check_options float opt = 0 \/ check_options float opt = -1.
Proof.
  unfold check_options.
  repeat match goal with
         | |- context [if ?x then _ else _] => destruct x
         end; auto.
Qed.

(** [parse_options] returns 0 or -1, when it returns. *)
Lemma parse_options_values evs r (opt : options float) :
  parse_options atoi float atof float_035 evs = ParseReturn r opt -> r = 0 \/ r = -1.
Proof.
  unfold parse_options.
  destruct (getopt_loop atoi float atof evs (default_options float float_035))
    as [out|o] eqn:E.
  - intros ->. apply getopt_loop_inl in E as [E|(o & E)]; [discriminate|].
    injection E as -> _. auto.
  - intros H. injection H as <- _. apply check_options_values.
Qed.

Lemma parse_options_0 evs (opt : options float) :
  parse_options atoi float atof float_035 evs = ParseReturn 0 opt ->
  getopt_loop atoi float atof evs (default_options float float_035) = inr opt /\ check_options float opt = 0.
Proof.
  unfold parse_options.
  destruct (getopt_loop atoi float atof evs (default_options float float_035))
    as [out|o] eqn:E.
  - intros ->. apply getopt_loop_inl in E as [E|(o & E)]; discriminate.
  - intros H. injection H as H1 H2. subst o. auto.
Qed.

End OptionFacts.

(** X21. [parse_options] returns 0 only with settings the rest of
    the program can use: the frame rate, the timeout, the statistics
    interval and the queue depth are positive, the pool has between
    [MIN_COPY_BUFFERS] and [MAX_COPY_BUFFERS] buffers, and the two
    models and the labels file are named.  Every return of
    [getopt_long] was one of the sixteen options with an argument,
    and a setting is what the last option that names it says (through
    [atoi]), or its default when no option names it. *)
Theorem accepted_options_are_usable
    (atoi : string -> Z) (float : Type) (atof : string -> float) (float_035 : float)
    (evs : list (Z * string)) (opt : options float) :
  parse_options atoi float atof float_035 evs = ParseReturn 0 opt ->
  Forall (fun ev => 1 <= fst ev <= 16) evs /\
  (0 < fps opt /\ 0 < timeout_ms opt /\ 0 < stats_interval opt /\ 0 < queue_depth opt /\
   MIN_COPY_BUFFERS <= copy_buffers opt <= MAX_COPY_BUFFERS) /\
  (fps opt = default DEFAULT_FPS (atoi <$> last_arg 7 evs) /\
   timeout_ms opt = default DEFAULT_TIMEOUT_MS (atoi <$> last_arg 10 evs) /\
   stats_interval opt = default DEFAULT_STATS_INTERVAL (atoi <$> last_arg 11 evs) /\
   copy_buffers opt = default DEFAULT_COPY_BUFFERS (atoi <$> last_arg 12 evs) /\
   queue_depth opt = default DEFAULT_QUEUE_DEPTH (atoi <$> last_arg 13 evs) /\
   swap16 opt = default true ((fun a => negb (atoi a =? 0)) <$> last_arg 9 evs)) /\
  (exists veh plate lbl,
     last_arg 3 evs = Some veh /\ veh_model_path opt = Some veh /\
     last_arg 4 evs = Some plate /\ plate_model_path opt = Some plate /\
     last_arg 5 evs = Some lbl /\ labels_path opt = Some lbl).
Proof.
  intros H. apply parse_options_0 in H as (Hloop & Hcheck).
  apply getopt_loop_inr in Hloop as (Hall & F1 & F2 & F3 & F4 & F5 & F6 & F7 & F8 & F9).
  apply check_options_0 in Hcheck as (C1 & C2 & C3 & C4 & C5 & C6 & C7 & C8).
  split; [exact Hall|]. split; [auto|]. split; [auto 10|].
  rewrite F6 in C6. rewrite F7 in C7. rewrite F8 in C8. simpl in C6, C7, C8.
  destruct (last_arg 3 evs) as [veh|]; [|discriminate].
  destruct (last_arg 4 evs) as [plate|]; [|discriminate].
  destruct (last_arg 5 evs) as [lbl|]; [|discriminate].
  exists veh, plate, lbl. rewrite F6, F7, F8. simpl. auto 10.
Qed.

Lemma accepted_options_are_usable_witness :
  exists opt : options Z,
    parse_options sample_atoi Z (fun _ => 0) 35 sample_getopt = ParseReturn 0 opt /\
    copy_buffers opt = 3 /\ fps opt = 15.
Proof.
  eexists. split; [reflexivity|].
  destruct (accepted_options_are_usable sample_atoi Z (fun _ => 0) 35 sample_getopt _
              eq_refl) as (_ & _ & (F1 & _ & _ & F4 & _) & _).
  split; [exact F4|exact F1].
Defined.

(** ** The start of [main] *)

Lemma init_fpga_dma_check_size info size :
  init_fpga_dma_check info = Some size -> size = FPGA_FRAME_SIZE_BGR565.
Proof.
  unfold init_fpga_dma_check.
  destruct (Z.eqb_spec (frame_width info) 1280) as [->|]; simpl; [|discriminate].
  destruct (Z.eqb_spec (frame_height info) 720) as [->|]; simpl; [|discriminate].
  destruct (Z.eqb_spec (frame_bpp info) 2) as [->|]; simpl; [|discriminate].
  intros H. injection H as <-. reflexivity.
Qed.

(** X22. When [main] reaches the capture loop, the context is what
    the statements about the pool, the mailbox and the loop assume.
    The frame has 1843200 bytes, and [dma_copy], the mailbox buffer
    and every slot buffer have that size; the pool has between 2 and
    6 slots, as many as [slot_count] says, all free with generation
    0, so that no ticket is live; the frame rate and the timeout are
    positive; [running] is set, the mailbox is empty and every
    counter is 0.  The labels are those of the file. *)
Theorem setup_establishes_what_the_loop_assumes
    (atoi : string -> Z) (float : Type) (atof : string -> float) (float_035 : float)
    (e : setup_env) (c : app_ctx) (tbl : label_table) :
  main_setup atoi float atof float_035 e = Some (c, tbl) ->
  frame_size c = 1843200 /\
  Z.of_nat (length (dma_copy c)) = frame_size c /\
  mailbox_ok c /\ infer_has_new c = false /\
  pool_inv (mk_sys c []) /\
  MIN_COPY_BUFFERS <= slot_count c <= MAX_COPY_BUFFERS /\
  Forall (fun s => Z.of_nat (length (slot_data s)) = frame_size c /\
                   slot_in_use s = false /\ slot_generation s = 0) (slots c) /\
  0 < opt_fps c /\ 0 < opt_timeout_ms c /\
  running c = true /\
  counters c = (0, 0, 0) /\ released_frames c = 0 /\ next_pts_ns c = 0 /\
  infer_overwrite_count c = 0 /\ slot_wait_timeout_count c = 0 /\
  load_labels (se_labels_file e) = Some tbl.
Proof.
  unfold main_setup.
  destruct (parse_options atoi float atof float_035 (se_getopt e)) as [r opt|] eqn:Ep;
    [|discriminate].
  destruct (Z.ltb_spec r 0) as [|Hr]; [discriminate|].
  destruct (se_drm_fd e <? 0); [discriminate|].
  destruct (load_labels (se_labels_file e)) as [tbl'|]; [|discriminate].
  destruct (init_fpga_dma e) as [size|] eqn:Ei; [|discriminate].
  destruct (se_alloc_ok e); simpl; [|discriminate].
  destruct (se_started_ok e); simpl; [|discriminate].
  intros H. injection H as <- <-.
  assert (r = 0) as ->.
  { destruct (parse_options_values _ _ _ _ _ _ _ Ep); lia. }
  apply parse_options_0 in Ep as (_ & Hcheck).
  apply check_options_0 in Hcheck as (Hfps & Hto & _ & Hcb & _).
  assert (size = 1843200) as Hsize.
  { revert Ei. unfold init_fpga_dma.
    destruct (se_dev_fd e <? 0); [discriminate|].
    destruct (se_get_info e) as [info|]; [|discriminate].
    destruct (init_fpga_dma_check info) as [s|] eqn:Es; [|discriminate].
    apply init_fpga_dma_check_size in Es. subst s.
    destruct (se_map_ok e && se_alloc_ok e); [|discriminate].
    intros Hs. injection Hs as <-. reflexivity. }
  clear Ei.
  unfold MIN_COPY_BUFFERS, MAX_COPY_BUFFERS in *.
  unfold init_copy_slots, mailbox_ok, counters, set_slot_count, set_slots. cbn [frame_size
    dma_copy infer_latest_raw infer_has_new slot_count slots opt_fps opt_timeout_ms running
    captured_frames pushed_frames infer_frame_seq released_frames next_pts_ns
    infer_overwrite_count slot_wait_timeout_count].
  rewrite !length_replicate.
  assert (pool_inv
            (mk_sys
               (mk_ctx (timeout_ms opt) (fps opt) (swap16 opt) size
                  (replicate (Z.to_nat size) 0)
                  (replicate (Z.to_nat (copy_buffers opt))
                     (mk_slot (replicate (Z.to_nat size) 0) false 0))
                  (copy_buffers opt) true 0 0 0 0 0 0 (replicate (Z.to_nat size) 0) false 0)
               [])) as Hinv.
  { unfold pool_inv, pool_wf, ticket_live, slot_at.
    cbn [sys_ctx sys_valid slot_count slots fmap list_fmap].
    rewrite length_replicate. split; [lia|]. split; [constructor|].
    intros t. split.
    - intros Hin. inversion Hin.
    - intros (s & Hs & Hu & _). exfalso.
      destruct (0 <=? ticket_idx t); [|discriminate].
      apply lookup_replicate in Hs as (-> & _). discriminate. }
  repeat split; try reflexivity; try lia; try (apply Hinv).
  apply Forall_replicate. cbn [slot_data slot_in_use slot_generation].
  rewrite length_replicate. repeat split; lia.
Qed.

Lemma setup_establishes_what_the_loop_assumes_witness :
  exists c tbl,
    main_setup sample_atoi Z (fun _ => 0) 35 sample_setup_env = Some (c, tbl) /\
    frame_size c = 1843200 /\ running c = true /\ 0 < opt_fps c.
Proof.
  eexists. eexists. split; [reflexivity|].
  destruct (setup_establishes_what_the_loop_assumes sample_atoi Z (fun _ => 0) 35
              sample_setup_env _ _ eq_refl)
    as (Hsize & _ & _ & _ & _ & _ & _ & Hfps & _ & Hrun & _).
  split; [exact Hsize|]. split; [exact Hrun|exact Hfps].
Defined.

(** ** [load_labels] *)

Lemma fgets_chars_line l : forall n rest,
  ~ In LF l -> (length l < n)%nat ->
  fgets_chars n (l ++ LF :: rest) = (l ++ [LF], rest).
Proof.
  induction l as [|ch l IH]; intros n rest Hnl Hlen.
  - destruct n; [simpl in Hlen; lia|]. reflexivity.
  - destruct n; [simpl in Hlen; lia|]. simpl.
    destruct (Ascii.eqb_spec ch LF) as [->|_]; [exfalso; apply Hnl; left; reflexivity|].
    rewrite IH; [reflexivity| |simpl in Hlen; lia].
    intros Hin. apply Hnl. right. exact Hin.
Qed.

Lemma fgets_chars_tail l : forall n,
  ~ In LF l -> (length l <= n)%nat -> fgets_chars n l = (l, []).
Proof.
  induction l as [|ch l IH]; intros n Hnl Hlen.
  - destruct n; reflexivity.
  - destruct n; [simpl in Hlen; lia|]. simpl.
    destruct (Ascii.eqb_spec ch LF) as [->|_]; [exfalso; apply Hnl; left; reflexivity|].
    rewrite IH; [reflexivity| |simpl in Hlen; lia].
    intros Hin. apply Hnl. right. exact Hin.
Qed.

Lemma cut_absent stop l : ~ In stop l -> cut stop l = l.
Proof.
  induction l as [|ch l IH]; intros Hn; [reflexivity|]. simpl.
  destruct (Ascii.eqb_spec ch stop) as [->|_]; [exfalso; apply Hn; left; reflexivity|].
  rewrite IH; [reflexivity|]. intros Hin. apply Hn. right. exact Hin.
Qed.

Lemma cut_at stop l rest : ~ In stop l -> cut stop (l ++ stop :: rest) = l.
Proof.
  induction l as [|ch l IH]; intros Hn; simpl.
  - rewrite Ascii.eqb_refl. reflexivity.
  - destruct (Ascii.eqb_spec ch stop) as [->|_]; [exfalso; apply Hn; left; reflexivity|].
    rewrite IH; [reflexivity|]. intros Hin. apply Hn. right. exact Hin.
Qed.

Lemma fgets_line l rest :
  label_line l -> fgets 256 (l ++ LF :: rest) = Some (l ++ [LF], rest).
Proof.
  intros (_ & Hlf & Hlen). unfold fgets.
  rewrite fgets_chars_line; [|exact Hlf|lia].
  destruct l; reflexivity.
Qed.

(** What the buffer holds after a whole line was read and its
    newline overwritten. *)
Lemma line_of_buffer l : label_line l -> cut LF (cut NUL (l ++ [LF])) = l.
Proof.
  intros (Hnul & Hlf & _).
  rewrite (cut_absent NUL).
  - apply cut_at. exact Hlf.
  - intros Hin. apply in_app_or in Hin as [Hin|[Hin|[]]]; [auto|discriminate].
Qed.

Lemma read_labels_lines ls : forall tail fuel acc,
  Forall label_line ls -> label_line tail ->
  (length (lines_file ls tail) < fuel)%nat ->
  (length acc <= 256)%nat ->
  read_labels fuel (lines_file ls tail) acc =
    acc ++ take (256 - length acc) (stored_labels (ls ++ [tail])).
Proof.
  induction ls as [|l ls IH]; intros tail fuel acc Hls Htail Hfuel Hacc.
  - unfold lines_file in *. cbn [flat_map app] in *.
    destruct fuel as [|fuel]; [lia|].
    destruct tail as [|ch tail].
    + unfold stored_labels. cbn [read_labels fgets List.filter is_empty negb fmap list_fmap].
      rewrite take_nil, app_nil_r. reflexivity.
    + cbn [read_labels fgets].
      destruct Htail as (Hnul & Hlf & Hlen).
      rewrite (fgets_chars_tail (ch :: tail)); [|exact Hlf|simpl in *; lia].
      destruct (Z.ltb_spec (Z.of_nat (length acc)) MAX_LABELS) as [Hlt|Hge].
      * rewrite (cut_absent NUL) by assumption. rewrite (cut_absent LF) by assumption.
        cbn [is_empty].
        unfold stored_labels. cbn [List.filter is_empty negb fmap list_fmap].
        unfold MAX_LABELS in Hlt.
        replace (256 - length acc)%nat with (S (255 - length acc)) by lia.
        cbn [take]. rewrite take_nil.
        destruct fuel; reflexivity.
      * unfold MAX_LABELS in Hge.
        replace (256 - length acc)%nat with O by lia.
        rewrite take_0, app_nil_r. reflexivity.
  - apply Forall_cons in Hls as (Hl & Hls).
    assert (lines_file (l :: ls) tail = l ++ LF :: lines_file ls tail) as Efile.
    { unfold lines_file. simpl. rewrite <- !app_assoc. reflexivity. }
    rewrite Efile in *. rewrite length_app in Hfuel. simpl in Hfuel.
    destruct fuel as [|fuel]; [lia|].
    cbn [read_labels]. rewrite (fgets_line l _ Hl).
    pose proof Hl as (Hnul & Hlf & Hlen).
    rewrite (line_of_buffer l Hl).
    destruct (Z.ltb_spec (Z.of_nat (length acc)) MAX_LABELS) as [Hlt|Hge].
    + unfold MAX_LABELS in Hlt.
      destruct l as [|ch l']; cbn [is_empty].
      * rewrite IH; [|assumption|assumption|lia|lia]. reflexivity.
      * rewrite IH; [|assumption|assumption|simpl in *; lia|rewrite length_app; simpl; lia].
        rewrite length_app. simpl length.
        unfold stored_labels. cbn [app List.filter is_empty negb fmap list_fmap].
        replace (256 - length acc)%nat with (S (256 - (length acc + 1))) by lia.
        cbn [take]. rewrite <- app_assoc. reflexivity.
    + unfold MAX_LABELS in Hge.
      replace (256 - length acc)%nat with O by lia.
      rewrite take_0, app_nil_r. reflexivity.
Qed.

Lemma str_eqb_eq a b : str_eqb a b = true <-> a = b.
Proof.
  unfold str_eqb. destruct (List.list_eq_dec ascii_dec a b); split; auto; discriminate.
Qed.

Lemma find_car_none ls : forall idx d,
  ~ In car_label ls -> find_car ls idx d = d.
Proof.
  induction ls as [|l ls IH]; intros idx d Hn; [reflexivity|]. cbn [find_car].
  change (list_ascii_of_string "car") with car_label.
  destruct (str_eqb l car_label) eqn:E.
  - apply str_eqb_eq in E. exfalso. apply Hn. left. exact E.
  - apply IH. intros Hin. apply Hn. right. exact Hin.
Qed.

Lemma find_car_first ls : forall idx d (k : nat),
  ls !! k = Some car_label ->
  (forall j : nat, (j < k)%nat -> ls !! j <> Some car_label) ->
  find_car ls idx d = idx + Z.of_nat k.
Proof.
  induction ls as [|l ls IH]; intros idx d k Hk Hfirst; [discriminate|]. cbn [find_car].
  change (list_ascii_of_string "car") with car_label.
  destruct (str_eqb l car_label) eqn:E.
  - apply str_eqb_eq in E. destruct k as [|k]; [lia|].
    exfalso. apply (Hfirst O); [lia|]. simpl. f_equal. exact E.
  - destruct k as [|k].
    + simpl in Hk. injection Hk as ->.
      assert (str_eqb car_label car_label = true) as E'
        by (apply str_eqb_eq; reflexivity).
      congruence.
    + rewrite (IH (idx + 1) d k); [lia|exact Hk|].
      intros j Hj. apply (Hfirst (S j)). lia.
Qed.

(** X23. [load_labels] gives back the lines of the file.  For a file
    of lines without [NUL] of fewer than 255 characters, the last of
    which may lack its newline, the labels are the lines that are not
    empty, in order, each cut to 63 characters, and the first 256 of
    them at most; [label_count] is their number.  [car_class_id] is
    the index of the first label [car]; without such a label it is 2,
    even when there are fewer than three labels. *)
Theorem labels_are_the_lines_of_the_file (ls : list (list ascii)) (tail : list ascii) :
  Forall label_line ls -> label_line tail ->
  exists tbl,
    load_labels (Some (lines_file ls tail)) = Some tbl /\
    labels tbl = take 256 (stored_labels (ls ++ [tail])) /\
    label_count tbl = Z.of_nat (length (labels tbl)) /\
    0 <= label_count tbl <= MAX_LABELS /\
    (~ In car_label (labels tbl) -> car_class_id tbl = 2) /\
    (forall k : nat,
       labels tbl !! k = Some car_label ->
       (forall j : nat, (j < k)%nat -> labels tbl !! j <> Some car_label) ->
       car_class_id tbl = Z.of_nat k).
Proof.
  intros Hls Htail. eexists. split; [reflexivity|].
  cbn [labels label_count car_class_id].
  rewrite (read_labels_lines ls tail _ []); [|assumption|assumption|lia|simpl; lia].
  cbn [app length]. rewrite Nat.sub_0_r.
  split; [reflexivity|]. split; [reflexivity|]. split.
  - rewrite length_take. unfold MAX_LABELS. lia.
  - split.
    + intros Hn. apply find_car_none. exact Hn.
    + intros k Hk Hfirst. rewrite (find_car_first _ 0 2 k Hk Hfirst). lia.
Qed.

Lemma labels_are_the_lines_of_the_file_witness :
  exists tbl,
    load_labels (Some sample_labels_file) = Some tbl /\
    label_count tbl = 3 /\ car_class_id tbl = 1.
Proof.
  destruct (labels_are_the_lines_of_the_file
              [list_ascii_of_string "person"; car_label] (list_ascii_of_string "bus"))
    as (tbl & Hload & Hlabels & Hcount & _ & _ & Hcar).
  - repeat constructor; simpl; try lia; intros H;
      repeat (destruct H as [H|H]; [discriminate H|]); exact H.
  - repeat constructor; simpl; try lia; intros H;
      repeat (destruct H as [H|H]; [discriminate H|]); exact H.
  - exists tbl. split; [exact Hload|]. split.
    + rewrite Hcount, Hlabels. reflexivity.
    + apply (Hcar 1%nat).
      * rewrite Hlabels. reflexivity.
      * intros j Hj. rewrite Hlabels.
        destruct j as [|j]; [discriminate|lia].
Defined.

(** ** The callers of [FPGA_DMA_READ_FRAME] *)





(** ** The test tool *)

(** X25. [verify_frame] reads inside a buffer of at least [size]
    bytes and returns -1 exactly when all of the first [size] bytes
    are 0, and 0 otherwise; a frame of size 0 counts as all zeros. *)
Theorem verify_frame_rejects_only_zero_frames (buffer : list Z) (size : Z) :
  0 <= size <= Z.of_nat (length buffer) -> size < 2 ^ 64 ->
  exists r,
    verify_frame buffer size = Some r /\
    (r = -1 \/ r = 0) /\
    (r = -1 <-> forall i, 0 <= i < size -> arr_load buffer i = Some 0).
Proof.
  intros Hsize Hmax. unfold verify_frame.
  destruct (for_range_inv
              (fun i n => 0 <= n <= i /\
                          (n = 0 <-> forall j, 0 <= j < i -> arr_load buffer j = Some 0))
              (fun i n => let? d := arr_load buffer i in
                          Some (if d =? 0 then n else u64 (n + 1)))
              0 size 0) as (n & -> & Hn & Hzero).
  - lia.
  - split; [lia|]. split; [intros _ j Hj; lia|reflexivity].
  - intros i n Hi (Hn & Hz).
    destruct (arr_load_Some buffer i) as (d & Hd); [lia|]. rewrite Hd.
    eexists. split; [reflexivity|].
    destruct (Z.eqb_spec d 0) as [->|Hne].
    + split; [lia|]. rewrite Hz. split.
      * intros Hall j Hj. destruct (Z.eq_dec j i) as [->|]; [exact Hd|apply Hall; lia].
      * intros Hall j Hj. apply Hall. lia.
    + unfold u64. rewrite Z.mod_small by lia. split; [lia|]. split; [lia|].
      intros Hall. specialize (Hall i ltac:(lia)). congruence.
  - destruct (Z.eqb_spec n 0) as [->|Hne]; eexists; (split; [reflexivity|]).
    + split; [auto|]. split; [intros _; apply Hzero; reflexivity|reflexivity].
    + split; [auto|]. split; [discriminate|]. intros Hall. apply Hzero in Hall. lia.
Qed.

Lemma verify_frame_rejects_only_zero_frames_witness :
  exists r, verify_frame [0; 0; 7; 0] 4 = Some r /\ r = 0.
Proof.
  destruct (verify_frame_rejects_only_zero_frames [0; 0; 7; 0] 4) as (r & Hr & Hv & Hz);
    [simpl; lia|lia|].
  exists r. split; [exact Hr|].
  destruct Hv as [->|Hv]; [|exact Hv].
  destruct Hz as (Hz & _). specialize (Hz eq_refl 2 ltac:(lia)). discriminate Hz.
Defined.

(** The pixel of [save_ppm_rgb565] is the pixel of [decode_pixel565]
    under the setting the mode stands for. *)
Lemma ppm_pixel_decodes mode lo hi :
  ppm_pixel mode lo hi =
    let '(r, g, b) := decode_pixel565 (ppm_swaps mode)
                        (if ppm_is_rgb mode then PIXEL_ORDER_RGB565 else PIXEL_ORDER_BGR565)
                        lo hi in
    [r; g; b].
Proof. destruct mode; reflexivity. Qed.

Lemma rgb_at_app a b j v : rgb_at a j v -> rgb_at (a ++ b) j v.
Proof.
  unfold rgb_at, arr_load. intros (H0 & H1 & H2).
  repeat match goal with
         | H : (if ?c then _ else _) = Some _ |- _ => destruct c; [|discriminate H]
         end.
  repeat split; apply lookup_app_l_Some; assumption.
Qed.

Lemma rgb_at_end a j r g b :
  0 <= j -> Z.of_nat (length a) = j * 3 -> rgb_at (a ++ [r; g; b]) j (r, g, b).
Proof.
  intros Hj Hlen. unfold rgb_at, arr_load. cbn [fst snd].
  destruct (Z.leb_spec 0 (j * 3)); [|lia].
  destruct (Z.leb_spec 0 (j * 3 + 1)); [|lia].
  destruct (Z.leb_spec 0 (j * 3 + 2)); [|lia].
  rewrite !lookup_app_r by lia.
  replace (Z.to_nat (j * 3) - length a)%nat with 0%nat by lia.
  replace (Z.to_nat (j * 3 + 1) - length a)%nat with 1%nat by lia.
  replace (Z.to_nat (j * 3 + 2) - length a)%nat with 2%nat by lia.
  auto.
Qed.

(** X26. The image the test tool saves is the image the worker
    sees.  For a buffer of two bytes for each of the
    [width * height] pixels (fewer than 2^31), [save_ppm_rgb565]
    reads inside the buffer and writes three bytes per pixel after
    the header: those [decode_pixel565] gives for the pixel, with
    [swap16] on for the two swap modes and the pixel order of the
    mode. *)
Theorem ppm_pixels_are_the_decoded_pixels
    (src : list Z) (width height : Z) (mode : ppm_mode) :
  0 <= width -> 0 <= height -> width * height < 2 ^ 31 ->
  2 * (width * height) <= Z.of_nat (length src) ->
  let order := if ppm_is_rgb mode then PIXEL_ORDER_RGB565 else PIXEL_ORDER_BGR565 in
  exists body,
    save_ppm_rgb565 src width height mode = Some body /\
    Z.of_nat (length body) = 3 * (width * height) /\
    (forall i, 0 <= i < width * height ->
       exists lo hi, arr_load src (i * 2) = Some lo /\ arr_load src (i * 2 + 1) = Some hi /\
                     rgb_at body i (decode_pixel565 (ppm_swaps mode) order lo hi)).
Proof.
  intros Hw Hh Hmax Hlen order. unfold save_ppm_rgb565.
  assert (0 <= width * height) as Hpos by nia.
  unfold u32 at 1. rewrite Z.mod_small by lia.
  destruct (for_range_inv
              (fun i out =>
                 Z.of_nat (length out) = 3 * i /\
                 forall j, 0 <= j < i ->
                   exists lo hi, arr_load src (j * 2) = Some lo /\
                                 arr_load src (j * 2 + 1) = Some hi /\
                                 rgb_at out j (decode_pixel565 (ppm_swaps mode) order lo hi))
              (fun i out =>
                 let? lo := arr_load src (u32 (i * 2)) in
                 let? hi := arr_load src (u32 (i * 2 + 1)) in
                 Some (out ++ ppm_pixel mode lo hi))
              0 (width * height) []) as (body & Hrun & Hblen & Hpix).
  - exact Hpos.
  - split; [reflexivity|]. intros j Hj. lia.
  - intros i out Hi (Hol & Hdone).
    unfold u32. rewrite !Z.mod_small by lia.
    destruct (arr_load_Some src (i * 2)) as (lo & Hlo); [lia|].
    destruct (arr_load_Some src (i * 2 + 1)) as (hi & Hhi); [lia|].
    rewrite Hlo, Hhi. eexists. split; [reflexivity|].
    rewrite ppm_pixel_decodes. fold order.
    destruct (decode_pixel565 (ppm_swaps mode) order lo hi) as [[r g] b] eqn:Ed.
    split.
    + rewrite length_app. simpl length. lia.
    + intros j Hj. destruct (Z.eq_dec j i) as [->|Hne].
      * exists lo, hi. split; [exact Hlo|]. split; [exact Hhi|].
        rewrite Ed. apply rgb_at_end; lia.
      * destruct (Hdone j ltac:(lia)) as (lo' & hi' & A & B & C).
        exists lo', hi'. split; [exact A|]. split; [exact B|].
        apply rgb_at_app. exact C.
  - exists body. split; [exact Hrun|]. split; [exact Hblen|exact Hpix].
Qed.

Lemma ppm_pixels_are_the_decoded_pixels_witness :
  exists body,
    save_ppm_rgb565 [0x1F; 0x00; 0x00; 0xF8] 2 1 PPM_MODE_RGB565_SWAP16 = Some body /\
    Z.of_nat (length body) = 6.
Proof.
  destruct (ppm_pixels_are_the_decoded_pixels [0x1F; 0x00; 0x00; 0xF8] 2 1
              PPM_MODE_RGB565_SWAP16) as (body & Hrun & Hlen & _); [lia|lia|lia|simpl; lia|].
  exists body. split; [exact Hrun|exact Hlen].
Defined.

(** * The detections of the worker *)

(** ** Arrays and loops that get stuck *)

Lemma buf_load_Some {A : Type} (a : list A) i :
  0 <= i < Z.of_nat (length a) -> exists v, buf_load a i = Some v.
Proof.
  intros H. unfold buf_load. destruct (Z.leb_spec 0 i); [|lia].
  destruct (lookup_lt_is_Some_2 a (Z.to_nat i)) as (v & Hv); [lia|]. eauto.
Qed.

Lemma buf_load_None {A : Type} (a : list A) i :
  Z.of_nat (length a) <= i -> buf_load a i = None.
Proof.
  intros H. unfold buf_load. destruct (Z.leb_spec 0 i); [|reflexivity].
  apply lookup_ge_None_2. lia.
Qed.

Lemma buf_load_lookup {A : Type} (a : list A) (k : nat) :
  buf_load a (Z.of_nat k) = a !! k.
Proof.
  unfold buf_load. destruct (Z.leb_spec 0 (Z.of_nat k)); [|lia].
  rewrite Nat2Z.id. reflexivity.
Qed.

Lemma buf_store_Some {A : Type} (a : list A) i v :
  0 <= i < Z.of_nat (length a) -> buf_store a i v = Some (<[Z.to_nat i := v]> a).
Proof.
  intros H. unfold buf_store.
  destruct (Z.leb_spec 0 i); [|lia]. destruct (Z.ltb_spec i (Z.of_nat (length a))); [|lia].
  reflexivity.
Qed.

(** A loop that reaches a turn whose body is undefined is undefined. *)
Lemma for_loop_stuck {St : Type} (Inv : Z -> St -> Prop) (body : Z -> St -> option St) n :
  forall i j s,
  i <= j < i + Z.of_nat n ->
  Inv i s ->
  (forall k t t', i <= k < j -> Inv k t -> body k t = Some t' -> Inv (k + 1) t') ->
  (forall t, Inv j t -> body j t = None) ->
  for_loop n i body s = None.
Proof.
  induction n as [|n IH]; intros i j s Hj Hi Hstep Hstuck; [lia|].
  simpl. destruct (Z.eq_dec i j) as [->|Hne].
  - rewrite (Hstuck s Hi). reflexivity.
  - destruct (body i s) as [t'|] eqn:Eb; [|reflexivity].
    apply (IH (i + 1) j t'); [lia| |intros k t t'' Hk; apply Hstep; lia|exact Hstuck].
    apply (Hstep i s t'); [lia|exact Hi|exact Eb].
Qed.

Lemma for_range_stuck {St : Type} (Inv : Z -> St -> Prop) (body : Z -> St -> option St)
    lo hi j s :
  lo <= j < hi ->
  Inv lo s ->
  (forall k t t', lo <= k < j -> Inv k t -> body k t = Some t' -> Inv (k + 1) t') ->
  (forall t, Inv j t -> body j t = None) ->
  for_range lo hi body s = None.
Proof.
  intros Hj Hi Hstep Hstuck. unfold for_range.
  apply (for_loop_stuck Inv body _ lo j s); [lia|exact Hi|exact Hstep|exact Hstuck].
Qed.

(** ** [decode_rows_output] *)

Section DecodeFacts.

Context {float : Type} {F : Float32 float}.

Lemma best_class_in_bounds (rows : list float) base class_count :
  0 <= class_count -> 0 <= base + 5 ->
  base + 5 + class_count <= Z.of_nat (length rows) ->
  exists best best_id,
    best_class rows base class_count = Some (best, best_id) /\
    0 <= best_id < Z.max 1 class_count.
Proof.
  intros Hc Hb Hlen. unfold best_class.
  destruct (for_range_inv
              (fun c (st : float * Z) => 0 <= snd st < Z.max 1 c)
              (fun c (st : float * Z) =>
                 let? p := buf_load rows (base + 5 + c) in
                 Some (if f_gt p (fst st) then (p, c) else st))
              0 class_count (f_lit 0 1, 0)) as ([best id] & Hr & Hinv).
  - exact Hc.
  - simpl. lia.
  - intros c st Hcr Hst.
    destruct (buf_load_Some rows (base + 5 + c)) as (p & Hp); [lia|]. rewrite Hp.
    eexists. split; [reflexivity|].
    destruct (f_gt p (fst st)); simpl; lia.
  - exists best, id. split; [exact Hr|exact Hinv].
Qed.

Lemma best_class_out_of_bounds (rows : list float) base class_count :
  0 <= base + 5 <= Z.of_nat (length rows) ->
  Z.of_nat (length rows) < base + 5 + class_count ->
  best_class rows base class_count = None.
Proof.
  intros Hb Hlen. unfold best_class.
  apply (for_range_stuck (fun _ _ => True) _ 0 class_count
           (Z.of_nat (length rows) - base - 5)); [lia|exact I|auto|].
  intros t _. rewrite buf_load_None; [reflexivity|lia].
Qed.

Lemma decode_row_in_bounds (rows : list float) n_cols class_count conf_thr
    src_w src_h in_w in_h i (out : list (scored float)) :
  0 <= class_count -> 5 <= n_cols -> class_count + 5 <= n_cols -> 0 <= i ->
  (i + 1) * n_cols <= Z.of_nat (length rows) ->
  exists out',
    decode_row rows n_cols class_count conf_thr src_w src_h in_w in_h i out = Some out' /\
    (out' = out \/ exists d, out' = out ++ [d] /\ decoded_box class_count d).
Proof.
  intros Hc Hn Hcn Hi Hlen. unfold decode_row.
  assert (0 <= i * n_cols) by nia.
  destruct (buf_load_Some rows (i * n_cols + 4)) as (obj & ->); [lia|].
  destruct (buf_load_Some rows (i * n_cols + 0)) as (cx & ->); [lia|].
  destruct (buf_load_Some rows (i * n_cols + 1)) as (cy & ->); [lia|].
  destruct (buf_load_Some rows (i * n_cols + 2)) as (bw & ->); [lia|].
  destruct (buf_load_Some rows (i * n_cols + 3)) as (bh & ->); [lia|].
  destruct (best_class_in_bounds rows (i * n_cols) class_count) as (best & id & -> & Hid);
    [lia|lia|lia|].
  cbv zeta.
  match goal with
  | |- context [if f_lt ?a ?b then _ else _] => destruct (f_lt a b)
  end; eexists; (split; [reflexivity|]); [left; reflexivity|].
  right. eexists. split; [reflexivity|].
  unfold decoded_box. cbn [fst].
  rewrite clamp_box_eq.
  cbn [box_x1 box_y1 box_x2 box_y2 box_cls]. lia.
Qed.

Lemma decode_row_grows (rows : list float) n_cols class_count conf_thr
    src_w src_h in_w in_h i (out out' : list (scored float)) :
  decode_row rows n_cols class_count conf_thr src_w src_h in_w in_h i out = Some out' ->
  out' = out \/ exists d, out' = out ++ [d].
Proof.
  unfold decode_row.
  repeat match goal with
         | |- context [match ?x with Some _ => _ | None => _ end] =>
             destruct x; [|discriminate]
         end.
  destruct p as [best id]. cbv zeta.
  match goal with
  | |- context [if f_lt ?a ?b then _ else _] => destruct (f_lt a b)
  end; intros E; injection E as <-; eauto.
Qed.

Lemma decode_row_out_of_bounds (rows : list float) n_cols class_count conf_thr
    src_w src_h in_w in_h i (out : list (scored float)) :
  5 <= n_cols -> n_cols < class_count + 5 -> 0 <= i ->
  Z.of_nat (length rows) = (i + 1) * n_cols ->
  decode_row rows n_cols class_count conf_thr src_w src_h in_w in_h i out = None.
Proof.
  intros Hn Hcn Hi Hlen. unfold decode_row.
  assert (0 <= i * n_cols) by nia.
  rewrite (best_class_out_of_bounds rows (i * n_cols) class_count) by lia.
  repeat match goal with
         | |- context [match ?x with Some _ => _ | None => _ end] =>
             destruct x; [|reflexivity]
         end.
  reflexivity.
Qed.

Lemma decode_rows_from_in_bounds (rows : list float) n_cols class_count conf_thr
    src_w src_h in_w in_h n : forall i (out : list (scored float)),
  0 <= class_count -> 5 <= n_cols -> class_count + 5 <= n_cols -> 0 <= i ->
  (i + Z.of_nat n) * n_cols <= Z.of_nat (length rows) ->
  Z.of_nat (length out) <= MAX_DETS ->
  exists news,
    decode_rows_from n rows n_cols class_count conf_thr src_w src_h in_w in_h i out
      = Some (out ++ news) /\
    (length news <= n)%nat /\ Z.of_nat (length (out ++ news)) <= MAX_DETS /\
    Forall (decoded_box class_count) news.
Proof.
  induction n as [|n IH]; intros i out Hc Hn Hcn Hi Hlen Hout.
  - exists []. rewrite app_nil_r. simpl. auto.
  - cbn [decode_rows_from].
    destruct (Z.ltb_spec (Z.of_nat (length out)) MAX_DETS) as [Hlt|Hge].
    2: { exists []. rewrite app_nil_r. simpl. repeat split; auto; lia. }
    destruct (decode_row_in_bounds rows n_cols class_count conf_thr src_w src_h in_w in_h
                i out) as (out1 & -> & Hout1); [lia|lia|lia|lia|nia|].
    destruct Hout1 as [->|(d & -> & Hd)].
    + destruct (IH (i + 1) out) as (news & -> & Hl & Hm & Hall); [lia|lia|lia|lia|nia|lia|].
      exists news. repeat split; auto.
    + destruct (IH (i + 1) (out ++ [d])) as (news & -> & Hl & Hm & Hall);
        [lia|lia|lia|lia|nia|rewrite length_app; simpl; lia|].
      exists (d :: news). rewrite <- app_assoc in *. simpl in *.
      repeat split; auto; lia.
Qed.

Lemma decode_rows_from_out_of_bounds (rows : list float) n_cols class_count conf_thr
    src_w src_h in_w in_h n : forall i (out : list (scored float)),
  5 <= n_cols -> n_cols < class_count + 5 -> 0 <= i -> (0 < n)%nat ->
  Z.of_nat (length rows) = (i + Z.of_nat n) * n_cols ->
  Z.of_nat (length out) + Z.of_nat n <= MAX_DETS ->
  decode_rows_from n rows n_cols class_count conf_thr src_w src_h in_w in_h i out = None.
Proof.
  induction n as [|n IH]; intros i out Hn Hcn Hi Hpos Hlen Hout; [lia|].
  cbn [decode_rows_from].
  destruct (Z.ltb_spec (Z.of_nat (length out)) MAX_DETS) as [Hlt|Hge]; [|lia].
  destruct (decode_row rows n_cols class_count conf_thr src_w src_h in_w in_h i out)
    as [out1|] eqn:Er; [|reflexivity].
  destruct n as [|n].
  - rewrite decode_row_out_of_bounds in Er; [discriminate|lia|lia|lia|lia].
  - apply decode_row_grows in Er.
    apply IH; [lia|lia|lia|lia|lia|].
    destruct Er as [->|(d & ->)]; [lia|]. rewrite length_app. simpl. lia.
Qed.

(** With classes that do not fit the rows, the loop gets through a
    tensor of exactly [n] more rows in one way only: by filling [out]
    before it comes to the last row. *)
Lemma decode_rows_from_past_the_end (rows : list float) n_cols class_count conf_thr
    src_w src_h in_w in_h n : forall i (out : list (scored float)),
  5 <= n_cols -> n_cols < class_count + 5 -> 0 <= i -> (0 < n)%nat ->
  Z.of_nat (length rows) = (i + Z.of_nat n) * n_cols ->
  Z.of_nat (length out) <= MAX_DETS ->
  decode_rows_from n rows n_cols class_count conf_thr src_w src_h in_w in_h i out = None \/
  exists news,
    decode_rows_from n rows n_cols class_count conf_thr src_w src_h in_w in_h i out
      = Some (out ++ news) /\
    Z.of_nat (length (out ++ news)) = MAX_DETS /\ (length news < n)%nat.
Proof.
  induction n as [|n IH]; intros i out Hn Hcn Hi Hpos Hlen Hout; [lia|].
  cbn [decode_rows_from].
  destruct (Z.ltb_spec (Z.of_nat (length out)) MAX_DETS) as [Hlt|Hge].
  2: { right. exists []. rewrite app_nil_r. split; [reflexivity|]. simpl. lia. }
  destruct (decode_row rows n_cols class_count conf_thr src_w src_h in_w in_h i out)
    as [out1|] eqn:Er; [|left; reflexivity].
  destruct n as [|n].
  { rewrite decode_row_out_of_bounds in Er; [discriminate|lia|lia|lia|lia]. }
  apply decode_row_grows in Er.
  destruct (IH (i + 1) out1) as [Hnone|(news & Hsome & Hfull & Hfew)];
    [lia|lia|lia|lia|lia| | |].
  - destruct Er as [->|(d & ->)]; [lia|]. rewrite length_app. simpl. lia.
  - left. exact Hnone.
  - right. destruct Er as [->|(d & ->)].
    + exists news. split; [exact Hsome|]. split; [exact Hfull|]. lia.
    + exists (d :: news). rewrite <- app_assoc in Hsome, Hfull. simpl in Hsome, Hfull.
      split; [exact Hsome|]. split; [exact Hfull|]. simpl. lia.
Qed.

End DecodeFacts.

(** X27. [decode_rows_output] reads inside the tensor when the
    classes fit the rows, and past its end when they do not and the
    loop comes to the last row.  For a tensor of at least [n_rows]
    rows of [n_cols >= 5] values and [class_count + 5 <= n_cols],
    every read is inside: the function returns, having added at most
    one box per row and never more than [MAX_DETS] in all, each with
    ordered corners at or after the origin and a class below
    [class_count].  With [n_cols < class_count + 5], as when the
    labels file has more lines than the model has classes, and a
    tensor of exactly [n_rows] rows, the scores of the last row lie
    past the end of the tensor: the call either reads out of bounds
    or has stopped before the last row with [out] full, [MAX_DETS]
    boxes in all; it always reads out of bounds when [out] has room
    for a box from every row. *)
Theorem decode_rows_output_reads_inside_when_the_classes_fit
    {float : Type} {F : Float32 float}
    (rows : list float) (n_rows n_cols class_count : Z) (conf_thr : float)
    (src_w src_h in_w in_h : Z) (out : list (scored float)) :
  0 <= n_rows -> 5 <= n_cols -> 0 <= class_count ->
  Z.of_nat (length out) <= MAX_DETS ->
  (class_count + 5 <= n_cols ->
   n_rows * n_cols <= Z.of_nat (length rows) ->
   exists news,
     decode_rows_output rows n_rows n_cols class_count conf_thr src_w src_h in_w in_h out
       = Some (out ++ news) /\
     Z.of_nat (length news) <= n_rows /\
     Z.of_nat (length (out ++ news)) <= MAX_DETS /\
     Forall (decoded_box class_count) news) /\
  (n_cols < class_count + 5 ->
   0 < n_rows -> Z.of_nat (length rows) = n_rows * n_cols ->
   (decode_rows_output rows n_rows n_cols class_count conf_thr src_w src_h in_w in_h out
      = None \/
    exists news,
      decode_rows_output rows n_rows n_cols class_count conf_thr src_w src_h in_w in_h out
        = Some (out ++ news) /\
      Z.of_nat (length (out ++ news)) = MAX_DETS /\
      Z.of_nat (length news) < n_rows) /\
   (Z.of_nat (length out) + n_rows <= MAX_DETS ->
    decode_rows_output rows n_rows n_cols class_count conf_thr src_w src_h in_w in_h out
      = None)).
Proof.
  intros Hr Hn Hc Hout. unfold decode_rows_output. split.
  - intros Hfit Hlen.
    destruct (decode_rows_from_in_bounds rows n_cols class_count conf_thr src_w src_h
                in_w in_h (Z.to_nat n_rows) 0 out) as (news & Hrun & Hl & Hm & Hall);
      [lia|lia|lia|lia|lia|lia|].
    exists news. repeat split; auto. lia.
  - intros Hfit Hpos Hlen. split.
    + destruct (decode_rows_from_past_the_end rows n_cols class_count conf_thr src_w src_h
                  in_w in_h (Z.to_nat n_rows) 0 out)
        as [Hnone|(news & Hsome & Hfull & Hfew)]; [lia|lia|lia|lia|lia|lia| |].
      * left. exact Hnone.
      * right. exists news. split; [exact Hsome|]. split; [exact Hfull|]. lia.
    + intros Hroom. apply decode_rows_from_out_of_bounds; lia.
Qed.

(** X27 on one row of seven values: inside with two classes, past the
    end with three. *)
Lemma decode_rows_output_reads_inside_when_the_classes_fit_witness :
  (exists news,
     decode_rows_output (F := int_floats) [10; 10; 4; 4; 9; 7; 8] 1 7 2 0 1280 720 640 640 []
       = Some news) /\
  decode_rows_output (F := int_floats) [10; 10; 4; 4; 9; 7; 8] 1 7 3 0 1280 720 640 640 []
    = None.
Proof.
  destruct (decode_rows_output_reads_inside_when_the_classes_fit (F := int_floats)
              [10; 10; 4; 4; 9; 7; 8] 1 7 2 0 1280 720 640 640 [])
    as (Hin & _); [lia|lia|lia|simpl; unfold MAX_DETS; lia|].
  destruct (decode_rows_output_reads_inside_when_the_classes_fit (F := int_floats)
              [10; 10; 4; 4; 9; 7; 8] 1 7 3 0 1280 720 640 640 [])
    as (_ & Hout); [lia|lia|lia|simpl; unfold MAX_DETS; lia|].
  split.
  - destruct Hin as (news & Hrun & _); [lia|simpl; lia|]. exists news. exact Hrun.
  - apply Hout; [lia|lia|simpl; lia|simpl; unfold MAX_DETS; lia].
Defined.

(** ** [nms_inplace] *)

Section NmsFacts.

Context {float : Type} {F : Float32 float}.

Lemma suppressed_snoc thr (kept : list (scored float)) d e :
  suppressed thr (kept ++ [d]) e = suppressed thr kept e || suppresses thr d e.
Proof.
  unfold suppressed. rewrite existsb_app. simpl. rewrite orb_false_r. reflexivity.
Qed.

Lemma buf_store_length {A : Type} (a a' : list A) i v :
  buf_store a i v = Some a' -> length a' = length a.
Proof.
  unfold buf_store. destruct ((0 <=? i) && (i <? Z.of_nat (length a))); [|discriminate].
  intros E. injection E as <-. apply length_insert.
Qed.

(** The loop over [j] marks the boxes after [i] that [d] suppresses,
    and leaves the other marks. *)
Lemma nms_mark_spec thr (a : list (scored float)) (sorted : list (scored float))
    (i count : Z) (d : scored float) (rem : list bool) :
  0 <= i < count -> count <= MAX_DETS ->
  Z.of_nat (length rem) = MAX_DETS ->
  buf_load a i = Some d ->
  (forall k : nat, i < Z.of_nat k < count -> a !! k = sorted !! k) ->
  count <= Z.of_nat (length sorted) ->
  exists rem',
    nms_mark a i count thr rem = Some rem' /\
    length rem' = length rem /\
    forall (k : nat) (e : scored float) (r : bool),
      sorted !! k = Some e -> rem !! k = Some r ->
      rem' !! k = Some (if (i <? Z.of_nat k) && (Z.of_nat k <? count)
                        then r || suppresses thr d e else r).
Proof.
  intros Hi Hc Hrem Hd Ha Hs. unfold nms_mark.
  destruct (for_range_inv
              (fun j (rem' : list bool) =>
                 length rem' = length rem /\
                 forall (k : nat) (e : scored float) (r : bool),
                   sorted !! k = Some e -> rem !! k = Some r ->
                   rem' !! k = Some (if (i <? Z.of_nat k) && (Z.of_nat k <? j)
                                     then r || suppresses thr d e else r))
              (fun j (removed : list bool) =>
                 let? rj := buf_load removed j in
                 if rj then Some removed
                 else
                   let? di := buf_load a i in
                   let? dj := buf_load a j in
                   if negb (box_cls (fst di) =? box_cls (fst dj)) then Some removed
                   else if f_gt (box_iou (fst di) (fst dj)) thr then buf_store removed j true
                   else Some removed)
              (i + 1) count rem) as (rem' & Hrun & Hlen & Hmarks).
  - lia.
  - split; [reflexivity|]. intros k e r He Hr.
    destruct (Z.ltb_spec i (Z.of_nat k)); simpl; [|exact Hr].
    destruct (Z.ltb_spec (Z.of_nat k) (i + 1)); [lia|exact Hr].
  - intros j rem1 Hj (Hlen1 & Hm1).
    assert (exists e, sorted !! Z.to_nat j = Some e) as (e & He).
    { apply lookup_lt_is_Some_2. lia. }
    assert (exists r, rem !! Z.to_nat j = Some r) as (r & Hr).
    { apply lookup_lt_is_Some_2. lia. }
    pose proof (Hm1 _ _ _ He Hr) as Hj1.
    rewrite Z2Nat.id in Hj1 by lia.
    destruct (Z.ltb_spec i j); [|lia]. rewrite Z.ltb_irrefl in Hj1. simpl in Hj1.
    assert (buf_load rem1 j = Some r) as Hload.
    { unfold buf_load. destruct (Z.leb_spec 0 j); [exact Hj1|lia]. }
    assert (buf_load a j = Some e) as Hej.
    { unfold buf_load. destruct (Z.leb_spec 0 j); [|lia].
      rewrite Ha by lia. exact He. }
    (* what is stored at [j], if anything *)
    assert (forall rem2,
              length rem2 = length rem ->
              rem2 !! Z.to_nat j = Some (r || suppresses thr d e) ->
              (forall k : nat, k <> Z.to_nat j -> rem2 !! k = rem1 !! k) ->
              length rem2 = length rem /\
              forall (k : nat) (e0 : scored float) (r0 : bool),
                sorted !! k = Some e0 -> rem !! k = Some r0 ->
                rem2 !! k = Some (if (i <? Z.of_nat k) && (Z.of_nat k <? j + 1)
                                  then r0 || suppresses thr d e0 else r0)) as Hdone.
    { intros rem2 Hl2 Hat Hother. split; [exact Hl2|]. intros k e0 r0 He0 Hr0.
      destruct (Nat.eq_dec k (Z.to_nat j)) as [->|Hne].
      - rewrite Z2Nat.id by lia.
        destruct (Z.ltb_spec i j); [|lia]. destruct (Z.ltb_spec j (j + 1)); [|lia].
        simpl. rewrite Hat. congruence.
      - rewrite (Hother k Hne). rewrite (Hm1 _ _ _ He0 Hr0).
        destruct (Z.ltb_spec i (Z.of_nat k)); simpl; [|reflexivity].
        destruct (Z.ltb_spec (Z.of_nat k) j), (Z.ltb_spec (Z.of_nat k) (j + 1));
          try reflexivity; lia. }
    rewrite Hload. destruct r.
    { eexists. split; [reflexivity|]. apply Hdone; auto. }
    rewrite Hd, Hej. unfold suppresses in Hdone. simpl orb in Hdone.
    destruct (box_cls (fst d) =? box_cls (fst e)); simpl negb; cbv iota.
    2: { eexists. split; [reflexivity|]. apply Hdone; auto. }
    simpl andb in Hdone.
    destruct (f_gt (box_iou (fst d) (fst e)) thr).
    2: { eexists. split; [reflexivity|]. apply Hdone; auto. }
    rewrite buf_store_Some by lia.
    eexists. split; [reflexivity|]. apply Hdone.
    + rewrite length_insert. exact Hlen1.
    + apply list_lookup_insert_eq. lia.
    + intros k Hk. apply list_lookup_insert_ne. lia.
  - exists rem'. split; [exact Hrun|]. split; [exact Hlen|exact Hmarks].
Qed.

(** With more than [MAX_DETS] boxes the loop over [j] leaves the
    array of marks. *)
Lemma nms_mark_stuck thr (a : list (scored float)) (i count : Z) (rem : list bool) :
  0 <= i < MAX_DETS -> MAX_DETS < count ->
  Z.of_nat (length rem) = MAX_DETS ->
  nms_mark a i count thr rem = None.
Proof.
  intros Hi Hc Hrem. unfold nms_mark.
  apply (for_range_stuck (fun _ (r : list bool) => length r = length rem) _ _ _ MAX_DETS).
  - lia.
  - reflexivity.
  - intros k t t' Hk Hl.
    repeat match goal with
           | |- context [match ?x with Some _ => _ | None => _ end] =>
               destruct x; [|discriminate]
           | |- context [if ?x then _ else _] => destruct x
           end;
      intros E; try (injection E as <-; exact Hl).
    apply buf_store_length in E. congruence.
  - intros t Hl. rewrite buf_load_None; [reflexivity|lia].
Qed.

(** The state of [nms_inplace] before turn [i] of its outer loop:
    the kept boxes are at the front, the boxes not yet looked at are
    where they were, and the marks say which of them a kept box
    suppresses. *)
Lemma nms_loop_spec thr (arr0 sorted : list (scored float)) (count : Z) :
  0 <= count <= MAX_DETS ->
  Z.of_nat (length sorted) = count ->
  (forall k : nat, Z.of_nat k < count -> arr0 !! k = sorted !! k) ->
  count <= Z.of_nat (length arr0) ->
  exists a rem,
    for_range 0 count
      (fun i (st : list (scored float) * list bool * Z) =>
         let '(dets, removed, out) := st in
         let? ri := buf_load removed i in
         if ri then Some st
         else
           let? di := buf_load dets i in
           let? dets := buf_store dets out di in
           let? removed := nms_mark dets i count thr removed in
           Some (dets, removed, out + 1))
      (arr0, replicate (Z.to_nat MAX_DETS) false, 0)
      = Some (a, rem, Z.of_nat (length (greedy_nms thr sorted))) /\
    length a = length arr0 /\
    take (length (greedy_nms thr sorted)) a = greedy_nms thr sorted /\
    drop (Z.to_nat count) a = drop (Z.to_nat count) arr0.
Proof.
  intros Hc Hs Harr Hlen.
  destruct (for_range_inv
              (fun i (st : list (scored float) * list bool * Z) =>
                 let '(a, rem, out) := st in
                 length a = length arr0 /\ Z.of_nat (length rem) = MAX_DETS /\
                 0 <= out <= i /\
                 (forall k : nat, i <= Z.of_nat k -> a !! k = arr0 !! k) /\
                 (forall (k : nat) (e : scored float),
                    i <= Z.of_nat k -> sorted !! k = Some e ->
                    rem !! k = Some (suppressed thr (take (Z.to_nat out) a) e)) /\
                 take (Z.to_nat out) a ++
                   nms_keep thr (take (Z.to_nat out) a) (drop (Z.to_nat i) sorted)
                 = greedy_nms thr sorted)
              (fun i (st : list (scored float) * list bool * Z) =>
                 let '(dets, removed, out) := st in
                 let? ri := buf_load removed i in
                 if ri then Some st
                 else
                   let? di := buf_load dets i in
                   let? dets := buf_store dets out di in
                   let? removed := nms_mark dets i count thr removed in
                   Some (dets, removed, out + 1))
              0 count (arr0, replicate (Z.to_nat MAX_DETS) false, 0))
    as ([[a rem] out] & Hrun & Hla & Hlr & Hout & Hsuffix & Hmarks & Hres).
  - lia.
  - split; [reflexivity|]. split; [rewrite length_replicate; unfold MAX_DETS; lia|].
    split; [lia|]. split; [auto|]. split.
    + intros k e Hk He.
      replace (take (Z.to_nat 0) arr0) with (@nil (scored float)) by reflexivity.
      unfold suppressed. cbn [existsb].
      apply lookup_replicate_2.
      apply lookup_lt_Some in He. unfold MAX_DETS in *. lia.
    + reflexivity.
  - intros i [[a rem] out] Hi (Hla & Hlr & Hout & Hsuffix & Hmarks & Hres).
    assert (exists d, sorted !! Z.to_nat i = Some d) as (d & Hd).
    { apply lookup_lt_is_Some_2. lia. }
    assert (drop (Z.to_nat i) sorted = d :: drop (Z.to_nat (i + 1)) sorted) as Hdrop.
    { replace (Z.to_nat (i + 1)) with (S (Z.to_nat i)) by lia.
      apply drop_S. exact Hd. }
    rewrite Hdrop in Hres. cbn [nms_keep] in Hres.
    pose proof (Hmarks (Z.to_nat i) d ltac:(lia) Hd) as Hri.
    assert (buf_load rem i = Some (suppressed thr (take (Z.to_nat out) a) d)) as ->.
    { unfold buf_load. destruct (Z.leb_spec 0 i); [exact Hri|lia]. }
    destruct (suppressed thr (take (Z.to_nat out) a) d) eqn:Esup.
    { eexists. split; [reflexivity|].
      split; [exact Hla|]. split; [exact Hlr|]. split; [lia|].
      split; [intros k Hk; apply Hsuffix; lia|].
      split; [intros k e Hk He; apply Hmarks; [lia|exact He]|exact Hres]. }
    assert (a !! Z.to_nat i = Some d) as Hai.
    { rewrite Hsuffix by lia. rewrite Harr by lia. exact Hd. }
    assert (buf_load a i = Some d) as ->.
    { unfold buf_load. destruct (Z.leb_spec 0 i); [exact Hai|lia]. }
    rewrite buf_store_Some by lia.
    set (a' := <[Z.to_nat out := d]> a).
    assert (length a' = length a) as Hla' by apply length_insert.
    assert (take (Z.to_nat (out + 1)) a' = take (Z.to_nat out) a ++ [d]) as Hkept.
    { replace (Z.to_nat (out + 1)) with (S (Z.to_nat out)) by lia.
      rewrite (take_S_r a' (Z.to_nat out) d).
      - f_equal. subst a'. apply take_insert_ge. lia.
      - subst a'. apply list_lookup_insert_eq. lia. }
    assert (buf_load a' i = Some d) as Hdi.
    { unfold buf_load. destruct (Z.leb_spec 0 i); [|lia]. subst a'.
      destruct (Nat.eq_dec (Z.to_nat out) (Z.to_nat i)) as [E|Hne].
      - rewrite E. apply list_lookup_insert_eq. lia.
      - rewrite list_lookup_insert_ne by exact Hne. exact Hai. }
    destruct (nms_mark_spec thr a' sorted i count d rem) as (rem' & -> & Hlr' & Hm');
      [lia|lia|exact Hlr|exact Hdi| |lia|].
    { intros k Hk. subst a'. rewrite list_lookup_insert_ne by lia.
      rewrite Hsuffix by lia. apply Harr. lia. }
    eexists. split; [reflexivity|].
    split; [congruence|]. split; [congruence|]. split; [lia|].
    split.
    { intros k Hk. subst a'. rewrite list_lookup_insert_ne by lia. apply Hsuffix. lia. }
    split.
    { intros k e Hk He.
      rewrite (Hm' k e _ He (Hmarks k e ltac:(lia) He)).
      destruct (Z.ltb_spec i (Z.of_nat k)); [|lia].
      destruct (Z.ltb_spec (Z.of_nat k) count).
      2: { apply lookup_lt_Some in He. lia. }
      simpl. rewrite Hkept, suppressed_snoc. reflexivity. }
    rewrite Hkept, <- app_assoc. exact Hres.
  - rewrite drop_ge in Hres by lia. simpl in Hres. rewrite app_nil_r in Hres.
    assert (Z.of_nat (length (greedy_nms thr sorted)) = out) as Eout.
    { rewrite <- Hres, length_take. lia. }
    exists a, rem. rewrite Eout. split; [exact Hrun|]. split; [exact Hla|].
    split.
    + rewrite <- Eout in Hres. rewrite Nat2Z.id in Hres. exact Hres.
    + apply list_eq. intros k. rewrite !lookup_drop. apply Hsuffix. lia.
Qed.

(** [nms_inplace] on at most [MAX_DETS] boxes. *)
Lemma nms_inplace_in_bounds thr (qsort_conf : list (scored float) -> list (scored float))
    (dets : list (scored float)) (count : Z) :
  (forall l, length (qsort_conf l) = length l) ->
  0 <= count <= Z.of_nat (length dets) -> count <= MAX_DETS ->
  let kept := greedy_nms thr (qsort_conf (take (Z.to_nat count) dets)) in
  exists dets',
    nms_inplace qsort_conf dets count thr = Some (dets', Z.of_nat (length kept)) /\
    length dets' = length dets /\
    take (length kept) dets' = kept /\
    drop (Z.to_nat count) dets' = drop (Z.to_nat count) dets.
Proof.
  intros Hq Hc Hmax kept. unfold nms_inplace.
  set (sorted := qsort_conf (take (Z.to_nat count) dets)) in *.
  assert (length sorted = Z.to_nat count) as Hs.
  { subst sorted. rewrite Hq, length_take. lia. }
  destruct (nms_loop_spec thr (sorted ++ drop (Z.to_nat count) dets) sorted count)
    as (a & rem & Hrun & Hla & Htake & Hdrop).
  - lia.
  - lia.
  - intros k Hk. apply lookup_app_l. lia.
  - rewrite length_app. lia.
  - rewrite Hrun. exists a. split; [reflexivity|].
    split.
    { rewrite Hla, length_app, length_drop. lia. }
    split; [exact Htake|].
    rewrite Hdrop. rewrite drop_app_length'; [reflexivity|symmetry; exact Hs].
Qed.

(** What greedy suppression keeps. *)
Lemma nms_keep_sublist thr (l : list (scored float)) : forall kept,
  sublist (nms_keep thr kept l) l.
Proof.
  induction l as [|d l IH]; intros kept; cbn [nms_keep]; [constructor|].
  destruct (suppressed thr kept d).
  - apply sublist_cons. apply IH.
  - apply sublist_skip. apply IH.
Qed.

Lemma nms_keep_apart thr (l : list (scored float)) : forall kept (j : nat) b,
  nms_keep thr kept l !! j = Some b ->
  suppressed thr (kept ++ take j (nms_keep thr kept l)) b = false.
Proof.
  induction l as [|d l IH]; intros kept j b; cbn [nms_keep]; [discriminate|].
  destruct (suppressed thr kept d) eqn:E; [apply IH|].
  destruct j as [|j]; simpl.
  - intros H. injection H as <-. rewrite app_nil_r. exact E.
  - intros H. apply IH in H. rewrite <- app_assoc in H. exact H.
Qed.

Lemma suppressed_app_l thr (k1 k2 : list (scored float)) e :
  suppressed thr k1 e = true -> suppressed thr (k1 ++ k2) e = true.
Proof. unfold suppressed. rewrite existsb_app. intros ->. reflexivity. Qed.

Lemma nms_keep_covers thr (l : list (scored float)) : forall kept e,
  In e l ->
  In e (nms_keep thr kept l) \/ suppressed thr (kept ++ nms_keep thr kept l) e = true.
Proof.
  induction l as [|d l IH]; intros kept e Hin; [destruct Hin|]. cbn [nms_keep].
  destruct (suppressed thr kept d) eqn:E.
  - destruct Hin as [->|Hin]; [|apply IH; exact Hin].
    right. apply suppressed_app_l. exact E.
  - destruct Hin as [->|Hin]; [left; left; reflexivity|].
    destruct (IH (kept ++ [d]) e Hin) as [H|H]; [left; right; exact H|].
    right. rewrite <- app_assoc in H. exact H.
Qed.

End NmsFacts.

(** X28. [nms_inplace] is greedy suppression.  With at most
    [MAX_DETS] boxes (the size of its array of marks) it stays inside
    its arrays, and what it leaves at the front of [dets], [*count]
    boxes, is the sorted array without every box that a box kept
    before it, of the same class, overlaps by more than [iou_thr]; the
    boxes after the first [count] are not touched.  With more than
    [MAX_DETS] boxes it leaves the array of marks.  ([qsort] is taken
    to keep the number of boxes; nothing is assumed about the
    order it produces or about [float].) *)
Theorem nms_inplace_is_greedy_suppression
    {float : Type} {F : Float32 float}
    (qsort_conf : list (scored float) -> list (scored float))
    (dets : list (scored float)) (count : Z) (iou_thr : float) :
  (forall l, length (qsort_conf l) = length l) ->
  0 <= count <= Z.of_nat (length dets) ->
  let sorted := qsort_conf (take (Z.to_nat count) dets) in
  let kept := greedy_nms iou_thr sorted in
  (count <= MAX_DETS ->
   exists dets',
     nms_inplace qsort_conf dets count iou_thr = Some (dets', Z.of_nat (length kept)) /\
     length dets' = length dets /\
     take (length kept) dets' = kept /\
     drop (Z.to_nat count) dets' = drop (Z.to_nat count) dets) /\
  (MAX_DETS < count -> nms_inplace qsort_conf dets count iou_thr = None) /\
  sublist kept sorted /\
  (forall (i j : nat) a b,
     (i < j)%nat -> kept !! i = Some a -> kept !! j = Some b ->
     suppresses iou_thr a b = false) /\
  (forall e, In e sorted -> ~ In e kept ->
             exists k, In k kept /\ suppresses iou_thr k e = true).
Proof.
  intros Hq Hc sorted kept. unfold nms_inplace. fold sorted.
  assert (length sorted = Z.to_nat count) as Hs.
  { subst sorted. rewrite Hq, length_take. lia. }
  split; [|split; [|split; [|split]]].
  3: { apply nms_keep_sublist. }
  3: { intros i j a b Hij Ha Hb.
       pose proof (nms_keep_apart iou_thr sorted [] j b Hb) as Hap.
       cbn [app] in Hap. unfold suppressed in Hap.
       destruct (suppresses iou_thr a b) eqn:E; [|reflexivity].
       rewrite <- Hap. symmetry. apply existsb_exists. exists a. split; [|exact E].
       apply list_elem_of_In. apply (list_elem_of_lookup_2 _ i).
       rewrite lookup_take_lt by exact Hij. exact Ha. }
  3: { intros e He Hne.
       destruct (nms_keep_covers iou_thr sorted [] e He) as [H|H]; [contradiction|].
       cbn [app] in H. unfold suppressed in H. apply existsb_exists in H. exact H. }
  - intros Hmax. apply (nms_inplace_in_bounds iou_thr qsort_conf dets count Hq Hc Hmax).
  - intros Hmax.
    rewrite (for_range_stuck (fun _ (st : list (scored float) * list bool * Z) =>
                                st = (sorted ++ drop (Z.to_nat count) dets,
                                      replicate (Z.to_nat MAX_DETS) false, 0))
               _ 0 count 0); [reflexivity|unfold MAX_DETS in *; lia|reflexivity|lia|].
    intros t ->.
    assert (exists d, sorted !! 0%nat = Some d) as (d & Hd).
    { apply lookup_lt_is_Some_2. unfold MAX_DETS in *. lia. }
    unfold buf_load at 1. cbn [Z.leb Z.compare Z.to_nat].
    rewrite lookup_replicate_2 by (unfold MAX_DETS; lia).
    unfold buf_load at 1. cbn [Z.leb Z.compare Z.to_nat].
    rewrite (lookup_app_l_Some _ _ _ _ Hd).
    rewrite buf_store_Some by (rewrite length_app; unfold MAX_DETS in *; lia).
    rewrite nms_mark_stuck; [reflexivity|unfold MAX_DETS; lia|exact Hmax|].
    rewrite length_replicate. unfold MAX_DETS. lia.
Qed.

Lemma nms_inplace_is_greedy_suppression_witness :
  let dets := [(mk_box 0 0 9 9 0, 9); (mk_box 0 0 9 9 0, 5); (mk_box 20 0 29 9 0, 4)] in
  exists dets',
    nms_inplace (F := int_floats) (fun l => l) dets 3 0
      = Some (dets', Z.of_nat (length (greedy_nms (F := int_floats) 0 dets))).
Proof.
  cbv zeta.
  destruct (nms_inplace_is_greedy_suppression (F := int_floats) (fun l => l)
              [(mk_box 0 0 9 9 0, 9); (mk_box 0 0 9 9 0, 5); (mk_box 20 0 29 9 0, 4)] 3 0)
    as (Hin & _); [reflexivity|simpl; lia|].
  destruct Hin as (dets' & Hrun & _); [unfold MAX_DETS; lia|].
  exists dets'. exact Hrun.
Defined.

(** ** [run_model_detect] *)

Section DetectFacts.

Context {float : Type} {F : Float32 float}.

Lemma decode_outputs_in_bounds (m : yolo_model) (outs : list (output_tensor float))
    src_w src_h conf_thr : forall out : list (scored float),
  0 <= class_count m -> Forall (tensor_fits m) outs ->
  Z.of_nat (length out) <= MAX_DETS ->
  exists news,
    decode_outputs m outs src_w src_h conf_thr out = Some (out ++ news) /\
    Z.of_nat (length (out ++ news)) <= MAX_DETS /\
    Forall (decoded_box (class_count m)) news.
Proof.
  induction outs as [|a outs IH]; intros out Hc Hfit Hout.
  - exists []. rewrite app_nil_r. simpl. auto.
  - apply Forall_cons in Hfit as (Ha & Hfit). cbn [decode_outputs].
    assert (exists news,
              (if (n_dims a =? 3) && (dim2 a >=? 6)
               then decode_rows_output (tensor_buf a) (dim1 a) (dim2 a) (class_count m)
                      conf_thr src_w src_h (in_w m) (in_h m) out
               else Some out) = Some (out ++ news) /\
              Z.of_nat (length (out ++ news)) <= MAX_DETS /\
              Forall (decoded_box (class_count m)) news) as (news & -> & Hm & Hall).
    { destruct (Z.eqb_spec (n_dims a) 3) as [E3|]; simpl.
      2: { exists []. rewrite app_nil_r. auto. }
      rewrite Z.geb_leb. destruct (Z.leb_spec 6 (dim2 a)) as [H6|].
      2: { exists []. rewrite app_nil_r. auto. }
      destruct (Ha E3 H6) as (Hlen & Hcls). unfold decode_rows_output.
      destruct (decode_rows_from_in_bounds (tensor_buf a) (dim2 a) (class_count m) conf_thr
                  src_w src_h (in_w m) (in_h m) (Z.to_nat (dim1 a)) 0 out)
        as (news & Hrun & _ & Hm & Hall); [lia|lia|lia|lia| |lia|].
      { destruct (Z_lt_ge_dec (dim1 a) 0); [|lia].
        replace (Z.to_nat (dim1 a)) with O by lia. lia. }
      exists news. auto. }
    destruct (IH (out ++ news) Hc Hfit Hm) as (news' & -> & Hm' & Hall').
    exists (news ++ news'). rewrite app_assoc. split; [reflexivity|].
    split; [exact Hm'|]. apply Forall_app. auto.
Qed.

End DetectFacts.

(** X29. [run_model_detect] stays inside its arrays and returns
    greedy suppression of what it decoded.  When every output tensor
    that it decodes has its rows and the classes of the model fit
    them, the decoding returns at most [MAX_DETS] boxes, so that the
    cut to [MAX_DETS] changes nothing and [nms_inplace] stays inside
    its marks; the boxes returned are the decoded boxes, sorted,
    without those suppressed at 0.45, each with ordered corners at or
    after the origin and a class of the model.  ([qsort] is taken to
    permute the boxes.) *)
Theorem run_model_detect_keeps_its_bounds
    {float : Type} {F : Float32 float}
    (qsort_conf : list (scored float) -> list (scored float))
    (m : yolo_model) (outs : list (output_tensor float)) (src_w src_h : Z)
    (conf_thr : float) :
  (forall l, qsort_conf l ≡ₚ l) ->
  0 <= class_count m -> Forall (tensor_fits m) outs ->
  exists decoded,
    decode_outputs m outs src_w src_h conf_thr [] = Some decoded /\
    Z.of_nat (length decoded) <= MAX_DETS /\
    Forall (decoded_box (class_count m)) decoded /\
    let kept := greedy_nms (f_lit 45 100) (qsort_conf decoded) in
    run_model_detect qsort_conf m outs src_w src_h conf_thr = Some kept /\
    sublist kept (qsort_conf decoded) /\
    Z.of_nat (length kept) <= MAX_DETS /\
    Forall (decoded_box (class_count m)) kept.
Proof.
  intros Hq Hc Hfit.
  destruct (decode_outputs_in_bounds m outs src_w src_h conf_thr [] Hc Hfit)
    as (decoded & Hrun & Hm & Hall); [simpl; unfold MAX_DETS; lia|].
  cbn [app] in *. exists decoded. split; [exact Hrun|]. split; [exact Hm|].
  split; [exact Hall|]. cbv zeta.
  assert (sublist (greedy_nms (f_lit 45 100) (qsort_conf decoded)) (qsort_conf decoded))
    as Hsub by apply nms_keep_sublist.
  assert (Z.of_nat (length (greedy_nms (f_lit 45 100) (qsort_conf decoded))) <= MAX_DETS)
    as Hlen.
  { apply sublist_length in Hsub. rewrite (Permutation_length (Hq decoded)) in Hsub. lia. }
  split; [|split; [exact Hsub|split; [exact Hlen|]]].
  - unfold run_model_detect. rewrite Hrun.
    destruct (Z.gtb_spec (Z.of_nat (length decoded)) MAX_DETS); [lia|].
    destruct (nms_inplace_in_bounds (f_lit 45 100) qsort_conf decoded
                (Z.of_nat (length decoded))) as (dets' & Hnms & _ & Htake & _).
    + intros l. apply Permutation_length, Hq.
    + lia.
    + exact Hm.
    + rewrite Nat2Z.id, firstn_all in *. rewrite Hnms. cbn [fst snd].
      rewrite Nat2Z.id. rewrite Htake. reflexivity.
  - apply Forall_forall. intros d Hd.
    apply (elem_of_sublist _ _ _ Hd) in Hsub. rewrite (Hq decoded) in Hsub.
    rewrite Forall_forall in Hall. apply Hall. exact Hsub.
Qed.

Lemma run_model_detect_keeps_its_bounds_witness :
  let m := mk_model 640 640 2 in
  let outs := [mk_tensor 3 1 7 [10; 10; 4; 4; 9; 7; 8]; mk_tensor 2 0 0 []] in
  exists kept,
    run_model_detect (F := int_floats) (fun l => l) m outs 1280 720 0 = Some kept /\
    Z.of_nat (length kept) <= MAX_DETS.
Proof.
  cbv zeta.
  destruct (run_model_detect_keeps_its_bounds (F := int_floats) (fun l => l)
              (mk_model 640 640 2)
              [mk_tensor 3 1 7 [10; 10; 4; 4; 9; 7; 8]; mk_tensor 2 0 0 []] 1280 720 0)
    as (decoded & _ & _ & _ & Hrun & _ & Hlen & _).
  - intros l. reflexivity.
  - simpl. lia.
  - apply Forall_cons. split; [unfold tensor_fits; simpl; lia|].
    apply Forall_cons. split; [unfold tensor_fits; simpl; lia|]. constructor.
  - eexists. split; [exact Hrun|exact Hlen].
Defined.

(** ** [classify_plate_color_rgb] *)

Section ClassifyFacts.

Context {float : Type} {F : Float32 float}.

Lemma count_row_in_bounds (rgb : list Z) (w h x1 x2 y : Z) (st : Z * Z * Z) :
  0 <= x1 -> x2 < w -> 0 <= y < h -> w * h * 3 <= Z.of_nat (length rgb) ->
  exists st',
    for_range x1 (x2 + 1)
      (fun x (st : Z * Z * Z) =>
         let '(total, blue_cnt, green_cnt) := st in
         let p := (y * w + x) * 3 in
         let? p0 := arr_load rgb p in
         let? p1 := arr_load rgb (p + 1) in
         let? p2 := arr_load rgb (p + 2) in
         let '(blue, green) := pixel_vote p0 p1 p2 in
         Some (total + 1,
               if blue then blue_cnt + 1 else blue_cnt,
               if blue then green_cnt else if green then green_cnt + 1 else green_cnt))
      st = Some st' /\
    fst (fst st') = fst (fst st) + Z.max 0 (x2 - x1 + 1) /\
    snd (fst st) <= snd (fst st') /\ snd st <= snd st' /\
    snd (fst st') + snd st' - (snd (fst st) + snd st) <= Z.max 0 (x2 - x1 + 1).
Proof.
  intros Hx1 Hx2 Hy Hlen.
  destruct (Z_lt_ge_dec (x2 + 1) x1) as [Hempty|Hne].
  { rewrite for_range_empty by lia. exists st. split; [reflexivity|]. lia. }
  destruct (for_range_inv
              (fun x (s : Z * Z * Z) =>
                 fst (fst s) = fst (fst st) + (x - x1) /\
                 snd (fst st) <= snd (fst s) /\ snd st <= snd s /\
                 snd (fst s) + snd s - (snd (fst st) + snd st) <= x - x1)
              (fun x (st : Z * Z * Z) =>
                 let '(total, blue_cnt, green_cnt) := st in
                 let p := (y * w + x) * 3 in
                 let? p0 := arr_load rgb p in
                 let? p1 := arr_load rgb (p + 1) in
                 let? p2 := arr_load rgb (p + 2) in
                 let '(blue, green) := pixel_vote p0 p1 p2 in
                 Some (total + 1,
                       if blue then blue_cnt + 1 else blue_cnt,
                       if blue then green_cnt
                       else if green then green_cnt + 1 else green_cnt))
              x1 (x2 + 1) st) as (st' & Hrun & Hinv).
  - lia.
  - lia.
  - intros x [[t b] g] Hx (Ht & Hb & Hg & Hsum). cbn [fst snd] in *.
    pose proof (coord_in_image w h x y ltac:(lia) Hy) as Hin.
    cbv zeta.
    destruct (arr_load_Some rgb ((y * w + x) * 3)) as (p0 & ->); [lia|].
    destruct (arr_load_Some rgb ((y * w + x) * 3 + 1)) as (p1 & ->); [lia|].
    destruct (arr_load_Some rgb ((y * w + x) * 3 + 2)) as (p2 & ->); [lia|].
    destruct (pixel_vote p0 p1 p2) as [blue green].
    eexists. split; [reflexivity|]. cbn [fst snd].
    destruct blue, green; lia.
  - exists st'. split; [exact Hrun|]. lia.
Qed.

Lemma count_votes_in_bounds (rgb : list Z) (w h x1 y1 x2 y2 : Z) :
  0 <= x1 -> x2 < w -> 0 <= y1 -> y2 < h -> w * h * 3 <= Z.of_nat (length rgb) ->
  exists total blue_cnt green_cnt,
    count_votes rgb w x1 y1 x2 y2 = Some (total, blue_cnt, green_cnt) /\
    total = window_area x1 y1 x2 y2 /\
    0 <= blue_cnt /\ 0 <= green_cnt /\ blue_cnt + green_cnt <= total.
Proof.
  intros Hx1 Hx2 Hy1 Hy2 Hlen. unfold count_votes, window_area.
  destruct (Z_lt_ge_dec (y2 + 1) y1) as [Hempty|Hne].
  { rewrite for_range_empty by lia. exists 0, 0, 0. split; [reflexivity|]. nia. }
  set (row := Z.max 0 (x2 - x1 + 1)).
  destruct (for_range_inv
              (fun y (s : Z * Z * Z) =>
                 fst (fst s) = (y - y1) * row /\
                 0 <= snd (fst s) /\ 0 <= snd s /\
                 snd (fst s) + snd s <= (y - y1) * row)
              (fun y (st : Z * Z * Z) =>
                 for_range x1 (x2 + 1)
                   (fun x (st : Z * Z * Z) =>
                      let '(total, blue_cnt, green_cnt) := st in
                      let p := (y * w + x) * 3 in
                      let? p0 := arr_load rgb p in
                      let? p1 := arr_load rgb (p + 1) in
                      let? p2 := arr_load rgb (p + 2) in
                      let '(blue, green) := pixel_vote p0 p1 p2 in
                      Some (total + 1,
                            if blue then blue_cnt + 1 else blue_cnt,
                            if blue then green_cnt
                            else if green then green_cnt + 1 else green_cnt))
                   st)
              y1 (y2 + 1) (0, 0, 0)) as ([[t b] g] & Hrun & Ht & Hb & Hg & Hsum).
  - lia.
  - cbn [fst snd]. lia.
  - intros y s Hy (Ht & Hb & Hg & Hsum).
    destruct (count_row_in_bounds rgb w h x1 x2 y s) as (s' & -> & Ht' & Hb' & Hg' & Hs');
      [lia|lia|lia|exact Hlen|].
    exists s'. split; [reflexivity|]. fold row in Ht', Hs'. lia.
  - cbn [fst snd] in *. exists t, b, g. split; [exact Hrun|].
    replace (Z.max 0 (y2 - y1 + 1)) with (y2 + 1 - y1) by lia.
    split; [lia|]. split; [lia|]. split; lia.
Qed.

Lemma plate_window_in_image w h (b : det_box) :
  let '(x1, y1, x2, y2) := plate_window w h b in
  0 <= x1 /\ 0 <= y1 /\ x2 < w /\ y2 < h /\
  box_x1 b + Z.quot (box_x2 b - box_x1 b) 6 <= x1 /\
  box_y1 b + Z.quot (box_y2 b - box_y1 b) 6 <= y1.
Proof.
  unfold plate_window. cbv zeta. rewrite !Z.geb_leb.
  repeat match goal with
         | |- context [if ?a <? ?b then _ else _] => destruct (Z.ltb_spec a b)
         | |- context [if ?a <=? ?b then _ else _] => destruct (Z.leb_spec a b)
         end; lia.
Qed.

End ClassifyFacts.

(** X30. [classify_plate_color_rgb] reads inside the frame, whatever
    the box.  On a frame of [w] by [h] pixels of three bytes it
    returns for every box, having looked at the pixels of its window
    only, which lies in the frame; when the window is empty the
    colour is unknown, as it is for a box that starts right of the
    frame or below it (the boxes that [clamp_box] leaves outside). *)
Theorem classify_reads_inside_the_frame
    {float : Type} {F : Float32 float} (rgb : list Z) (w h : Z) (b : det_box) :
  0 <= w -> 0 <= h -> w * h * 3 <= Z.of_nat (length rgb) ->
  exists colour,
    classify_plate_color_rgb rgb w h b = Some colour /\
    (let '(x1, y1, x2, y2) := plate_window w h b in
     0 <= x1 /\ 0 <= y1 /\ x2 < w /\ y2 < h /\
     exists total blue_cnt green_cnt,
       count_votes rgb w x1 y1 x2 y2 = Some (total, blue_cnt, green_cnt) /\
       total = window_area x1 y1 x2 y2 /\
       0 <= blue_cnt /\ 0 <= green_cnt /\ blue_cnt + green_cnt <= total /\
       (total = 0 -> colour = PLATE_COLOR_UNKNOWN)) /\
    (w <= box_x1 b -> box_x1 b <= box_x2 b -> colour = PLATE_COLOR_UNKNOWN) /\
    (h <= box_y1 b -> box_y1 b <= box_y2 b -> colour = PLATE_COLOR_UNKNOWN).
Proof.
  intros Hw Hh Hlen. unfold classify_plate_color_rgb.
  pose proof (plate_window_in_image w h b) as Hwin.
  destruct (plate_window w h b) as [[[x1 y1] x2] y2].
  destruct Hwin as (Hx1 & Hy1 & Hx2 & Hy2 & Hbx & Hby).
  destruct (count_votes_in_bounds rgb w h x1 y1 x2 y2 Hx1 Hx2 Hy1 Hy2 Hlen)
    as (total & blue & green & Hrun & Htotal & Hb & Hg & Hsum).
  rewrite Hrun.
  match goal with
  | |- exists colour, ?run = Some colour /\ _ =>
      destruct run as [colour|] eqn:Ecol
  end.
  2: { revert Ecol. cbv zeta.
       repeat match goal with
              | |- context [if ?c then _ else _] => destruct c
              end; discriminate. }
  assert (total = 0 -> colour = PLATE_COLOR_UNKNOWN) as Hzero.
  { intros E. rewrite E in Ecol. simpl in Ecol. congruence. }
  exists colour. split; [reflexivity|]. split.
  - split; [exact Hx1|]. split; [exact Hy1|]. split; [exact Hx2|]. split; [exact Hy2|].
    exists total, blue, green. auto 10.
  - unfold window_area in Htotal. split.
    + intros Hout Hord. apply Hzero.
      assert (0 <= Z.quot (box_x2 b - box_x1 b) 6) by (apply Z.quot_pos; lia).
      rewrite Htotal. replace (Z.max 0 (x2 - x1 + 1)) with 0 by lia. reflexivity.
    + intros Hout Hord. apply Hzero.
      assert (0 <= Z.quot (box_y2 b - box_y1 b) 6) by (apply Z.quot_pos; lia).
      rewrite Htotal. replace (Z.max 0 (y2 - y1 + 1)) with 0 by lia. lia.
Qed.

Lemma classify_reads_inside_the_frame_witness :
  exists colour,
    classify_plate_color_rgb (F := int_floats) (replicate 48 200) 4 4 (mk_box 4 0 4 3 0)
      = Some colour /\
    colour = PLATE_COLOR_UNKNOWN.
Proof.
  destruct (classify_reads_inside_the_frame (F := int_floats) (replicate 48 200) 4 4
              (mk_box 4 0 4 3 0)) as (colour & Hrun & _ & Hright & _);
    [lia|lia|simpl; lia|].
  exists colour. split; [exact Hrun|]. apply Hright; simpl; lia.
Defined.
